(** * GraphClusteringByDevice: a shallow embedding and its properties

    The development follows
    [compiler/lib/Transforms/GraphClusteringByDevice.cpp].  The IR is a
    function with a single block; operations are addressed by pointer
    ([OpPtr]), clusters by the key of their record in [op2cluster]. *)

From stdpp Require Import gmap strings list fin_maps.
From Stdlib Require Import ZArith Lia.

Set Warnings "-register-all,-clear-no-such-hyp".

(** ** The IR *)

(** An [Operation *]. *)
Abbreviation OpPtr := nat.

(** An SSA value: a result of an operation, or a block argument, which has
    no defining operation. *)
Inductive Value :=
| OpResult (owner : OpPtr) (idx : nat)
| BlockArgument (argNo : nat).

#[global] Instance Value_eq_dec : EqDecision Value.
Proof. solve_decision. Defined.

(** An operation: its address, its operands, the number of its results, its
    string attributes and its regions (a list of blocks, each a list of
    operations). *)
Inductive Operation := mkOperation {
  opSelf : OpPtr;
  opName : string;
  opOperands : list Value;
  opNumResults : nat;
  opAttrs : list (string * string);
  opRegions : list (list (list Operation));
}.

(** A function: its symbol, the operations of its entry block without the
    terminator, and the terminator. *)
Record FuncOp := mkFuncOp {
  symName : string;
  body : list Operation;
  retOp : Operation;
}.

Definition getDefiningOp (v : Value) : option OpPtr :=
  match v with
  | OpResult p _ => Some p
  | BlockArgument _ => None
  end.

(** [funcOp.front()]: the whole block, terminator included. *)
Definition front (f : FuncOp) : list Operation := body f ++ [retOp f].

(** Dereferencing a pointer to an operation of the block. *)
Definition deref (f : FuncOp) (p : OpPtr) : option Operation :=
  List.find (λ op, bool_decide (opSelf op = p)) (front f).

Definition getAttr (op : Operation) (name : string) : option string :=
  snd <$> List.find (λ kv, bool_decide (kv.1 = name)) (opAttrs op).

Definition DEVICE_ATTR_HOST : string := "host".

(** A use of a value: the operation that owns the operand, the chain of
    operations that enclose the owner (innermost first), the operand number
    and the value. *)
Record OpOperand := mkOpOperand {
  useOwner : Operation;
  useAncestors : list OpPtr;
  useNumber : nat;
  useValue : Value;
}.

(** Every operand of [op] and of the operations nested in its regions. *)
Fixpoint allOperands (anc : list OpPtr) (op : Operation) : list OpOperand :=
  imap (λ i v, mkOpOperand op anc i v) (opOperands op) ++
  flat_map (flat_map (flat_map (allOperands (opSelf op :: anc)))) (opRegions op).

Definition isResultOf (p : OpPtr) (v : Value) : bool :=
  match v with
  | OpResult q _ => bool_decide (q = p)
  | BlockArgument _ => false
  end.

(** [op->getUses()]: the uses of all results of [op].  The use list of MLIR
    is ordered by the history of the IR; here uses are listed in block
    order. *)
Definition getUses (f : FuncOp) (p : OpPtr) : list OpOperand :=
  List.filter (λ u, isResultOf p (useValue u)) (flat_map (allOperands []) (front f)).

(** [value.getUses()] for a single value. *)
Definition getValueUses (f : FuncOp) (v : Value) : list OpOperand :=
  List.filter (λ u, bool_decide (useValue u = v)) (flat_map (allOperands []) (front f)).

(** [op->isAncestor(owner)]: reflexive. *)
Definition isAncestor (p : OpPtr) (u : OpOperand) : bool :=
  bool_decide (p = opSelf (useOwner u)) || bool_decide (p ∈ useAncestors u).

(** ** Host marking *)

(** [isHostOp]: an operation nested in a region is host, or the operation
    carries the host device attribute. *)
Fixpoint isHostOp (attrName : string) (op : Operation) : bool :=
  existsb (existsb (existsb (isHostOp attrName))) (opRegions op)
  || match getAttr op attrName with
     | Some s => bool_decide (s = DEVICE_ATTR_HOST)
     | None => false
     end.

(** [insertOpsRecursively]: the recursion on defining operations stops at
    operations already in the set.  [fuel] bounds the depth of the
    recursion; [None] means the bound was too small. *)
Fixpoint insertOpsRecursively (fuel : nat) (f : FuncOp) (p : OpPtr)
    (opSet : gset OpPtr) : option (gset OpPtr) :=
  if decide (p ∈ opSet) then Some opSet
  else match deref f p with
       | None => Some ({[p]} ∪ opSet)
       | Some op =>
           match fuel with
           | O => None
           | S n =>
               foldl (λ acc v,
                        match acc, getDefiningOp v with
                        | Some s, Some d => insertOpsRecursively n f d s
                        | _, _ => acc
                        end)
                     (Some ({[p]} ∪ opSet)) (opOperands op)
           end
       end.

(** The set [hostOps] of the fallback strategy. *)
Definition hostOpsFrom (fuel : nat) (f : FuncOp) (attrName : string)
    (l : list Operation) : option (gset OpPtr) :=
  foldl (λ acc op,
           match acc with
           | Some s => if isHostOp attrName op
                       then insertOpsRecursively fuel f (opSelf op) s
                       else Some s
           | None => None
           end) (Some ∅) l.

Definition hostOps (f : FuncOp) (attrName : string) : option (gset OpPtr) :=
  hostOpsFrom (length (front f)) f attrName (body f).

(** ** Clusters *)

(** [llvm::SetVector]: insertion-ordered, without duplicates. *)
Definition sv_insert (x : OpPtr) (l : list OpPtr) : list OpPtr :=
  if decide (x ∈ l) then l else l ++ [x].

Definition sv_insert_range (l xs : list OpPtr) : list OpPtr :=
  foldl (λ acc x, sv_insert x acc) l xs.

Definition sv_remove (x : OpPtr) (l : list OpPtr) : list OpPtr :=
  List.filter (λ y, bool_decide (y ≠ x)) l.

(** [ActiveDeviceCluster].  A pointer to a cluster is the key of its record
    in [op2cluster]; [None] is the null pointer. *)
Record ActiveDeviceCluster := mkCluster {
  operations : list OpPtr;
  mergedInto : option OpPtr;
}.

Abbreviation OpClusterMap := (gmap OpPtr ActiveDeviceCluster).

Definition setMergedInto (to : option OpPtr) (c : ActiveDeviceCluster) :=
  mkCluster (operations c) to.

Definition setOperations (l : list OpPtr) (c : ActiveDeviceCluster) :=
  mkCluster l (mergedInto c).

(** [getRoot], with path compression.  [fuel] bounds the number of links
    followed. *)
Fixpoint getRoot_fuel (fuel : nat) (m : OpClusterMap) (k : OpPtr)
    : option (OpPtr * OpClusterMap) :=
  c ← m !! k;
  match mergedInto c with
  | None => Some (k, m)
  | Some p =>
      match fuel with
      | O => None
      | S n =>
          '(r, m') ← getRoot_fuel n m p;
          Some (r, alter (setMergedInto (Some r)) k m')
      end
  end.

Definition getRoot (m : OpClusterMap) (k : OpPtr) : option (OpPtr * OpClusterMap) :=
  getRoot_fuel (size m) m k.

(** The state of a clustering run: the function, whose block is reordered by
    the merges, and the cluster records. *)
Record State := mkState {
  ir : FuncOp;
  op2cluster : OpClusterMap;
}.

(** Position of an operation in its block. *)
Definition position (l : list Operation) (p : OpPtr) : option nat :=
  fst <$> list_find (λ op, opSelf op = p) l.

(** [Operation::isBeforeInBlock]; both operations must be in the block. *)
Definition opIsBeforeInBlock (f : FuncOp) (a b : OpPtr) : option bool :=
  i ← position (front f) a;
  j ← position (front f) b;
  Some (bool_decide (i < j)).

(** [ActiveDeviceCluster::isBeforeInBlock]. *)
Definition isBeforeInBlock (f : FuncOp) (this other : ActiveDeviceCluster)
    : option bool :=
  a ← last (operations this);
  b ← head (operations other);
  opIsBeforeInBlock f a b.

(** The operations from the one after [a] up to, not including, [b], as the
    [OpList] that the range constructor builds. *)
Definition opsBetween (f : FuncOp) (a b : OpPtr) : option (list OpPtr) :=
  i ← position (front f) a;
  j ← position (front f) b;
  Some (sv_insert_range [] (opSelf <$> take (j - S i) (drop (S i) (front f)))).

Fixpoint anyDefIn (op : Operation) (ops : list OpPtr) : bool :=
  existsb (existsb (existsb (λ innerOp, anyDefIn innerOp ops))) (opRegions op)
  || existsb (λ operand,
                match getDefiningOp operand with
                | Some d => bool_decide (d ∈ ops)
                | None => false
                end) (opOperands op).

Definition anyUseIn (f : FuncOp) (p : OpPtr) (ops : list OpPtr) : bool :=
  existsb (λ use,
             existsb (λ op, isAncestor op use) ops
             || bool_decide (opSelf (useOwner use) ∈ ops))
          (getUses f p).

(** The inner loop of [computeMoveUpSet] and [computeMoveDownSet]: every
    operation of the cluster is asserted to be in [vec], asserted to be new
    in [remain], and removed from the move set.  A failed assertion is
    [None]. *)
Definition pullCluster (vec : list OpPtr)
    (acc : option (list OpPtr * list OpPtr)) (clusterOp : OpPtr)
    : option (list OpPtr * list OpPtr) :=
  '(remain, move) ← acc;
  if decide (clusterOp ∈ vec) then
    if decide (clusterOp ∈ remain) then None
    else Some (remain ++ [clusterOp], sv_remove clusterOp move)
  else None.

Definition moveUpStep (f : FuncOp) (target vec : list OpPtr)
    (acc : option (list OpPtr * list OpPtr * OpClusterMap)) (p : OpPtr)
    : option (list OpPtr * list OpPtr * OpClusterMap) :=
  '(remain, moveUp, m) ← acc;
  if decide (p ∈ remain) then Some (remain, moveUp, m)
  else
    op ← deref f p;
    if anyDefIn op target || anyDefIn op remain then
      match m !! p with
      | None => Some (sv_insert p remain, moveUp, m)
      | Some _ =>
          '(r, m') ← getRoot m p;
          cluster ← m' !! r;
          '(remain', moveUp') ←
            foldl (pullCluster vec) (Some (remain, moveUp)) (operations cluster);
          Some (remain', moveUp', m')
      end
    else Some (remain, sv_insert p moveUp, m).

(** [computeMoveUpSet]: returns the remaining operations, the move-up set
    and the cluster records. *)
Definition computeMoveUpSet (f : FuncOp) (target src moveUp : list OpPtr)
    (m : OpClusterMap) : option (list OpPtr * list OpPtr * OpClusterMap) :=
  foldl (moveUpStep f target src) (Some ([], moveUp, m)) src.

Definition moveDownStep (f : FuncOp) (target vec : list OpPtr)
    (acc : option (list OpPtr * list OpPtr * OpClusterMap)) (p : OpPtr)
    : option (list OpPtr * list OpPtr * OpClusterMap) :=
  '(remain, moveDown, m) ← acc;
  if decide (p ∈ remain) then Some (remain, moveDown, m)
  else
    if anyUseIn f p target || anyUseIn f p remain then
      match m !! p with
      | None => Some (sv_insert p remain, moveDown, m)
      | Some _ =>
          '(r, m') ← getRoot m p;
          cluster ← m' !! r;
          '(remain', moveDown') ←
            foldl (pullCluster vec) (Some (remain, moveDown))
                  (reverse (operations cluster));
          Some (remain', moveDown', m')
      end
    else Some (remain, sv_insert p moveDown, m).

(** [computeMoveDownSet]: the source is walked in reverse, and the remaining
    operations are put back in forward order at the end. *)
Definition computeMoveDownSet (f : FuncOp) (target src moveDown : list OpPtr)
    (m : OpClusterMap) : option (list OpPtr * list OpPtr * OpClusterMap) :=
  '(remain, moveDown', m') ←
    foldl (moveDownStep f target src) (Some ([], moveDown, m)) (reverse src);
  Some (reverse remain, moveDown', m').

Definition setBody (f : FuncOp) (l : list Operation) : FuncOp :=
  mkFuncOp (symName f) l (retOp f).

(** [op->moveBefore(existing)] and [op->moveAfter(existing)] inside the
    block. *)
Definition moveBefore (existing : OpPtr) (acc : option FuncOp) (p : OpPtr)
    : option FuncOp :=
  f ← acc;
  op ← deref f p;
  let l := List.filter (λ o, bool_decide (opSelf o ≠ p)) (body f) in
  i ← position l existing;
  Some (setBody f (take i l ++ op :: drop i l)).

Definition moveAfter (existing : OpPtr) (acc : option FuncOp) (p : OpPtr)
    : option FuncOp :=
  f ← acc;
  op ← deref f p;
  let l := List.filter (λ o, bool_decide (opSelf o ≠ p)) (body f) in
  i ← position l existing;
  Some (setBody f (take (S i) l ++ op :: drop (S i) l)).

(** The first half of [tryMergeInto], up to the test of [toMove]: the
    operations between the two clusters, the two move sets, what is left of
    [toMove], and the cluster records after the path compressions.  [upper]
    is the cluster that comes first in the block and [lower] the other one;
    when [from] is the upper one the move-up set is computed first, otherwise
    the move-down set. *)
Record MergePlan := mkMergePlan {
  between : list OpPtr;
  moveUp : list OpPtr;
  moveDown : list OpPtr;
  residual : list OpPtr;
  planClusters : OpClusterMap;
}.

Definition planMerge (fromIsUpper : bool) (f : FuncOp) (upper lower : list OpPtr)
    (m : OpClusterMap) : option MergePlan :=
  upperBack ← last upper;
  lowerFront ← head lower;
  toMove ← opsBetween f upperBack lowerFront;
  if fromIsUpper then
    '(toMove1, moveUp, m1) ← computeMoveUpSet f upper toMove [] m;
    '(toMove2, moveDown, m2) ← computeMoveDownSet f lower toMove1 [] m1;
    Some (mkMergePlan toMove moveUp moveDown toMove2 m2)
  else
    '(toMove1, moveDown, m1) ← computeMoveDownSet f lower toMove [] m;
    '(toMove2, moveUp, m2) ← computeMoveUpSet f upper toMove1 [] m1;
    Some (mkMergePlan toMove moveUp moveDown toMove2 m2).

(** The second half: the moves in the block, the splice of the two operation
    lists into [to], and the link from [from] to [to]. *)
Definition commitMerge (from to : OpPtr) (f : FuncOp) (upper lower : list OpPtr)
    (plan : MergePlan) : option State :=
  upperFront ← head upper;
  f1 ← foldl (moveBefore upperFront) (Some f) (moveUp plan);
  lowerBack ← last lower;
  f2 ← foldl (moveAfter lowerBack) (Some f1) (moveDown plan);
  let m3 := alter (setOperations (sv_insert_range upper lower)) to
              (alter (setOperations []) from (planClusters plan)) in
  Some (mkState f2 (alter (setMergedInto (Some to)) from m3)).

(** [ActiveDeviceCluster::tryMergeInto].  The operation lists of [from] and
    [to] are read once: the path compressions of the first half do not
    change them. *)
Definition tryMergeInto (from to : OpPtr) (st : State) : option (bool * State) :=
  let f := ir st in
  let m := op2cluster st in
  cf ← m !! from;
  ct ← m !! to;
  fromIsUpper ← isBeforeInBlock f cf ct;
  '(upper, lower) ←
    (if (fromIsUpper : bool) then Some (operations cf, operations ct)
     else
       toIsUpper ← isBeforeInBlock f ct cf;
       if (toIsUpper : bool) then Some (operations ct, operations cf) else None);
  plan ← planMerge fromIsUpper f upper lower m;
  if negb (bool_decide (residual plan = []))
  then Some (false, mkState f (planClusters plan))
  else st' ← commitMerge from to f upper lower plan; Some (true, st').

(** [ActiveDeviceCluster::tryMerge]: the merged cluster, or the null
    pointer. *)
Definition tryMerge (lhs rhs : option OpPtr) (st : State)
    : option (option OpPtr * State) :=
  match lhs, rhs with
  | Some l, Some r =>
      if decide (l = r) then Some (None, st)
      else
        cl ← op2cluster st !! l;
        match mergedInto cl with
        | Some _ => Some (None, st)
        | None =>
            cr ← op2cluster st !! r;
            match mergedInto cr with
            | Some _ => Some (None, st)
            | None =>
                '(ok, st1) ← tryMergeInto l r st;
                if (ok : bool) then Some (Some r, st1)
                else
                  '(ok', st2) ← tryMergeInto r l st1;
                  if (ok' : bool) then Some (Some l, st2) else Some (None, st2)
            end
        end
  | _, _ => Some (None, st)
  end.

(** ** Helpers of the surrounding code base

    [isMhloConstantLike], [isSplatMhloConstantLike], [replicateDefiningOp],
    [getInputsOfCluster], [getOutputsOfCluster] and [getHostAnchorName] are
    declared in headers outside this file; the iteration order of a
    [DenseMap] keyed by pointers is not fixed by the source either.  They are
    taken as an interface. *)
Class Helpers := {
  isMhloConstantLike : Operation → bool;
  isSplatMhloConstantLike : Operation → bool;
  replicateDefiningOp : (Operation → bool) → FuncOp → FuncOp;
  getInputsOfCluster : FuncOp → list OpPtr → list Value;
  getOutputsOfCluster : FuncOp → list OpPtr → option (list (Value * Z)) → list Value;
  getHostAnchorName : string;
  denseMapOrder : list OpPtr → list OpPtr;
}.

(** [ValidateSubGraphFn]; [None] is the null function. *)
Abbreviation ValidateSubGraphFn := (option (list OpPtr → bool)).

Record FunctionMetadata := mkFunctionMetadata {
  anchorName : string;
  deviceAttr : string;
  originalName : string;
  inputs : list Value;
  results : list Value;
  ops : list OpPtr;
}.

(** The tally [retStats] of the operands of the terminator. *)
Definition retStats (ret : Operation) : list (Value * Z) :=
  foldl (λ stats operand,
           if existsb (λ kv, bool_decide (kv.1 = operand)) stats
           then List.map (λ kv, if bool_decide (kv.1 = operand)
                                then (kv.1, (kv.2 + 1)%Z) else kv) stats
           else stats ++ [(operand, 1%Z)])
        [] (opOperands ret).

Definition rejects (validateSubGraphFn : ValidateSubGraphFn) (l : list OpPtr) : bool :=
  match validateSubGraphFn with
  | Some validate => negb (validate l)
  | None => false
  end.

Section Strategies.
Context {helpers : Helpers}.

Definition mkMetadata (f : FuncOp) (anchor device : string) (dupOutputs : bool)
    (l : list OpPtr) : FunctionMetadata :=
  mkFunctionMetadata anchor device (symName f)
    (getInputsOfCluster f l)
    (getOutputsOfCluster f l (if dupOutputs then Some (retStats (retOp f)) else None))
    l.

(** *** Fallback *)

Definition getFunctionMetadatasFallback (f : FuncOp) (attrName deviceAttr
    deviceAnchorName : string) (dupOutputs : bool)
    (validateSubGraphFn : ValidateSubGraphFn)
    : option (option (list FunctionMetadata)) :=
  match hostOps f attrName with
  | None => None
  | Some hostSet =>
      let metadatas :=
        if bool_decide (0 < size hostSet) then
          [mkMetadata f getHostAnchorName DEVICE_ATTR_HOST dupOutputs
             (List.filter (λ p, bool_decide (p ∈ hostSet)) (opSelf <$> body f))]
        else [] in
      let deviceOps :=
        List.filter (λ p, negb (bool_decide (p ∈ hostSet))) (opSelf <$> body f) in
      if bool_decide (0 < length deviceOps) then
        if rejects validateSubGraphFn deviceOps then Some None
        else Some (Some (metadatas ++
                         [mkMetadata f deviceAnchorName deviceAttr dupOutputs
                            deviceOps]))
      else Some (Some metadatas)
  end.

(** *** The clustering helper *)

Definition try_emplace (k : OpPtr) (c : ActiveDeviceCluster) (m : OpClusterMap)
    : OpClusterMap :=
  match m !! k with
  | Some _ => m
  | None => <[k := c]> m
  end.

(** The constant-like operations that the constructor leaves out: result 0
    has one use and its user is host. *)
Definition onlyUsedByHost (f : FuncOp) (attrName : string) (op : Operation) : bool :=
  isMhloConstantLike op &&
  match getValueUses f (OpResult (opSelf op) 0) with
  | [use] => isHostOp attrName (useOwner use)
  | _ => false
  end.

(** The constructor of [DeviceClusteringAlgoBaseHelper]. *)
Definition initialClusters (f : FuncOp) (attrName : string) : OpClusterMap :=
  foldl (λ m op,
           if isHostOp attrName op then m
           else if onlyUsedByHost f attrName op then m
           else try_emplace (opSelf op) (mkCluster [opSelf op] None) m)
        ∅ (body f).

Definition initialState (f : FuncOp) (attrName : string) : State :=
  mkState f (initialClusters f attrName).

(** [getCluster], on a pointer that may be null. *)
Definition getCluster (p : option OpPtr) (m : OpClusterMap)
    : option (option OpPtr * OpClusterMap) :=
  match p with
  | None => Some (None, m)
  | Some p =>
      match m !! p with
      | None => Some (None, m)
      | Some _ => '(r, m') ← getRoot m p; Some (Some r, m')
      end
  end.

(** One iteration of the inner loops of [mergeDeviceClustersProgressively]:
    merge the cluster of [other] with the current cluster. *)
Definition mergeWith (acc : option (option OpPtr * State)) (other : option OpPtr)
    : option (option OpPtr * State) :=
  '(curCluster, st) ← acc;
  '(preCluster, m) ← getCluster other (op2cluster st);
  '(merged, st') ← tryMerge preCluster curCluster (mkState (ir st) m);
  Some (match merged with Some c => Some c | None => curCluster end, st').

Definition visit (neighbours : Operation → list (option OpPtr))
    (acc : option State) (op : Operation) : option State :=
  st ← acc;
  '(curCluster, m) ← getCluster (Some (opSelf op)) (op2cluster st);
  snd <$> foldl mergeWith (Some (curCluster, mkState (ir st) m)) (neighbours op).

(** [TopDownDeviceClustering::mergeDeviceClustersProgressively]. *)
Definition TopDown_mergeDeviceClustersProgressively (st : State) : option State :=
  foldl (visit (λ op, getDefiningOp <$> opOperands op)) (Some st) (body (ir st)).

(** [BottomUpDeviceClustering::mergeDeviceClustersProgressively]. *)
Definition BottomUp_mergeDeviceClustersProgressively (st : State) : option State :=
  let f0 := ir st in
  foldl (visit (λ op, (λ use, Some (opSelf (useOwner use))) <$> getUses f0 (opSelf op)))
        (Some st) (reverse (body f0)).

(** [CompareByNumOps]: more operations first; the sort is stable. *)
Definition numOps (m : OpClusterMap) (p : OpPtr) : nat :=
  match m !! p with
  | Some c => length (operations c)
  | None => 0
  end.

Fixpoint insertByNumOps (m : OpClusterMap) (x : OpPtr) (l : list OpPtr) : list OpPtr :=
  match l with
  | [] => [x]
  | y :: l' =>
      if bool_decide (numOps m x < numOps m y) then y :: insertByNumOps m x l'
      else x :: y :: l'
  end.

Definition sortByNumOps (m : OpClusterMap) (l : list OpPtr) : list OpPtr :=
  foldr (insertByNumOps m) [] l.

(** The inner loop of [populateCandidates]: try to merge every cluster of the
    work list with [cluster]; the ones that merge leave the list. *)
Fixpoint coalesce (workList : list OpPtr) (cluster : OpPtr) (st : State)
    : option (OpPtr * list OpPtr * State) :=
  match workList with
  | [] => Some (cluster, [], st)
  | it :: rest =>
      '(merged, st') ← tryMerge (Some it) (Some cluster) st;
      match merged with
      | Some c => coalesce rest c st'
      | None =>
          '(c, rest', st'') ← coalesce rest cluster st';
          Some (c, it :: rest', st'')
      end
  end.

Fixpoint populateLoop (fuel : nat) (workList candidates : list OpPtr) (st : State)
    : option (list OpPtr * State) :=
  match workList with
  | [] => Some (candidates, st)
  | cluster :: rest =>
      match fuel with
      | O => None
      | S n =>
          '(c, rest', st') ← coalesce rest cluster st;
          populateLoop n rest' (candidates ++ [c]) st'
      end
  end.

Definition isRootB (m : OpClusterMap) (p : OpPtr) : bool :=
  match m !! p with
  | Some c => bool_decide (mergedInto c = None)
  | None => false
  end.

(** [populateCandidates]. *)
Definition populateCandidates (st : State) : option (list OpPtr * State) :=
  let m := op2cluster st in
  let workList :=
    List.filter (isRootB m) (denseMapOrder (map_to_list m).*1) in
  let workList := sortByNumOps m workList in
  '(candidates, st') ← populateLoop (length workList) workList [] st;
  Some (sortByNumOps (op2cluster st') candidates, st').

(** The loop of [getFunctionMetadatas] over the operation lists of the
    candidates. *)
Fixpoint emitMetadatas (f : FuncOp) (deviceAttr deviceAnchorName : string)
    (dupOutputs enableMultiGraph : bool) (validateSubGraphFn : ValidateSubGraphFn)
    (clusters : list (list OpPtr)) : list FunctionMetadata :=
  match clusters with
  | [] => []
  | cluster :: rest =>
      let continue :=
        emitMetadatas f deviceAttr deviceAnchorName dupOutputs enableMultiGraph
          validateSubGraphFn rest in
      if bool_decide (cluster = []) then continue
      else if rejects validateSubGraphFn cluster then continue
      else mkMetadata f deviceAnchorName deviceAttr dupOutputs cluster
           :: (if enableMultiGraph then continue else [])
  end.

(** [DeviceClusteringAlgoBaseHelper::getFunctionMetadatas]. *)
Definition getFunctionMetadatas (st : State) (candidates : list OpPtr)
    (deviceAttr deviceAnchorName : string) (dupOutputs enableMultiGraph : bool)
    (validateSubGraphFn : ValidateSubGraphFn)
    : option (option (list FunctionMetadata)) :=
  clusters ← mapM (λ p, operations <$> op2cluster st !! p) candidates;
  match clusters with
  | [] => Some None
  | firstCluster :: _ =>
      if bool_decide (firstCluster = []) then Some None
      else Some (Some (emitMetadatas (ir st) deviceAttr deviceAnchorName dupOutputs
                         enableMultiGraph validateSubGraphFn clusters))
  end.

(** [TopDownDeviceClustering(funcOp, attrName)] and
    [BottomUpDeviceClustering(funcOp, attrName)]: the constructor, the merges
    of the strategy and [populateCandidates]. *)
Definition TopDownDeviceClustering (f : FuncOp) (attrName : string)
    : option (list OpPtr * State) :=
  st ← TopDown_mergeDeviceClustersProgressively (initialState f attrName);
  populateCandidates st.

Definition BottomUpDeviceClustering (f : FuncOp) (attrName : string)
    : option (list OpPtr * State) :=
  st ← BottomUp_mergeDeviceClustersProgressively (initialState f attrName);
  populateCandidates st.

(** A strategy followed by [getFunctionMetadatas]: the function as the
    merges left it, and the metadata. *)
Definition runClustering (algo : FuncOp → string → option (list OpPtr * State))
    (f : FuncOp) (attrName deviceAttr deviceAnchorName : string)
    (dupOutputs enableMultiGraph : bool) (validateSubGraphFn : ValidateSubGraphFn)
    : option (FuncOp * option (list FunctionMetadata)) :=
  '(candidates, st) ← algo f attrName;
  metadatas ← getFunctionMetadatas st candidates deviceAttr deviceAnchorName
                dupOutputs enableMultiGraph validateSubGraphFn;
  Some (ir st, metadatas).

End Strategies.

(** *** Greedy *)

(** Conversions between [int] (32 bits) and [size_t] (64 bits). *)
Definition to_int (z : Z) : Z := ((z + 2 ^ 31) mod 2 ^ 32 - 2 ^ 31)%Z.
Definition to_size_t (z : Z) : Z := (z mod 2 ^ 64)%Z.

(** [std::accumulate] from the [int] 0 with a [size_t] addition. *)
Definition accumulateOps (metadatas : list FunctionMetadata) : Z :=
  foldl (λ init metadata,
           to_int (to_size_t (to_size_t init + Z.of_nat (length (ops metadata)))))
        0%Z metadatas.

Definition coveredOps (metadatas : list FunctionMetadata) : Z :=
  to_size_t (accumulateOps metadatas).

Section Greedy.
Context {helpers : Helpers}.

(** [funcOp.clone()].  A clone has the operations of the function at
    addresses of its own.  A pointer of the model names an operation, so
    the operations of a clone go by the names of the operations they copy:
    as a value the clone is the function.  What a run on a clone does not
    share with a run on the function is what depends on the addresses, the
    order in which the [DenseMap] keyed by them is iterated.  The [k]-th
    clone of [f] has its operations [cloneShift k f] places further, beyond
    the operations of [f] and of the clones before it, and its map is
    iterated in the order that [denseMapOrder] gives for these addresses.
    The uses of a clone are listed as [getUses] lists those of the
    function, in block order. *)
Definition cloneShift (k : nat) (f : FuncOp) : nat :=
  k * S (list_max (opSelf <$> front f)).

Definition cloneOrder (n : nat) (l : list OpPtr) : list OpPtr :=
  (λ p, p - n) <$> denseMapOrder ((λ p, p + n) <$> l).

(** The helpers as a run on a clone at distance [n] has them. *)
Definition onClone (n : nat) : Helpers := {|
  isMhloConstantLike := isMhloConstantLike;
  isSplatMhloConstantLike := isSplatMhloConstantLike;
  replicateDefiningOp := replicateDefiningOp;
  getInputsOfCluster := getInputsOfCluster;
  getOutputsOfCluster := getOutputsOfCluster;
  getHostAnchorName := getHostAnchorName;
  denseMapOrder := cloneOrder n;
|}.

(** The case [kGreedy] of the driver.  The two measuring runs are made on
    the clones, each with the iteration order of its own addresses; the
    function itself is left as it is until the strategy that is chosen
    runs on it.  The clones are dropped afterwards. *)
Definition greedy (f : FuncOp) (attrName deviceAttr deviceAnchorName : string)
    (dupOutputs enableMultiGraph : bool) (validateSubGraphFn : ValidateSubGraphFn)
    : option (FuncOp * option (list FunctionMetadata)) :=
  let topDownFunc := f in
  let bottomUpFunc := f in
  let run algo g :=
    runClustering algo g attrName deviceAttr deviceAnchorName dupOutputs
      enableMultiGraph validateSubGraphFn in
  '(_, topDownMetadatas) ←
    @runClustering (onClone (cloneShift 1 f))
      (@TopDownDeviceClustering (onClone (cloneShift 1 f))) topDownFunc attrName
      deviceAttr deviceAnchorName dupOutputs enableMultiGraph validateSubGraphFn;
  '(_, bottomUpMetadatas) ←
    @runClustering (onClone (cloneShift 2 f))
      (@BottomUpDeviceClustering (onClone (cloneShift 2 f))) bottomUpFunc attrName
      deviceAttr deviceAnchorName dupOutputs enableMultiGraph validateSubGraphFn;
  match topDownMetadatas, bottomUpMetadatas with
  | Some topDown, Some bottomUp =>
      if bool_decide (coveredOps bottomUp < coveredOps topDown)%Z
      then run TopDownDeviceClustering f
      else run BottomUpDeviceClustering f
  | Some _, None => run TopDownDeviceClustering f
  | None, Some _ => run BottomUpDeviceClustering f
  | None, None => Some (f, None)
  end.

Inductive GraphClusteringAlgo := kTopDown | kBottomUp | kGreedy | kFallback.

(** The [switch] of the driver. *)
Definition clusterFunction (clusterAlgo : GraphClusteringAlgo) (f : FuncOp)
    (attrName device deviceAnchorName : string)
    (dupOutputs enableMultiGraph : bool) (validateSubGraphFn : ValidateSubGraphFn)
    : option (FuncOp * option (list FunctionMetadata)) :=
  match clusterAlgo with
  | kTopDown =>
      runClustering TopDownDeviceClustering f attrName device deviceAnchorName
        dupOutputs enableMultiGraph validateSubGraphFn
  | kBottomUp =>
      runClustering BottomUpDeviceClustering f attrName device deviceAnchorName
        dupOutputs enableMultiGraph validateSubGraphFn
  | kGreedy =>
      greedy f attrName device deviceAnchorName dupOutputs enableMultiGraph
        validateSubGraphFn
  | kFallback =>
      metadatas ← getFunctionMetadatasFallback f attrName device deviceAnchorName
                    dupOutputs validateSubGraphFn;
      Some (f, metadatas)
  end.

End Greedy.

(** ** Calls *)

(** [IRMapping]: the latest entry for a value wins. *)
Abbreviation IRMapping := (list (Value * Value)).

Definition lookupOrDefault (mapping : IRMapping) (v : Value) : Value :=
  match List.find (λ kv, bool_decide (kv.1 = v)) mapping with
  | Some kv => kv.2
  | None => v
  end.

Definition substValue (old new v : Value) : Value :=
  if bool_decide (v = old) then new else v.

(** Replace the uses of [old] by [new] in [op] and in the operations nested
    in it; the operands that the operation [except] owns are kept. *)
Fixpoint replaceUsesInOp (old new : Value) (except : option OpPtr) (op : Operation)
    : Operation :=
  mkOperation (opSelf op) (opName op)
    (if bool_decide (except = Some (opSelf op)) then opOperands op
     else substValue old new <$> opOperands op)
    (opNumResults op) (opAttrs op)
    (List.map (List.map (List.map (replaceUsesInOp old new except))) (opRegions op)).

Definition replaceUses (old new : Value) (except : option OpPtr) (f : FuncOp) : FuncOp :=
  mkFuncOp (symName f) (replaceUsesInOp old new except <$> body f)
    (replaceUsesInOp old new except (retOp f)).

(** [originalValue.replaceAllUsesWith(newValue)]. *)
Definition replaceAllUsesWith (old new : Value) (f : FuncOp) : FuncOp :=
  replaceUses old new None f.

(** [originalValue.replaceAllUsesExcept(newValue, retOp)]. *)
Definition replaceAllUsesExcept (old new : Value) (f : FuncOp) : FuncOp :=
  replaceUses old new (Some (opSelf (retOp f))) f.

(** [retOp->getOpOperand(idx).set(newValue)]. *)
Definition setRetOperand (idx : nat) (new : Value) (f : FuncOp) : FuncOp :=
  let r := retOp f in
  mkFuncOp (symName f) (body f)
    (mkOperation (opSelf r) (opName r) (<[idx := new]> (opOperands r))
       (opNumResults r) (opAttrs r) (opRegions r)).

(** [retOperand2Indices]: for each operand of the terminator, the indices at
    which it occurs; the loop runs from the last operand to the first, so
    the smallest index is at the back. *)
Abbreviation IndexMap := (list (Value * list nat)).

Definition pushIndex (m : IndexMap) (v : Value) (i : nat) : IndexMap :=
  if existsb (λ kv, bool_decide (kv.1 = v)) m
  then List.map (λ kv, if bool_decide (kv.1 = v) then (kv.1, kv.2 ++ [i]) else kv) m
  else m ++ [(v, [i])].

Definition retOperand2Indices (ret : Operation) : IndexMap :=
  foldl (λ m iv, pushIndex m iv.2 iv.1) [] (reverse (imap pair (opOperands ret))).

Definition findIndices (m : IndexMap) (v : Value) : option (list nat) :=
  snd <$> List.find (λ kv, bool_decide (kv.1 = v)) m.

Definition popIndex (m : IndexMap) (v : Value) : IndexMap :=
  List.map (λ kv, if bool_decide (kv.1 = v) then (kv.1, removelast kv.2) else kv) m.

(** One iteration of the loop over the results of a metadata entry. *)
Definition replaceResult (dupOutputs : bool) (callOp : OpPtr)
    (acc : option (FuncOp * IndexMap * IRMapping)) (result : nat * Value)
    : option (FuncOp * IndexMap * IRMapping) :=
  '(f, indices, mapping) ← acc;
  let originalValue := result.2 in
  let newValue := OpResult callOp result.1 in
  '(f', indices') ←
    (if dupOutputs then
       let f1 := replaceAllUsesExcept originalValue newValue f in
       match findIndices indices originalValue with
       | Some idxs =>
           idx ← last idxs;
           Some (setRetOperand idx newValue f1, popIndex indices originalValue)
       | None => Some (f1, indices)
       end
     else Some (replaceAllUsesWith originalValue newValue f, indices));
  Some (f', indices', (originalValue, newValue) :: mapping).

Definition replaceResults (dupOutputs : bool) (callOp : OpPtr) (f : FuncOp)
    (mapping : IRMapping) (results : list Value)
    : option (FuncOp * IndexMap * IRMapping) :=
  foldl (replaceResult dupOutputs callOp)
        (Some (f, retOperand2Indices (retOp f), mapping)) (imap pair results).

(** Every pointer that occurs in an operation. *)
Fixpoint allPtrs (op : Operation) : list OpPtr :=
  opSelf op :: omap getDefiningOp (opOperands op)
  ++ flat_map (flat_map (flat_map allPtrs)) (opRegions op).

(** The address of a new operation: one that the function does not use. *)
Definition freshOpPtr (f : FuncOp) : OpPtr :=
  S (list_max (flat_map allPtrs (front f))).

(** The body of the loop of [createCalls]: the call is created in front of
    the last operation of the entry, its operands go through the mapping,
    and the results of the entry are replaced by the results of the call.
    The callee is the function that [createFunctions] made for the entry;
    it is written here by the name that function is created with, which the
    symbol table keeps unless the module has a symbol of that name. *)
Definition createCall (dupOutputs : bool) (acc : option (FuncOp * IRMapping))
    (metadata : FunctionMetadata) : option (FuncOp * IRMapping) :=
  '(f, mapping) ← acc;
  lastOp ← last (ops metadata);
  i ← position (body f) lastOp;
  let callee := (originalName metadata +:+ "_" +:+ deviceAttr metadata)%string in
  let clonedCallOp :=
    mkOperation (freshOpPtr f) "func.call"
      (lookupOrDefault mapping <$> (lookupOrDefault mapping <$> inputs metadata))
      (length (results metadata)) [("callee"%string, callee)] [] in
  let f1 := setBody f (take i (body f) ++ clonedCallOp :: drop i (body f)) in
  '(f2, _, mapping') ← replaceResults dupOutputs (opSelf clonedCallOp) f1 mapping
                         (results metadata);
  Some (f2, mapping').

Definition createCalls (metadatas : list FunctionMetadata) (f : FuncOp)
    (dupOutputs : bool) : option FuncOp :=
  fst <$> foldl (createCall dupOutputs) (Some (f, [])) metadatas.

(** The original operations of every entry are erased. *)
Definition eraseOps (metadatas : list FunctionMetadata) (f : FuncOp) : FuncOp :=
  setBody f (List.filter (λ op, negb (bool_decide (opSelf op ∈ flat_map ops metadatas)))
               (body f)).

(** ** The driver *)

Inductive LogicalResult := success | failure.

(** A diagnostic: the function it is attached to and its message. *)
Abbreviation Diagnostic := (string * string)%type.

Section Driver.
Context {helpers : Helpers}.

(** The body of the second loop of [GraphClustingByDevice], for one
    function, as far as it acts on the function: the strategy, the calls
    and the erasure of the operations of the entries.  [createFunctions] is
    not part of the model; it leaves the function as it is and adds one
    function per entry to the module, beside the original functions. *)
Definition processFunction (clusterAlgo : GraphClusteringAlgo) (f : FuncOp)
    (attrName device deviceAnchorName : string)
    (dupOutputs enableMultiGraph : bool) (validateSubGraphFn : ValidateSubGraphFn)
    : option (LogicalResult * FuncOp * list Diagnostic) :=
  '(f1, metadatas) ← clusterFunction clusterAlgo f attrName device deviceAnchorName
                       dupOutputs enableMultiGraph validateSubGraphFn;
  match metadatas with
  | None =>
      Some (failure, f1,
            [(symName f, "[ByteIR Transform]: GraphClusteringByDevice error."%string)])
  | Some metadatas =>
      f2 ← createCalls metadatas f1 dupOutputs;
      Some (success, eraseOps metadatas f2, [])
  end.

(** The second loop of the driver, over the original functions
    [originalFuncs]: it stops at the first function without metadata.  The
    result lists the original functions as the loop leaves them; the
    functions that [createFunctions] adds to the module are not among
    them. *)
Fixpoint clusterFunctions (funcs : list FuncOp) (attrName device
    deviceAnchorName : string) (dupOutputs : bool)
    (clusterAlgo : GraphClusteringAlgo) (enableMultiGraph : bool)
    (validateSubGraphFn : ValidateSubGraphFn)
    : option (LogicalResult * list FuncOp * list Diagnostic) :=
  match funcs with
  | [] => Some (success, [], [])
  | f :: rest =>
      '(res, f', diags) ← processFunction clusterAlgo f attrName device
                            deviceAnchorName dupOutputs enableMultiGraph
                            validateSubGraphFn;
      match res with
      | failure => Some (failure, f' :: rest, diags)
      | success =>
          '(res', rest', diags') ← clusterFunctions rest attrName device
                                     deviceAnchorName dupOutputs clusterAlgo
                                     enableMultiGraph validateSubGraphFn;
          Some (res', f' :: rest', diags ++ diags')
      end
  end.

(** [isResultUsedByReturnOp]. *)
Definition isResultUsedByReturnOp (op : Operation) (retValues : list Value) : bool :=
  existsb (λ i, bool_decide (OpResult (opSelf op) i ∈ retValues))
          (seq 0 (opNumResults op)).

(** [GraphClustingByDevice]: the constants that the terminator does not
    return are replicated first, all of them or the splat ones only. *)
Definition GraphClustingByDevice (funcs : list FuncOp) (attrName device
    deviceAnchorName : string) (dupNonSplat dupOutputs : bool)
    (clusterAlgo : GraphClusteringAlgo) (enableMultiGraph : bool)
    (validateSubGraphFn : ValidateSubGraphFn)
    : option (LogicalResult * list FuncOp * list Diagnostic) :=
  let originalFuncs :=
    (λ f, let retValues := opOperands (retOp f) in
          replicateDefiningOp
            (λ op, negb (isResultUsedByReturnOp op retValues)
                   && (if dupNonSplat then isMhloConstantLike op
                       else isSplatMhloConstantLike op)) f) <$> funcs in
  clusterFunctions originalFuncs attrName device deviceAnchorName dupOutputs
    clusterAlgo enableMultiGraph validateSubGraphFn.

End Driver.

(** ** Example functions *)

(** Modelled from the spec: [getInputsOfCluster] and [getOutputsOfCluster],
    which are declared in byteir/Utils/Utils.h and defined outside this
    file.  The inputs are the operands defined outside the cluster; the
    results are the values of the cluster used outside, one copy per use by
    the terminator when the tally of the terminator is given. *)
Definition exampleInputs (f : FuncOp) (l : list OpPtr) : list Value :=
  remove_dups
    (List.filter (λ v, match getDefiningOp v with
                       | Some d => bool_decide (d ∉ l)
                       | None => true
                       end)
       (flat_map opOperands (omap (deref f) l))).

Definition exampleOutputs (f : FuncOp) (l : list OpPtr)
    (stats : option (list (Value * Z))) : list Value :=
  flat_map (λ op,
      flat_map (λ i,
          let v := OpResult (opSelf op) i in
          if existsb (λ use, bool_decide (opSelf (useOwner use) ∉ l)) (getValueUses f v)
          then match stats with
               | Some tally =>
                   match List.find (λ kv, bool_decide (kv.1 = v)) tally with
                   | Some kv => replicate (Z.to_nat kv.2) v
                   | None => [v]
                   end
               | None => [v]
               end
          else [])
        (seq 0 (opNumResults op)))
    (omap (deref f) l).

Definition exampleHelpers : Helpers := {|
  isMhloConstantLike := λ op, bool_decide (opName op = "mhlo.constant");
  isSplatMhloConstantLike := λ op, bool_decide (opName op = "mhlo.constant");
  replicateDefiningOp := λ _ f, f;
  getInputsOfCluster := exampleInputs;
  getOutputsOfCluster := exampleOutputs;
  getHostAnchorName := "__byteir_host_device__";
  denseMapOrder := id;
|}.

Definition simpleOp (p : OpPtr) (name : string) (operands : list Value)
    (attrs : list (string * string)) : Operation :=
  mkOperation p name operands 1 attrs [].

Definition returnOp (p : OpPtr) (operands : list Value) : Operation :=
  mkOperation p "func.return" operands 0 [] [].

(** [a; b(a); c(b)], returning [c]. *)
Definition chain : FuncOp :=
  mkFuncOp "main"
    [simpleOp 1 "a" [BlockArgument 0] [];
     simpleOp 2 "b" [OpResult 1 0] [];
     simpleOp 3 "c" [OpResult 2 0] []]
    (returnOp 9 [OpResult 3 0]).

(** [a; b(a)] where [b] is host, returning [b]. *)
Definition hostUser : FuncOp :=
  mkFuncOp "main"
    [simpleOp 1 "a" [BlockArgument 0] [];
     simpleOp 2 "b" [OpResult 1 0] [("device", "host")]]
    (returnOp 9 [OpResult 2 0]).

(** [a; x(a); b(x)] where [x] is host: [x] can move neither above [a] nor
    below [b]. *)
Definition blocked : FuncOp :=
  mkFuncOp "main"
    [simpleOp 1 "a" [BlockArgument 0] [];
     simpleOp 5 "x" [OpResult 1 0] [("device", "host")];
     simpleOp 2 "b" [OpResult 5 0] []]
    (returnOp 9 [OpResult 2 0; OpResult 5 0]).

(** [a], returned twice. *)
Definition twice : FuncOp :=
  mkFuncOp "main"
    [simpleOp 1 "a" [BlockArgument 0] []]
    (returnOp 9 [OpResult 1 0; OpResult 1 0]).

(** [a; h(a); b(h); c(b); d(c); x(d); e(x, a)] where [h] and [x] are host:
    [h], the cluster of [b], [c] and [d], and [x] are stuck between [a] and
    [e]. *)
Definition stuck : FuncOp :=
  mkFuncOp "main"
    [simpleOp 1 "a" [BlockArgument 0] [];
     simpleOp 7 "h" [OpResult 1 0] [("device", "host")];
     simpleOp 2 "b" [OpResult 7 0] [];
     simpleOp 3 "c" [OpResult 2 0] [];
     simpleOp 4 "d" [OpResult 3 0] [];
     simpleOp 5 "x" [OpResult 4 0] [("device", "host")];
     simpleOp 6 "e" [OpResult 5 0; OpResult 1 0] []]
    (returnOp 9 [OpResult 6 0]).

(** [stuck] after [b] has been merged into [c] and [c] into [d]. *)
Definition stuckMerged1 : State :=
  Eval vm_compute in
    match tryMerge (Some 2) (Some 3) (@initialState exampleHelpers stuck "device") with
    | Some (_, st) => st
    | None => @initialState exampleHelpers stuck "device"
    end.

Definition stuckMerged : State :=
  Eval vm_compute in
    match tryMerge (Some 3) (Some 4) stuckMerged1 with
    | Some (_, st) => st
    | None => stuckMerged1
    end.

(** [stuckMerged] after the merge of [a] and [e] has failed. *)
Definition stuckFailed : State :=
  Eval vm_compute in
    match tryMerge (Some 1) (Some 6) stuckMerged with
    | Some (_, st) => st
    | None => stuckMerged
    end.

(** The entry that every strategy gives for [chain]. *)
Definition chainEntry : FunctionMetadata :=
  mkFunctionMetadata "anchor" "test" "main" [BlockArgument 0] [OpResult 3 0] [1; 2; 3].

(** * Properties

    ** Vocabulary *)

(** *** The forest of clusters *)

(** [resolves m d k r]: from the cluster [k], [d] links of [mergedInto] lead
    to the root [r]. *)
Inductive resolves (m : OpClusterMap) : nat → OpPtr → OpPtr → Prop :=
| resolves_root k c :
    m !! k = Some c → mergedInto c = None → resolves m 0 k k
| resolves_link k c p d r :
    m !! k = Some c → mergedInto c = Some p → resolves m d p r →
    resolves m (S d) k r.

Definition isRoot (m : OpClusterMap) (k : OpPtr) : Prop :=
  ∃ c, m !! k = Some c ∧ mergedInto c = None.

Definition linked (m : OpClusterMap) (k : OpPtr) : Prop :=
  ∃ c p, m !! k = Some c ∧ mergedInto c = Some p.

(** Two maps describe the same forest: the same operation lists, the same
    roots, and every cluster resolves to the same root, in no more steps. *)
Record same_forest (m m' : OpClusterMap) : Prop := {
  sf_operations : ∀ k, operations <$> m' !! k = operations <$> m !! k;
  sf_linked : ∀ k, linked m' k ↔ linked m k;
  sf_resolves : ∀ d k r, resolves m d k r → ∃ d', d' ≤ d ∧ resolves m' d' k r;
  sf_resolves_inv : ∀ d k r, resolves m' d k r → ∃ d', resolves m d' k r;
}.

(** The invariant of the cluster records. *)
Record forest (m : OpClusterMap) : Prop := {
  forest_depth :
    ∃ l : list OpPtr, NoDup l ∧ (∀ k, k ∈ l → linked m k) ∧
      ∀ k, k ∈ dom m → ∃ d r, resolves m d k r ∧ d ≤ length l;
  forest_ops :
    ∀ r c, m !! r = Some c → mergedInto c = None →
      ∀ o, o ∈ operations c ↔ ∃ d, resolves m d o r;
  forest_linked :
    ∀ k c, m !! k = Some c → is_Some (mergedInto c) → operations c = [];
  forest_nodup : ∀ k c, m !! k = Some c → NoDup (operations c);
}.

(** *** The move sets *)

(** Two operations are cluster-mates when they resolve to the same root. *)
Definition mates (m : OpClusterMap) (o o' : OpPtr) : Prop :=
  ∃ r d d', resolves m d o r ∧ resolves m d' o' r.

(** The two loops have the same shape: they differ in the test that rejects
    an operation and in the order in which a cluster is pulled. *)
Definition moveStep (rejected : list OpPtr → OpPtr → option bool)
    (order : list OpPtr → list OpPtr) (vec : list OpPtr)
    (acc : option (list OpPtr * list OpPtr * OpClusterMap)) (p : OpPtr)
    : option (list OpPtr * list OpPtr * OpClusterMap) :=
  '(remain, move, m) ← acc;
  if decide (p ∈ remain) then Some (remain, move, m)
  else
    b ← rejected remain p;
    if (b : bool) then
      match m !! p with
      | None => Some (sv_insert p remain, move, m)
      | Some _ =>
          '(r, m') ← getRoot m p;
          cluster ← m' !! r;
          '(remain', move') ←
            foldl (pullCluster vec) (Some (remain, move)) (order (operations cluster));
          Some (remain', move', m')
      end
    else Some (remain, sv_insert p move, m).

Definition rejectedUp (f : FuncOp) (target remain : list OpPtr) (p : OpPtr) : option bool :=
  op ← deref f p; Some (anyDefIn op target || anyDefIn op remain).

Definition rejectedDown (f : FuncOp) (target remain : list OpPtr) (p : OpPtr) : option bool :=
  Some (anyUseIn f p target || anyUseIn f p remain).

(** What holds after the operations [pre] of [vec] have been visited. *)
Record moveInv (vec : list OpPtr) (m0 : OpClusterMap) (pre remain move : list OpPtr)
    (m : OpClusterMap) : Prop := {
  mi_forest : same_forest m0 m;
  mi_move : ∀ x, x ∈ move → x ∈ pre ∧ x ∉ remain;
  mi_remain : ∀ x, x ∈ remain → x ∈ vec;
  mi_visited : ∀ x, x ∈ pre → x ∈ move ∨ x ∈ remain;
  mi_closed : ∀ o o', o ∈ remain → mates m0 o o' → o' ∈ remain;
  mi_nodup : NoDup remain;
}.

(** What the two computations return: the cluster records still describe the
    same forest, the source is split into the move set and what remains,
    and what remains is closed under cluster-mates. *)
Record moveSplit (m : OpClusterMap) (src remain move : list OpPtr) (m' : OpClusterMap)
    : Prop := {
  ms_forest : same_forest m m';
  ms_split : ∀ x, x ∈ src ↔ x ∈ move ∨ x ∈ remain;
  ms_disjoint : ∀ x, x ∈ move → x ∉ remain;
  ms_closed : ∀ o o', o ∈ remain → mates m o o' → o' ∈ remain;
  ms_nodup : NoDup remain;
}.

(** *** Merges *)

(** The cluster records after a merge: [from] is emptied and linked to [to],
    which gets the merged list. *)
Definition linkClusters (from to : OpPtr) (merged : list OpPtr) (m : OpClusterMap)
    : OpClusterMap :=
  alter (setMergedInto (Some to)) from
    (alter (setOperations merged) to (alter (setOperations []) from m)).

(** Two distinct roots, about to be linked. *)
Record linkable (from to : OpPtr) (m : OpClusterMap) (cf ct : ActiveDeviceCluster)
    : Prop := {
  lk_ne : from ≠ to;
  lk_from : m !! from = Some cf;
  lk_to : m !! to = Some ct;
  lk_from_root : mergedInto cf = None;
  lk_to_root : mergedInto ct = None;
}.

(** A cluster pointer is null or the address of a record of the map. *)
Definition validPtr (m : OpClusterMap) (p : option OpPtr) : Prop :=
  match p with
  | Some k => is_Some (m !! k)
  | None => True
  end.

(** The guards of [tryMerge]. *)
Definition guarded (m : OpClusterMap) (lhs rhs : option OpPtr) : Prop :=
  lhs = None ∨ rhs = None ∨ lhs = rhs ∨
  (∃ l, lhs = Some l ∧ linked m l) ∨ (∃ r, rhs = Some r ∧ linked m r).

(** A merge attempt that fails: a directed merge that returns false, or
    [tryMerge] returning the null pointer. *)
Definition failedMerge (st st' : State) : Prop :=
  (∃ from to, tryMergeInto from to st = Some (false, st')) ∨
  (∃ lhs rhs, tryMerge lhs rhs st = Some (None, st')).

(** *** The host set *)

(** The defining operations of the operands of [p]. *)
Definition definers (f : FuncOp) (p : OpPtr) : list OpPtr :=
  match deref f p with
  | Some op => omap getDefiningOp (opOperands op)
  | None => []
  end.

(** The set [H] of the specification: seeded by the operations of the block
    that are host, and closed under the defining operations of operands. *)
Inductive hostClosure (f : FuncOp) (attrName : string) : OpPtr → Prop :=
| hostClosure_seed op :
    op ∈ body f → isHostOp attrName op = true →
    hostClosure f attrName (opSelf op)
| hostClosure_operand p d :
    hostClosure f attrName p → d ∈ definers f p →
    hostClosure f attrName d.

(** The operations of the block that are not yet in the set: the measure of
    the recursion. *)
Definition unvisited (f : FuncOp) (s : gset OpPtr) : nat :=
  length (List.filter (λ op, bool_decide (opSelf op ∉ s)) (front f)).

(** The loop over the operands of an operation. *)
Definition insertOperands (n : nat) (f : FuncOp) (acc : option (gset OpPtr))
    (v : Value) : option (gset OpPtr) :=
  match acc, getDefiningOp v with
  | Some s, Some d => insertOpsRecursively n f d s
  | _, _ => acc
  end.

(** What a call of [insertOpsRecursively] adds: [p], and operations
    reachable from [p], each with the defining operations of its
    operands. *)
Record inserted (f : FuncOp) (from : list OpPtr) (s s' : gset OpPtr) : Prop := {
  ins_mono : s ⊆ s';
  ins_from : ∀ p, p ∈ from → p ∈ s';
  ins_reach : ∀ x, x ∈ s' → x ∈ s ∨ ∃ p, p ∈ from ∧ rtc (λ a b, b ∈ definers f a) p x;
  ins_closed : ∀ x, x ∈ s' → x ∈ s ∨ ∀ d, d ∈ definers f x → d ∈ s';
}.

(** The two operation lists of the fallback strategy, in block order. *)
Definition hostList (f : FuncOp) (H : gset OpPtr) : list OpPtr :=
  List.filter (λ p, bool_decide (p ∈ H)) (opSelf <$> body f).

Definition deviceList (f : FuncOp) (H : gset OpPtr) : list OpPtr :=
  List.filter (λ p, negb (bool_decide (p ∈ H))) (opSelf <$> body f).

(** *** Metadata *)

(** The first candidate that is not empty and that [validateSubGraphFn] does
    not reject. *)
Definition firstAccepted (validateSubGraphFn : ValidateSubGraphFn)
    (clusters : list (list OpPtr)) : option (list OpPtr) :=
  List.find (λ cluster, negb (bool_decide (cluster = []))
                        && negb (rejects validateSubGraphFn cluster)) clusters.

(** The number of operations that the entries cover. *)
Definition totalOps (metadatas : list FunctionMetadata) : nat :=
  foldr (λ metadata n, length (ops metadata) + n) 0 metadatas.

(** *** The results of a call *)

(** Replace the first occurrence of [old]. *)
Fixpoint replaceFirst (old new : Value) (l : list Value) : list Value :=
  match l with
  | [] => []
  | x :: l' => if decide (x = old) then new :: l' else x :: replaceFirst old new l'
  end.

(** Replace the last occurrence of [old]: what the specification says of the
    terminator. *)
Definition replaceLast (old new : Value) (l : list Value) : list Value :=
  reverse (replaceFirst old new (reverse l)).

(** The positions of [v], in increasing order, in a list that starts at
    position [k]. *)
Fixpoint positionsFrom (k : nat) (v : Value) (l : list Value) : list nat :=
  match l with
  | [] => []
  | x :: l' =>
      if decide (x = v) then k :: positionsFrom (S k) v l'
      else positionsFrom (S k) v l'
  end.

Definition occurrences (v : Value) (l : list Value) : nat :=
  length (positionsFrom 0 v l).

(** A result of the call [callOp]. *)
Definition isNew (callOp : OpPtr) (v : Value) : Prop :=
  getDefiningOp v = Some callOp.

(** The index map agrees with the operands [cur] of the terminator: for a
    value that the original terminator [rs] uses, it lists the positions that
    still hold the value, the smallest one at the back. *)
Definition indexInv (callOp : OpPtr) (rs : list Value) (idx : IndexMap)
    (cur : list Value) : Prop :=
  ∀ v, ¬ isNew callOp v →
    (v ∉ rs → findIndices idx v = None ∧ v ∉ cur) ∧
    (v ∈ rs → findIndices idx v = Some (reverse (positionsFrom 0 v cur))).

(** The terminator after the results [vs], numbered from [k], have been
    replaced. *)
Definition replaceAll (callOp : OpPtr) (k : nat) (vs : list Value) (l : list Value)
    : list Value :=
  foldl (λ l iv, replaceFirst iv.2 (OpResult callOp iv.1) l) l
        (imap (λ i v, (k + i, v)) vs).

Section Vocabulary.
Context {helpers : Helpers}.

(** The states of a clustering run: the constructor gives the first one, and
    the strategies and [populateCandidates] go on with [getCluster] and
    [tryMerge]. *)
Inductive reachable (f : FuncOp) (attrName : string) : State → Prop :=
| reachable_init : reachable f attrName (initialState f attrName)
| reachable_getCluster st p r m' :
    reachable f attrName st →
    getCluster p (op2cluster st) = Some (r, m') →
    reachable f attrName (mkState (ir st) m')
| reachable_tryMerge st lhs rhs res st' :
    reachable f attrName st →
    tryMerge lhs rhs st = Some (res, st') →
    reachable f attrName st'.

(** The operations that the constructor gives a cluster. *)
Definition clustered (f : FuncOp) (attrName : string) (o : OpPtr) : Prop :=
  ∃ op, op ∈ body f ∧ opSelf op = o ∧
        isHostOp attrName op = false ∧ onlyUsedByHost f attrName op = false.

End Vocabulary.

(** *** The order of the block *)

(** [l] occupies consecutive places of [k]. *)
Definition run {A} (l k : list A) : Prop := ∃ pre post, k = pre ++ l ++ post.

(** [x] comes before [y] in [k]. *)
Definition before {A} (k : list A) (x y : A) : Prop :=
  ∃ i j, k !! i = Some x ∧ k !! j = Some y ∧ i < j.

(** *** The order of the move sets *)

(** What the loops of [computeMoveUpSet] and [computeMoveDownSet] keep of
    the order in which they visit [vec], with [pre] visited and [rest] to
    come: the move set and the remaining operations are in that order; the
    remaining operations reach at most a few places into [rest]; and an
    operation of the move set neither depends on the target nor on a
    remaining operation that was visited before it. *)
Record moveOrd (depT : OpPtr → Prop) (dep : OpPtr → OpPtr → Prop)
    (vec pre rest remain move : list OpPtr) : Prop := {
  mo_vec : vec = pre ++ rest;
  mo_move : move `sublist_of` pre;
  mo_remain :
    ∃ over rest', rest = over ++ rest' ∧ remain `sublist_of` pre ++ over ∧
      (∀ x, x ∈ over → x ∈ remain) ∧ (∀ x, x ∈ rest' → x ∉ remain);
  mo_dep :
    ∀ x, x ∈ move → ¬ depT x ∧ ∀ y, y ∈ remain → before vec y x → ¬ dep x y;
}.

(** *** The tree of an operation *)

(** [op] and the operations nested in its regions, at any depth. *)
Fixpoint subOps (op : Operation) : list Operation :=
  op :: flat_map (flat_map (flat_map subOps)) (opRegions op).

(** The operations that define an operand of [op] or of an operation
    nested in it. *)
Definition usedDefs (op : Operation) : list OpPtr :=
  omap getDefiningOp (flat_map opOperands (subOps op)).

(** The operation carries the host device attribute itself. *)
Definition hasHostAttr (attrName : string) (op : Operation) : bool :=
  match getAttr op attrName with
  | Some s => bool_decide (s = DEVICE_ATTR_HOST)
  | None => false
  end.

(** *** Well-formed blocks *)

(** The operations of the block, terminator included, have distinct
    addresses. *)
Definition distinctOps (f : FuncOp) : Prop := NoDup (opSelf <$> front f).

(** *** The invariant of the block and the clusters *)

(** The operations of the block have distinct addresses, the cluster
    records form a forest, and the operations of every root cluster are
    consecutive operations of the block, in the order of the block. *)
Record blockInv (st : State) : Prop := {
  bi_distinct : distinctOps (ir st);
  bi_forest : forest (op2cluster st);
  bi_run :
    ∀ r c, op2cluster st !! r = Some c → mergedInto c = None →
      operations c ≠ [] ∧ run (operations c) (opSelf <$> body (ir st));
}.

(** Definitions come before uses: an operation of the block that defines
    an operand of another operation of the block, or of an operation nested
    in that one, stands before it. *)
Definition dominanceOK (f : FuncOp) : Prop :=
  ∀ op d, op ∈ front f → d ∈ usedDefs op → d ∈ opSelf <$> front f →
    before (opSelf <$> front f) d (opSelf op).

(** What a plan without residual says of the operations [B] between the
    upper cluster [U] and the lower cluster [L]: the two move sets split
    [B], each in the order of the block (the move-down set reversed), no
    root cluster is split, and no operation is moved across one that it
    depends on. *)
Record planOK (f : FuncOp) (m : OpClusterMap) (U B L : list OpPtr) (plan : MergePlan)
    : Prop := {
  po_up : moveUp plan `sublist_of` B;
  po_down : reverse (moveDown plan) `sublist_of` B;
  po_cover : ∀ x, x ∈ B ↔ x ∈ moveUp plan ∨ x ∈ moveDown plan;
  po_disjoint : ∀ x, x ∈ moveUp plan → x ∉ moveDown plan;
  po_atomic :
    ∀ r c, m !! r = Some c → mergedInto c = None → run (operations c) B →
      run (operations c) (moveUp plan) ∨ run (operations c) (reverse (moveDown plan));
  po_up_target :
    ∀ x op d, x ∈ moveUp plan → deref f x = Some op → d ∈ usedDefs op → d ∉ U;
  po_up_down :
    ∀ x op y, x ∈ moveUp plan → deref f x = Some op → y ∈ moveDown plan →
      before B y x → y ∉ usedDefs op;
  po_down_target :
    ∀ op x, op ∈ front f → opSelf op ∈ L → x ∈ moveDown plan → x ∉ usedDefs op;
}.

(** What a step of a clustering run keeps: the invariant, the operations of
    the block up to their order, the terminator, the order of definitions
    and uses, and the operations that have a cluster record. *)
Record stepOK (st st' : State) : Prop := {
  so_inv : blockInv st';
  so_perm : body (ir st') ≡ₚ body (ir st);
  so_ret : retOp (ir st') = retOp (ir st);
  so_name : symName (ir st') = symName (ir st);
  so_dom : dominanceOK (ir st) → dominanceOK (ir st');
  so_keys : dom (op2cluster st') = dom (op2cluster st);
}.

(** What a successful [tryMerge] of the roots [l] and [r] does to the
    cluster records: the operations of the upper cluster followed by those
    of the lower one go to the surviving cluster [c], the other one is
    emptied and linked to it, and the other roots are as before. *)
Record mergedOK (st st' : State) (l r c : OpPtr) : Prop := {
  mg_ne : l ≠ r;
  mg_roots : isRoot (op2cluster st) l ∧ isRoot (op2cluster st) r;
  mg_survivor : (c = r ∨ c = l);
  mg_lists :
    ∃ cl cr (b : bool),
      op2cluster st !! l = Some cl ∧ op2cluster st !! r = Some cr ∧
      isBeforeInBlock (ir st) cl cr = Some b ∧
      isBeforeInBlock (ir st) cr cl = Some (negb b) ∧
      op2cluster st' !! c
      = Some (mkCluster (if b then operations cl ++ operations cr
                         else operations cr ++ operations cl) None) ∧
      op2cluster st' !! (if decide (c = r) then l else r)
      = Some (mkCluster [] (Some c));
  mg_others :
    ∀ k, k ≠ l → k ≠ r →
      (isRoot (op2cluster st') k ↔ isRoot (op2cluster st) k) ∧
      operations <$> op2cluster st' !! k = operations <$> op2cluster st !! k;
}.


(** The call that stands for an operation of the block: the call created
    for the entry whose last operation it is. *)
Definition callFor (metadatas : list FunctionMetadata) (calls : list OpPtr) (x : OpPtr)
    : option OpPtr :=
  snd <$> List.find (λ mc, bool_decide (last (ops mc.1) = Some x)) (zip metadatas calls).

(** A block in which every entry is replaced by its call: the last
    operation of an entry becomes the call, the other operations of the
    entries are dropped, and the rest stays. *)
Definition outlined (metadatas : list FunctionMetadata) (calls block : list OpPtr)
    : list OpPtr :=
  omap (λ x, match callFor metadatas calls x with
             | Some c => Some c
             | None => if bool_decide (x ∈ flat_map ops metadatas) then None else Some x
             end) block.

Section Merging.
Context {helpers : Helpers}.

(** The strategies that merge clusters. *)
Definition merging (algo : FuncOp → string → option (list OpPtr * State)) : Prop :=
  algo = TopDownDeviceClustering ∨ algo = BottomUpDeviceClustering.

End Merging.

(** ** Further example functions *)

(** [a; x; b(a)], returning [b] and [x]: [x] stands between [a] and [b] and
    depends on neither. *)
Definition gapped : FuncOp :=
  mkFuncOp "main"
    [simpleOp 1 "a" [BlockArgument 0] [];
     simpleOp 5 "x" [BlockArgument 0] [];
     simpleOp 2 "b" [OpResult 1 0] []]
    (returnOp 9 [OpResult 2 0; OpResult 5 0]).

(** [gapped] after the merge of [a] and [b]. *)
Definition gappedMerged : State :=
  Eval vm_compute in
    match tryMerge (Some 1) (Some 2) (@initialState exampleHelpers gapped "device") with
    | Some (_, st) => st
    | None => @initialState exampleHelpers gapped "device"
    end.

(** [h], a host operation, returned: nothing to cluster. *)
Definition allHost : FuncOp :=
  mkFuncOp "host_only"
    [simpleOp 1 "h" [BlockArgument 0] [("device", "host")]]
    (returnOp 9 [OpResult 1 0]).

(** *** The tally and the entries *)

(** The count that a tally holds for a value. *)
Definition tally (stats : list (Value * Z)) (v : Value) : option Z :=
  snd <$> List.find (λ kv, bool_decide (kv.1 = v)) stats.

(** A candidate that [getFunctionMetadatas] emits: it is not empty and
    [validateSubGraphFn] does not reject it. *)
Definition accepted (validateSubGraphFn : ValidateSubGraphFn) (cluster : list OpPtr)
    : bool :=
  negb (bool_decide (cluster = [])) && negb (rejects validateSubGraphFn cluster).

(** *** Rejection and the gap *)




(** ** Example functions for the merges *)



(** [a; h(a); b(h); c(a); d(b, c)] where [h] is host: the top-down strategy
    ends with the clusters [[b; d]] and [[a; c]], the bottom-up strategy
    with [[b; c; d]] and [[a]]. *)
Definition diamond : FuncOp :=
  mkFuncOp "main"
    [simpleOp 1 "a" [BlockArgument 0] [];
     simpleOp 7 "h" [OpResult 1 0] [("device", "host")];
     simpleOp 2 "b" [OpResult 7 0] [];
     simpleOp 3 "c" [OpResult 1 0] [];
     simpleOp 4 "d" [OpResult 2 0; OpResult 3 0] []]
    (returnOp 9 [OpResult 4 0]).

(** [p; q(p); r(p); h(r); s(h, q)] where [h] is host, [diamond] upside down:
    the top-down strategy ends with [[p; q; r]] and [[s]], the bottom-up
    strategy with [[q; s]] and [[p; r]]. *)
Definition mirror : FuncOp :=
  mkFuncOp "main"
    [simpleOp 1 "p" [BlockArgument 0] [];
     simpleOp 2 "q" [OpResult 1 0] [];
     simpleOp 3 "r" [OpResult 1 0] [];
     simpleOp 7 "h" [OpResult 3 0] [("device", "host")];
     simpleOp 5 "s" [OpResult 7 0; OpResult 2 0] []]
    (returnOp 9 [OpResult 5 0]).

(** [p; q(p); r(p); h1(r); s(h1, q); a; h2(a); b(h2); c(h2)] where [h1] and
    [h2] are host: [mirror], and beside it three operations of which [a]
    cannot be in one cluster with [b] or [c].  Which of them the largest
    cluster takes depends on the order in which [populateCandidates] meets
    the clusters. *)
Definition sensitive : FuncOp :=
  mkFuncOp "main"
    [simpleOp 1 "p" [BlockArgument 0] [];
     simpleOp 2 "q" [OpResult 1 0] [];
     simpleOp 3 "r" [OpResult 1 0] [];
     simpleOp 7 "h1" [OpResult 3 0] [("device", "host")];
     simpleOp 4 "s" [OpResult 7 0; OpResult 2 0] [];
     simpleOp 5 "a" [BlockArgument 0] [];
     simpleOp 8 "h2" [OpResult 5 0] [("device", "host")];
     simpleOp 6 "b" [OpResult 8 0] [];
     simpleOp 9 "c" [OpResult 8 0] []]
    (returnOp 15 [OpResult 4 0; OpResult 6 0; OpResult 9 0]).

(** Helpers whose [DenseMap] is iterated in another order when it holds an
    address from 16 on: the order of [exampleHelpers] for the operations of
    [sensitive], the reverse order for those of its clones. *)
Definition addressHelpers : Helpers := {|
  isMhloConstantLike := @isMhloConstantLike exampleHelpers;
  isSplatMhloConstantLike := @isSplatMhloConstantLike exampleHelpers;
  replicateDefiningOp := @replicateDefiningOp exampleHelpers;
  getInputsOfCluster := @getInputsOfCluster exampleHelpers;
  getOutputsOfCluster := @getOutputsOfCluster exampleHelpers;
  getHostAnchorName := @getHostAnchorName exampleHelpers;
  denseMapOrder := λ l, if existsb (λ p, bool_decide (16 ≤ p)) l then reverse l else l;
|}.

(** * Proofs *)

(** ** The forest of clusters *)

Lemma resolves_dom m d k r : resolves m d k r → k ∈ dom m.
Proof. destruct 1; apply elem_of_dom; eauto. Qed.

Lemma resolves_isRoot m d k r : resolves m d k r → isRoot m r.
Proof. induction 1; [exists c; auto | done]. Qed.

Lemma resolves_det m d k r d' r' :
  resolves m d k r → resolves m d' k r' → r = r' ∧ d = d'.
Proof.
  intros H. revert d' r'. induction H as [k c Hk Hc | k c p d r Hk Hc Hp IH];
    intros d' r' H'; inversion H'; simplify_eq; auto.
  match goal with H : resolves _ _ p _ |- _ => destruct (IH _ _ H); subst; auto end.
Qed.

Lemma isRoot_resolves m r : isRoot m r → resolves m 0 r r.
Proof. intros (c & ? & ?). by eapply resolves_root. Qed.

Lemma isRoot_not_linked m k : isRoot m k → linked m k → False.
Proof. intros (c & ? & ?) (c' & p & ? & ?). simplify_eq. Qed.

Lemma resolves_ext m m' d k r :
  (∀ k, mergedInto <$> m' !! k = mergedInto <$> m !! k) →
  resolves m d k r → resolves m' d k r.
Proof.
  intros Hext. induction 1 as [k c Hk Hc | k c p d r Hk Hc Hp IH].
  - specialize (Hext k). rewrite Hk in Hext. simpl in Hext.
    destruct (m' !! k) as [c'|] eqn:E; simplify_eq/=.
    eapply resolves_root; eauto. congruence.
  - specialize (Hext k). rewrite Hk in Hext. simpl in Hext.
    destruct (m' !! k) as [c'|] eqn:E; simplify_eq/=.
    eapply resolves_link; eauto. congruence.
Qed.

Lemma same_forest_refl m : same_forest m m.
Proof. split; eauto. Qed.

Lemma same_forest_trans m1 m2 m3 :
  same_forest m1 m2 → same_forest m2 m3 → same_forest m1 m3.
Proof.
  intros [A1 B1 C1 D1] [A2 B2 C2 D2]. split.
  - intros k. by rewrite A2.
  - intros k. by rewrite B2.
  - intros d k r H. apply C1 in H as (d1 & ? & H). apply C2 in H as (d2 & ? & H).
    exists d2. split; [lia | done].
  - intros d k r H. apply D2 in H as (d1 & H). by apply D1 in H.
Qed.

Lemma same_forest_dom m m' : same_forest m m' → dom m' = dom m.
Proof.
  intros [A _ _ _]. apply set_eq. intros k. rewrite !elem_of_dom.
  specialize (A k). rewrite <-!(fmap_is_Some operations). by rewrite A.
Qed.

Lemma same_forest_isRoot m m' k : same_forest m m' → isRoot m' k ↔ isRoot m k.
Proof.
  intros [A B _ _]. specialize (A k). specialize (B k). unfold isRoot, linked in *.
  destruct (m !! k) as [c|] eqn:E, (m' !! k) as [c'|] eqn:E'; simplify_eq/=;
    try (split; intros (? & ? & ?); simplify_eq; fail).
  destruct (mergedInto c) as [p|] eqn:Ec, (mergedInto c') as [p'|] eqn:Ec'.
  - split; intros (? & ? & ?); simplify_eq.
  - exfalso. destruct B as [_ B]. destruct B as (? & ? & ? & ?); eauto. simplify_eq.
  - exfalso. destruct B as [B _]. destruct B as (? & ? & ? & ?); eauto. simplify_eq.
  - split; intros _; eauto.
Qed.

(** Path compression: pointing a linked cluster at its root. *)
Lemma relink_same_forest m k c p d r :
  m !! k = Some c → mergedInto c = Some p → resolves m d p r →
  same_forest m (alter (setMergedInto (Some r)) k m).
Proof.
  intros Hk Hc Hp.
  assert (Hr : isRoot m r) by eauto using resolves_isRoot.
  assert (Hrk : r ≠ k).
  { intros ->. destruct Hr as (? & ? & ?). simplify_eq. }
  assert (Hr' : resolves (alter (setMergedInto (Some r)) k m) 0 r r).
  { destruct Hr as (cr & ? & ?). eapply resolves_root; [|done].
    by rewrite lookup_alter_ne. }
  split.
  - intros j. rewrite lookup_alter. case_decide; subst; [|done].
    by destruct (m !! j).
  - intros j. unfold linked. rewrite lookup_alter. case_decide; subst; [|done].
    rewrite Hk. simpl. split; intros _; eauto.
  - intros d' k' r'. induction 1 as [k' c' Hk' Hc' | k' c' p' d' r' Hk' Hc' Hp' IH].
    + exists 0. split; [done|]. eapply resolves_root; [|done].
      rewrite lookup_alter_ne; [done|]. intros ->. simplify_eq.
    + destruct IH as (d2 & Hle & IH). destruct (decide (k' = k)) as [->|Hne].
      * simplify_eq. destruct (resolves_det _ _ _ _ _ _ Hp Hp') as [-> ->].
        exists 1. split; [lia|]. eapply resolves_link; [| |exact Hr'].
        -- rewrite lookup_alter_eq, Hk. done.
        -- done.
      * exists (S d2). split; [lia|]. eapply resolves_link; [| |exact IH]; [|done].
        by rewrite lookup_alter_ne.
  - intros d' k' r'. induction 1 as [k' c' Hk' Hc' | k' c' p' d' r' Hk' Hc' Hp' IH].
    + exists 0. rewrite lookup_alter in Hk'. case_decide; subst.
      * rewrite Hk in Hk'. simplify_eq/=.
      * by eapply resolves_root.
    + destruct IH as (d2 & IH). rewrite lookup_alter in Hk'. case_decide; subst.
      * rewrite Hk in Hk'. simplify_eq/=.
        destruct (resolves_det _ _ _ _ _ _ IH (isRoot_resolves _ _ Hr)) as [-> _].
        exists (S d). by eapply resolves_link.
      * exists (S d2). by eapply resolves_link.
Qed.

Lemma getRoot_fuel_spec fuel m k r m' :
  getRoot_fuel fuel m k = Some (r, m') →
  same_forest m m' ∧ ∃ d, resolves m d k r.
Proof.
  revert m k r m'. induction fuel as [|n IH]; intros m k r m' H; simpl in H.
  - destruct (m !! k) as [c|] eqn:Hk; simplify_eq/=.
    destruct (mergedInto c) eqn:Hc; simplify_eq/=.
    split; [apply same_forest_refl|]. exists 0. by eapply resolves_root.
  - destruct (m !! k) as [c|] eqn:Hk; simplify_eq/=.
    destruct (mergedInto c) as [p|] eqn:Hc; simplify_eq/=.
    + destruct (getRoot_fuel n m p) as [[r1 m1]|] eqn:Hrec; simplify_eq/=.
      apply IH in Hrec as [Hsf (d & Hd)]. split.
      * eapply same_forest_trans; [exact Hsf|].
        pose proof (sf_operations _ _ Hsf k) as Hop.
        pose proof (proj2 (sf_linked _ _ Hsf k)) as Hl.
        destruct Hl as (c1 & p1 & Hk1 & Hc1); [by exists c, p|].
        destruct (sf_resolves _ _ Hsf _ _ _ (resolves_link _ _ _ _ _ _ Hk Hc Hd))
          as (d1 & _ & Hd1).
        inversion Hd1; simplify_eq.
        eapply relink_same_forest; eauto.
      * exists (S d). by eapply resolves_link.
    + split; [apply same_forest_refl|]. exists 0. by eapply resolves_root.
Qed.

Lemma getRoot_fuel_total fuel m d k r :
  resolves m d k r → d ≤ fuel → ∃ m', getRoot_fuel fuel m k = Some (r, m').
Proof.
  intros H. revert fuel. induction H as [k c Hk Hc | k c p d r Hk Hc Hp IH];
    intros fuel Hle.
  - exists m. destruct fuel; simpl; rewrite Hk; simpl; by rewrite Hc.
  - destruct fuel as [|n]; [lia|]. destruct (IH n) as (m1 & Hm1); [lia|].
    eexists. simpl. rewrite Hk. simpl. rewrite Hc, Hm1. simpl. done.
Qed.

Lemma NoDup_length_le_size (m : OpClusterMap) (l : list OpPtr) :
  NoDup l → (∀ k, k ∈ l → k ∈ dom m) → length l ≤ size m.
Proof.
  intros Hnd Hin. rewrite <-size_dom. unfold size, set_size. simpl.
  apply submseteq_length, NoDup_submseteq; [done|].
  intros x Hx. apply elem_of_elements. auto.
Qed.

Lemma getRoot_total m k :
  forest m → k ∈ dom m →
  ∃ r m', getRoot m k = Some (r, m') ∧ same_forest m m' ∧ ∃ d, resolves m d k r.
Proof.
  intros Hf Hk. destruct (forest_depth _ Hf) as (l & Hnd & Hl & Hres).
  destruct (Hres k Hk) as (d & r & Hd & Hle).
  destruct (getRoot_fuel_total (size m) m d k r Hd) as (m' & Hm').
  { etrans; [exact Hle|]. apply NoDup_length_le_size; [done|].
    intros j Hj. destruct (Hl j Hj) as (? & ? & ? & ?). apply elem_of_dom. eauto. }
  exists r, m'. split; [done|]. apply getRoot_fuel_spec in Hm' as [? ?]. eauto.
Qed.

(** ** The move sets *)

Lemma mates_same_forest m m' o o' :
  same_forest m m' → mates m' o o' ↔ mates m o o'.
Proof.
  intros Hsf. split; intros (r & d & d' & H1 & H2).
  - apply (sf_resolves_inv _ _ Hsf) in H1 as (? & ?), H2 as (? & ?).
    by eexists _, _, _.
  - apply (sf_resolves _ _ Hsf) in H1 as (? & _ & ?), H2 as (? & _ & ?).
    by eexists _, _, _.
Qed.

(** The operation list of a root is the set of the operations that resolve
    to it. *)
Lemma root_operations m m' r c d o :
  forest m → same_forest m m' → resolves m d o r → m' !! r = Some c →
  ∀ o', o' ∈ operations c ↔ mates m o o'.
Proof.
  intros Hf Hsf Ho Hc o'.
  assert (Hr : isRoot m r) by eauto using resolves_isRoot.
  destruct Hr as (c0 & Hc0 & Hroot).
  pose proof (sf_operations _ _ Hsf r) as Hop. rewrite Hc, Hc0 in Hop.
  simplify_eq/=. rewrite Hop, (forest_ops _ Hf r c0 Hc0 Hroot). split.
  - intros (d' & Hd'). by exists r, d, d'.
  - intros (r' & d1 & d2 & H1 & H2).
    destruct (resolves_det _ _ _ _ _ _ Ho H1) as [-> _]. eauto.
Qed.

Lemma sv_insert_elem x y l : y ∈ sv_insert x l ↔ y = x ∨ y ∈ l.
Proof.
  unfold sv_insert. case_decide; [|rewrite elem_of_app, list_elem_of_singleton];
    naive_solver.
Qed.

Lemma sv_insert_NoDup x l : NoDup l → NoDup (sv_insert x l).
Proof.
  unfold sv_insert. case_decide; [done|]. intros. apply NoDup_app.
  split_and!; [done| |apply NoDup_singleton].
  intros y Hy ->%list_elem_of_singleton. done.
Qed.

Lemma sv_remove_elem x y l : y ∈ sv_remove x l ↔ y ≠ x ∧ y ∈ l.
Proof.
  unfold sv_remove. rewrite !list_elem_of_In, filter_In, bool_decide_eq_true.
  naive_solver.
Qed.

Lemma sv_insert_range_elem l xs y : y ∈ sv_insert_range l xs ↔ y ∈ l ∨ y ∈ xs.
Proof.
  unfold sv_insert_range. revert l. induction xs as [|x xs IH]; intros l; simpl.
  - rewrite elem_of_nil. naive_solver.
  - rewrite IH, sv_insert_elem, elem_of_cons. naive_solver.
Qed.

Lemma sv_insert_range_NoDup l xs : NoDup l → NoDup (sv_insert_range l xs).
Proof.
  unfold sv_insert_range. revert l. induction xs as [|x xs IH]; intros l Hl; simpl;
    [done|]. by apply IH, sv_insert_NoDup.
Qed.

Lemma foldl_fun_ext {A B} (f g : A → B → A) (a : A) (l : list B) :
  (∀ a b, f a b = g a b) → foldl f a l = foldl g a l.
Proof.
  intros Hfg. revert a. induction l as [|b l IH]; intros a; simpl; [done|].
  by rewrite Hfg.
Qed.

Lemma foldl_None {A B} (f : option A → B → option A) (l : list B) :
  (∀ b, f None b = None) → foldl f None l = None.
Proof. intros Hf. induction l; simpl; [done|]. by rewrite Hf. Qed.

Lemma pullCluster_fold vec l remain move remain' move' :
  foldl (pullCluster vec) (Some (remain, move)) l = Some (remain', move') →
  remain' = remain ++ l ∧
  (∀ x, x ∈ move' ↔ x ∈ move ∧ x ∉ l) ∧
  (∀ x, x ∈ l → x ∈ vec) ∧
  (∀ x, x ∈ l → x ∉ remain) ∧
  NoDup l.
Proof.
  revert remain move. induction l as [|x l IH]; intros remain move H; simpl in H.
  - simplify_eq. rewrite app_nil_r.
    split_and!; [done| |by intros ? ?%elem_of_nil..|apply NoDup_nil_2].
    intros x. rewrite elem_of_nil. naive_solver.
  - destruct (decide (x ∈ vec)) as [Hx|]; simpl in H;
      [|by rewrite foldl_None in H].
    destruct (decide (x ∈ remain)) as [|Hxr]; simpl in H;
      [by rewrite foldl_None in H|].
    apply IH in H as (-> & Hm & Hv & Hr & Hnd). split_and!.
    + by rewrite <-app_assoc.
    + intros y. rewrite Hm, sv_remove_elem, elem_of_cons. naive_solver.
    + intros y [->|?]%elem_of_cons; auto.
    + intros y [->|Hy]%elem_of_cons; [done|]. apply Hr in Hy.
      rewrite elem_of_app in Hy. naive_solver.
    + apply NoDup_cons. split; [|done]. intros Hy. apply Hr in Hy.
      apply Hy, elem_of_app. right. by apply list_elem_of_singleton.
Qed.

Lemma moveUpStep_moveStep f target vec acc p :
  moveUpStep f target vec acc p = moveStep (rejectedUp f target) id vec acc p.
Proof.
  unfold moveUpStep, moveStep, rejectedUp. destruct acc as [[[remain move] m]|]; simpl; [|done].
  case_decide; [done|]. destruct (deref f p); simpl; [|done]. done.
Qed.

Lemma moveDownStep_moveStep f target vec acc p :
  moveDownStep f target vec acc p = moveStep (rejectedDown f target) reverse vec acc p.
Proof.
  unfold moveDownStep, moveStep, rejectedDown. destruct acc as [[[remain move] m]|]; simpl; [|done].
  case_decide; done.
Qed.

Section MoveStep.
Variable rejected : list OpPtr → OpPtr → option bool.
Variable order : list OpPtr → list OpPtr.
Hypothesis order_elem : ∀ l x, x ∈ order l ↔ x ∈ l.
Variable vec : list OpPtr.
Variable m0 : OpClusterMap.
Hypothesis m0_forest : forest m0.

(** A rejected operation that has a cluster takes its whole cluster along:
    after the step every cluster-mate is in [remain] and none is in the move
    set, whatever was there before. *)
Lemma moveStep_rejected remain move m p remain' move' m' :
  same_forest m0 m →
  moveStep rejected order vec (Some (remain, move, m)) p = Some (remain', move', m') →
  p ∉ remain → rejected remain p = Some true → is_Some (m !! p) →
  ∃ cluster,
    (∀ x, x ∈ cluster ↔ mates m0 p x) ∧
    same_forest m m' ∧
    remain' = remain ++ order cluster ∧
    (∀ x, x ∈ move' ↔ x ∈ move ∧ x ∉ cluster) ∧
    (∀ x, x ∈ cluster → x ∈ vec ∧ x ∉ remain) ∧
    NoDup (order cluster).
Proof.
  intros Hsf H Hp Hrej [c Hc]. unfold moveStep in H. simpl in H.
  rewrite decide_False in H by done. rewrite Hrej in H. simpl in H.
  rewrite Hc in H.
  destruct (getRoot m p) as [[r m1]|] eqn:Hroot; simpl in H; [|done].
  destruct (m1 !! r) as [cl|] eqn:Hcl; simpl in H; [|done].
  destruct (foldl _ _ _) as [[rem mv]|] eqn:Hfold; simpl in H; [|done].
  simplify_eq.
  apply getRoot_fuel_spec in Hroot as [Hsf' (d & Hd)].
  apply pullCluster_fold in Hfold as (-> & Hm & Hv & Hr & Hnd).
  apply (sf_resolves_inv _ _ Hsf) in Hd as (d0 & Hd0).
  exists (operations cl). split_and!; [|done|done|..|done].
  - eapply root_operations; [done| |exact Hd0|done].
    by eapply same_forest_trans.
  - intros y. rewrite Hm, order_elem. done.
  - intros y Hy. rewrite <-order_elem in Hy. auto.
Qed.

Lemma mates_refl_dom m p :
  same_forest m0 m → is_Some (m !! p) → mates m0 p p.
Proof.
  intros Hsf Hp. assert (Hd : p ∈ dom m) by (by apply elem_of_dom).
  rewrite (same_forest_dom _ _ Hsf) in Hd.
  destruct (forest_depth _ m0_forest) as (l & _ & _ & Hres).
  destruct (Hres p Hd) as (d & r & Hd' & _). by exists r, d, d.
Qed.

Lemma mates_trans o1 o2 o3 : mates m0 o1 o2 → mates m0 o2 o3 → mates m0 o1 o3.
Proof.
  intros (r & d1 & d2 & H1 & H2) (r' & d3 & d4 & H3 & H4).
  destruct (resolves_det _ _ _ _ _ _ H2 H3) as [-> _]. by exists r', d1, d4.
Qed.

Lemma mates_sym o1 o2 : mates m0 o1 o2 → mates m0 o2 o1.
Proof. intros (r & d1 & d2 & H1 & H2). by exists r, d2, d1. Qed.

Lemma moveStep_inv pre remain move m p remain' move' m' :
  moveInv vec m0 pre remain move m → p ∉ pre → p ∈ vec →
  moveStep rejected order vec (Some (remain, move, m)) p = Some (remain', move', m') →
  moveInv vec m0 (pre ++ [p]) remain' move' m'.
Proof.
  intros [Hsf Hmv Hrm Hvis Hcl Hnd] Hpre Hvec H.
  destruct (decide (p ∈ remain)) as [Hp|Hp].
  { unfold moveStep in H. simpl in H. rewrite decide_True in H by done.
    simplify_eq. split; try done.
    - intros x Hx. destruct (Hmv x Hx). rewrite elem_of_app. auto.
    - intros x [Hx| ->%list_elem_of_singleton]%elem_of_app; auto. }
  destruct (rejected remain p) as [[]|] eqn:Hrej.
  - destruct (m !! p) as [c|] eqn:Hc.
    + destruct (moveStep_rejected _ _ _ _ _ _ _ Hsf H Hp Hrej)
        as (cl & Hcl' & Hsf' & Hrem & Hm' & Hv' & Hnd'); [by eauto|]. subst remain'.
      assert (Hpp : p ∈ cl) by (apply Hcl'; eapply mates_refl_dom; eauto).
      split.
      * by eapply same_forest_trans.
      * intros x. rewrite Hm', !elem_of_app, order_elem. intros [Hx Hnm].
        destruct (Hmv x Hx). naive_solver.
      * intros x. rewrite elem_of_app, order_elem. intros [?|Hx]; [auto|].
        by apply Hv'.
      * intros x. rewrite Hm', !elem_of_app, order_elem.
        intros [Hx| ->%list_elem_of_singleton]; [|auto].
        destruct (decide (x ∈ cl)); [auto|].
        destruct (Hvis x Hx) as [?|?]; auto.
      * intros o o'. rewrite !elem_of_app, !order_elem. intros [Ho|Ho] Hm1.
        -- left. eauto.
        -- right. apply Hcl'. apply Hcl' in Ho. eauto using mates_trans.
      * apply NoDup_app. split_and!; [done| |done].
        intros x Hx Hx'. apply (proj1 (order_elem _ _)) in Hx'.
        by destruct (Hv' x Hx').
    + unfold moveStep in H. simpl in H. rewrite decide_False in H by done.
      rewrite Hrej in H. simpl in H. rewrite Hc in H. simplify_eq. split.
      * done.
      * intros x Hx. destruct (Hmv x Hx). rewrite sv_insert_elem, elem_of_app.
        split; [auto|]. intros [->|?]; done.
      * intros x [->|?]%sv_insert_elem; auto.
      * intros x. rewrite sv_insert_elem.
        intros [Hx| ->%list_elem_of_singleton]%elem_of_app; [|auto].
        destruct (Hvis x Hx); auto.
      * intros o o'. rewrite !sv_insert_elem. intros [->|Ho] Hm1; [|eauto].
        exfalso. destruct Hm1 as (r & d1 & d2 & H1 & _).
        apply (sf_resolves _ _ Hsf) in H1 as (? & _ & H1).
        apply resolves_dom, elem_of_dom in H1 as [? ?]. congruence.
      * by apply sv_insert_NoDup.
  - unfold moveStep in H. simpl in H. rewrite decide_False in H by done.
    rewrite Hrej in H. simpl in H. simplify_eq. split.
    + done.
    + intros x [->|Hx]%sv_insert_elem; rewrite elem_of_app.
      * split; [right; by apply list_elem_of_singleton|done].
      * destruct (Hmv x Hx). auto.
    + done.
    + intros x. rewrite sv_insert_elem.
      intros [Hx| ->%list_elem_of_singleton]%elem_of_app; [|auto].
      destruct (Hvis x Hx); auto.
    + done.
    + done.
  - unfold moveStep in H. simpl in H. rewrite decide_False in H by done.
    rewrite Hrej in H. done.
Qed.

Lemma moveStep_None p : moveStep rejected order vec None p = None.
Proof. done. Qed.

End MoveStep.

Lemma moveInv_init vec m : forest m → moveInv vec m [] [] [] m.
Proof.
  intros Hf. split; [apply same_forest_refl|..|apply NoDup_nil_2].
  - by intros ? ?%elem_of_nil.
  - by intros ? ?%elem_of_nil.
  - by intros ? ?%elem_of_nil.
  - by intros ? ? ?%elem_of_nil.
Qed.

Lemma moveInv_split m src pre remain move m' :
  (∀ x, x ∈ pre ↔ x ∈ src) → moveInv src m pre remain move m' →
  moveSplit m src remain move m'.
Proof.
  intros Hpre [Hsf Hmv Hrm Hvis Hcl Hnd]. split; try done.
  - intros x. split.
    + intros Hx. apply Hvis, Hpre, Hx.
    + intros [Hx|Hx]; [apply Hpre, Hmv, Hx|by apply Hrm].
  - intros x Hx. by destruct (Hmv x Hx).
Qed.



(** ** Merges and the forest *)

Lemma forest_same_forest m m' : forest m → same_forest m m' → forest m'.
Proof.
  intros Hf Hsf. destruct (forest_depth _ Hf) as (l & Hnd & Hl & Hres). split.
  - exists l. split_and!; [done|..].
    + intros k Hk. by apply (sf_linked _ _ Hsf), Hl.
    + intros k Hk. rewrite (same_forest_dom _ _ Hsf) in Hk.
      destruct (Hres k Hk) as (d & r & Hd & Hle).
      apply (sf_resolves _ _ Hsf) in Hd as (d' & ? & ?). exists d', r. split; [done|lia].
  - intros r c' Hc' Hroot o.
    assert (Hr : isRoot m r) by (apply (same_forest_isRoot _ _ _ Hsf); by exists c').
    destruct Hr as (c & Hc & Hroot0).
    pose proof (sf_operations _ _ Hsf r) as Hop. rewrite Hc, Hc' in Hop. simplify_eq/=.
    rewrite Hop, (forest_ops _ Hf r c Hc Hroot0). split; intros (d & Hd).
    + apply (sf_resolves _ _ Hsf) in Hd as (d' & _ & ?). eauto.
    + apply (sf_resolves_inv _ _ Hsf) in Hd as (d' & ?). eauto.
  - intros k c' Hc' [p Hp].
    assert (Hl' : linked m k) by (apply (sf_linked _ _ Hsf); by exists c', p).
    destruct Hl' as (c & p0 & Hc & Hp0).
    pose proof (sf_operations _ _ Hsf k) as Hop. rewrite Hc, Hc' in Hop. simplify_eq/=.
    rewrite Hop. eapply (forest_linked _ Hf); eauto.
  - intros k c' Hc'.
    pose proof (sf_operations _ _ Hsf k) as Hop. rewrite Hc' in Hop.
    destruct (m !! k) as [c|] eqn:Hc; simplify_eq/=. rewrite Hop.
    by eapply (forest_nodup _ Hf).
Qed.

Lemma lookup_linkClusters from to merged m cf ct k :
  from ≠ to → m !! from = Some cf → m !! to = Some ct →
  linkClusters from to merged m !! k =
    if decide (k = from) then Some (mkCluster [] (Some to))
    else if decide (k = to) then Some (mkCluster merged (mergedInto ct))
    else m !! k.
Proof.
  intros Hne Hf Ht. unfold linkClusters. rewrite !lookup_alter.
  repeat case_decide; simplify_eq; rewrite ?Hf, ?Ht; done.
Qed.

Lemma link_lookup_other from to merged m cf ct k :
  linkable from to m cf ct → k ≠ from → mergedInto <$> (linkClusters from to merged m) !! k = mergedInto <$> m !! k.
Proof.
  intros [Hne Hfrom Hto Hfrom_root Hto_root] Hk. rewrite (lookup_linkClusters _ _ _ _ cf ct) by done.
  rewrite decide_False by done. case_decide; subst; [by rewrite Hto|done].
Qed.

Lemma link_to_root from to merged m cf ct :
  linkable from to m cf ct → resolves (linkClusters from to merged m) 0 to to.
Proof.
  intros [Hne Hfrom Hto Hfrom_root Hto_root].
  eapply resolves_root.
  - rewrite (lookup_linkClusters _ _ _ _ cf ct) by done.
    rewrite decide_False, decide_True by done. done.
  - done.
Qed.

Lemma link_resolves from to merged m cf ct d k r :
  linkable from to m cf ct → resolves m d k r →
  resolves (linkClusters from to merged m) (if decide (r = from) then S d else d) k (if decide (r = from) then to else r).
Proof.
  intros Hlk. pose proof Hlk as [Hne Hfrom Hto Hfrom_root Hto_root].
  induction 1 as [k c Hk Hc | k c p d r Hk Hc Hp IH].
  - case_decide; subst.
    + eapply resolves_link; [| |apply (link_to_root _ _ merged _ _ _ Hlk)].
      * rewrite (lookup_linkClusters _ _ _ _ cf ct) by done.
        by rewrite decide_True.
      * done.
    + pose proof (link_lookup_other _ _ merged _ _ _ k Hlk H) as Hl. rewrite Hk in Hl. simpl in Hl.
      destruct ((linkClusters from to merged m) !! k) as [c'|] eqn:Hc'; simplify_eq/=.
      eapply resolves_root; [done|congruence].
  - assert (k ≠ from) by (intros ->; simplify_eq).
    pose proof (link_lookup_other _ _ merged _ _ _ k Hlk H) as Hl. rewrite Hk in Hl. simpl in Hl.
    destruct ((linkClusters from to merged m) !! k) as [c'|] eqn:Hc'; simplify_eq/=.
    case_decide; (eapply (resolves_link _ _ c' p); [done|congruence|done]).
Qed.

Lemma link_resolves_inv from to merged m cf ct d k r :
  linkable from to m cf ct → resolves (linkClusters from to merged m) d k r →
  ∃ d', (resolves m d' k r ∧ r ≠ from) ∨ (r = to ∧ resolves m d' k from).
Proof.
  intros Hlk. pose proof Hlk as [Hne Hfrom Hto Hfrom_root Hto_root].
  induction 1 as [k c Hk Hc | k c p d r Hk Hc Hp IH].
  - assert (k ≠ from).
    { intros ->. rewrite (lookup_linkClusters _ _ _ _ cf ct), decide_True in Hk by done.
      simplify_eq/=. }
    pose proof (link_lookup_other _ _ merged _ _ _ k Hlk H) as Hl. rewrite Hk in Hl. simpl in Hl.
    destruct (m !! k) as [c0|] eqn:Hc0; simplify_eq/=.
    exists 0. left. split; [|done]. eapply resolves_root; [done|congruence].
  - destruct (decide (k = from)) as [->|Hk'].
    + rewrite (lookup_linkClusters _ _ _ _ cf ct), decide_True in Hk by done.
      simplify_eq/=.
      destruct (resolves_det _ _ _ _ _ _ Hp (link_to_root _ _ merged _ _ _ Hlk)) as [-> _].
      exists 0. right. split; [done|]. by eapply resolves_root.
    + pose proof (link_lookup_other _ _ merged _ _ _ k Hlk Hk') as Hl. rewrite Hk in Hl. simpl in Hl.
      destruct (m !! k) as [c0|] eqn:Hc0; simplify_eq/=.
      destruct IH as (d' & [[IH ?]|[-> IH]]); exists (S d').
      * left. split; [|done]. eapply (resolves_link _ _ c0 p); [done|congruence|done].
      * right. split; [done|]. eapply (resolves_link _ _ c0 p); [done|congruence|done].
Qed.

Lemma link_forest from to merged m cf ct :
  linkable from to m cf ct → forest m → NoDup merged →
  (∀ o, o ∈ merged ↔ o ∈ operations cf ∨ o ∈ operations ct) →
  forest (linkClusters from to merged m).
Proof.
  intros Hlk Hf Hnd Hmerged. pose proof Hlk as [Hne Hfrom Hto Hfrom_root Hto_root].
  destruct (forest_depth _ Hf) as (l & Hndl & Hl & Hres).
  assert (Hdom : dom (linkClusters from to merged m) = dom m).
  { unfold linkClusters. by rewrite !dom_alter_L. }
  split.
  - exists (from :: l). split_and!.
    + apply NoDup_cons. split; [|done]. intros Hin. apply Hl in Hin.
      eapply isRoot_not_linked; [|exact Hin]. by exists cf.
    + intros k [->|Hk]%elem_of_cons.
      * exists (mkCluster [] (Some to)), to. split; [|done]. rewrite (lookup_linkClusters _ _ _ _ cf ct) by done. by rewrite decide_True.
      * destruct (Hl k Hk) as (c & p & Hc & Hp).
        assert (k ≠ from) by (intros ->; simplify_eq).
        pose proof (link_lookup_other _ _ merged _ _ _ k Hlk H) as Hlk2. rewrite Hc in Hlk2. simpl in Hlk2.
        destruct ((linkClusters from to merged m) !! k) as [c'|] eqn:Hc'; simplify_eq/=.
        exists c', p. split; [done|congruence].
    + intros k Hk. rewrite Hdom in Hk. destruct (Hres k Hk) as (d & r & Hd & Hle).
      apply (link_resolves _ _ merged _ _ _ _ _ _ Hlk) in Hd. eexists _, _. split; [exact Hd|].
      simpl. case_decide; lia.
  - intros r c Hc Hroot o. rewrite (lookup_linkClusters _ _ _ _ cf ct) in Hc by done.
    destruct (decide (r = from)) as [->|Hrf]; [simplify_eq/=|].
    destruct (decide (r = to)) as [->|Hrt]; simplify_eq/=.
    + rewrite Hmerged, (forest_ops _ Hf from cf Hfrom Hfrom_root),
        (forest_ops _ Hf to ct Hto Hto_root). split.
      * intros [(d & Hd)|(d & Hd)]; apply (link_resolves _ _ merged _ _ _ _ _ _ Hlk) in Hd.
        -- rewrite !decide_True in Hd by done. eauto.
        -- rewrite !decide_False in Hd by done. eauto.
      * intros (d & Hd). apply (link_resolves_inv _ _ merged _ _ _ _ _ _ Hlk) in Hd as (d' & [[? ?]|[_ ?]]); eauto.
    + rewrite (forest_ops _ Hf r c Hc Hroot). split.
      * intros (d & Hd). apply (link_resolves _ _ merged _ _ _ _ _ _ Hlk) in Hd.
        rewrite !decide_False in Hd by done. eauto.
      * intros (d & Hd). apply (link_resolves_inv _ _ merged _ _ _ _ _ _ Hlk) in Hd as (d' & [[? ?]|[? ?]]);
          [eauto|done].
  - intros k c Hc Hp. rewrite (lookup_linkClusters _ _ _ _ cf ct) in Hc by done.
    destruct (decide (k = from)) as [->|Hkf]; [by simplify_eq/=|].
    destruct (decide (k = to)) as [->|Hkt]; simplify_eq/=.
    + rewrite Hto_root in Hp. by destruct Hp.
    + by eapply (forest_linked _ Hf).
  - intros k c Hc. rewrite (lookup_linkClusters _ _ _ _ cf ct) in Hc by done.
    destruct (decide (k = from)) as [->|Hkf]; [simplify_eq/=; apply NoDup_nil_2|].
    destruct (decide (k = to)) as [->|Hkt]; simplify_eq/=; [done|].
    by eapply (forest_nodup _ Hf).
Qed.

(** The two computations only compress paths. *)
Lemma moveStep_same_forest rejected order vec remain move m p remain' move' m' :
  moveStep rejected order vec (Some (remain, move, m)) p = Some (remain', move', m') →
  same_forest m m'.
Proof.
  unfold moveStep. simpl. intros H. case_decide; [simplify_eq; apply same_forest_refl|].
  destruct (rejected remain p) as [[]|]; simpl in H; [| |done].
  - destruct (m !! p); [|simplify_eq; apply same_forest_refl].
    destruct (getRoot m p) as [[r m1]|] eqn:Hroot; simpl in H; [|done].
    destruct (m1 !! r) as [cl|] eqn:Hcl; simpl in H; [|done].
    destruct (foldl _ _ _) as [[rem mv]|] eqn:Hfold; simpl in H; [|done].
    simplify_eq. by apply getRoot_fuel_spec in Hroot as [? _].
  - simplify_eq. apply same_forest_refl.
Qed.

Lemma moveFold_same_forest rejected order vec l remain move m remain' move' m' :
  foldl (moveStep rejected order vec) (Some (remain, move, m)) l
    = Some (remain', move', m') →
  same_forest m m'.
Proof.
  revert remain move m. induction l as [|p l IH]; intros remain move m H.
  - simpl in H. simplify_eq. apply same_forest_refl.
  - cbn [foldl] in H.
    destruct (moveStep rejected order vec (Some (remain, move, m)) p)
      as [[[remain1 move1] m1]|] eqn:Hstep; [|by rewrite foldl_None in H].
    eapply same_forest_trans; [by eapply moveStep_same_forest|by eapply IH].
Qed.

Lemma computeMoveUpSet_same_forest f target src move0 m remain move m' :
  computeMoveUpSet f target src move0 m = Some (remain, move, m') → same_forest m m'.
Proof.
  unfold computeMoveUpSet.
  rewrite (foldl_fun_ext _ _ _ _ (moveUpStep_moveStep f target src)).
  apply moveFold_same_forest.
Qed.

Lemma computeMoveDownSet_same_forest f target src move0 m remain move m' :
  computeMoveDownSet f target src move0 m = Some (remain, move, m') → same_forest m m'.
Proof.
  unfold computeMoveDownSet. intros H.
  destruct (foldl _ _ _) as [[[remain1 move1] m1]|] eqn:Hfold; simpl in H; [|done].
  simplify_eq.
  rewrite (foldl_fun_ext _ _ _ _ (moveDownStep_moveStep f target src)) in Hfold.
  by eapply moveFold_same_forest.
Qed.

Lemma planMerge_same_forest b f upper lower m plan :
  planMerge b f upper lower m = Some plan → same_forest m (planClusters plan).
Proof.
  unfold planMerge. intros H.
  destruct (last upper); simpl in H; [|done].
  destruct (head lower); simpl in H; [|done].
  destruct (opsBetween f _ _) as [toMove|]; simpl in H; [|done].
  destruct b.
  - destruct (computeMoveUpSet _ _ _ _ _) as [[[t1 up] m1]|] eqn:H1; simpl in H; [|done].
    destruct (computeMoveDownSet _ _ _ _ _) as [[[t2 down] m2]|] eqn:H2; simpl in H; [|done].
    simplify_eq. simpl.
    eapply same_forest_trans;
      [by eapply computeMoveUpSet_same_forest|by eapply computeMoveDownSet_same_forest].
  - destruct (computeMoveDownSet _ _ _ _ _) as [[[t1 down] m1]|] eqn:H1; simpl in H; [|done].
    destruct (computeMoveUpSet _ _ _ _ _) as [[[t2 up] m2]|] eqn:H2; simpl in H; [|done].
    simplify_eq. simpl.
    eapply same_forest_trans;
      [by eapply computeMoveDownSet_same_forest|by eapply computeMoveUpSet_same_forest].
Qed.

(** The shape of a call of [tryMergeInto] that returns. *)
Lemma tryMergeInto_inv from to st ok st' :
  tryMergeInto from to st = Some (ok, st') →
  ∃ cf ct fromIsUpper upper lower plan,
    op2cluster st !! from = Some cf ∧ op2cluster st !! to = Some ct ∧
    isBeforeInBlock (ir st) cf ct = Some fromIsUpper ∧
    ((fromIsUpper = true ∧ upper = operations cf ∧ lower = operations ct) ∨
     (fromIsUpper = false ∧ isBeforeInBlock (ir st) ct cf = Some true ∧
      upper = operations ct ∧ lower = operations cf)) ∧
    planMerge fromIsUpper (ir st) upper lower (op2cluster st) = Some plan ∧
    ((ok = false ∧ residual plan ≠ [] ∧ st' = mkState (ir st) (planClusters plan)) ∨
     (ok = true ∧ residual plan = [] ∧
      commitMerge from to (ir st) upper lower plan = Some st')).
Proof.
  unfold tryMergeInto. intros H.
  destruct (op2cluster st !! from) as [cf|] eqn:Hcf; simpl in H; [|done].
  destruct (op2cluster st !! to) as [ct|] eqn:Hct; simpl in H; [|done].
  destruct (isBeforeInBlock (ir st) cf ct) as [b|] eqn:Hb; simpl in H; [|done].
  exists cf, ct, b.
  assert (∃ upper lower,
    ((b = true ∧ upper = operations cf ∧ lower = operations ct) ∨
     (b = false ∧ isBeforeInBlock (ir st) ct cf = Some true ∧
      upper = operations ct ∧ lower = operations cf)) ∧
    (planMerge b (ir st) upper lower (op2cluster st) ≫= λ plan,
       if negb (bool_decide (residual plan = []))
       then Some (false, mkState (ir st) (planClusters plan))
       else commitMerge from to (ir st) upper lower plan ≫= λ st', Some (true, st'))
    = Some (ok, st')) as (upper & lower & Hul & H').
  { destruct b; simpl in H.
    - exists (operations cf), (operations ct). split; [by left|done].
    - destruct (isBeforeInBlock (ir st) ct cf) as [[]|] eqn:Hb'; simpl in H; [|done..].
      exists (operations ct), (operations cf). split; [by right|done]. }
  clear H. exists upper, lower.
  destruct (planMerge _ _ _ _ _) as [plan|] eqn:Hplan; simpl in H'; [|done].
  exists plan. split_and!; [done..|].
  destruct (bool_decide (residual plan = [])) eqn:Hres; simpl in H'.
  - apply bool_decide_eq_true in Hres.
    destruct (commitMerge _ _ _ _ _ _) as [st1|] eqn:Hcommit; simpl in H'; [|done].
    simplify_eq. by right.
  - apply bool_decide_eq_false in Hres. simplify_eq. by left.
Qed.

Lemma commitMerge_clusters from to f upper lower plan st' :
  commitMerge from to f upper lower plan = Some st' →
  op2cluster st' = linkClusters from to (sv_insert_range upper lower) (planClusters plan).
Proof.
  unfold commitMerge. intros H.
  destruct (head upper); simpl in H; [|done].
  destruct (foldl (moveBefore _) _ _); simpl in H; [|done].
  destruct (last lower); simpl in H; [|done].
  destruct (foldl (moveAfter _) _ _); simpl in H; [|done].
  by simplify_eq.
Qed.

(** A failed directed merge changes neither the block nor the forest. *)
Lemma tryMergeInto_false from to st st' :
  tryMergeInto from to st = Some (false, st') →
  ir st' = ir st ∧ same_forest (op2cluster st) (op2cluster st').
Proof.
  intros H. apply tryMergeInto_inv in H
    as (cf & ct & b & upper & lower & plan & _ & _ & _ & _ & Hplan & [(_ & _ & ->)|(? & _)]);
    [|done].
  split; [done|]. by eapply planMerge_same_forest.
Qed.

(** A directed merge of two distinct roots keeps the invariant. *)
Lemma tryMergeInto_forest from to st ok st' :
  forest (op2cluster st) → from ≠ to →
  isRoot (op2cluster st) from → isRoot (op2cluster st) to →
  tryMergeInto from to st = Some (ok, st') →
  forest (op2cluster st').
Proof.
  intros Hf Hne Hrf Hrt H. destruct ok.
  - apply tryMergeInto_inv in H
      as (cf & ct & b & upper & lower & plan & Hcf & Hct & _ & Hul & Hplan & [(? & _)|(_ & _ & Hc)]);
      [done|].
    apply commitMerge_clusters in Hc. rewrite Hc.
    apply planMerge_same_forest in Hplan.
    pose proof (sf_operations _ _ Hplan from) as Hof.
    pose proof (sf_operations _ _ Hplan to) as Hot.
    rewrite Hcf in Hof. rewrite Hct in Hot.
    destruct (planClusters plan !! from) as [cf'|] eqn:Hcf'; simplify_eq/=.
    destruct (planClusters plan !! to) as [ct'|] eqn:Hct'; simplify_eq/=.
    assert (Hrf' : isRoot (planClusters plan) from) by by apply (same_forest_isRoot _ _ _ Hplan).
    assert (Hrt' : isRoot (planClusters plan) to) by by apply (same_forest_isRoot _ _ _ Hplan).
    destruct Hrf' as (? & ? & Hrf'), Hrt' as (? & ? & Hrt'). simplify_eq.
    assert (Hf' : forest (planClusters plan)) by by eapply forest_same_forest.
    eapply (link_forest from to _ _ cf' ct'); [by split|done|..].
    + apply sv_insert_range_NoDup.
      destruct Hul as [(_ & -> & _)|(_ & _ & -> & _)]; rewrite <-?Hof, <-?Hot;
        by eapply (forest_nodup _ Hf').
    + intros o. rewrite sv_insert_range_elem.
      destruct Hul as [(_ & -> & ->)|(_ & _ & -> & ->)]; rewrite <-?Hof, <-?Hot; tauto.
  - apply tryMergeInto_false in H as [_ Hsf]. by eapply forest_same_forest.
Qed.

(** The shape of a call of [tryMerge] that gets past the guards. *)
Lemma tryMerge_inv lhs rhs st res st' :
  tryMerge lhs rhs st = Some (res, st') →
  (res = None ∧ st' = st) ∨
  ∃ l r ok st1,
    lhs = Some l ∧ rhs = Some r ∧ l ≠ r ∧
    isRoot (op2cluster st) l ∧ isRoot (op2cluster st) r ∧
    tryMergeInto l r st = Some (ok, st1) ∧
    ((ok = true ∧ res = Some r ∧ st' = st1) ∨
     (ok = false ∧ ∃ ok', tryMergeInto r l st1 = Some (ok', st') ∧
        res = if ok' then Some l else None)).
Proof.
  unfold tryMerge. intros H.
  destruct lhs as [l|], rhs as [r|]; try (left; by simplify_eq).
  case_decide; [left; by simplify_eq|].
  destruct (op2cluster st !! l) as [cl|] eqn:Hl; simpl in H; [|done].
  destruct (mergedInto cl) eqn:Hcl; [left; by simplify_eq|].
  destruct (op2cluster st !! r) as [cr|] eqn:Hr; simpl in H; [|done].
  destruct (mergedInto cr) eqn:Hcr; [left; by simplify_eq|].
  destruct (tryMergeInto l r st) as [[ok st1]|] eqn:H1; simpl in H; [|done].
  right. exists l, r, ok, st1. split_and!; [done..|by exists cl|by exists cr|done|].
  destruct ok; [left; by simplify_eq|]. right. split; [done|].
  destruct (tryMergeInto r l st1) as [[ok' st2]|] eqn:H2; simpl in H; [|done].
  exists ok'. destruct ok'; by simplify_eq.
Qed.

Lemma tryMerge_forest lhs rhs st res st' :
  forest (op2cluster st) → tryMerge lhs rhs st = Some (res, st') →
  forest (op2cluster st').
Proof.
  intros Hf H. apply tryMerge_inv in H
    as [[_ ->]|(l & r & ok & st1 & _ & _ & Hne & Hl & Hr & H1 & H)]; [done|].
  assert (Hf1 : forest (op2cluster st1)) by by eapply (tryMergeInto_forest l r st).
  destruct H as [(_ & _ & ->)|(-> & ok' & H2 & _)]; [done|].
  apply tryMergeInto_false in H1 as [_ Hsf].
  eapply (tryMergeInto_forest r l st1); [done|done|..|done];
    by apply (same_forest_isRoot _ _ _ Hsf).
Qed.

Lemma commitMerge_root from to f upper lower plan st' cf ct m :
  same_forest m (planClusters plan) →
  linkable from to m cf ct →
  commitMerge from to f upper lower plan = Some st' →
  isRoot (op2cluster st') to ∧ linked (op2cluster st') from.
Proof.
  intros Hsf [Hne Hf Ht Hfr Htr] Hc. apply commitMerge_clusters in Hc. rewrite Hc.
  pose proof (sf_operations _ _ Hsf from) as Hof.
  pose proof (sf_operations _ _ Hsf to) as Hot.
  rewrite Hf in Hof. rewrite Ht in Hot.
  destruct (planClusters plan !! from) as [cf'|] eqn:Hcf'; simplify_eq/=.
  destruct (planClusters plan !! to) as [ct'|] eqn:Hct'; simplify_eq/=.
  assert (Hrt' : isRoot (planClusters plan) to).
  { apply (same_forest_isRoot _ _ _ Hsf). by exists ct. }
  destruct Hrt' as (? & ? & Hrt'). simplify_eq.
  split.
  - eexists. rewrite (lookup_linkClusters _ _ _ _ cf' ct') by done.
    rewrite decide_False, decide_True by done. split; [done|]. done.
  - eexists _, to. rewrite (lookup_linkClusters _ _ _ _ cf' ct') by done.
    rewrite decide_True by done. done.
Qed.

Section Reachable.
Context {helpers : Helpers}.

Lemma initialClusters_lookup f attrName k c :
  initialClusters f attrName !! k = Some c → c = mkCluster [k] None.
Proof.
  unfold initialClusters. generalize (body f) at 1. intros l.
  assert (Hinit : ∀ k c, (∅ : OpClusterMap) !! k = Some c → c = mkCluster [k] None)
    by (intros ? ?; by rewrite lookup_empty).
  revert Hinit. generalize (∅ : OpClusterMap). revert k c.
  induction l as [|op l IH]; intros k c m Hm; simpl; [apply Hm|].
  apply IH. destruct (isHostOp attrName op); [done|].
  destruct (onlyUsedByHost f attrName op); [done|].
  unfold try_emplace. destruct (m !! opSelf op) eqn:E; [done|].
  intros k' c'. rewrite lookup_insert. case_decide; [|apply Hm].
  intros; by simplify_eq.
Qed.

Lemma initialClusters_forest f attrName : forest (initialClusters f attrName).
Proof.
  assert (Hroot : ∀ k, k ∈ dom (initialClusters f attrName) →
            resolves (initialClusters f attrName) 0 k k).
  { intros k [c Hc]%elem_of_dom. pose proof Hc as ->%initialClusters_lookup.
    by eapply resolves_root. }
  split.
  - exists []. split_and!; [apply NoDup_nil_2|by intros ? ?%elem_of_nil|].
    intros k Hk. exists 0, k. split; [by apply Hroot|done].
  - intros r c Hc _ o. apply initialClusters_lookup in Hc as Hc'. subst c. simpl.
    rewrite list_elem_of_singleton. split.
    + intros ->. exists 0. apply Hroot. apply elem_of_dom. eauto.
    + intros (d & Hd). inversion Hd as [|? c' ? ? ? Hk Hc'' ?]; simplify_eq; [done|].
      apply initialClusters_lookup in Hk. by subst c'.
  - intros k c Hc Hp. apply initialClusters_lookup in Hc. subst c. by destruct Hp.
  - intros k c Hc. apply initialClusters_lookup in Hc. subst c. apply NoDup_singleton.
Qed.

Lemma getCluster_same_forest p m r m' :
  getCluster p m = Some (r, m') → same_forest m m'.
Proof.
  unfold getCluster. intros H. destruct p as [p|]; [|simplify_eq; apply same_forest_refl].
  destruct (m !! p); [|simplify_eq; apply same_forest_refl].
  destruct (getRoot m p) as [[r1 m1]|] eqn:Hr; simpl in H; [|done]. simplify_eq.
  by apply getRoot_fuel_spec in Hr as [? _].
Qed.

Lemma reachable_forest f attrName st :
  reachable f attrName st → forest (op2cluster st).
Proof.
  induction 1 as [|st p r m' _ IH H|st lhs rhs res st' _ IH H].
  - apply initialClusters_forest.
  - simpl. eapply forest_same_forest; [done|]. by eapply getCluster_same_forest.
  - by eapply tryMerge_forest.
Qed.

End Reachable.

(** C10.  The guards of [tryMerge].  For cluster pointers [lhs] and [rhs] that
    are null or the address of a record: when [lhs] is null, [rhs] is null,
    the two are equal, or one of them is not a root (its [mergedInto] is
    set), [tryMerge] returns the null pointer and the state it returns is
    the state it was given, block and cluster records alike.  And whenever
    [tryMerge] returns a cluster, the two arguments were two distinct
    roots. *)
Theorem tryMerge_guards lhs rhs st :
  validPtr (op2cluster st) lhs → validPtr (op2cluster st) rhs →
  (guarded (op2cluster st) lhs rhs → tryMerge lhs rhs st = Some (None, st)) ∧
  (∀ c st', tryMerge lhs rhs st = Some (Some c, st') →
     ∃ l r, lhs = Some l ∧ rhs = Some r ∧ l ≠ r ∧
            isRoot (op2cluster st) l ∧ isRoot (op2cluster st) r).
Proof.
  intros Hl Hr. split.
  - unfold guarded, tryMerge.
    destruct lhs as [l|]; [|done]. destruct rhs as [r|]; [|done].
    case_decide; [done|]. simpl in Hl, Hr. destruct Hl as [cl Hl], Hr as [cr Hr].
    rewrite Hl. simpl.
    intros [?|[?|[?|[(l' & ? & (c & p & Hc & Hp))|(r' & ? & (c & p & Hc & Hp))]]]];
      simplify_eq.
    + by rewrite Hp.
    + destruct (mergedInto cl); [done|]. rewrite Hr. simpl. by rewrite Hp.
  - intros c st' H. apply tryMerge_inv in H
      as [[? _]|(l & r & ok & st1 & -> & -> & Hne & Hrl & Hrr & _)]; [done|].
    by exists l, r.
Qed.

Lemma failedMerge_same_forest st st' :
  failedMerge st st' → ir st' = ir st ∧ same_forest (op2cluster st) (op2cluster st').
Proof.
  intros [(from & to & H)|(lhs & rhs & H)].
  - by apply (tryMergeInto_false from to).
  - apply tryMerge_inv in H
      as [[_ ->]|(l & r & ok & st1 & _ & _ & _ & _ & _ & H1 & H)].
    { split; [done|apply same_forest_refl]. }
    destruct H as [(_ & ? & _)|(-> & ok' & H2 & Hres)]; [done|].
    destruct ok'; [done|].
    apply tryMergeInto_false in H1 as [E1 S1], H2 as [E2 S2].
    split; [congruence|by eapply same_forest_trans].
Qed.

(** C6, as corrected.  A merge attempt that fails ([tryMergeInto] returning
    false, or [tryMerge] returning the null pointer) moves no operation of
    the block, leaves the op list of every record as it was, links no
    cluster that was a root and frees none that was linked, and every
    record resolves to the root it resolved to before.  What it may change
    is the [mergedInto] of a record that was already linked: looking up the
    root of an operation in between compresses its path, so the state
    after the attempt need not be the state before it. *)
Theorem failed_merge_is_noop st st' :
  failedMerge st st' →
  ir st' = ir st ∧
  (∀ k, operations <$> op2cluster st' !! k = operations <$> op2cluster st !! k) ∧
  (∀ k, linked (op2cluster st') k ↔ linked (op2cluster st) k) ∧
  (∀ k, isRoot (op2cluster st') k ↔ isRoot (op2cluster st) k) ∧
  (∀ k r, (∃ d, resolves (op2cluster st') d k r) ↔ (∃ d, resolves (op2cluster st) d k r)).
Proof.
  intros [Hir Hsf]%failedMerge_same_forest. split_and!; [done|..].
  - apply (sf_operations _ _ Hsf).
  - apply (sf_linked _ _ Hsf).
  - intros k. by apply same_forest_isRoot.
  - intros k r. split; intros (d & Hd).
    + by apply (sf_resolves_inv _ _ Hsf) in Hd.
    + apply (sf_resolves _ _ Hsf) in Hd as (d' & _ & ?). eauto.
Qed.

Section UnionFind.
Context {helpers : Helpers}.

(** C9.  Union-find correctness.  In every state that the constructor and
    any sequence of [getCluster] and [tryMerge] calls reach, [getRoot] of a
    tracked operation returns: the cluster [r] it returns is a root, both
    in the map compressed by the lookup and in the map before it, and among
    the roots of either map the operation is in the op list of [r] and of no
    other. *)
Theorem root_is_unique_owner f attrName st o :
  reachable f attrName st → is_Some (op2cluster st !! o) →
  ∃ r m',
    getRoot (op2cluster st) o = Some (r, m') ∧
    (∀ r' c', m' !! r' = Some c' → mergedInto c' = None →
       (o ∈ operations c' ↔ r' = r)) ∧
    (∀ r' c', op2cluster st !! r' = Some c' → mergedInto c' = None →
       (o ∈ operations c' ↔ r' = r)) ∧
    isRoot m' r ∧ isRoot (op2cluster st) r.
Proof.
  intros Hf%reachable_forest Ho%elem_of_dom.
  destruct (getRoot_total _ _ Hf Ho) as (r & m' & Hg & Hsf & d & Hd).
  exists r, m'. split; [done|].
  assert (Huniq : ∀ m1, forest m1 → (∃ d, resolves m1 d o r) →
            ∀ r' c', m1 !! r' = Some c' → mergedInto c' = None →
              (o ∈ operations c' ↔ r' = r)).
  { intros m1 Hf1 (d1 & Hd1) r' c' Hc' Hroot.
    rewrite (forest_ops _ Hf1 r' c' Hc' Hroot). split.
    - intros (d2 & Hd2). by destruct (resolves_det _ _ _ _ _ _ Hd1 Hd2).
    - intros ->. eauto. }
  split_and!.
  - apply Huniq; [by eapply forest_same_forest|].
    apply (sf_resolves _ _ Hsf) in Hd as (d' & _ & ?). eauto.
  - apply Huniq; eauto.
  - apply (same_forest_isRoot _ _ _ Hsf). by eapply resolves_isRoot.
  - by eapply resolves_isRoot.
Qed.
End UnionFind.


(** The operations between two operations are the ones at the positions
    strictly between theirs. *)
Lemma opsBetween_elem f a b l x :
  opsBetween f a b = Some l →
  x ∈ l ↔ ∃ i j k op,
    position (front f) a = Some i ∧ position (front f) b = Some j ∧
    front f !! k = Some op ∧ opSelf op = x ∧ (i < k < j).
Proof.
  unfold opsBetween. intros H.
  destruct (position (front f) a) as [i|]; simpl in H; [|done].
  destruct (position (front f) b) as [j|]; simpl in H; [|done].
  simplify_eq. rewrite sv_insert_range_elem, elem_of_nil, list_elem_of_fmap. split.
  - intros [[]|(op & -> & Hop)]. apply list_elem_of_lookup in Hop as (n & Hn).
    apply lookup_take_Some in Hn as [Hn Hlt]. rewrite lookup_drop in Hn.
    exists i, j, (S i + n), op. split_and!; [done..|lia|lia].
  - intros (i' & j' & k & op & ? & ? & Hk & <- & Hlt). simplify_eq. right.
    exists op. split; [done|]. apply list_elem_of_lookup. exists (k - S i').
    apply lookup_take_Some. split; [|lia]. rewrite lookup_drop.
    by replace (S i' + (k - S i')) with k by lia.
Qed.


Lemma planMerge_between b f upper lower m plan :
  planMerge b f upper lower m = Some plan →
  ∃ upperBack lowerFront,
    last upper = Some upperBack ∧ head lower = Some lowerFront ∧
    opsBetween f upperBack lowerFront = Some (between plan).
Proof.
  unfold planMerge. intros H.
  destruct (last upper) as [ub|]; simpl in H; [|done].
  destruct (head lower) as [lf|]; simpl in H; [|done].
  destruct (opsBetween f _ _) as [toMove|] eqn:Hb; simpl in H; [|done].
  exists ub, lf. split_and!; [done..|].
  destruct b.
  - destruct (computeMoveUpSet _ _ _ _ _) as [[[t1 up] m1]|]; simpl in H; [|done].
    destruct (computeMoveDownSet _ _ _ _ _) as [[[t2 down] m2]|]; simpl in H; [|done].
    by simplify_eq.
  - destruct (computeMoveDownSet _ _ _ _ _) as [[[t1 down] m1]|]; simpl in H; [|done].
    destruct (computeMoveUpSet _ _ _ _ _) as [[[t2 up] m2]|]; simpl in H; [|done].
    by simplify_eq.
Qed.

(** The operations of the root cluster of [o] are its cluster-mates. *)
Lemma rootCluster_mates m o r m1 c :
  forest m → getRoot m o = Some (r, m1) → m1 !! r = Some c →
  ∀ o', o' ∈ operations c ↔ mates m o o'.
Proof.
  intros Hf Hg Hc. apply getRoot_fuel_spec in Hg as [Hsf (d & Hd)].
  by eapply root_operations.
Qed.

Lemma moveSplit_atomic m src remain move m' o r m1 c :
  forest m → moveSplit m src remain move m' →
  getRoot m o = Some (r, m1) → m1 !! r = Some c →
  (o ∈ remain → ∀ o', o' ∈ operations c → o' ∈ remain ∧ o' ∉ move) ∧
  (o ∈ move → ∀ o', o' ∈ operations c → o' ∈ src → o' ∈ move).
Proof.
  intros Hf [Hsf Hsplit Hdisj Hclosed _] Hg Hc.
  pose proof (rootCluster_mates _ _ _ _ _ Hf Hg Hc) as Hm. split.
  - intros Ho o' Ho'%Hm. assert (o' ∈ remain) by eauto.
    split; [done|]. intros ?. by eapply Hdisj.
  - intros Ho o' Ho'%Hm Hsrc. apply Hsplit in Hsrc as [?|Hr]; [done|].
    exfalso. apply (Hdisj o Ho). eapply Hclosed; [exact Hr|].
    by apply mates_sym.
Qed.

Lemma moveStep_pulls rejected order vec m remain move p remain' move' m' r m1 c :
  (∀ l x, x ∈ order l ↔ x ∈ l) → forest m →
  moveStep rejected order vec (Some (remain, move, m)) p = Some (remain', move', m') →
  p ∉ remain → rejected remain p = Some true →
  getRoot m p = Some (r, m1) → m1 !! r = Some c →
  ∀ o', o' ∈ operations c → o' ∈ remain' ∧ o' ∉ move'.
Proof.
  intros Horder Hf H Hp Hrej Hg Hc o' Ho'.
  apply (rootCluster_mates _ _ _ _ _ Hf Hg Hc) in Ho'.
  assert (Hin : is_Some (m !! p)).
  { unfold getRoot in Hg. destruct (size m); simpl in Hg;
      destruct (m !! p); simpl in Hg; done. }
  destruct (moveStep_rejected rejected order Horder vec m Hf _ _ _ _ _ _ _
              (same_forest_refl m) H Hp Hrej Hin)
    as (cl & Hcl & _ & -> & Hmv & _).
  apply Hcl in Ho'. split.
  - apply elem_of_app. right. by apply Horder.
  - rewrite Hmv. tauto.
Qed.

(** ** The host set *)

Lemma filter_length_mono {A} (P Q : A → bool) (l : list A) :
  (∀ x, P x = true → Q x = true) →
  length (List.filter P l) ≤ length (List.filter Q l).
Proof.
  intros HPQ. induction l as [|x l IH]; simpl; [done|].
  destruct (P x) eqn:HP.
  - rewrite (HPQ x HP). simpl. lia.
  - destruct (Q x); simpl; lia.
Qed.

Lemma filter_length_lt {A} (P Q : A → bool) (l : list A) x :
  (∀ x, P x = true → Q x = true) → x ∈ l → P x = false → Q x = true →
  length (List.filter P l) < length (List.filter Q l).
Proof.
  intros HPQ Hx HP HQ. induction Hx as [x l|x y l Hx IH]; simpl.
  - rewrite HP, HQ. simpl. pose proof (filter_length_mono P Q l HPQ). lia.
  - specialize (IH HP HQ). destruct (P y) eqn:HPy.
    + rewrite (HPQ y HPy). simpl. lia.
    + destruct (Q y); simpl; lia.
Qed.

Lemma unvisited_mono f s s' : s ⊆ s' → unvisited f s' ≤ unvisited f s.
Proof.
  intros Hs. apply filter_length_mono. intros op. rewrite !bool_decide_eq_true.
  set_solver.
Qed.

Lemma deref_Some f p op : deref f p = Some op → op ∈ front f ∧ opSelf op = p.
Proof.
  unfold deref. intros H. apply find_some in H as [Hin Hp].
  apply bool_decide_eq_true in Hp. by rewrite list_elem_of_In.
Qed.

Lemma unvisited_insert f s p op :
  deref f p = Some op → p ∉ s → unvisited f ({[p]} ∪ s) < unvisited f s.
Proof.
  intros [Hin <-]%deref_Some Hp. eapply filter_length_lt; [|exact Hin|..].
  - intros x. rewrite !bool_decide_eq_true. set_solver.
  - apply bool_decide_eq_false. set_solver.
  - by apply bool_decide_eq_true.
Qed.

Lemma insertOpsRecursively_unfold fuel f p s :
  insertOpsRecursively fuel f p s =
    if decide (p ∈ s) then Some s
    else match deref f p with
         | None => Some ({[p]} ∪ s)
         | Some op =>
             match fuel with
             | O => None
             | S n => foldl (insertOperands n f) (Some ({[p]} ∪ s)) (opOperands op)
             end
         end.
Proof. by destruct fuel. Qed.

Lemma inserted_nil f s : inserted f [] s s.
Proof. split; [done|by intros ? ?%elem_of_nil|auto..]. Qed.

Lemma inserted_app f l1 l2 s1 s2 s3 :
  inserted f l1 s1 s2 → inserted f l2 s2 s3 → inserted f (l1 ++ l2) s1 s3.
Proof.
  intros [M1 F1 R1 C1] [M2 F2 R2 C2]. split.
  - set_solver.
  - intros p [?|?]%elem_of_app; [apply M2|]; auto.
  - intros x Hx. destruct (R2 x Hx) as [Hx2|(p & ? & ?)].
    + destruct (R1 x Hx2) as [?|(p & ? & ?)]; [auto|].
      right. exists p. rewrite elem_of_app. auto.
    + right. exists p. rewrite elem_of_app. auto.
  - intros x Hx. destruct (C2 x Hx) as [Hx2|?]; [|auto].
    destruct (C1 x Hx2) as [?|Hc]; [auto|]. right. intros d Hd. apply M2. auto.
Qed.

Lemma insertOpsRecursively_spec fuel f p s :
  unvisited f s ≤ fuel →
  ∃ s', insertOpsRecursively fuel f p s = Some s' ∧ inserted f [p] s s'.
Proof.
  revert p s. induction fuel as [|n IH]; intros p s Hfuel;
    rewrite insertOpsRecursively_unfold.
  - destruct (decide (p ∈ s)) as [Hp|Hp].
    { exists s. split; [done|]. split; [done| |auto..].
      by intros ? ->%list_elem_of_singleton. }
    destruct (deref f p) as [op|] eqn:Hd.
    { pose proof (unvisited_insert f s p op Hd Hp). lia. }
    exists ({[p]} ∪ s). split; [done|]. split.
    + set_solver.
    + intros ? ->%list_elem_of_singleton. set_solver.
    + intros x [->%elem_of_singleton|?]%elem_of_union; [|auto].
      right. exists p. split; [by apply list_elem_of_singleton|done].
    + intros x [->%elem_of_singleton|?]%elem_of_union; [|auto].
      right. intros d. unfold definers. rewrite Hd. by intros ?%elem_of_nil.
  - destruct (decide (p ∈ s)) as [Hp|Hp].
    { exists s. split; [done|]. split; [done| |auto..].
      by intros ? ->%list_elem_of_singleton. }
    destruct (deref f p) as [op|] eqn:Hd.
    + assert (Hfold : ∀ vs s0, unvisited f s0 ≤ n →
                ∃ s', foldl (insertOperands n f) (Some s0) vs = Some s' ∧
                      inserted f (omap getDefiningOp vs) s0 s').
      { induction vs as [|v vs IHvs]; intros s0 Hs0; simpl.
        - exists s0. split; [done|apply inserted_nil].
        - destruct (getDefiningOp v) as [d|] eqn:Hv; simpl.
          + destruct (IH d s0 Hs0) as (s1 & -> & Hins1).
            destruct (IHvs s1) as (s2 & -> & Hins2).
            { etrans; [apply unvisited_mono, (ins_mono _ _ _ _ Hins1)|done]. }
            exists s2. split; [done|].
            by apply (inserted_app f [d] _ s0 s1 s2).
          + apply IHvs. done. }
      destruct (Hfold (opOperands op) ({[p]} ∪ s)) as (s' & -> & [M F R C]).
      { pose proof (unvisited_insert f s p op Hd Hp). lia. }
      exists s'. split; [done|]. split.
      * set_solver.
      * intros ? ->%list_elem_of_singleton. set_solver.
      * intros x Hx. destruct (R x Hx) as [[->%elem_of_singleton|?]%elem_of_union|(d & Hd' & Hr)];
          [|auto|].
        -- right. exists p. split; [by apply list_elem_of_singleton|done].
        -- right. exists p. split; [by apply list_elem_of_singleton|].
           eapply rtc_l; [|exact Hr]. unfold definers. by rewrite Hd.
      * intros x Hx. destruct (C x Hx) as [[->%elem_of_singleton|?]%elem_of_union|?];
          [|auto..].
        right. intros d. unfold definers. rewrite Hd. apply F.
    + exists ({[p]} ∪ s). split; [done|]. split.
      * set_solver.
      * intros ? ->%list_elem_of_singleton. set_solver.
      * intros x [->%elem_of_singleton|?]%elem_of_union; [|auto].
        right. exists p. split; [by apply list_elem_of_singleton|done].
      * intros x [->%elem_of_singleton|?]%elem_of_union; [|auto].
        right. intros d. unfold definers. rewrite Hd. by intros ?%elem_of_nil.
Qed.

Lemma hostClosure_rtc f attrName p x :
  hostClosure f attrName p → rtc (λ a b, b ∈ definers f a) p x →
  hostClosure f attrName x.
Proof. intros Hp Hr. induction Hr; [done|]. eauto using hostClosure_operand. Qed.

(** [hostOps] returns, and returns the set [H]. *)
Lemma hostOps_closure f attrName :
  ∃ H, hostOps f attrName = Some H ∧ ∀ x, x ∈ H ↔ hostClosure f attrName x.
Proof.
  unfold hostOps, hostOpsFrom.
  assert (Hloop : ∀ l s, (∀ op, op ∈ l → op ∈ body f) →
    ∃ s', foldl (λ acc op,
                   match acc with
                   | Some s => if isHostOp attrName op
                               then insertOpsRecursively (length (front f)) f (opSelf op) s
                               else Some s
                   | None => None
                   end) (Some s) l = Some s' ∧
          inserted f (opSelf <$> List.filter (isHostOp attrName) l) s s').
  { induction l as [|op l IH]; intros s Hl; simpl.
    - exists s. split; [done|apply inserted_nil].
    - destruct (isHostOp attrName op) eqn:Hop; simpl.
      + destruct (insertOpsRecursively_spec (length (front f)) f (opSelf op) s)
          as (s1 & -> & H1).
        { apply filter_length_le. }
        destruct (IH s1) as (s2 & -> & H2); [intros; apply Hl; by right|].
        exists s2. split; [done|]. by apply (inserted_app f [_] _ s s1 s2).
      + apply IH. intros; apply Hl; by right. }
  destruct (Hloop (body f) ∅) as (H & -> & [M F R C]); [done|].
  exists H. split; [done|]. intros x. split.
  - intros Hx. destruct (R x Hx) as [?|(p & Hp & Hr)]; [set_solver|].
    apply list_elem_of_fmap in Hp as (op & -> & Hop).
    apply list_elem_of_In, filter_In in Hop as [Hop%list_elem_of_In Hh].
    eapply hostClosure_rtc; [|exact Hr]. by apply hostClosure_seed.
  - induction 1 as [op Hop Hh|p d _ IH Hd].
    + apply F, list_elem_of_fmap. exists op. split; [done|].
      apply list_elem_of_In, filter_In. by rewrite <-list_elem_of_In.
    + destruct (C p IH) as [?|Hc]; [set_solver|]. by apply Hc.
Qed.

Section Fallback.
Context {helpers : Helpers}.

Lemma hostClosure_seeded f attrName x :
  hostClosure f attrName x → ∃ op, op ∈ body f ∧ isHostOp attrName op = true.
Proof. induction 1; eauto. Qed.

Lemma hostList_nonempty f attrName H :
  (∀ x, x ∈ H ↔ hostClosure f attrName x) →
  H ≠ ∅ ↔ hostList f H ≠ [].
Proof.
  intros HH. split.
  - intros Hs. apply set_choose_L in Hs as (x & Hx).
    apply HH, hostClosure_seeded in Hx as (op & Hop & Hh).
    assert (opSelf op ∈ hostList f H); [|by intros E; rewrite E in *; eapply not_elem_of_nil].
    unfold hostList. apply list_elem_of_In, filter_In. split.
    + apply list_elem_of_In, list_elem_of_fmap. eauto.
    + apply bool_decide_eq_true, HH. by apply hostClosure_seed.
  - intros Hne. destruct (hostList f H) as [|x l] eqn:E; [done|].
    assert (Hx : x ∈ hostList f H) by (rewrite E; left).
    unfold hostList in Hx. apply list_elem_of_In, filter_In in Hx as [_ Hx].
    apply bool_decide_eq_true in Hx. set_solver.
Qed.

Lemma getFunctionMetadatasFallback_eq f attrName deviceAttr deviceAnchorName dupOutputs
    validateSubGraphFn :
  ∃ H,
    hostOps f attrName = Some H ∧
    (∀ x, x ∈ H ↔ hostClosure f attrName x) ∧
    getFunctionMetadatasFallback f attrName deviceAttr deviceAnchorName dupOutputs
      validateSubGraphFn
    = Some (if bool_decide (deviceList f H = [])
            then Some (if bool_decide (H = ∅) then []
                       else [mkMetadata f getHostAnchorName DEVICE_ATTR_HOST dupOutputs
                               (hostList f H)])
            else if rejects validateSubGraphFn (deviceList f H) then None
            else Some ((if bool_decide (H = ∅) then []
                        else [mkMetadata f getHostAnchorName DEVICE_ATTR_HOST dupOutputs
                                (hostList f H)])
                       ++ [mkMetadata f deviceAnchorName deviceAttr dupOutputs
                             (deviceList f H)])).
Proof.
  destruct (hostOps_closure f attrName) as (H & HH & Hcl).
  exists H. split; [done|]. split; [done|].
  unfold getFunctionMetadatasFallback. rewrite HH. fold (hostList f H) (deviceList f H).
  assert (bool_decide (0 < size H) = negb (bool_decide (H = ∅))) as ->.
  { destruct (decide (H = ∅)) as [->|Hne].
    - rewrite size_empty. done.
    - rewrite (bool_decide_eq_false_2 (H = ∅)) by done. simpl.
      apply bool_decide_eq_true. apply set_choose_L in Hne as (x & Hx).
      assert (size H ≠ 0); [|lia]. apply size_non_empty_iff. set_solver. }
  assert (bool_decide (0 < length (deviceList f H))
          = negb (bool_decide (deviceList f H = []))) as ->.
  { destruct (deviceList f H); [done|]. cbn [negb].
    rewrite (bool_decide_eq_false_2 (_ :: _ = [])) by done.
    apply bool_decide_eq_true_2. cbn [length]. lia. }
  destruct (rejects validateSubGraphFn (deviceList f H)),
    (bool_decide (H = ∅)), (bool_decide (deviceList f H = [])); done.
Qed.

(** C8.  The fallback strategy.  The host set [H] is computed, and it is the
    closure of the host operations under defining operations of operands.
    The result has at most two entries, the host entry first: the host
    entry holds the operations of the block that are in [H], in block
    order, and is there exactly when [H] is not empty, whatever
    [validateSubGraphFn] says; the device entry holds the other operations
    of the block, in block order, and is there when there is one and
    [validateSubGraphFn] accepts them.  When [validateSubGraphFn] rejects
    the device operations the strategy returns nothing.  The function is
    given back as it was: nothing is merged or moved. *)
Theorem fallback_entries f attrName deviceAttr deviceAnchorName dupOutputs
    validateSubGraphFn :
  ∃ H,
    hostOps f attrName = Some H ∧
    (∀ x, x ∈ H ↔ hostClosure f attrName x) ∧
    let hostEntries :=
      if bool_decide (H = ∅) then []
      else [mkMetadata f getHostAnchorName DEVICE_ATTR_HOST dupOutputs (hostList f H)] in
    let deviceEntries :=
      if bool_decide (deviceList f H = []) then []
      else [mkMetadata f deviceAnchorName deviceAttr dupOutputs (deviceList f H)] in
    getFunctionMetadatasFallback f attrName deviceAttr deviceAnchorName dupOutputs
      validateSubGraphFn
    = Some (if bool_decide (deviceList f H = []) then Some hostEntries
            else if rejects validateSubGraphFn (deviceList f H) then None
            else Some (hostEntries ++ deviceEntries)) ∧
    length (hostEntries ++ deviceEntries) ≤ 2 ∧
    (H ≠ ∅ ↔ hostList f H ≠ []) ∧
    (∀ x, x ∈ opSelf <$> body f → x ∈ hostList f H ↔ x ∉ deviceList f H) ∧
    clusterFunction kFallback f attrName deviceAttr deviceAnchorName dupOutputs false
      validateSubGraphFn
    = (λ metadatas, (f, metadatas)) <$>
        getFunctionMetadatasFallback f attrName deviceAttr deviceAnchorName dupOutputs
          validateSubGraphFn.
Proof.
  destruct (getFunctionMetadatasFallback_eq f attrName deviceAttr deviceAnchorName
              dupOutputs validateSubGraphFn) as (H & HH & Hcl & Heq).
  exists H. split; [done|]. split; [done|]. cbv zeta. split_and!.
  - rewrite Heq. by destruct (bool_decide (deviceList f H = [])).
  - destruct (bool_decide (H = ∅)), (bool_decide (deviceList f H = [])); simpl; lia.
  - by apply (hostList_nonempty f attrName).
  - intros x Hx. unfold hostList, deviceList.
    apply list_elem_of_In in Hx.
    split.
    + intros [_ Hh]%list_elem_of_In%filter_In [_ Hd]%list_elem_of_In%filter_In.
      rewrite Hh in Hd. done.
    + intros Hd. apply list_elem_of_In, filter_In. split; [done|].
      destruct (bool_decide (x ∈ H)) eqn:E; [done|].
      destruct Hd. apply list_elem_of_In, filter_In. by rewrite E.
  - simpl. by destruct (getFunctionMetadatasFallback _ _ _ _ _ _).
Qed.

End Fallback.

(** ** What the strategies put in clusters *)

Lemma forest_operations_dom m k c o :
  forest m → m !! k = Some c → o ∈ operations c → o ∈ dom m.
Proof.
  intros Hf Hc Ho. destruct (mergedInto c) as [p|] eqn:Hp.
  - rewrite (forest_linked _ Hf k c Hc) in Ho by eauto. by apply elem_of_nil in Ho.
  - apply (forest_ops _ Hf k c Hc Hp) in Ho as (d & Hd). by eapply resolves_dom.
Qed.

Lemma tryMergeInto_dom from to st ok st' :
  tryMergeInto from to st = Some (ok, st') →
  dom (op2cluster st') = dom (op2cluster st).
Proof.
  intros H. apply tryMergeInto_inv in H
    as (cf & ct & b & upper & lower & plan & _ & _ & _ & _ & Hplan & [(_ & _ & ->)|(_ & _ & Hc)]);
    apply planMerge_same_forest, same_forest_dom in Hplan.
  - done.
  - apply commitMerge_clusters in Hc. rewrite Hc. unfold linkClusters.
    by rewrite !dom_alter_L.
Qed.

Lemma tryMerge_dom lhs rhs st res st' :
  tryMerge lhs rhs st = Some (res, st') →
  dom (op2cluster st') = dom (op2cluster st).
Proof.
  intros H. apply tryMerge_inv in H
    as [[_ ->]|(l & r & ok & st1 & _ & _ & _ & _ & _ & H1 & H)]; [done|].
  apply tryMergeInto_dom in H1.
  destruct H as [(_ & _ & ->)|(_ & ok' & H2 & _)]; [done|].
  apply tryMergeInto_dom in H2. congruence.
Qed.

Section StrategyStates.
Context {helpers : Helpers}.

Lemma initialClusters_dom f attrName o :
  o ∈ dom (initialClusters f attrName) ↔ clustered f attrName o.
Proof.
  unfold initialClusters, clustered.
  assert (Hgen : ∀ l (m : OpClusterMap),
    o ∈ dom (foldl (λ m op,
                      if isHostOp attrName op then m
                      else if onlyUsedByHost f attrName op then m
                      else try_emplace (opSelf op) (mkCluster [opSelf op] None) m) m l)
    ↔ o ∈ dom m ∨ ∃ op, op ∈ l ∧ opSelf op = o ∧
        isHostOp attrName op = false ∧ onlyUsedByHost f attrName op = false).
  { induction l as [|op l IH]; intros m; simpl.
    - split; [auto|]. intros [?|(? & ?%elem_of_nil & _)]; done.
    - rewrite IH. clear IH.
      destruct (isHostOp attrName op) eqn:Hh.
      { split; [intros [?|(op' & ? & ?)]; [auto|right; exists op'; split; [by right|done]]|].
        intros [?|(op' & [->|?]%elem_of_cons & ? & ? & ?)]; [auto|congruence|eauto 10]. }
      destruct (onlyUsedByHost f attrName op) eqn:Ho.
      { split; [intros [?|(op' & ? & ?)]; [auto|right; exists op'; split; [by right|done]]|].
        intros [?|(op' & [->|?]%elem_of_cons & ? & ? & ?)]; [auto|congruence|eauto 10]. }
      assert (Hte : o ∈ dom (try_emplace (opSelf op) (mkCluster [opSelf op] None) m)
                    ↔ o ∈ dom m ∨ opSelf op = o).
      { unfold try_emplace. destruct (m !! opSelf op) eqn:E.
        - split; [auto|]. intros [?|<-]; [done|]. apply elem_of_dom; eauto.
        - rewrite dom_insert. set_solver. }
      rewrite Hte. split.
      + intros [[?|?]|(op' & ? & ?)]; [auto|right; exists op; split; [by left|done]|].
        right. exists op'. split; [by right|done].
      + intros [?|(op' & [->|?]%elem_of_cons & ? & ? & ?)]; [auto|auto|eauto 10]. }
  rewrite Hgen, dom_empty. set_solver.
Qed.

Lemma reachable_dom f attrName st :
  reachable f attrName st →
  dom (op2cluster st) = dom (initialClusters f attrName).
Proof.
  induction 1 as [|st p r m' _ IH H|st lhs rhs res st' _ IH H]; [done|..].
  - simpl. rewrite <-IH. by eapply same_forest_dom, getCluster_same_forest.
  - rewrite <-IH. by eapply tryMerge_dom.
Qed.

(** No host operation is ever in a cluster. *)
Lemma reachable_clustered f attrName st k c o :
  reachable f attrName st → op2cluster st !! k = Some c → o ∈ operations c →
  clustered f attrName o.
Proof.
  intros Hr Hc Ho. apply initialClusters_dom. rewrite <-(reachable_dom _ _ _ Hr).
  eapply forest_operations_dom; [by eapply reachable_forest|done..].
Qed.

Lemma mergeWith_reachable f attrName cur st other cur' st' :
  reachable f attrName st →
  mergeWith (Some (cur, st)) other = Some (cur', st') →
  reachable f attrName st'.
Proof.
  unfold mergeWith. intros Hr H.
  apply bind_Some in H as ([cur0 st0] & ? & H). simplify_eq.
  apply bind_Some in H as ([pre m] & Hg & H).
  apply bind_Some in H as ([merged st1] & Hm & H). simplify_eq.
  eapply reachable_tryMerge; [|exact Hm].
  eapply reachable_getCluster; [exact Hr|exact Hg].
Qed.

Lemma mergeWith_None other : mergeWith None other = None.
Proof. done. Qed.

Lemma foldl_mergeWith_reachable f attrName l cur st cur' st' :
  reachable f attrName st →
  foldl mergeWith (Some (cur, st)) l = Some (cur', st') →
  reachable f attrName st'.
Proof.
  revert cur st. induction l as [|other l IH]; intros cur st Hr H.
  - simpl in H. by simplify_eq.
  - cbn [foldl] in H.
    destruct (mergeWith (Some (cur, st)) other) as [[cur1 st1]|] eqn:H1;
      [|by rewrite foldl_None in H].
    eapply IH; [|exact H]. by eapply mergeWith_reachable.
Qed.

Lemma visit_reachable f attrName neighbours st op st' :
  reachable f attrName st →
  visit neighbours (Some st) op = Some st' →
  reachable f attrName st'.
Proof.
  unfold visit. intros Hr H.
  apply bind_Some in H as (st0 & ? & H). simplify_eq.
  apply bind_Some in H as ([cur m] & Hg & H).
  apply fmap_Some in H as ([cur' st1] & Hf & ->). simpl.
  eapply foldl_mergeWith_reachable; [|exact Hf].
  eapply reachable_getCluster; [exact Hr|exact Hg].
Qed.

Lemma foldl_visit_reachable f attrName neighbours l st st' :
  reachable f attrName st →
  foldl (visit neighbours) (Some st) l = Some st' →
  reachable f attrName st'.
Proof.
  revert st. induction l as [|op l IH]; intros st Hr H.
  - simpl in H. by simplify_eq.
  - cbn [foldl] in H.
    destruct (visit neighbours (Some st) op) as [st1|] eqn:H1;
      [|by rewrite foldl_None in H].
    eapply IH; [|exact H]. by eapply visit_reachable.
Qed.

Lemma coalesce_reachable f attrName workList cluster st c rest st' :
  reachable f attrName st →
  coalesce workList cluster st = Some (c, rest, st') →
  reachable f attrName st'.
Proof.
  revert cluster st c rest st'.
  induction workList as [|it wl IH]; intros cluster st c rest st' Hr H;
    cbn [coalesce] in H.
  - by simplify_eq.
  - apply bind_Some in H as ([merged st1] & Hm & H).
    assert (reachable f attrName st1) by (by eapply reachable_tryMerge).
    destruct merged as [c1|].
    + by eapply IH.
    + apply bind_Some in H as ([[c2 rest2] st2] & Hc & H). simplify_eq.
      by eapply IH.
Qed.

Lemma populateLoop_reachable f attrName fuel workList candidates st cands st' :
  reachable f attrName st →
  populateLoop fuel workList candidates st = Some (cands, st') →
  reachable f attrName st'.
Proof.
  revert workList candidates st.
  induction fuel as [|n IH]; intros workList candidates st Hr H;
    destruct workList as [|cluster rest]; cbn [populateLoop] in H; try by simplify_eq.
  apply bind_Some in H as ([[c rest'] st1] & Hc & H).
  eapply IH; [|exact H]. by eapply coalesce_reachable.
Qed.

Lemma populateCandidates_reachable f attrName st cands st' :
  reachable f attrName st →
  populateCandidates st = Some (cands, st') →
  reachable f attrName st'.
Proof.
  unfold populateCandidates. intros Hr H.
  apply bind_Some in H as ([cands1 st1] & Hp & H). simplify_eq.
  by eapply populateLoop_reachable.
Qed.

Lemma TopDownDeviceClustering_reachable f attrName cands st :
  TopDownDeviceClustering f attrName = Some (cands, st) → reachable f attrName st.
Proof.
  unfold TopDownDeviceClustering, TopDown_mergeDeviceClustersProgressively. intros H.
  apply bind_Some in H as (st1 & Hf & H).
  eapply populateCandidates_reachable; [|exact H].
  eapply foldl_visit_reachable; [|exact Hf]. apply reachable_init.
Qed.

Lemma BottomUpDeviceClustering_reachable f attrName cands st :
  BottomUpDeviceClustering f attrName = Some (cands, st) → reachable f attrName st.
Proof.
  unfold BottomUpDeviceClustering, BottomUp_mergeDeviceClustersProgressively. intros H.
  apply bind_Some in H as (st1 & Hf & H).
  eapply populateCandidates_reachable; [|exact H].
  eapply foldl_visit_reachable; [|exact Hf]. apply reachable_init.
Qed.

(** Every entry of [emitMetadatas] is built from one of the clusters, which
    is not empty and not rejected. *)
Lemma emitMetadatas_elem f deviceAttr deviceAnchorName dupOutputs enableMultiGraph
    validateSubGraphFn clusters md :
  md ∈ emitMetadatas f deviceAttr deviceAnchorName dupOutputs enableMultiGraph
         validateSubGraphFn clusters →
  ∃ cluster, cluster ∈ clusters ∧ cluster ≠ [] ∧
    rejects validateSubGraphFn cluster = false ∧
    md = mkMetadata f deviceAnchorName deviceAttr dupOutputs cluster.
Proof.
  induction clusters as [|cluster rest IH]; simpl; [by intros ?%elem_of_nil|].
  assert (Hrest : md ∈ emitMetadatas f deviceAttr deviceAnchorName dupOutputs
            enableMultiGraph validateSubGraphFn rest →
          ∃ cluster0, cluster0 ∈ cluster :: rest ∧ cluster0 ≠ [] ∧
            rejects validateSubGraphFn cluster0 = false ∧
            md = mkMetadata f deviceAnchorName deviceAttr dupOutputs cluster0).
  { intros (c & ? & ?)%IH. exists c. split; [by right|done]. }
  case_bool_decide as Hne; [done|].
  destruct (rejects validateSubGraphFn cluster) eqn:Hrej; [done|].
  intros [->|Hmd]%elem_of_cons.
  - exists cluster. split; [by left|done].
  - destruct enableMultiGraph; [auto|by apply elem_of_nil in Hmd].
Qed.

Lemma getFunctionMetadatas_elem st candidates deviceAttr deviceAnchorName dupOutputs
    enableMultiGraph validateSubGraphFn metadatas md :
  getFunctionMetadatas st candidates deviceAttr deviceAnchorName dupOutputs
    enableMultiGraph validateSubGraphFn = Some (Some metadatas) →
  md ∈ metadatas →
  ∃ p c, p ∈ candidates ∧ op2cluster st !! p = Some c ∧ ops md = operations c ∧
         operations c ≠ [] ∧ rejects validateSubGraphFn (operations c) = false.
Proof.
  unfold getFunctionMetadatas. intros H Hmd.
  destruct (mapM _ candidates) as [clusters|] eqn:Hm; simpl in H; [|done].
  destruct clusters as [|first rest]; [done|].
  case_bool_decide; [done|]. simplify_eq.
  apply emitMetadatas_elem in Hmd as (cluster & Hin & Hne & Hrej & ->).
  apply mapM_Some in Hm.
  apply list_elem_of_lookup in Hin as (i & Hi).
  destruct (Forall2_lookup_r _ _ _ _ _ Hm Hi) as (p & Hp & Hc).
  destruct (op2cluster st !! p) as [c|] eqn:Hcp; simplify_eq/=.
  exists p, c. split_and!; [by eapply list_elem_of_lookup_2|done..].
Qed.

Lemma runClustering_clustered algo f attrName deviceAttr deviceAnchorName dupOutputs
    enableMultiGraph validateSubGraphFn f' metadatas md o :
  (∀ cands st, algo f attrName = Some (cands, st) → reachable f attrName st) →
  runClustering algo f attrName deviceAttr deviceAnchorName dupOutputs
    enableMultiGraph validateSubGraphFn = Some (f', Some metadatas) →
  md ∈ metadatas → o ∈ ops md → clustered f attrName o.
Proof.
  unfold runClustering. intros Halgo H Hmd Ho.
  destruct (algo f attrName) as [[cands st]|] eqn:Ha; simpl in H; [|done].
  destruct (getFunctionMetadatas _ _ _ _ _ _ _) as [mds|] eqn:Hg; simpl in H; [|done].
  simplify_eq.
  destruct (getFunctionMetadatas_elem _ _ _ _ _ _ _ _ _ Hg Hmd) as (p & c & _ & Hc & Hops & _).
  rewrite Hops in Ho. eapply reachable_clustered; [by eapply Halgo|done..].
Qed.

Lemma clusterFunction_clustered clusterAlgo f attrName device deviceAnchorName
    dupOutputs enableMultiGraph validateSubGraphFn f' metadatas md o :
  clusterAlgo ≠ kFallback →
  clusterFunction clusterAlgo f attrName device deviceAnchorName dupOutputs
    enableMultiGraph validateSubGraphFn = Some (f', Some metadatas) →
  md ∈ metadatas → o ∈ ops md → clustered f attrName o.
Proof.
  intros Hne H Hmd Ho. destruct clusterAlgo; simpl in H; [..|done].
  - eapply (runClustering_clustered TopDownDeviceClustering); [|done..].
    apply TopDownDeviceClustering_reachable.
  - eapply (runClustering_clustered BottomUpDeviceClustering); [|done..].
    apply BottomUpDeviceClustering_reachable.
  - unfold greedy in H. cbv zeta in H.
    destruct (@runClustering (onClone (cloneShift 1 f)) _ _ _ _ _ _ _ _)
      as [[cT td]|]; simpl in H; [|done].
    destruct (@runClustering (onClone (cloneShift 2 f)) _ _ _ _ _ _ _ _)
      as [[cB bu]|]; simpl in H; [|done].
    assert (HTc : runClustering TopDownDeviceClustering f attrName device deviceAnchorName
                    dupOutputs enableMultiGraph validateSubGraphFn
                  = Some (f', Some metadatas) → clustered f attrName o).
    { intros E. eapply (runClustering_clustered TopDownDeviceClustering); [|done..].
      apply TopDownDeviceClustering_reachable. }
    assert (HBc : runClustering BottomUpDeviceClustering f attrName device deviceAnchorName
                    dupOutputs enableMultiGraph validateSubGraphFn
                  = Some (f', Some metadatas) → clustered f attrName o).
    { intros E. eapply (runClustering_clustered BottomUpDeviceClustering); [|done..].
      apply BottomUpDeviceClustering_reachable. }
    destruct td as [t|], bu as [b|]; [case_bool_decide|..]; eauto. done.
Qed.

End StrategyStates.

Section Metadata.
Context {helpers : Helpers}.

(** C1, as corrected.  What the strategies keep out of the clusters.  In
    every state that the constructor and any sequence of [getCluster] and
    [tryMerge] calls reach, the op list of every cluster holds only
    operations of the block that are not host operations themselves and
    are not a constant whose single use is in a host operation; the same
    holds of the operations of every metadata entry of the top-down, the
    bottom-up and the greedy strategy.  The defining operation of an
    operand of a host operation is not kept out by these strategies.  Only
    the fallback strategy uses the host set: its entries are the host entry
    followed by the device entry, and no operation of the device entry is
    in the host set. *)
Theorem host_ops_outside_clusters f attrName device deviceAnchorName dupOutputs
    enableMultiGraph validateSubGraphFn :
  (∀ st k c o,
     reachable f attrName st → op2cluster st !! k = Some c → o ∈ operations c →
     clustered f attrName o) ∧
  (∀ clusterAlgo f' metadatas md o,
     clusterAlgo ≠ kFallback →
     clusterFunction clusterAlgo f attrName device deviceAnchorName dupOutputs
       enableMultiGraph validateSubGraphFn = Some (f', Some metadatas) →
     md ∈ metadatas → o ∈ ops md → clustered f attrName o) ∧
  (∀ f' metadatas,
     clusterFunction kFallback f attrName device deviceAnchorName dupOutputs
       enableMultiGraph validateSubGraphFn = Some (f', Some metadatas) →
     ∃ hostEntries deviceEntries,
       metadatas = hostEntries ++ deviceEntries ∧
       (∀ md, md ∈ hostEntries →
          anchorName md = getHostAnchorName ∧ deviceAttr md = DEVICE_ATTR_HOST) ∧
       (∀ md o, md ∈ deviceEntries → o ∈ ops md → ¬ hostClosure f attrName o)).
Proof.
  split_and!.
  - intros st k c o. apply reachable_clustered.
  - intros clusterAlgo f' metadatas md o. apply clusterFunction_clustered.
  - intros f' metadatas H. simpl in H.
    destruct (getFunctionMetadatasFallback_eq f attrName device deviceAnchorName dupOutputs
                validateSubGraphFn) as (H0 & _ & Hcl & Heq).
    cbv zeta in Heq. rewrite Heq in H. simpl in H.
    assert (Hhost : ∀ md,
              md ∈ (if bool_decide (H0 = ∅) then []
                    else [mkMetadata f getHostAnchorName DEVICE_ATTR_HOST dupOutputs
                            (hostList f H0)]) →
              anchorName md = getHostAnchorName ∧ deviceAttr md = DEVICE_ATTR_HOST).
    { intros md. destruct (bool_decide (H0 = ∅)); [by intros ?%elem_of_nil|].
      by intros ->%list_elem_of_singleton. }
    assert (Hdev : ∀ md o,
              md ∈ [mkMetadata f deviceAnchorName device dupOutputs (deviceList f H0)] →
              o ∈ ops md → ¬ hostClosure f attrName o).
    { intros md o ->%list_elem_of_singleton Ho. simpl in Ho. unfold deviceList in Ho.
      apply list_elem_of_In, filter_In in Ho as [_ Ho].
      apply negb_true_iff, bool_decide_eq_false in Ho. by rewrite <-Hcl. }
    destruct (bool_decide (deviceList f H0 = [])) eqn:E1.
    + simplify_eq. eexists _, []. rewrite app_nil_r.
      split_and!; [done|done|]. by intros ? ? ?%elem_of_nil.
    + destruct (rejects validateSubGraphFn (deviceList f H0)); simplify_eq.
      by eexists _, _.
Qed.

Lemma emitMetadatas_single f deviceAttr deviceAnchorName dupOutputs validateSubGraphFn
    clusters :
  emitMetadatas f deviceAttr deviceAnchorName dupOutputs false validateSubGraphFn clusters
  = match firstAccepted validateSubGraphFn clusters with
    | Some cluster => [mkMetadata f deviceAnchorName deviceAttr dupOutputs cluster]
    | None => []
    end.
Proof.
  unfold firstAccepted. induction clusters as [|cluster rest IH]; simpl; [done|].
  case_bool_decide; simpl; [done|].
  by destruct (rejects validateSubGraphFn cluster).
Qed.

(** C2, as corrected.  With [enableMultiGraph] false a candidate that
    [validateSubGraphFn] rejects is skipped.  [getFunctionMetadatas] returns
    nothing only when there is no candidate or the first candidate is
    empty; otherwise it returns the entry of the first candidate that is
    not empty and is accepted, alone, or the empty list when there is no
    such candidate.  The driver reports the function-level diagnostic and
    fails exactly when the strategy returns nothing. *)
Theorem rejected_candidate_is_skipped st candidates clusters deviceAttr deviceAnchorName
    dupOutputs validateSubGraphFn :
  mapM (λ p, operations <$> op2cluster st !! p) candidates = Some clusters →
  getFunctionMetadatas st candidates deviceAttr deviceAnchorName dupOutputs false
    validateSubGraphFn
  = Some (match clusters with
          | [] => None
          | firstCluster :: _ =>
              if bool_decide (firstCluster = []) then None
              else Some (match firstAccepted validateSubGraphFn clusters with
                         | Some cluster =>
                             [mkMetadata (ir st) deviceAnchorName deviceAttr dupOutputs
                                cluster]
                         | None => []
                         end)
          end) ∧
  (∀ clusterAlgo f attrName f1 metadatas res,
     clusterFunction clusterAlgo f attrName deviceAttr deviceAnchorName dupOutputs false
       validateSubGraphFn = Some (f1, metadatas) →
     processFunction clusterAlgo f attrName deviceAttr deviceAnchorName dupOutputs false
       validateSubGraphFn = Some res →
     (res.1.1 = failure ↔ metadatas = None) ∧
     (metadatas = None →
        res = (failure, f1,
               [(symName f, "[ByteIR Transform]: GraphClusteringByDevice error."%string)]))).
Proof.
  intros Hm. split.
  - unfold getFunctionMetadatas. rewrite Hm. simpl.
    destruct clusters as [|first rest]; [done|].
    case_bool_decide; [done|]. by rewrite emitMetadatas_single.
  - intros clusterAlgo f attrName f1 metadatas res Hc Hp.
    unfold processFunction in Hp. rewrite Hc in Hp. simpl in Hp.
    destruct metadatas as [mds|].
    + apply bind_Some in Hp as (f2 & _ & Hp). simplify_eq. simpl. split; [|done].
      split; done.
    + simplify_eq. done.
Qed.

Lemma accumulateOps_total metadatas :
  (Z.of_nat (totalOps metadatas) < 2 ^ 31)%Z →
  coveredOps metadatas = Z.of_nat (totalOps metadatas).
Proof.
  unfold coveredOps, accumulateOps, to_int, to_size_t.
  change (2 ^ 31)%Z with 2147483648%Z.
  change (2 ^ 32)%Z with 4294967296%Z.
  change (2 ^ 64)%Z with 18446744073709551616%Z.
  assert (Hgen : ∀ l (n : nat),
    (Z.of_nat (n + totalOps l) < 2147483648)%Z →
    foldl (λ init metadata,
             ((init `mod` 18446744073709551616 + Z.of_nat (length (ops metadata)))
                `mod` 18446744073709551616 + 2147483648) `mod` 4294967296
             - 2147483648)%Z
          (Z.of_nat n) l = Z.of_nat (n + totalOps l)).
  { induction l as [|md l IH]; intros n Hn; simpl in *.
    - f_equal. lia.
    - rewrite (Z.mod_small (Z.of_nat n)) by lia.
      rewrite (Z.mod_small (_ + _) 18446744073709551616) by lia.
      rewrite Z.mod_small by lia.
      replace (Z.of_nat n + Z.of_nat (length (ops md)) + 2147483648 - 2147483648)%Z
        with (Z.of_nat (n + length (ops md))) by lia.
      rewrite IH; [f_equal; lia|]. lia. }
  intros H. specialize (Hgen metadatas 0%nat).
  change (Z.of_nat 0) with 0%Z in Hgen. change (0 + totalOps metadatas) with (totalOps metadatas) in Hgen.
  rewrite Hgen by lia. apply Z.mod_small. lia.
Qed.

End Metadata.

(** ** The results of a call *)

Lemma positionsFrom_nil k v l : positionsFrom k v l = [] ↔ v ∉ l.
Proof.
  revert k. induction l as [|x l IH]; intros k; simpl.
  - split; [intros _; apply not_elem_of_nil|done].
  - case_decide; subst.
    + split; [done|]. intros []. by left.
    + rewrite IH, not_elem_of_cons. naive_solver.
Qed.

Lemma positionsFrom_length k j v l :
  length (positionsFrom k v l) = length (positionsFrom j v l).
Proof.
  revert k j. induction l as [|x l IH]; intros k j; simpl; [done|].
  case_decide; simpl; eauto.
Qed.

Lemma positionsFrom_head k v l i n :
  head (positionsFrom k v l) = Some i →
  k ≤ i ∧ <[i - k := n]> l = replaceFirst v n l.
Proof.
  revert k. induction l as [|x l IH]; intros k; simpl; [done|].
  case_decide; subst; simpl.
  - intros ?; simplify_eq. split; [done|]. by rewrite Nat.sub_diag.
  - intros [Hle Heq]%IH. split; [lia|].
    replace (i - k) with (S (i - S k)) by lia. simpl. by rewrite Heq.
Qed.

Lemma positionsFrom_replaceFirst_same k v n l :
  n ≠ v → positionsFrom k v (replaceFirst v n l) = tail (positionsFrom k v l).
Proof.
  intros Hn. revert k. induction l as [|x l IH]; intros k; simpl; [done|].
  case_decide; subst; simpl.
  - by rewrite decide_False.
  - rewrite decide_False by done. apply IH.
Qed.

Lemma positionsFrom_replaceFirst_other k v n w l :
  w ≠ v → w ≠ n → positionsFrom k w (replaceFirst v n l) = positionsFrom k w l.
Proof.
  intros Hv Hn. revert k. induction l as [|x l IH]; intros k; simpl; [done|].
  case_decide; subst; simpl.
  - by rewrite !decide_False by done.
  - case_decide; by rewrite IH.
Qed.

Lemma replaceFirst_not_in v n l : v ∉ l → replaceFirst v n l = l.
Proof.
  induction l as [|x l IH]; simpl; [done|]. intros [? ?]%not_elem_of_cons.
  rewrite decide_False by done. by rewrite IH.
Qed.

(** *** The index map *)

Lemma findIndices_cons k l m w :
  findIndices ((k, l) :: m) w = if decide (k = w) then Some l else findIndices m w.
Proof.
  unfold findIndices. cbn [List.find fst]. case_decide.
  - by rewrite bool_decide_eq_true_2.
  - by rewrite bool_decide_eq_false_2.
Qed.

Lemma findIndices_nil w : findIndices [] w = None.
Proof. done. Qed.

Lemma findIndices_map (g : list nat → list nat) m v w :
  findIndices (List.map (λ kv, if bool_decide (kv.1 = v) then (kv.1, g kv.2) else kv) m) w
  = if decide (w = v) then g <$> findIndices m v else findIndices m w.
Proof.
  induction m as [|[k l] m IH]; cbn [List.map fst snd].
  - rewrite !findIndices_nil. by case_decide.
  - destruct (decide (k = v)) as [->|Hk].
    + rewrite bool_decide_eq_true_2 by done. rewrite !findIndices_cons.
      rewrite IH. repeat case_decide; try done; try congruence.
    + rewrite (bool_decide_eq_false_2 (k = v)) by done. rewrite !findIndices_cons.
      rewrite IH. repeat case_decide; try done; try congruence.
Qed.

Lemma findIndices_existsb m v :
  existsb (λ kv : Value * list nat, bool_decide (kv.1 = v)) m
  = bool_decide (is_Some (findIndices m v)).
Proof.
  induction m as [|[k l] m IH]; cbn [existsb fst].
  - symmetry. apply bool_decide_eq_false. by intros [? ?].
  - rewrite findIndices_cons, IH. case_decide.
    + rewrite bool_decide_eq_true_2 by done. symmetry. apply bool_decide_eq_true. eauto.
    + by rewrite bool_decide_eq_false_2 by done.
Qed.

Lemma findIndices_snoc m v l w :
  findIndices (m ++ [(v, l)]) w =
    match findIndices m w with
    | Some l' => Some l'
    | None => if decide (w = v) then Some l else None
    end.
Proof.
  induction m as [|[k l'] m IH]; cbn [app].
  - rewrite findIndices_cons, !findIndices_nil. cbv beta iota.
    repeat case_decide; try done; try congruence.
  - rewrite !findIndices_cons, IH. by destruct (decide (k = w)).
Qed.

Lemma findIndices_pushIndex m v i w :
  findIndices (pushIndex m v i) w =
    if decide (w = v)
    then Some (default [] (findIndices m v) ++ [i])
    else findIndices m w.
Proof.
  unfold pushIndex. rewrite findIndices_existsb. case_bool_decide as Hex.
  - rewrite (findIndices_map (λ l, l ++ [i])). case_decide; [|done].
    destruct Hex as [l ->]. done.
  - rewrite findIndices_snoc. apply eq_None_not_Some in Hex.
    case_decide; subst.
    + by rewrite Hex.
    + by destruct (findIndices m w).
Qed.

Lemma findIndices_popIndex m v w :
  findIndices (popIndex m v) w =
    if decide (w = v) then (λ l, removelast l) <$> findIndices m v
    else findIndices m w.
Proof. apply (findIndices_map (λ l, removelast l)). Qed.

(** The map built from the operands [l], whose first position is [k]. *)
Lemma findIndices_build k l v :
  findIndices
    (foldr (λ iv m, pushIndex m iv.2 iv.1) [] (imap (λ i x, (k + i, x)) l)) v
  = if decide (v ∈ l) then Some (reverse (positionsFrom k v l)) else None.
Proof.
  revert k. induction l as [|x l IH]; intros k; cbn [imap foldr positionsFrom fst snd].
  - rewrite findIndices_nil. by destruct (decide (v ∈ [])) as [?%elem_of_nil|].
  - rewrite findIndices_pushIndex.
    assert (Himap : imap ((λ i x0, (k + i, x0)) ∘ S) l = imap (λ i x0, (S k + i, x0)) l).
    { apply imap_ext. intros i y _. simpl. f_equal. lia. }
    rewrite Himap, Nat.add_0_r.
    destruct (decide (v = x)) as [->|Hv].
    + rewrite (decide_True (P := x ∈ x :: l)) by left.
      rewrite (decide_True (P := x = x)) by done.
      rewrite IH, reverse_cons. destruct (decide (x ∈ l)) as [|Hx]; [done|].
      apply (positionsFrom_nil (S k)) in Hx. by rewrite Hx.
    + rewrite (decide_False (P := x = v)) by done.
      rewrite IH. destruct (decide (v ∈ l)), (decide (v ∈ x :: l)); try done.
      * exfalso. set_solver.
      * exfalso. set_solver.
Qed.

Lemma foldl_reverse_foldr {A B} (f : A → B → A) (a : A) (l : list B) :
  foldl f a (reverse l) = foldr (λ x acc, f acc x) a l.
Proof.
  induction l as [|x l IH]; [done|].
  by rewrite reverse_cons, foldl_app, IH.
Qed.

Lemma retOperand2Indices_find ret v :
  findIndices (retOperand2Indices ret) v
  = if decide (v ∈ opOperands ret) then Some (reverse (positionsFrom 0 v (opOperands ret)))
    else None.
Proof.
  unfold retOperand2Indices. rewrite <-(findIndices_build 0).
  by rewrite foldl_reverse_foldr.
Qed.

Lemma isNew_OpResult callOp i : isNew callOp (OpResult callOp i).
Proof. done. Qed.

Lemma replaceFirst_elem v n l x : x ∈ replaceFirst v n l → x ∈ l ∨ x = n.
Proof.
  induction l as [|y l IH]; simpl; [by intros ?%elem_of_nil|].
  case_decide; subst.
  - intros [->|?]%elem_of_cons; [auto|]. left. by right.
  - intros [->|[?|?]%IH]%elem_of_cons; [left; by left|left; by right|auto].
Qed.

Lemma replaceFirst_lookup v n l p :
  replaceFirst v n l !! p = l !! p ∨
  (l !! p = Some v ∧ replaceFirst v n l !! p = Some n).
Proof.
  revert p. induction l as [|y l IH]; intros p; simpl; [auto|].
  case_decide; subst.
  - destruct p; simpl; auto.
  - destruct p; simpl; auto.
Qed.

Lemma removelast_reverse {A} (l : list A) : removelast (reverse l) = reverse (tail l).
Proof.
  destruct l as [|x l]; [done|]. simpl. rewrite reverse_cons.
  by rewrite removelast_last.
Qed.

Lemma last_reverse_head {A} (l : list A) : last (reverse l) = head l.
Proof. by rewrite last_reverse. Qed.

Lemma indexInv_init callOp ret :
  indexInv callOp (opOperands ret) (retOperand2Indices ret) (opOperands ret).
Proof.
  intros v _. rewrite retOperand2Indices_find. split; intros Hv.
  - by rewrite decide_False.
  - by rewrite decide_True.
Qed.

Lemma replaceUses_retOp old new f :
  opOperands (retOp (replaceAllUsesExcept old new f)) = opOperands (retOp f) ∧
  opSelf (retOp (replaceAllUsesExcept old new f)) = opSelf (retOp f) ∧
  body (replaceAllUsesExcept old new f)
  = replaceUsesInOp old new (Some (opSelf (retOp f))) <$> body f.
Proof.
  unfold replaceAllUsesExcept, replaceUses. destruct f as [name b r]. simpl.
  destruct r; simpl. rewrite bool_decide_eq_true_2 by done. done.
Qed.

(** One iteration, when outputs are duplicated. *)
Lemma replaceResult_dup callOp rs f idx mapping i v f' idx' mapping' :
  ¬ isNew callOp v →
  indexInv callOp rs idx (opOperands (retOp f)) →
  replaceResult true callOp (Some (f, idx, mapping)) (i, v) = Some (f', idx', mapping') →
  opOperands (retOp f') = replaceFirst v (OpResult callOp i) (opOperands (retOp f)) ∧
  body f' = replaceUsesInOp v (OpResult callOp i) (Some (opSelf (retOp f))) <$> body f ∧
  opSelf (retOp f') = opSelf (retOp f) ∧
  mapping' = (v, OpResult callOp i) :: mapping ∧
  indexInv callOp rs idx' (opOperands (retOp f')).
Proof.
  intros Hv Hinv H. unfold replaceResult in H. cbn [mbind option_bind fst snd] in H.
  destruct (replaceUses_retOp v (OpResult callOp i) f) as (Hops & Hself & Hbody).
  remember (replaceAllUsesExcept v (OpResult callOp i) f) as f1 eqn:Hf1. clear Hf1.
  destruct (Hinv v Hv) as [Hout Hin].
  destruct (decide (v ∈ rs)) as [Hrs|Hrs].
  - rewrite (Hin Hrs) in H. rewrite last_reverse_head in H.
    destruct (positionsFrom 0 v (opOperands (retOp f))) as [|k ps] eqn:Hps;
      cbn [head mbind option_bind] in H; [done|]. simplify_eq.
    destruct (positionsFrom_head 0 v (opOperands (retOp f)) k (OpResult callOp i))
      as [_ Hset]; [by rewrite Hps|]. rewrite Nat.sub_0_r in Hset.
    assert (Hret : opOperands (retOp (setRetOperand k (OpResult callOp i) f1))
                   = replaceFirst v (OpResult callOp i) (opOperands (retOp f))).
    { unfold setRetOperand. cbn [retOp opOperands]. by rewrite Hops. }
    split_and!; [done|by rewrite <-Hbody|by rewrite <-Hself|done|].
    rewrite Hret. intros w Hw. destruct (Hinv w Hw) as [Hwout Hwin].
    rewrite findIndices_popIndex. split; intros Hwrs.
    + rewrite decide_False by congruence. destruct (Hwout Hwrs) as [-> Hwc].
      split; [done|]. intros [?| ->]%replaceFirst_elem; [done|].
      apply Hw, isNew_OpResult.
    + destruct (decide (w = v)) as [->|Hwv].
      * rewrite (Hin Hrs). simpl. f_equal.
        rewrite removelast_reverse, positionsFrom_replaceFirst_same, Hps; [done|].
        intros E. apply Hv. rewrite <-E. apply isNew_OpResult.
      * rewrite (Hwin Hwrs). f_equal. f_equal.
        rewrite positionsFrom_replaceFirst_other; [done|done|].
        intros ->. apply Hw, isNew_OpResult.
  - destruct (Hout Hrs) as [Hnone Hcur]. rewrite Hnone in H.
    cbn [mbind option_bind] in H. simplify_eq.
    split_and!; [|done..|].
    + rewrite Hops. by rewrite replaceFirst_not_in.
    + by rewrite Hops.
Qed.

(** The terminator and the block after the loop, when outputs are
    duplicated. *)
Lemma replaceResults_dup_fold callOp rs ivs f idx mapping f' idx' mapping' :
  (∀ iv, iv ∈ ivs → ¬ isNew callOp iv.2) →
  indexInv callOp rs idx (opOperands (retOp f)) →
  foldl (replaceResult true callOp) (Some (f, idx, mapping)) ivs
    = Some (f', idx', mapping') →
  opOperands (retOp f')
  = foldl (λ l iv, replaceFirst iv.2 (OpResult callOp iv.1) l) (opOperands (retOp f)) ivs ∧
  body f'
  = foldl (λ b iv, replaceUsesInOp iv.2 (OpResult callOp iv.1)
                     (Some (opSelf (retOp f))) <$> b) (body f) ivs ∧
  opSelf (retOp f') = opSelf (retOp f).
Proof.
  revert f idx mapping. induction ivs as [|[i v] ivs IH]; intros f idx mapping Hnew Hinv H.
  - simpl in H. by simplify_eq.
  - cbn [foldl] in H.
    destruct (replaceResult true callOp (Some (f, idx, mapping)) (i, v))
      as [[[f1 idx1] mapping1]|] eqn:Hstep.
    + apply (replaceResult_dup callOp rs) in Hstep as (Hops & Hbody & Hself & _ & Hinv1);
        [|apply (Hnew (i, v)); by left|done].
      apply IH in H as (Hops' & Hbody' & Hself'); [|intros; apply Hnew; by right|done].
      cbn [foldl fst snd]. rewrite <-Hops, <-Hbody, <-Hself. split_and!; [done..|congruence].
    + rewrite foldl_None in H; [done|]. done.
Qed.

(** When outputs are not duplicated every use is replaced. *)
Lemma replaceResults_nodup_fold callOp ivs f idx mapping :
  foldl (replaceResult false callOp) (Some (f, idx, mapping)) ivs
  = Some (foldl (λ g iv, replaceAllUsesWith iv.2 (OpResult callOp iv.1) g) f ivs,
          idx,
          foldl (λ mp iv, (iv.2, OpResult callOp iv.1) :: mp) mapping ivs).
Proof.
  revert f mapping. induction ivs as [|[i v] ivs IH]; intros f mapping; [done|].
  cbn [foldl]. unfold replaceResult at 2. cbn [mbind option_bind fst snd]. apply IH.
Qed.

(** *** Multiplicities *)

Lemma occurrences_replaceFirst_same v n l :
  n ≠ v → occurrences v (replaceFirst v n l) = occurrences v l - 1.
Proof.
  intros Hn. unfold occurrences. rewrite positionsFrom_replaceFirst_same by done.
  by destruct (positionsFrom 0 v l); simpl; lia.
Qed.

Lemma occurrences_replaceFirst_other v n w l :
  w ≠ v → w ≠ n → occurrences w (replaceFirst v n l) = occurrences w l.
Proof.
  intros. unfold occurrences. by rewrite positionsFrom_replaceFirst_other.
Qed.

Lemma occurrences_replaceFirst_new v n l :
  n ≠ v → occurrences n (replaceFirst v n l) ≤ S (occurrences n l).
Proof.
  intros Hn. unfold occurrences. generalize 0.
  induction l as [|x l IH]; intros k; simpl; [lia|].
  case_decide; subst; simpl.
  - rewrite decide_True by done. rewrite (decide_False (P := v = n)) by done. simpl.
    rewrite (positionsFrom_length (S k) k). lia.
  - case_decide; simpl; [specialize (IH (S k)); lia|apply IH].
Qed.

Lemma occurrences_zero v l : occurrences v l = 0 ↔ v ∉ l.
Proof.
  unfold occurrences. rewrite <-(positionsFrom_nil 0). by destruct (positionsFrom 0 v l).
Qed.

Lemma occurrences_cons v x l :
  occurrences v (x :: l) = (if decide (x = v) then 1 else 0) + occurrences v l.
Proof.
  unfold occurrences. simpl. case_decide; simpl; by rewrite (positionsFrom_length 1 0).
Qed.

Lemma replaceAll_cons callOp k v vs l :
  replaceAll callOp k (v :: vs) l
  = replaceAll callOp (S k) vs (replaceFirst v (OpResult callOp k) l).
Proof.
  unfold replaceAll. cbn [imap foldl fst snd]. rewrite Nat.add_0_r. f_equal.
  apply imap_ext. intros i y _. simpl. f_equal. lia.
Qed.

Lemma replaceAll_occurrences callOp k vs l v :
  ¬ isNew callOp v → (∀ x, x ∈ vs → ¬ isNew callOp x) →
  occurrences v (replaceAll callOp k vs l) = occurrences v l - occurrences v vs.
Proof.
  intros Hv. revert k l. induction vs as [|x vs IH]; intros k l Hvs.
  - unfold replaceAll, occurrences. simpl. lia.
  - rewrite replaceAll_cons, IH by (intros; apply Hvs; by right).
    rewrite occurrences_cons. case_decide; subst.
    + rewrite occurrences_replaceFirst_same; [lia|].
      intros E. apply Hv. rewrite <-E. apply isNew_OpResult.
    + rewrite occurrences_replaceFirst_other; [lia|done|].
      intros ->. apply Hv, isNew_OpResult.
Qed.

Lemma replaceAll_lookup callOp k vs l p :
  (∀ x, x ∈ vs → ¬ isNew callOp x) →
  replaceAll callOp k vs l !! p = l !! p ∨
  ∃ i v, vs !! i = Some v ∧ l !! p = Some v ∧
         replaceAll callOp k vs l !! p = Some (OpResult callOp (k + i)).
Proof.
  revert k l. induction vs as [|x vs IH]; intros k l Hvs.
  - by left.
  - rewrite replaceAll_cons.
    assert (Hvs' : ∀ y, y ∈ vs → ¬ isNew callOp y) by (intros; apply Hvs; by right).
    destruct (IH (S k) (replaceFirst x (OpResult callOp k) l) Hvs')
      as [Heq|(i & v & Hi & Hv & Heq)];
      destruct (replaceFirst_lookup x (OpResult callOp k) l p) as [Hl|[Hl Hl']].
    + left. congruence.
    + right. exists 0, x. rewrite Nat.add_0_r. split_and!; [done|done|congruence].
    + right. exists (S i), v. rewrite Nat.add_succ_r. split_and!; [done|congruence|done].
    + exfalso. rewrite Hl' in Hv. simplify_eq.
      apply (Hvs' (OpResult callOp k)); [by eapply list_elem_of_lookup_2|].
      apply isNew_OpResult.
Qed.

(** A result of the call is used at most once by the terminator. *)
Lemma replaceAll_new_once callOp k vs l j :
  (∀ x, x ∈ vs → ¬ isNew callOp x) →
  occurrences (OpResult callOp j) (replaceAll callOp k vs l)
  ≤ occurrences (OpResult callOp j) l + (if decide (k ≤ j < k + length vs) then 1 else 0).
Proof.
  revert k l. induction vs as [|x vs IH]; intros k l Hvs.
  - unfold replaceAll. simpl. lia.
  - rewrite replaceAll_cons.
    assert (Hx : OpResult callOp j ≠ x).
    { intros <-. apply (Hvs (OpResult callOp j)); [by left|apply isNew_OpResult]. }
    etrans; [apply IH; intros; apply Hvs; by right|].
    destruct (decide (j = k)) as [->|Hjk].
    + pose proof (occurrences_replaceFirst_new x (OpResult callOp k) l Hx).
      rewrite decide_False by lia. rewrite decide_True by (simpl; lia). lia.
    + rewrite occurrences_replaceFirst_other; [|done|congruence].
      simpl. repeat case_decide; lia.
Qed.

(** C3, as corrected.  The results of a call, for results that are not
    results of the call itself.  Without [dupOutputs], every use of every
    result, the terminator's included, is replaced.  With [dupOutputs], for
    each result in turn every use outside the terminator is replaced, and
    in the terminator the FIRST remaining occurrence of the value (the one
    of lowest index) is set to the new value: the terminator loses as many
    occurrences of a value as the results list has, every operand is either
    kept or replaced by the call result of a result equal to it, and each
    call result gains one occurrence at most. *)
Theorem call_results_replace_uses callOp f mapping results :
  Forall (λ v, ¬ isNew callOp v) results →
  replaceResults false callOp f mapping results
  = Some (foldl (λ g iv, replaceAllUsesWith iv.2 (OpResult callOp iv.1) g) f
            (imap pair results),
          retOperand2Indices (retOp f),
          foldl (λ mp iv, (iv.2, OpResult callOp iv.1) :: mp) mapping
            (imap pair results)) ∧
  ∀ f' idx' mapping',
    replaceResults true callOp f mapping results = Some (f', idx', mapping') →
    opOperands (retOp f') = replaceAll callOp 0 results (opOperands (retOp f)) ∧
    body f'
    = foldl (λ b iv, replaceUsesInOp iv.2 (OpResult callOp iv.1)
                       (Some (opSelf (retOp f))) <$> b) (body f) (imap pair results) ∧
    (∀ v, ¬ isNew callOp v →
       occurrences v (opOperands (retOp f'))
       = occurrences v (opOperands (retOp f)) - occurrences v results) ∧
    (∀ p, opOperands (retOp f') !! p = opOperands (retOp f) !! p ∨
          ∃ i v, results !! i = Some v ∧ opOperands (retOp f) !! p = Some v ∧
                 opOperands (retOp f') !! p = Some (OpResult callOp i)) ∧
    (∀ i, occurrences (OpResult callOp i) (opOperands (retOp f'))
          ≤ S (occurrences (OpResult callOp i) (opOperands (retOp f)))).
Proof.
  intros Hnew. rewrite Forall_forall in Hnew. split.
  - apply replaceResults_nodup_fold.
  - intros f' idx' mapping' H. unfold replaceResults in H.
    apply (replaceResults_dup_fold callOp (opOperands (retOp f))) in H
      as (Hops & Hbody & _); [|..|apply indexInv_init].
    + assert (Hfinal : opOperands (retOp f')
                       = replaceAll callOp 0 results (opOperands (retOp f))) by done.
      split_and!; [done|done|..]; rewrite Hfinal.
      * intros v Hv. by apply replaceAll_occurrences.
      * intros p. destruct (replaceAll_lookup callOp 0 results (opOperands (retOp f)) p Hnew)
          as [?|(i & v & ? & ? & ?)]; [by left|right; by exists i, v].
      * intros i. etrans; [by apply replaceAll_new_once|].
        case_decide; lia.
    + intros [i v] Hiv. simpl. apply Hnew.
      apply list_elem_of_lookup in Hiv as (j & Hj).
      apply list_lookup_imap_Some in Hj as (y & Hy & E). simplify_eq.
      by eapply list_elem_of_lookup_2.
Qed.

(** ** The order of the block *)

Section Before.
Context {A : Type}.
Implicit Types (k l a b : list A) (x y : A).

Lemma before_elem k x y : before k x y → x ∈ k ∧ y ∈ k.
Proof. intros (i & j & Hi & Hj & _). split; by eapply list_elem_of_lookup_2. Qed.

Lemma before_app_l a b x y : before a x y → before (a ++ b) x y.
Proof.
  intros (i & j & Hi & Hj & Hij). exists i, j.
  split_and!; [by apply lookup_app_l_Some..|done].
Qed.

Lemma before_app_r a b x y : before b x y → before (a ++ b) x y.
Proof.
  intros (i & j & Hi & Hj & Hij). exists (length a + i), (length a + j).
  rewrite !lookup_app_r by lia.
  replace (length a + i - length a) with i by lia.
  replace (length a + j - length a) with j by lia.
  split_and!; [done..|lia].
Qed.

Lemma before_app_lr a b x y : x ∈ a → y ∈ b → before (a ++ b) x y.
Proof.
  intros (i & Hi)%list_elem_of_lookup (j & Hj)%list_elem_of_lookup.
  exists i, (length a + j). pose proof (lookup_lt_Some _ _ _ Hi).
  split_and!; [by apply lookup_app_l_Some| |lia].
  rewrite lookup_app_r by lia. by replace (length a + j - length a) with j by lia.
Qed.

Lemma before_app_inv a b x y :
  before (a ++ b) x y → before a x y ∨ (x ∈ a ∧ y ∈ b) ∨ before b x y.
Proof.
  intros (i & j & Hi & Hj & Hij).
  destruct (decide (j < length a)) as [Hj'|Hj'].
  - left. exists i, j. rewrite lookup_app_l in Hi, Hj by lia. done.
  - rewrite lookup_app_r in Hj by lia.
    destruct (decide (i < length a)) as [Hi'|Hi'].
    + right. left. rewrite lookup_app_l in Hi by lia.
      split; by eapply list_elem_of_lookup_2.
    + right. right. rewrite lookup_app_r in Hi by lia.
      exists (i - length a), (j - length a). split_and!; [done..|lia].
Qed.

Lemma before_asym k x y : NoDup k → before k x y → before k y x → False.
Proof.
  intros Hnd (i & j & Hi & Hj & Hij) (i' & j' & Hi' & Hj' & Hij').
  pose proof (NoDup_lookup _ _ _ _ Hnd Hi Hj').
  pose proof (NoDup_lookup _ _ _ _ Hnd Hj Hi'). lia.
Qed.

Lemma before_irrefl k x : NoDup k → ¬ before k x x.
Proof. intros Hnd H. by eapply before_asym. Qed.

Lemma before_total k x y : x ∈ k → y ∈ k → x = y ∨ before k x y ∨ before k y x.
Proof.
  intros (i & Hi)%list_elem_of_lookup (j & Hj)%list_elem_of_lookup.
  destruct (lt_eq_lt_dec i j) as [[?| ->]|?].
  - right. left. by exists i, j.
  - left. congruence.
  - right. right. by exists j, i.
Qed.

Lemma before_sublist l k x y : l `sublist_of` k → before l x y → before k x y.
Proof.
  induction 1 as [|z l k Hlk IH|z l k Hlk IH]; intros H.
  - done.
  - apply (before_app_inv [z]) in H as [H|[[Hx Hy]|H]].
    + destruct H as (i & j & Hi & Hj & Hij).
      apply lookup_lt_Some in Hj. simpl in Hj. lia.
    + apply (before_app_lr [z]); [done|].
      by apply (sublist_subseteq l k).
    + apply (before_app_r [z]). auto.
  - apply (before_app_r [z]). auto.
Qed.

Lemma before_sublist_inv l k x y :
  NoDup k → l `sublist_of` k → x ∈ l → y ∈ l → before k x y → before l x y.
Proof.
  intros Hnd Hsub Hx Hy H.
  destruct (before_total l x y Hx Hy) as [->|[|H']]; [by apply before_irrefl in H|done|].
  apply (before_sublist _ k) in H'; [|done]. by destruct (before_asym k x y).
Qed.

Lemma before_reverse k x y : before (reverse k) x y ↔ before k y x.
Proof.
  assert (∀ k x y, before k y x → before (reverse k) x y) as Hgen.
  { clear. intros k x y (i & j & Hi & Hj & Hij).
    pose proof (lookup_lt_Some _ _ _ Hi). pose proof (lookup_lt_Some _ _ _ Hj).
    exists (length k - S j), (length k - S i).
    rewrite !reverse_lookup by lia.
    replace (length k - S (length k - S j)) with j by lia.
    replace (length k - S (length k - S i)) with i by lia.
    split_and!; [done..|lia]. }
  split; [|apply Hgen]. intros H. apply Hgen in H. by rewrite reverse_involutive in H.
Qed.

(** *** Runs *)

Lemma run_elem l k x : run l k → x ∈ l → x ∈ k.
Proof. intros (pre & post & ->) Hx. set_solver. Qed.

Lemma run_refl l : run l l.
Proof. exists [], []. by rewrite app_nil_r. Qed.

Lemma run_singleton x k : x ∈ k → run [x] k.
Proof. intros (pre & post & ->)%list_elem_of_split. by exists pre, post. Qed.

Lemma run_app_l l a b : run l a → run l (a ++ b).
Proof.
  intros (pre & post & ->). exists pre, (post ++ b). by rewrite <-?app_assoc.
Qed.

Lemma run_app_r l a b : run l b → run l (a ++ b).
Proof.
  intros (pre & post & ->). exists (a ++ pre), post. by rewrite <-?app_assoc.
Qed.

Lemma run_reverse l k : run l k → run (reverse l) (reverse k).
Proof.
  intros (pre & post & ->). exists (reverse post), (reverse pre).
  by rewrite !reverse_app, <-!app_assoc.
Qed.

Lemma runs_ordered_aux (X Y q1 q2 r : list A) :
  X ≠ [] → (∀ x, x ∈ X → x ∈ Y → False) →
  Y ++ q2 = r ++ X ++ q1 → ∃ b, r = Y ++ b ∧ q2 = b ++ X ++ q1.
Proof.
  intros HX Hdis E.
  apply app_eq_inv in E as [(k' & -> & E)|(k' & -> & ->)]; [|by exists k'].
  destruct k' as [|z k'].
  - exists []. rewrite !app_nil_r. simpl in *. by subst.
  - destruct X as [|x X]; [done|]. simplify_eq/=.
    destruct (Hdis z); [left|set_solver].
Qed.

(** Two runs without a common element come one after the other. *)
Lemma runs_ordered l1 l2 k :
  run l1 k → run l2 k → l1 ≠ [] → l2 ≠ [] → (∀ x, x ∈ l1 → x ∉ l2) →
  (∃ a b c, k = a ++ l1 ++ b ++ l2 ++ c) ∨ (∃ a b c, k = a ++ l2 ++ b ++ l1 ++ c).
Proof.
  intros (p1 & q1 & E1) (p2 & q2 & E2) H1 H2 Hdis. subst k.
  apply app_eq_inv in E2 as [(r & -> & E)|(r & -> & E)].
  - right. destruct (runs_ordered_aux l1 l2 q1 q2 r H1) as (b & -> & ->); [|done|].
    { intros x ? ?. by eapply Hdis. }
    exists p2, b, q1. by rewrite <-?app_assoc.
  - left. destruct (runs_ordered_aux l2 l1 q2 q1 r H2) as (b & -> & ->); [|done|].
    { intros x ? ?. by eapply Hdis. }
    exists p1, b, q2. by rewrite <-?app_assoc.
Qed.

(** *** Splitting lists without duplicates *)

Lemma NoDup_split_unique l1 l2 k1 k2 x :
  NoDup (l1 ++ x :: l2) → l1 ++ x :: l2 = k1 ++ x :: k2 → l1 = k1 ∧ l2 = k2.
Proof.
  intros Hnd E.
  assert (Hi : (l1 ++ x :: l2) !! length l1 = Some x) by by apply list_lookup_middle.
  assert (Hj : (l1 ++ x :: l2) !! length k1 = Some x).
  { rewrite E. by apply list_lookup_middle. }
  pose proof (NoDup_lookup _ _ _ _ Hnd Hi Hj) as Hlen.
  apply app_inj_1 in E as [-> E]; [|done]. by simplify_eq.
Qed.

Lemma sublist_length_eq l k : l `sublist_of` k → length k ≤ length l → l = k.
Proof.
  induction 1 as [|x l k Hlk IH|x l k Hlk IH]; simpl; intros Hlen.
  - done.
  - f_equal. apply IH. lia.
  - apply sublist_length in Hlk. lia.
Qed.

Lemma sublist_app_disjoint l a b :
  l `sublist_of` a ++ b → (∀ x, x ∈ l → x ∉ b) → l `sublist_of` a.
Proof.
  intros (l1 & l2 & -> & H1 & H2)%sublist_app_r Hdis.
  destruct l2 as [|z l2]; [by rewrite app_nil_r|].
  destruct (Hdis z); [set_solver|].
  apply (sublist_subseteq _ _ H2). left.
Qed.

Lemma sublist_app_disjoint_r l a b :
  l `sublist_of` a ++ b → (∀ x, x ∈ l → x ∉ a) → l `sublist_of` b.
Proof.
  intros (l1 & l2 & -> & H1 & H2)%sublist_app_r Hdis.
  destruct l1 as [|z l1]; [done|].
  destruct (Hdis z); [set_solver|].
  apply (sublist_subseteq _ _ H1). left.
Qed.

Lemma sublist_reverse l k : l `sublist_of` k → reverse l `sublist_of` reverse k.
Proof.
  induction 1 as [|x l k Hlk IH|x l k Hlk IH]; rewrite ?reverse_cons.
  - done.
  - by apply sublist_app.
  - by apply sublist_inserts_r.
Qed.

(** A run of [k] all of whose elements are kept is a run of the sublist. *)
Lemma run_sublist l s k :
  NoDup k → run l k → s `sublist_of` k → (∀ x, x ∈ l → x ∈ s) → run l s.
Proof.
  intros Hnd (a & b & ->) Hs Hl.
  apply sublist_app_r in Hs as (sa & s' & -> & Ha & Hs).
  apply sublist_app_r in Hs as (sl & sb & -> & Hsl & Hb).
  apply NoDup_app in Hnd as (_ & Hab & Hnd).
  apply NoDup_app in Hnd as (Hndl & Hlb & _).
  exists sa, sb. do 2 f_equal. apply sublist_length_eq; [done|].
  apply submseteq_length, NoDup_submseteq; [done|].
  intros x Hx. specialize (Hl x Hx).
  apply elem_of_app in Hl as [Hl|Hl].
  { apply (sublist_subseteq _ _ Ha) in Hl. destruct (Hab x Hl). set_solver. }
  apply elem_of_app in Hl as [Hl|Hl]; [done|].
  apply (sublist_subseteq _ _ Hb) in Hl. by destruct (Hlb x Hx).
Qed.

(** A run that avoids a block in the middle lies on one side of it. *)
Lemma run_avoid l a mid b :
  NoDup (a ++ mid ++ b) → mid ≠ [] → run l (a ++ mid ++ b) →
  (∀ x, x ∈ l → x ∉ mid) → run l a ∨ run l b.
Proof.
  intros Hnd Hmid Hl Hdis.
  destruct l as [|z l]; [left; by exists [], a|].
  destruct mid as [|y mid]; [done|].
  assert (Hm : run (y :: mid) (a ++ (y :: mid) ++ b)) by by exists a, b.
  destruct (runs_ordered (z :: l) (y :: mid) _ Hl Hm) as [(a' & b' & c' & E)|(a' & b' & c' & E)];
    [done|done|done|..].
  - left.
    replace (a' ++ (z :: l) ++ b' ++ (y :: mid) ++ c')
      with ((a' ++ (z :: l) ++ b') ++ y :: (mid ++ c')) in E
      by (by rewrite <-!app_assoc).
    change (a ++ (y :: mid) ++ b) with (a ++ y :: (mid ++ b)) in E, Hnd.
    apply NoDup_split_unique in E as [-> _]; [|done]. by exists a', b'.
  - right.
    change (a' ++ (y :: mid) ++ b' ++ (z :: l) ++ c')
      with (a' ++ y :: (mid ++ b' ++ (z :: l) ++ c')) in E.
    change (a ++ (y :: mid) ++ b) with (a ++ y :: (mid ++ b)) in E, Hnd.
    apply NoDup_split_unique in E as [-> E]; [|done].
    apply app_inv_head in E. subst b. by exists b', c'.
Qed.

Lemma filter_ext_in (P Q : A → Prop) `{!∀ x, Decision (P x)} `{!∀ x, Decision (Q x)} l :
  (∀ x, x ∈ l → P x ↔ Q x) → filter P l = filter Q l.
Proof.
  induction l as [|x l IH]; intros Hext; [done|]. rewrite !filter_cons.
  rewrite IH by (intros y Hy; apply Hext; by right).
  destruct (decide (P x)) as [HP|HP], (decide (Q x)) as [HQ|HQ]; try done.
  - destruct HQ. apply Hext; [left|done].
  - destruct HP. apply Hext; [left|done].
Qed.

End Before.

(** A sublist of a list without duplicates is given by its elements. *)
Lemma sublist_filter_eq (l k : list OpPtr) :
  NoDup k → l `sublist_of` k → filter (λ x, x ∈ l) k = l.
Proof.
  intros Hnd Hsub. induction Hsub as [|x l k Hlk IH|x l k Hlk IH].
  - done.
  - apply NoDup_cons in Hnd as [Hx Hnd]. rewrite filter_cons.
    rewrite decide_True by left. f_equal. etrans; [|by apply IH].
    apply filter_ext_in. intros y Hy. rewrite elem_of_cons.
    split; [intros [->|?]; done|auto].
  - apply NoDup_cons in Hnd as [Hx Hnd]. rewrite filter_cons.
    rewrite decide_False; [auto|].
    intros Hxl. apply Hx. by apply (sublist_subseteq _ _ Hlk).
Qed.

Lemma sublist_same_elems (l1 l2 k : list OpPtr) :
  NoDup k → l1 `sublist_of` k → l2 `sublist_of` k → (∀ x, x ∈ l1 ↔ x ∈ l2) →
  l1 = l2.
Proof.
  intros Hnd H1 H2 Hel. rewrite <-(sublist_filter_eq l1 k), <-(sublist_filter_eq l2 k) by done.
  by apply list_filter_iff.
Qed.

(** ** The order of the move sets *)

Lemma pullCluster_fold_sublist vec l remain move remain' move' :
  foldl (pullCluster vec) (Some (remain, move)) l = Some (remain', move') →
  move' `sublist_of` move.
Proof.
  revert remain move. induction l as [|x l IH]; intros remain move H; simpl in H.
  - by simplify_eq.
  - destruct (decide (x ∈ vec)); simpl in H; [|by rewrite foldl_None in H].
    destruct (decide (x ∈ remain)); simpl in H; [by rewrite foldl_None in H|].
    apply IH in H. etrans; [done|]. unfold sv_remove.
    clear. induction move as [|y move IH]; simpl; [done|].
    destruct (bool_decide (y ≠ x)); by constructor.
Qed.

Lemma pullCluster_fold_total vec l remain move :
  (∀ x, x ∈ l → x ∈ vec) → (∀ x, x ∈ l → x ∉ remain) → NoDup l →
  is_Some (foldl (pullCluster vec) (Some (remain, move)) l).
Proof.
  revert remain move. induction l as [|x l IH]; intros remain move Hv Hr Hnd; simpl.
  - done.
  - rewrite decide_True by (apply Hv; left).
    rewrite decide_False by (apply Hr; left). apply NoDup_cons in Hnd as [Hx Hnd].
    apply IH; [|  |done].
    + intros y Hy. apply Hv. by right.
    + intros y Hy [Hy'| ->%list_elem_of_singleton]%elem_of_app; [|done].
      by apply (Hr y); [right|].
Qed.

(** The outcomes of a step. *)
Lemma moveStep_cases rejected order vec remain move m p remain' move' m' :
  moveStep rejected order vec (Some (remain, move, m)) p = Some (remain', move', m') →
  (p ∈ remain ∧ remain' = remain ∧ move' = move ∧ m' = m) ∨
  ((p ∉ remain) ∧ rejected remain p = Some false ∧
   remain' = remain ∧ move' = sv_insert p move ∧ m' = m) ∨
  ((p ∉ remain) ∧ rejected remain p = Some true ∧ m !! p = None ∧
   remain' = sv_insert p remain ∧ move' = move ∧ m' = m) ∨
  ((p ∉ remain) ∧ rejected remain p = Some true ∧ is_Some (m !! p) ∧
   ∃ r c, getRoot m p = Some (r, m') ∧ m' !! r = Some c ∧
     foldl (pullCluster vec) (Some (remain, move)) (order (operations c))
     = Some (remain', move')).
Proof.
  unfold moveStep. simpl. intros H.
  destruct (decide (p ∈ remain)); [left; by simplify_eq|]. right.
  destruct (rejected remain p) as [[]|]; simpl in H; [| |done].
  - right. destruct (m !! p) eqn:Hp.
    + right. destruct (getRoot m p) as [[r m1]|]; simpl in H; [|done].
      destruct (m1 !! r) as [c|] eqn:Hc; simpl in H; [|done].
      destruct (foldl _ _ _) as [[rem mv]|] eqn:Hf; simpl in H; [|done].
      simplify_eq. split_and!; [done..|]. by exists r, c.
    + left. by simplify_eq.
  - left. by simplify_eq.
Qed.

Section MoveOrder.
Variable rejected : list OpPtr → OpPtr → option bool.
Variable order : list OpPtr → list OpPtr.
Variable depT : OpPtr → Prop.
Variable dep : OpPtr → OpPtr → Prop.
Hypothesis order_elem : ∀ l x, x ∈ order l ↔ x ∈ l.
Hypothesis order_NoDup : ∀ l, NoDup l → NoDup (order l).
Hypothesis rejected_dep :
  ∀ remain p, rejected remain p = Some false →
    ¬ depT p ∧ ∀ y, y ∈ remain → ¬ dep p y.
Variable vec : list OpPtr.
Variable m0 : OpClusterMap.
Hypothesis m0_forest : forest m0.
Hypothesis vec_NoDup : NoDup vec.
Hypothesis cluster_run :
  ∀ p d r c, p ∈ vec → resolves m0 d p r → m0 !! r = Some c →
    run (order (operations c)) vec.

(** The cluster that a step pulls, as the records before the loop have
    it. *)
Lemma pulled_cluster m p r m' c :
  same_forest m0 m → p ∈ vec → getRoot m p = Some (r, m') → m' !! r = Some c →
  run (order (operations c)) vec ∧ p ∈ operations c ∧ NoDup (operations c) ∧
  ∀ x, x ∈ operations c ↔ mates m0 p x.
Proof.
  intros Hsf Hp Hg Hc.
  apply getRoot_fuel_spec in Hg as [Hsf' (d & Hd)].
  apply (sf_resolves_inv _ _ Hsf) in Hd as (d0 & Hd0).
  pose proof (same_forest_trans _ _ _ Hsf Hsf') as Hsf0.
  pose proof (sf_operations _ _ Hsf0 r) as Hops. rewrite Hc in Hops. simpl in Hops.
  destruct (m0 !! r) as [c0|] eqn:Hc0; [|done]. simpl in Hops. simplify_eq.
  rewrite Hops. split_and!.
  - by eapply cluster_run.
  - apply (forest_ops _ m0_forest r c0 Hc0).
    { apply resolves_isRoot in Hd0 as (c' & ? & ?). congruence. }
    eauto.
  - by eapply (forest_nodup _ m0_forest).
  - rewrite <-Hops. by eapply root_operations.
Qed.

Lemma moveStep_ord pre rest remain move m p remain' move' m' :
  moveInv vec m0 pre remain move m →
  moveOrd depT dep vec pre (p :: rest) remain move →
  moveStep rejected order vec (Some (remain, move, m)) p = Some (remain', move', m') →
  moveOrd depT dep vec (pre ++ [p]) rest remain' move'.
Proof.
  intros [Hsf Hmv Hrm Hvis Hcl Hnd] [Hvec Hmove (over & rest' & Hrest & Hsub & Hover & Hfree) Hdep] H.
  assert (Hvec' : vec = (pre ++ [p]) ++ rest) by by rewrite <-app_assoc.
  assert (Hp : p ∈ vec) by (rewrite Hvec; set_solver).
  assert (Hppre : p ∉ pre).
  { pose proof vec_NoDup as Hndv. rewrite Hvec in Hndv.
    apply NoDup_app in Hndv as (_ & Hd & _).
    intros Hp'. apply (Hd p Hp'). left. }
  assert (Hprest : p ∉ rest).
  { pose proof vec_NoDup as Hndv. rewrite Hvec in Hndv.
    apply NoDup_app in Hndv as (_ & _ & Hd).
    by apply NoDup_cons in Hd as [? _]. }
  apply moveStep_cases in H
    as [(Hpr & -> & -> & ->)|[(Hpr & Hrej & -> & -> & ->)|[(Hpr & Hrej & Hnone & -> & -> & ->)
       |(Hpr & Hrej & Hsome & r & c & Hg & Hc & Hfold)]]].
  - (* already in the remaining operations *)
    destruct over as [|q over]; simpl in Hrest.
    { subst rest'. destruct (Hfree p); [left|done]. }
    simplify_eq. split; [done| | |done].
    + by apply sublist_inserts_r.
    + exists over, rest'. split_and!; [done| |set_solver|done].
      by rewrite <-app_assoc.
  - (* accepted *)
    assert (over = []) as ->.
    { destruct over as [|q over]; [done|]. simplify_eq/=. destruct Hpr. apply Hover. left. }
    simpl in Hrest. subst rest'. rewrite app_nil_r in Hsub.
    assert (p ∉ move) by (intros Hm; by destruct (Hmv p Hm)).
    unfold sv_insert. rewrite decide_False by done.
    split; [done| | |].
    + by apply sublist_app.
    + exists [], rest. split_and!; [done| |set_solver|].
      * rewrite app_nil_r. by apply sublist_inserts_r.
      * intros x Hx. apply Hfree. by right.
    + intros x [Hx| ->%list_elem_of_singleton]%elem_of_app; [auto|].
      destruct (rejected_dep _ _ Hrej) as [HT HD]. split; [done|]. intros y Hy _. auto.
  - (* rejected, without a cluster *)
    assert (over = []) as ->.
    { destruct over as [|q over]; [done|]. simplify_eq/=. destruct Hpr. apply Hover. left. }
    simpl in Hrest. subst rest'. rewrite app_nil_r in Hsub.
    unfold sv_insert. rewrite decide_False by done.
    split; [done| | |].
    + by apply sublist_inserts_r.
    + exists [], rest. split_and!; [done| |set_solver|].
      * rewrite app_nil_r. by apply sublist_app.
      * intros x Hx [Hx'| ->%list_elem_of_singleton]%elem_of_app; [|done].
        apply (Hfree x); [by right|done].
    + intros x Hx. destruct (Hdep x Hx) as [HT HD]. split; [done|].
      intros y [Hy| ->%list_elem_of_singleton]%elem_of_app Hb; [auto|].
      destruct (Hmv x Hx) as [Hxpre _].
      intros _. eapply (before_asym vec); [done| |exact Hb].
      rewrite Hvec. apply before_app_lr; [done|left].
  - (* rejected, with its cluster *)
    assert (over = []) as ->.
    { destruct over as [|q over]; [done|]. simplify_eq/=. destruct Hpr. apply Hover. left. }
    simpl in Hrest. subst rest'. rewrite app_nil_r in Hsub.
    destruct (pulled_cluster _ _ _ _ _ Hsf Hp Hg Hc) as ((a & b & Hrun) & Hpc & Hndc & Hmates).
    pose proof (pullCluster_fold_sublist _ _ _ _ _ _ Hfold) as Hsub'.
    apply pullCluster_fold in Hfold as (-> & Hm' & _ & Hfresh & _).
    assert (Hpo : p ∈ order (operations c)) by by apply order_elem.
    apply list_elem_of_split in Hpo as (X1 & X2 & HX).
    rewrite HX in Hrun. rewrite Hvec in Hrun.
    replace (a ++ (X1 ++ p :: X2) ++ b) with ((a ++ X1) ++ p :: (X2 ++ b)) in Hrun
      by (by rewrite <-!app_assoc).
    apply NoDup_split_unique in Hrun as [Hpre Hrest]; [|by rewrite <-Hvec].
    assert (Hra : remain `sublist_of` a).
    { rewrite Hpre in Hsub. eapply sublist_app_disjoint; [done|].
      intros x Hx Hx1. apply (Hfresh x); [|done]. rewrite HX. set_solver. }
    split; [done| | |].
    + etrans; [done|]. by apply sublist_inserts_r.
    + exists X2, b. split_and!; [done| | |].
      * rewrite HX, Hpre. rewrite <-!app_assoc. simpl.
        by apply sublist_app.
      * intros x Hx. rewrite HX. set_solver.
      * intros x Hx [Hx'|Hx']%elem_of_app.
        -- apply (Hfree x); [|done]. rewrite Hrest. set_solver.
        -- pose proof vec_NoDup as Hndv.
           rewrite Hvec, Hpre, Hrest in Hndv. rewrite HX in Hx'.
           rewrite <-!app_assoc in Hndv.
           apply NoDup_app in Hndv as (_ & _ & Hd).
           replace (X1 ++ p :: X2 ++ b) with ((X1 ++ p :: X2) ++ b) in Hd
             by (by rewrite <-app_assoc).
           apply NoDup_app in Hd as (_ & Hd & _). by apply (Hd x).
    + intros x Hx. apply Hm' in Hx as [Hx Hxc]. destruct (Hdep x Hx) as [HT HD].
      split; [done|]. intros y [Hy|Hy]%elem_of_app Hb; [auto|].
      destruct (Hmv x Hx) as [Hxpre _]. rewrite Hpre in Hxpre.
      apply elem_of_app in Hxpre as [Hxa|Hx1]; [|destruct Hxc; rewrite HX; set_solver].
      intros _. eapply (before_asym vec); [done| |exact Hb].
      rewrite Hvec, Hpre, Hrest.
      replace ((a ++ X1) ++ p :: X2 ++ b) with (a ++ ((X1 ++ p :: X2) ++ b))
        by (by rewrite <-!app_assoc).
      apply before_app_lr; [done|]. rewrite <-HX. set_solver.
Qed.

Lemma moveFold_ord rest pre remain move m remain' move' m' :
  moveInv vec m0 pre remain move m →
  moveOrd depT dep vec pre rest remain move →
  foldl (moveStep rejected order vec) (Some (remain, move, m)) rest
    = Some (remain', move', m') →
  moveInv vec m0 vec remain' move' m' ∧ moveOrd depT dep vec vec [] remain' move'.
Proof.
  revert pre remain move m.
  induction rest as [|p rest IH]; intros pre remain move m Hinv Hord H; cbn [foldl] in H.
  - simplify_eq. pose proof (mo_vec _ _ _ _ _ _ _ Hord) as E.
    rewrite app_nil_r in E. by subst pre.
  - destruct (moveStep rejected order vec (Some (remain, move, m)) p)
      as [[[rem mv] m1]|] eqn:Hstep;
      [|by rewrite foldl_None in H by apply moveStep_None].
    pose proof (mo_vec _ _ _ _ _ _ _ Hord) as Hvec.
    assert (Hp : p ∈ vec) by (rewrite Hvec; set_solver).
    assert (Hppre : p ∉ pre).
    { pose proof vec_NoDup as Hndv. rewrite Hvec in Hndv.
      apply NoDup_app in Hndv as (_ & Hd & _).
      intros Hp'. apply (Hd p Hp'). left. }
    eapply IH; [| |exact H].
    + by eapply moveStep_inv.
    + by eapply moveStep_ord.
Qed.

Hypothesis rejected_total : ∀ remain p, p ∈ vec → is_Some (rejected remain p).

(** No assertion of a step fails. *)
Lemma moveStep_total pre remain move m p :
  moveInv vec m0 pre remain move m → p ∈ vec →
  is_Some (moveStep rejected order vec (Some (remain, move, m)) p).
Proof.
  intros [Hsf Hmv Hrm Hvis Hcl Hnd] Hp. unfold moveStep. simpl.
  destruct (decide (p ∈ remain)) as [|Hpr]; [done|].
  destruct (rejected_total remain p Hp) as [b ->]. simpl.
  destruct b; [|done].
  destruct (m !! p) as [cp|] eqn:Hcp; [|done].
  destruct (getRoot_total m p) as (r & m' & Hg & Hsf' & d & Hd).
  { by eapply forest_same_forest. }
  { apply elem_of_dom. eauto. }
  rewrite Hg. simpl.
  assert (Hr : is_Some (m' !! r)).
  { apply (sf_resolves _ _ Hsf') in Hd as (d' & _ & Hd).
    apply resolves_isRoot in Hd as (c & ? & _). eauto. }
  destruct Hr as [c Hc]. rewrite Hc. simpl.
  destruct (pulled_cluster _ _ _ _ _ Hsf Hp Hg Hc) as (Hrun & Hpc & Hndc & Hmates).
  destruct (pullCluster_fold_total vec (order (operations c)) remain move)
    as [[rem mv] ->]; [| | |done].
  - intros x Hx. by eapply run_elem.
  - intros x Hx Hxr. apply (proj1 (order_elem _ _)), Hmates in Hx.
    apply Hpr. eapply Hcl; [done|]. by apply mates_sym.
  - by apply order_NoDup.
Qed.

Lemma moveFold_total rest pre remain move m :
  moveInv vec m0 pre remain move m → NoDup (pre ++ rest) →
  (∀ x, x ∈ rest → x ∈ vec) →
  is_Some (foldl (moveStep rejected order vec) (Some (remain, move, m)) rest).
Proof.
  revert pre remain move m.
  induction rest as [|p rest IH]; intros pre remain move m Hinv Hnd Hv; cbn [foldl];
    [done|].
  destruct (moveStep_total pre remain move m p Hinv) as [[[rem mv] m1] Hstep].
  { apply Hv. left. }
  rewrite Hstep. apply (IH (pre ++ [p])).
  - eapply moveStep_inv; [done..| | |done].
    + apply NoDup_app in Hnd as (_ & Hd & _). intros Hp. apply (Hd p Hp). left.
    + apply Hv. left.
  - by rewrite <-app_assoc.
  - intros x Hx. apply Hv. by right.
Qed.

End MoveOrder.

(** ** The tree of an operation *)

Lemma Operation_nested_ind (P : Operation → Prop) :
  (∀ op, Forall (Forall (Forall P)) (opRegions op) → P op) → ∀ op, P op.
Proof.
  intros H. fix IH 1. intros [s n o nr ats rs]. apply H. simpl.
  induction rs as [|r rs IHr]; constructor; [|done].
  induction r as [|b r IHb]; constructor; [|done].
  induction b as [|x b IHx]; constructor; [apply IH|done].
Qed.

Lemma existsb_flat_map {A B} (g : B → bool) (h : A → list B) (l : list A) :
  existsb g (flat_map h l) = existsb (λ x, existsb g (h x)) l.
Proof.
  induction l as [|x l IH]; simpl; [done|]. by rewrite existsb_app, IH.
Qed.

Lemma existsb_ext_Forall {A} (g h : A → bool) (l : list A) :
  Forall (λ x, g x = h x) l → existsb g l = existsb h l.
Proof. induction 1 as [|x l E _ IH]; simpl; [done|]. by rewrite E, IH. Qed.

Lemma existsb_nested {A} (g : A → bool) (h : A → list A) (sub : A → bool)
    (rs : list (list (list A))) :
  Forall (Forall (Forall (λ x, sub x = existsb g (h x)))) rs →
  existsb (existsb (existsb sub)) rs
  = existsb g (flat_map (flat_map (flat_map h)) rs).
Proof.
  intros Hrs. rewrite existsb_flat_map. apply existsb_ext_Forall.
  eapply Forall_impl; [exact Hrs|]. intros r Hr. simpl in Hr.
  rewrite existsb_flat_map. apply existsb_ext_Forall.
  eapply Forall_impl; [exact Hr|]. intros b Hb. simpl in Hb.
  rewrite existsb_flat_map. by apply existsb_ext_Forall.
Qed.

(** [isHostOp]: some operation of the tree carries the host attribute. *)
Lemma isHostOp_subOps attrName op :
  isHostOp attrName op = existsb (hasHostAttr attrName) (subOps op).
Proof.
  induction op as [op IH] using Operation_nested_ind.
  destruct op as [s n o nr ats rs]. simpl in *.
  rewrite (existsb_nested (hasHostAttr attrName) subOps _ rs IH).
  unfold hasHostAttr at 2. simpl. apply orb_comm.
Qed.

Lemma anyDefIn_subOps op ops :
  anyDefIn op ops
  = existsb (λ o, existsb (λ operand,
                             match getDefiningOp operand with
                             | Some d => bool_decide (d ∈ ops)
                             | None => false
                             end) (opOperands o)) (subOps op).
Proof.
  induction op as [op IH] using Operation_nested_ind.
  destruct op as [s n o nr ats rs]. simpl in *.
  rewrite (existsb_nested _ subOps _ rs IH). apply orb_comm.
Qed.

(** [anyDefIn]: an operand of the tree is defined by one of [ops]. *)
Lemma anyDefIn_usedDefs op ops :
  anyDefIn op ops = true ↔ ∃ d, d ∈ usedDefs op ∧ d ∈ ops.
Proof.
  rewrite anyDefIn_subOps, existsb_exists. unfold usedDefs. split.
  - intros (o & Ho & Hex). apply existsb_exists in Hex as (v & Hv & Hd).
    destruct (getDefiningOp v) as [d|] eqn:E; [|done].
    apply bool_decide_eq_true in Hd. exists d. split; [|done].
    apply list_elem_of_omap. exists v. split; [|done].
    apply list_elem_of_In, in_flat_map. eauto.
  - intros (d & (v & Hv & E)%list_elem_of_omap & Hd).
    apply list_elem_of_In, in_flat_map in Hv as (o & Ho & Hv).
    exists o. split; [done|]. apply existsb_exists. exists v. split; [done|].
    rewrite E. by apply bool_decide_eq_true.
Qed.

Lemma elem_of_flat_map {A B} (h : A → list B) (l : list A) y :
  y ∈ flat_map h l ↔ ∃ x, x ∈ l ∧ y ∈ h x.
Proof.
  rewrite list_elem_of_In, in_flat_map. split; intros (x & Hx & Hy); exists x.
  - by rewrite !list_elem_of_In.
  - by rewrite <-!list_elem_of_In.
Qed.

Lemma elem_of_nested {A B} (h : A → list B) (rs : list (list (list A))) y :
  y ∈ flat_map (flat_map (flat_map h)) rs ↔
  ∃ r b x, r ∈ rs ∧ b ∈ r ∧ x ∈ b ∧ y ∈ h x.
Proof.
  rewrite elem_of_flat_map. split.
  - intros (r & Hr & (b & Hb & (x & Hx & Hy)%elem_of_flat_map)%elem_of_flat_map).
    by exists r, b, x.
  - intros (r & b & x & Hr & Hb & Hx & Hy). exists r. split; [done|].
    apply elem_of_flat_map. exists b. split; [done|].
    apply elem_of_flat_map. by exists x.
Qed.

Lemma Forall_nested {A} (P : A → Prop) (rs : list (list (list A))) r b x :
  Forall (Forall (Forall P)) rs → r ∈ rs → b ∈ r → x ∈ b → P x.
Proof.
  intros H Hr Hb Hx. rewrite Forall_forall in H. specialize (H r Hr).
  rewrite Forall_forall in H. specialize (H b Hb).
  rewrite Forall_forall in H. by apply H.
Qed.

Lemma subOps_self op : op ∈ subOps op.
Proof. destruct op. left. Qed.

Lemma subOps_unfold op o :
  o ∈ subOps op ↔
  o = op ∨ ∃ r b x, r ∈ opRegions op ∧ b ∈ r ∧ x ∈ b ∧ o ∈ subOps x.
Proof.
  destruct op as [s n os nr ats rs]. cbn [subOps opRegions].
  by rewrite elem_of_cons, elem_of_nested.
Qed.

Lemma subOps_trans op o o' : o ∈ subOps op → o' ∈ subOps o → o' ∈ subOps op.
Proof.
  revert o o'. induction op as [op IH] using Operation_nested_ind.
  intros o o' Ho Ho'. apply subOps_unfold in Ho as [->|(r & b & x & Hr & Hb & Hx & Ho)].
  - done.
  - apply subOps_unfold. right. exists r, b, x. split_and!; [done..|].
    eapply (Forall_nested _ _ _ _ _ IH Hr Hb Hx); done.
Qed.

Lemma allOperands_unfold anc op u :
  u ∈ allOperands anc op ↔
  (∃ i v, opOperands op !! i = Some v ∧ u = mkOpOperand op anc i v) ∨
  ∃ r b x, r ∈ opRegions op ∧ b ∈ r ∧ x ∈ b ∧ u ∈ allOperands (opSelf op :: anc) x.
Proof.
  destruct op as [s n os nr ats rs]. cbn [allOperands opRegions opOperands opSelf].
  rewrite elem_of_app, elem_of_nested.
  rewrite list_elem_of_lookup. setoid_rewrite list_lookup_imap_Some. naive_solver.
Qed.

(** A use found in the tree of [op]: its owner is in the tree, and an
    ancestor is given from outside or encloses the owner in the tree. *)
Lemma allOperands_owner anc op u :
  u ∈ allOperands anc op →
  useOwner u ∈ subOps op ∧ useValue u ∈ opOperands (useOwner u) ∧
  ∀ y, y ∈ useAncestors u →
    y ∈ anc ∨ ∃ o, o ∈ subOps op ∧ opSelf o = y ∧ useOwner u ∈ subOps o.
Proof.
  revert anc u. induction op as [op IH] using Operation_nested_ind.
  intros anc u [(i & v & Hv & ->)|(r & b & x & Hr & Hb & Hx & Hu)]%allOperands_unfold.
  - simpl. split_and!; [apply subOps_self|by eapply list_elem_of_lookup_2|auto].
  - destruct (Forall_nested _ _ _ _ _ IH Hr Hb Hx _ _ Hu) as (Ho & Hv & Hanc).
    assert (Hsub : ∀ o, o ∈ subOps x → o ∈ subOps op).
    { intros o Hox. apply subOps_unfold. right. by exists r, b, x. }
    split_and!; [auto|done|].
    intros y Hy. destruct (Hanc y Hy) as [[->|?]%elem_of_cons|(o & Hox & <- & Hown)].
    + right. exists op. split_and!; [apply subOps_self|done|auto].
    + by left.
    + right. exists o. auto.
Qed.

Lemma allOperands_ancestors anc op u y :
  u ∈ allOperands anc op → y ∈ anc → y ∈ useAncestors u.
Proof.
  revert anc u. induction op as [op IH] using Operation_nested_ind.
  intros anc u [(i & v & Hv & ->)|(r & b & x & Hr & Hb & Hx & Hu)]%allOperands_unfold Hy.
  - done.
  - eapply (Forall_nested _ _ _ _ _ IH Hr Hb Hx); [done|]. by right.
Qed.

(** Every operand of the tree of [op] is found, with the operations that
    enclose its owner among the ancestors. *)
Lemma allOperands_complete anc op o o' v :
  o ∈ subOps op → o' ∈ subOps o → v ∈ opOperands o' →
  ∃ u, u ∈ allOperands anc op ∧ useValue u = v ∧
       (opSelf o = opSelf (useOwner u) ∨ opSelf o ∈ useAncestors u).
Proof.
  assert (Hany : ∀ op anc o' , o' ∈ subOps op → v ∈ opOperands o' →
            ∃ u, u ∈ allOperands anc op ∧ useValue u = v ∧ useOwner u = o').
  { clear. intros op. induction op as [op IH] using Operation_nested_ind.
    intros anc o' [->|(r & b & x & Hr & Hb & Hx & Ho)]%subOps_unfold Hv.
    - apply list_elem_of_lookup in Hv as (i & Hi).
      exists (mkOpOperand op anc i v). split_and!; [|done..].
      apply allOperands_unfold. left. by exists i, v.
    - destruct (Forall_nested _ _ _ _ _ IH Hr Hb Hx (opSelf op :: anc) o' Ho Hv)
        as (u & Hu & ? & ?).
      exists u. split_and!; [|done..]. apply allOperands_unfold. right.
      by exists r, b, x. }
  revert anc o o'. induction op as [op IH] using Operation_nested_ind.
  intros anc o o' [->|(r & b & x & Hr & Hb & Hx & Ho)]%subOps_unfold Ho' Hv.
  - apply subOps_unfold in Ho' as [->|(r & b & x & Hr & Hb & Hx & Ho')].
    + apply list_elem_of_lookup in Hv as (i & Hi).
      exists (mkOpOperand op anc i v). split_and!; [|done|by left].
      apply allOperands_unfold. left. by exists i, v.
    + destruct (Hany x (opSelf op :: anc) o' Ho' Hv) as (u & Hu & ? & ?).
      exists u. split_and!; [|done|].
      * apply allOperands_unfold. right. by exists r, b, x.
      * right. eapply allOperands_ancestors; [done|left].
  - destruct (Forall_nested _ _ _ _ _ IH Hr Hb Hx (opSelf op :: anc) o o' Ho Ho' Hv)
      as (u & Hu & ? & ?).
    exists u. split_and!; [|done..]. apply allOperands_unfold. right.
    by exists r, b, x.
Qed.

(** [anyUseIn]: a result of [p] is an operand in the tree of an operation,
    at any depth of the block, that is one of [ops]. *)
Lemma anyUseIn_usedDefs f p ops :
  anyUseIn f p ops = true ↔
  ∃ top o, top ∈ front f ∧ o ∈ subOps top ∧ opSelf o ∈ ops ∧ p ∈ usedDefs o.
Proof.
  unfold anyUseIn, getUses. rewrite existsb_exists. split.
  - intros (u & Hu & Hex). apply filter_In in Hu as [Hu Hres].
    apply list_elem_of_In, elem_of_flat_map in Hu as (top & Htop & Hu).
    apply allOperands_owner in Hu as (Hown & Hval & Hanc).
    assert (Hp : ∀ o, useOwner u ∈ subOps o → p ∈ usedDefs o).
    { intros o Ho. unfold usedDefs. apply list_elem_of_omap. exists (useValue u).
      split; [apply elem_of_flat_map; eauto|].
      unfold isResultOf in Hres. destruct (useValue u); [|done].
      apply bool_decide_eq_true in Hres. by subst. }
    apply orb_true_iff in Hex as [Hex|Hex].
    + apply existsb_exists in Hex as (y & Hy%list_elem_of_In & Hanc').
      unfold isAncestor in Hanc'.
      apply orb_true_iff in Hanc' as [Hanc'|Hanc']; apply bool_decide_eq_true in Hanc'.
      * exists top, (useOwner u). subst y.
        split_and!; [done..|]. apply Hp, subOps_self.
      * destruct (Hanc y Hanc') as [[]%elem_of_nil|(o & Ho & <- & Hsub)].
        exists top, o. split_and!; auto.
    + apply bool_decide_eq_true in Hex. exists top, (useOwner u).
      split_and!; [done..|]. apply Hp, subOps_self.
  - intros (top & o & Htop & Ho & Hops & (v & Hv & Hd)%list_elem_of_omap).
    apply elem_of_flat_map in Hv as (o' & Ho' & Hv).
    destruct (allOperands_complete [] top o o' v Ho Ho' Hv) as (u & Hu & Hval & Hanc).
    exists u. split.
    + apply filter_In. split.
      * apply list_elem_of_In, elem_of_flat_map. eauto.
      * rewrite Hval. destruct v; simplify_eq/=. by apply bool_decide_eq_true.
    + apply orb_true_iff. left. apply existsb_exists. exists (opSelf o).
      split; [by apply list_elem_of_In|]. unfold isAncestor.
      apply orb_true_iff. destruct Hanc as [E|Hin]; [left|right];
        by apply bool_decide_eq_true.
Qed.

(** ** Moving operations in the block *)

Lemma find_NoDup (l : list Operation) op :
  NoDup (opSelf <$> l) → op ∈ l →
  List.find (λ o, bool_decide (opSelf o = opSelf op)) l = Some op.
Proof.
  induction l as [|x l IH]; intros Hnd Hin; [by apply elem_of_nil in Hin|].
  simpl in *. apply NoDup_cons in Hnd as [Hx Hnd].
  apply elem_of_cons in Hin as [->|Hin].
  - by rewrite bool_decide_eq_true_2.
  - rewrite bool_decide_eq_false_2; [by apply IH|].
    intros E. apply Hx. rewrite E. apply list_elem_of_fmap. eauto.
Qed.

Lemma deref_distinct f op :
  distinctOps f → op ∈ front f → deref f (opSelf op) = Some op.
Proof. apply find_NoDup. Qed.

Lemma filter_other (l : list Operation) p :
  p ∉ opSelf <$> l → List.filter (λ o, bool_decide (opSelf o ≠ p)) l = l.
Proof.
  induction l as [|x l IH]; simpl; intros Hp; [done|].
  rewrite bool_decide_eq_true_2 by set_solver. f_equal. apply IH. set_solver.
Qed.

Lemma filter_moved (X Z : list Operation) op :
  NoDup (opSelf <$> X ++ op :: Z) →
  List.filter (λ o, bool_decide (opSelf o ≠ opSelf op)) (X ++ op :: Z) = X ++ Z.
Proof.
  rewrite fmap_app, fmap_cons. intros Hnd.
  apply NoDup_app in Hnd as (_ & Hd & [Hz _]%NoDup_cons).
  rewrite List.filter_app. simpl. rewrite bool_decide_eq_false_2 by (intros H; by apply H).
  rewrite !filter_other; [done|done|].
  intros Hx. apply (Hd _ Hx). left.
Qed.

Lemma position_split (X Z : list Operation) op :
  NoDup (opSelf <$> X ++ op :: Z) →
  position (X ++ op :: Z) (opSelf op) = Some (length X).
Proof.
  rewrite fmap_app, fmap_cons. intros Hnd.
  apply NoDup_app in Hnd as (_ & Hd & _).
  unfold position.
  assert (list_find (λ o, opSelf o = opSelf op) (X ++ op :: Z) = Some (length X, op))
    as ->; [|done].
  apply list_find_Some. split_and!; [by apply list_lookup_middle|done|].
  intros j y Hj Hlt E. rewrite lookup_app_l in Hj by done.
  apply (Hd (opSelf op)); [|left]. rewrite <-E.
  apply list_elem_of_fmap. exists y. split; [done|]. by eapply list_elem_of_lookup_2.
Qed.

Lemma distinctOps_body f : distinctOps f → NoDup (opSelf <$> body f).
Proof.
  unfold distinctOps, front. rewrite fmap_app. by intros (? & _)%NoDup_app.
Qed.

Lemma moveBefore_spec f X Y Z oe op :
  distinctOps f → body f = X ++ oe :: Y ++ op :: Z →
  moveBefore (opSelf oe) (Some f) (opSelf op)
  = Some (setBody f (X ++ op :: oe :: Y ++ Z)).
Proof.
  intros Hnd Hb. unfold moveBefore. simpl.
  rewrite (deref_distinct f op Hnd); [simpl|].
  2:{ unfold front. rewrite Hb. set_solver. }
  apply distinctOps_body in Hnd. rewrite Hb in *.
  replace (X ++ oe :: Y ++ op :: Z) with ((X ++ oe :: Y) ++ op :: Z) in *
    by (by rewrite <-app_assoc).
  rewrite filter_moved by done. rewrite <-app_assoc. simpl.
  rewrite position_split; [simpl|].
  2:{ eapply sublist_NoDup; [exact Hnd|]. apply fmap_sublist.
      rewrite <-app_assoc. simpl. apply sublist_app; [done|]. apply sublist_skip.
      apply sublist_app; [done|]. by apply sublist_cons. }
  by rewrite take_app_length, drop_app_length.
Qed.

Lemma moveAfter_spec f X Y Z oe op :
  distinctOps f → body f = X ++ op :: Y ++ oe :: Z →
  moveAfter (opSelf oe) (Some f) (opSelf op)
  = Some (setBody f (X ++ Y ++ oe :: op :: Z)).
Proof.
  intros Hnd Hb. unfold moveAfter. simpl.
  rewrite (deref_distinct f op Hnd); [simpl|].
  2:{ unfold front. rewrite Hb. set_solver. }
  apply distinctOps_body in Hnd. rewrite Hb in *.
  rewrite filter_moved by done.
  replace (X ++ Y ++ oe :: Z) with ((X ++ Y) ++ oe :: Z) by (by rewrite <-app_assoc).
  rewrite position_split; [simpl|].
  2:{ eapply sublist_NoDup; [exact Hnd|]. apply fmap_sublist.
      rewrite <-app_assoc. apply sublist_app; [done|]. by apply sublist_cons. }
  replace (S (length (X ++ Y))) with (length ((X ++ Y) ++ [oe]))
    by (rewrite !length_app; simpl; lia).
  replace ((X ++ Y) ++ oe :: Z) with (((X ++ Y) ++ [oe]) ++ Z)
    by (by rewrite <-!app_assoc).
  rewrite take_app_length, drop_app_length. by rewrite <-!app_assoc.
Qed.

Lemma distinctOps_setBody f l :
  distinctOps f → l ≡ₚ body f → distinctOps (setBody f l).
Proof.
  unfold distinctOps, front. simpl. intros Hnd Hp. by rewrite Hp.
Qed.

Lemma setBody_setBody f l l' : setBody (setBody f l) l' = setBody f l'.
Proof. done. Qed.

(** The operations [up], taken from [OB] in the order of the block, are
    moved one after the other in front of [oe]: they end in front of it, in
    the same order. *)
Lemma moveBefore_fold up f X oe Y OB Z :
  distinctOps f → body f = X ++ oe :: Y ++ OB ++ Z →
  up `sublist_of` (opSelf <$> OB) →
  ∃ OS OT,
    foldl (moveBefore (opSelf oe)) (Some f) up
    = Some (setBody f (X ++ OS ++ oe :: Y ++ OT ++ Z)) ∧
    opSelf <$> OS = up ∧ OS `sublist_of` OB ∧ OT `sublist_of` OB ∧
    OB ≡ₚ OS ++ OT ∧ (∀ o, o ∈ OT → opSelf o ∉ up).
Proof.
  revert f X Y OB. induction up as [|u up IH]; intros f X Y OB Hnd Hb Hsub.
  - exists [], OB. simpl. rewrite <-Hb. destruct f.
    split_and!; [done..|apply sublist_nil_l|done|done|].
    intros o _. apply not_elem_of_nil.
  - apply sublist_cons_l in Hsub as (k1 & k2 & Hk & Hsub).
    apply fmap_app_inv in Hk as (O1 & O2' & -> & Hk2 & ->).
    symmetry in Hk2. apply fmap_cons_inv in Hk2 as (ou & O2 & -> & -> & ->).
    cbn [foldl].
    rewrite (moveBefore_spec f X (Y ++ O1) (O2 ++ Z) oe ou Hnd).
    2:{ rewrite Hb. by rewrite <-!app_assoc. }
    assert (Hperm : X ++ ou :: oe :: (Y ++ O1) ++ O2 ++ Z ≡ₚ body f).
    { rewrite Hb. apply Permutation_app_head.
      pose proof (Permutation_middle (oe :: Y ++ O1) (O2 ++ Z) ou) as HP.
      simpl in HP. rewrite <-!app_assoc in HP. rewrite <-!app_assoc. exact HP. }
    destruct (IH (setBody f (X ++ ou :: oe :: (Y ++ O1) ++ O2 ++ Z))
                (X ++ [ou]) (Y ++ O1) O2) as (OS & OT & Hf & HS & HsS & HsT & HP & HT).
    { by apply distinctOps_setBody. }
    { simpl. by rewrite <-!app_assoc. }
    { done. }
    exists (ou :: OS), (O1 ++ OT). rewrite Hf. split_and!.
    + rewrite setBody_setBody. do 2 f_equal. rewrite <-!app_assoc. done.
    + by rewrite fmap_cons, HS.
    + apply sublist_inserts_l. by apply sublist_skip.
    + apply sublist_app; [done|]. by apply sublist_cons.
    + rewrite HP. rewrite <-Permutation_middle. simpl.
      apply Permutation_skip. by rewrite app_assoc, (Permutation_app_comm O1), <-app_assoc.
    + apply distinctOps_body in Hnd. rewrite Hb in Hnd.
      rewrite !fmap_app, fmap_cons, !fmap_app, fmap_cons in Hnd.
      apply NoDup_app in Hnd as (_ & _ & Hnd). apply NoDup_cons in Hnd as [_ Hnd].
      apply NoDup_app in Hnd as (_ & _ & Hnd).
      apply NoDup_app in Hnd as (Hnd & _ & _).
      apply NoDup_app in Hnd as (_ & Hd & [Hu _]%NoDup_cons).
      intros o [Ho|Ho]%elem_of_app [E|Hup]%elem_of_cons.
      * apply (Hd (opSelf o)); [by apply list_elem_of_fmap_2|]. rewrite E. left.
      * apply (Hd (opSelf o)); [by apply list_elem_of_fmap_2|right].
        by apply (sublist_subseteq _ _ Hsub).
      * apply Hu. rewrite <-E. apply list_elem_of_fmap_2.
        by apply (sublist_subseteq _ _ HsT).
      * by apply (HT o).
Qed.

(** The operations [down], taken from [OB] from the last one to the first,
    are moved one after the other behind [oe]: they end behind it, in the
    order of the block. *)
Lemma moveAfter_fold down f X OB Y oe Z :
  distinctOps f → body f = X ++ OB ++ Y ++ oe :: Z →
  reverse down `sublist_of` (opSelf <$> OB) →
  ∃ OS OT,
    foldl (moveAfter (opSelf oe)) (Some f) down
    = Some (setBody f (X ++ OT ++ Y ++ oe :: OS ++ Z)) ∧
    opSelf <$> OS = reverse down ∧ OS `sublist_of` OB ∧ OT `sublist_of` OB ∧
    OB ≡ₚ OS ++ OT ∧ (∀ o, o ∈ OT → opSelf o ∉ down).
Proof.
  revert f OB Y Z. induction down as [|d down IH]; intros f OB Y Z Hnd Hb Hsub.
  - exists [], OB. simpl. rewrite <-Hb. destruct f.
    split_and!; [done..|apply sublist_nil_l|done|done|].
    intros o _. apply not_elem_of_nil.
  - rewrite reverse_cons in Hsub.
    apply sublist_app_l in Hsub as (k1 & k2 & Hk & Hsub & Hd).
    apply sublist_cons_l in Hd as (k2a & k2b & -> & _).
    apply fmap_app_inv in Hk as (O1 & O2 & -> & Hk2 & ->).
    symmetry in Hk2. apply fmap_app_inv in Hk2 as (O2a & O2' & -> & Hk2 & ->).
    symmetry in Hk2. apply fmap_cons_inv in Hk2 as (od & O2b & -> & -> & ->).
    cbn [foldl].
    rewrite (moveAfter_spec f (X ++ O1 ++ O2a) (O2b ++ Y) Z oe od Hnd).
    2:{ rewrite Hb. by rewrite <-!app_assoc. }
    assert (Hperm : (X ++ O1 ++ O2a) ++ (O2b ++ Y) ++ oe :: od :: Z ≡ₚ body f).
    { rewrite Hb. rewrite <-!app_assoc. do 3 apply Permutation_app_head. simpl.
      pose proof (Permutation_middle (O2b ++ Y ++ [oe]) Z od) as HP.
      rewrite <-!app_assoc in HP. simpl in HP. by rewrite HP. }
    destruct (IH (setBody f ((X ++ O1 ++ O2a) ++ (O2b ++ Y) ++ oe :: od :: Z))
                (O1 ++ O2a) (O2b ++ Y) (od :: Z))
      as (OS & OT & Hf & HS & HsS & HsT & HP & HT).
    { by apply distinctOps_setBody. }
    { simpl. by rewrite <-!app_assoc. }
    { rewrite fmap_app. by apply sublist_inserts_r. }
    exists (OS ++ [od]), (OT ++ O2b). rewrite Hf. split_and!.
    + rewrite setBody_setBody. do 2 f_equal. rewrite <-!app_assoc. done.
    + by rewrite fmap_app, HS, reverse_cons.
    + rewrite app_assoc. apply sublist_app; [done|]. apply sublist_skip, sublist_nil_l.
    + rewrite app_assoc. apply sublist_app; [done|]. by apply sublist_cons.
    + rewrite app_assoc, HP. rewrite <-!app_assoc. apply Permutation_app_head.
      simpl. symmetry. apply Permutation_middle.
    + apply distinctOps_body in Hnd. rewrite Hb in Hnd.
      rewrite !fmap_app, !fmap_cons in Hnd.
      apply NoDup_app in Hnd as (_ & _ & Hnd).
      apply NoDup_app in Hnd as (Hnd & _ & _).
      rewrite app_assoc in Hnd.
      apply NoDup_app in Hnd as (_ & Hdis & [Hu _]%NoDup_cons).
      intros o [Ho|Ho]%elem_of_app [E|Hdn]%elem_of_cons.
      * apply (Hdis (opSelf o)); [|rewrite E; left].
        rewrite <-fmap_app. apply list_elem_of_fmap_2.
        by apply (sublist_subseteq _ _ HsT).
      * by apply (HT o).
      * apply Hu. rewrite <-E. by apply list_elem_of_fmap_2.
      * apply (Hdis (opSelf o)); [|right; by apply list_elem_of_fmap_2].
        apply elem_of_app. left. apply (sublist_subseteq _ _ Hsub).
        by apply elem_of_reverse.
Qed.

Lemma distinctOps_setBody_front f f2 :
  distinctOps f → body f2 ≡ₚ body f → retOp f2 = retOp f → distinctOps f2.
Proof.
  unfold distinctOps, front. intros Hnd Hp Hr. by rewrite Hp, Hr.
Qed.

(** ** The two move sets, in order *)

Lemma pullCluster_ext vec vec' acc x :
  (∀ y, y ∈ vec ↔ y ∈ vec') → pullCluster vec acc x = pullCluster vec' acc x.
Proof.
  intros Hv. unfold pullCluster. destruct acc as [[remain move]|]; simpl; [|done].
  destruct (decide (x ∈ vec)) as [H|H], (decide (x ∈ vec')) as [H'|H']; try done.
  - by apply Hv in H.
  - by apply Hv in H'.
Qed.

Lemma moveStep_ext rejected order vec vec' acc p :
  (∀ y, y ∈ vec ↔ y ∈ vec') →
  moveStep rejected order vec acc p = moveStep rejected order vec' acc p.
Proof.
  intros Hv. unfold moveStep. destruct acc as [[[remain move] m]|]; simpl; [|done].
  destruct (decide (p ∈ remain)); [done|].
  destruct (rejected remain p) as [[]|]; simpl; [|done..].
  destruct (m !! p); [|done].
  destruct (getRoot m p) as [[r m1]|]; simpl; [|done].
  destruct (m1 !! r); simpl; [|done].
  by rewrite (foldl_fun_ext _ _ _ _ (λ a b, pullCluster_ext vec vec' a b Hv)).
Qed.

Lemma moveOrd_init depT dep vec : moveOrd depT dep vec [] vec [] [].
Proof.
  split; [done|done| |].
  - exists [], vec. split_and!; [done..|by intros ? ?%elem_of_nil|].
    intros x _. apply not_elem_of_nil.
  - by intros ? ?%elem_of_nil.
Qed.

Lemma moveOrd_final depT dep vec remain move :
  moveOrd depT dep vec vec [] remain move →
  move `sublist_of` vec ∧ remain `sublist_of` vec ∧
  ∀ x, x ∈ move → ¬ depT x ∧ ∀ y, y ∈ remain → before vec y x → ¬ dep x y.
Proof.
  intros [_ Hmove (over & rest' & Hrest & Hsub & _) Hdep].
  symmetry in Hrest. apply app_eq_nil in Hrest as [-> ->].
  rewrite app_nil_r in Hsub. done.
Qed.

Lemma computeMoveUpSet_ord f target src m :
  forest m → NoDup src → (∀ x, x ∈ src → is_Some (deref f x)) →
  (∀ p d r c, p ∈ src → resolves m d p r → m !! r = Some c →
     run (operations c) src) →
  ∃ remain move m',
    computeMoveUpSet f target src [] m = Some (remain, move, m') ∧
    moveSplit m src remain move m' ∧
    move `sublist_of` src ∧ remain `sublist_of` src ∧
    ∀ x op, x ∈ move → deref f x = Some op →
      anyDefIn op target = false ∧
      ∀ y, y ∈ remain → before src y x → y ∉ usedDefs op.
Proof.
  intros Hf Hnd Hderef Hrun. unfold computeMoveUpSet.
  rewrite (foldl_fun_ext _ _ _ _ (moveUpStep_moveStep f target src)).
  set (depT := λ x, ∃ op, deref f x = Some op ∧ anyDefIn op target = true).
  set (dep := λ x y, ∃ op, deref f x = Some op ∧ y ∈ usedDefs op).
  assert (Hrej : ∀ remain p, rejectedUp f target remain p = Some false →
            ¬ depT p ∧ ∀ y, y ∈ remain → ¬ dep p y).
  { intros remain p H. unfold rejectedUp in H.
    destruct (deref f p) as [op|] eqn:Hop; simpl in H; [|done].
    simplify_eq. apply orb_false_iff in H as [H1 H2]. split.
    - intros (op' & ? & ?). congruence.
    - intros y Hy (op' & ? & Hu). simplify_eq.
      assert (anyDefIn op remain = true); [|congruence].
      apply anyDefIn_usedDefs. eauto. }
  assert (Htot : ∀ remain p, p ∈ src → is_Some (rejectedUp f target remain p)).
  { intros remain p Hp. unfold rejectedUp. destruct (Hderef p Hp) as [op ->]. by eexists. }
  destruct (moveFold_total (rejectedUp f target) id (λ l x, iff_refl _) (λ l H, H)
              src m Hf Hrun Htot src [] [] [] m)
    as [[[remain move] m'] Hfold]; [by apply moveInv_init|done|done|].
  rewrite Hfold. exists remain, move, m'. split; [done|].
  destruct (moveFold_ord (rejectedUp f target) id depT dep (λ l x, iff_refl _)
              (λ l H, H) Hrej src m Hf Hnd Hrun src [] [] [] m _ _ _
              (moveInv_init _ _ Hf) (moveOrd_init _ _ _) Hfold) as [Hinv Hord].
  apply moveOrd_final in Hord as (Hmv & Hrm & Hdep).
  split_and!; [by eapply moveInv_split; [|exact Hinv]|done|done|].
  intros x op Hx Hop. destruct (Hdep x Hx) as [HT HD]. split.
  - destruct (anyDefIn op target) eqn:E; [|done]. destruct HT. by exists op.
  - intros y Hy Hb Hu. apply (HD y Hy Hb). by exists op.
Qed.

Lemma computeMoveDownSet_ord f target src m :
  forest m → NoDup src →
  (∀ p d r c, p ∈ src → resolves m d p r → m !! r = Some c →
     run (operations c) src) →
  ∃ remain move m',
    computeMoveDownSet f target src [] m = Some (remain, move, m') ∧
    moveSplit m src remain move m' ∧
    reverse move `sublist_of` src ∧ remain `sublist_of` src ∧
    ∀ x, x ∈ move →
      anyUseIn f x target = false ∧
      ∀ y, y ∈ remain → before src x y → anyUseIn f x [y] = false.
Proof.
  intros Hf Hnd Hrun. unfold computeMoveDownSet.
  rewrite (foldl_fun_ext _ _ _ _ (moveDownStep_moveStep f target src)).
  rewrite (foldl_fun_ext _ (moveStep (rejectedDown f target) reverse (reverse src)) _ _
             (λ a b, moveStep_ext _ _ src (reverse src) a b
                       (λ y, iff_sym (elem_of_reverse y src)))).
  set (depT := λ x, anyUseIn f x target = true).
  set (dep := λ x y, anyUseIn f x [y] = true).
  assert (Hrej : ∀ remain p, rejectedDown f target remain p = Some false →
            ¬ depT p ∧ ∀ y, y ∈ remain → ¬ dep p y).
  { intros remain p H. unfold rejectedDown in H. simplify_eq.
    apply orb_false_iff in H as [H1 H2]. split; [unfold depT; congruence|].
    intros y Hy Hu. unfold dep in Hu.
    assert (anyUseIn f p remain = true); [|congruence].
    apply anyUseIn_usedDefs in Hu as (top & o & ? & ? & E%list_elem_of_singleton & ?).
    apply anyUseIn_usedDefs. exists top, o. by rewrite E. }
  assert (Hndr : NoDup (reverse src)) by by rewrite reverse_Permutation.
  assert (Hrunr : ∀ p d r c, p ∈ reverse src → resolves m d p r → m !! r = Some c →
            run (reverse (operations c)) (reverse src)).
  { intros p d r c Hp Hd Hc. apply (proj1 (elem_of_reverse _ _)) in Hp.
    apply run_reverse. by eapply Hrun. }
  assert (Hord_nd : ∀ l : list OpPtr, NoDup l → NoDup (reverse l)).
  { intros l Hl. by rewrite reverse_Permutation. }
  destruct (moveFold_total (rejectedDown f target) reverse
              (λ l x, elem_of_reverse x l) Hord_nd
              (reverse src) m Hf Hrunr (λ _ _ _, ltac:(by eexists))
              (reverse src) [] [] [] m)
    as [[[remain move] m'] Hfold]; [by apply moveInv_init|done|done|].
  rewrite Hfold. simpl. exists (reverse remain), move, m'. split; [done|].
  destruct (moveFold_ord (rejectedDown f target) reverse depT dep
              (λ l x, elem_of_reverse x l) Hord_nd Hrej
              (reverse src) m Hf Hndr Hrunr (reverse src) [] [] [] m _ _ _
              (moveInv_init _ _ Hf) (moveOrd_init _ _ _) Hfold) as [Hinv Hord].
  apply moveOrd_final in Hord as (Hmv & Hrm & Hdep).
  split_and!.
  - eapply moveInv_split in Hinv; [|done].
    destruct Hinv as [A B C D E]. split; try done.
    + intros x. rewrite !elem_of_reverse. rewrite <-B. by rewrite elem_of_reverse.
    + intros x Hx. rewrite elem_of_reverse. by apply C.
    + intros o o'. rewrite !elem_of_reverse. apply D.
    + by rewrite reverse_Permutation.
  - rewrite <-(reverse_involutive src). by apply sublist_reverse.
  - rewrite <-(reverse_involutive src). by apply sublist_reverse.
  - intros x Hx. destruct (Hdep x Hx) as [HT HD]. split.
    + unfold depT in HT. by destruct (anyUseIn f x target).
    + intros y Hy Hb. apply (proj1 (elem_of_reverse _ _)) in Hy.
      apply before_reverse in Hb.
      specialize (HD y Hy Hb). unfold dep in HD. by destruct (anyUseIn f x [y]).
Qed.

(** ** Rejection takes the whole cluster *)

Section MoveCascade.
Variable rejected : list OpPtr → OpPtr → option bool.
Variable order : list OpPtr → list OpPtr.
Hypothesis order_elem : ∀ l x, x ∈ order l ↔ x ∈ l.
Hypothesis order_NoDup : ∀ l, NoDup l → NoDup (order l).
Variable vec : list OpPtr.
Variable m0 : OpClusterMap.
Hypothesis m0_forest : forest m0.
Hypothesis vec_NoDup : NoDup vec.
Hypothesis cluster_run :
  ∀ p d r c, p ∈ vec → resolves m0 d p r → m0 !! r = Some c →
    run (order (operations c)) vec.
Hypothesis rejected_total : ∀ remain p, p ∈ vec → is_Some (rejected remain p).


End MoveCascade.




(** ** Two clusters in the block *)

Lemma position_lookup (l : list Operation) i p :
  NoDup (opSelf <$> l) → (opSelf <$> l) !! i = Some p → position l p = Some i.
Proof.
  intros Hnd Hi. rewrite list_lookup_fmap in Hi.
  destruct (l !! i) as [op|] eqn:Hop; [|done]. simplify_eq/=.
  apply list_elem_of_split_length in Hop as (X & Z & -> & ->).
  by apply position_split.
Qed.

Lemma sv_insert_range_fresh l xs :
  NoDup (l ++ xs) → sv_insert_range l xs = l ++ xs.
Proof.
  revert l. induction xs as [|x xs IH]; intros l Hnd; simpl.
  - by rewrite app_nil_r.
  - unfold sv_insert_range in *. simpl. unfold sv_insert at 2.
    rewrite decide_False.
    2:{ apply NoDup_app in Hnd as (_ & Hd & _). intros Hx. apply (Hd x Hx). left. }
    rewrite IH; [by rewrite <-app_assoc|]. by rewrite <-app_assoc.
Qed.

Section TwoClusters.
Variable f : FuncOp.
Variables A U B L C : list OpPtr.
Hypothesis f_distinct : distinctOps f.
Hypothesis f_body : opSelf <$> body f = A ++ U ++ B ++ L ++ C.
Variables ub uf lb lf : OpPtr.
Hypothesis U_last : last U = Some ub.
Hypothesis U_head : head U = Some uf.
Hypothesis L_last : last L = Some lb.
Hypothesis L_head : head L = Some lf.

Lemma front_ptrs : opSelf <$> front f = A ++ U ++ B ++ L ++ C ++ [opSelf (retOp f)].
Proof. unfold front. rewrite fmap_app, f_body. by rewrite <-!app_assoc. Qed.

Lemma U_split : ∃ U', U = U' ++ [ub].
Proof.
  destruct U as [|x l _] using rev_ind; [done|]. rewrite last_snoc in U_last.
  simplify_eq. eauto.
Qed.

Lemma L_split : ∃ L', L = lf :: L'.
Proof. destruct L; simplify_eq/=. eauto. Qed.

Lemma U_head_split : ∃ U', U = uf :: U'.
Proof. destruct U; simplify_eq/=. eauto. Qed.

Lemma L_last_split : ∃ L', L = L' ++ [lb].
Proof.
  destruct L as [|x l _] using rev_ind; [done|]. rewrite last_snoc in L_last.
  simplify_eq. eauto.
Qed.

Lemma position_ub : position (front f) ub = Some (length A + length U - 1).
Proof.
  apply position_lookup; [done|]. rewrite front_ptrs.
  destruct U_split as (U' & E).
  replace (A ++ U ++ B ++ L ++ C ++ [opSelf (retOp f)])
    with ((A ++ U') ++ ub :: (B ++ L ++ C ++ [opSelf (retOp f)]))
    by (rewrite E; by rewrite <-!app_assoc).
  apply list_lookup_middle. rewrite E, !length_app. simpl. lia.
Qed.

Lemma position_lf : position (front f) lf = Some (length A + length U + length B).
Proof.
  apply position_lookup; [done|]. rewrite front_ptrs.
  destruct L_split as (L' & E).
  replace (A ++ U ++ B ++ L ++ C ++ [opSelf (retOp f)])
    with ((A ++ U ++ B) ++ lf :: (L' ++ C ++ [opSelf (retOp f)]))
    by (rewrite E; by rewrite <-!app_assoc).
  apply list_lookup_middle. rewrite !length_app. lia.
Qed.

Lemma opsBetween_B : opsBetween f ub lf = Some B.
Proof.
  unfold opsBetween. rewrite position_ub, position_lf. simpl. f_equal.
  destruct U_split as (U' & E).
  assert (HU : 0 < length U) by (rewrite E, length_app; simpl; lia).
  rewrite fmap_take, fmap_drop, front_ptrs.
  replace (S (length A + length U - 1)) with (length (A ++ U))
    by (rewrite length_app; lia).
  replace (length A + length U + length B - length (A ++ U)) with (length B)
    by (rewrite length_app; lia).
  rewrite (app_assoc A U), drop_app_length, take_app_length.
  apply (sv_insert_range_fresh []). simpl.
  pose proof f_distinct as Hnd. unfold distinctOps in Hnd. rewrite front_ptrs in Hnd.
  apply NoDup_app in Hnd as (_ & _ & Hnd). apply NoDup_app in Hnd as (_ & _ & Hnd).
  by apply NoDup_app in Hnd as (Hnd & _ & _).
Qed.

Lemma upper_before_lower cu cl :
  operations cu = U → operations cl = L →
  isBeforeInBlock f cu cl = Some true ∧ isBeforeInBlock f cl cu = Some false.
Proof.
  intros HU HL. unfold isBeforeInBlock, opIsBeforeInBlock. rewrite HU, HL.
  rewrite U_last, L_head, U_head, L_last. simpl.
  rewrite position_ub, position_lf. simpl.
  destruct U_split as (U' & E).
  assert (HlU : 0 < length U) by (rewrite E, length_app; simpl; lia).
  split; [f_equal; apply bool_decide_eq_true; lia|].
  assert (Hlb : ∃ i, position (front f) lb = Some i ∧ length A + length U ≤ i).
  { destruct L_last_split as (l & El). exists (length (A ++ U ++ B ++ l)). split.
    - apply position_lookup; [done|]. rewrite front_ptrs.
      replace (A ++ U ++ B ++ L ++ C ++ [opSelf (retOp f)])
        with ((A ++ U ++ B ++ l) ++ lb :: (C ++ [opSelf (retOp f)]))
        by (rewrite El; by rewrite <-!app_assoc).
      by apply list_lookup_middle.
    - rewrite !length_app. lia. }
  assert (Huf : position (front f) uf = Some (length A)).
  { destruct U_head_split as (l & El).
    apply position_lookup; [done|]. rewrite front_ptrs, El. simpl.
    by apply list_lookup_middle. }
  destruct Hlb as (i & -> & Hi). rewrite Huf. simpl. f_equal.
  apply bool_decide_eq_false. lia.
Qed.

End TwoClusters.

(** ** The plan of a merge *)

Lemma sublist_all (l k : list OpPtr) :
  NoDup k → l `sublist_of` k → (∀ x, x ∈ k → x ∈ l) → l = k.
Proof.
  intros Hnd Hsub Hall. apply sublist_length_eq; [done|].
  apply submseteq_length, NoDup_submseteq; [done|]. intros x. apply Hall.
Qed.

Lemma deref_ptr f x :
  distinctOps f → x ∈ opSelf <$> front f →
  ∃ op, deref f x = Some op ∧ op ∈ front f ∧ opSelf op = x.
Proof.
  intros Hnd (op & -> & Hop)%list_elem_of_fmap. exists op.
  split_and!; [by apply deref_distinct|done|done].
Qed.

(** Membership in a list that is given as an append of lists. *)
Ltac elem_tac :=
  repeat match goal with H : _ ∈ _ ++ _ |- _ => rewrite elem_of_app in H end;
  rewrite ?elem_of_app; tauto.

(** [x] is before [y] in an append of lists, from the lists they are in. *)
Ltac before_tac :=
  match goal with
  | H : before ?a ?x ?y |- before ?a ?x ?y => exact H
  | |- before (?a ++ ?b) ?x ?y =>
      first [ apply before_app_lr; [elem_tac|elem_tac]
            | apply before_app_l; before_tac
            | apply before_app_r; before_tac ]
  end.

Section Plan.
Variable f : FuncOp.
Variable m : OpClusterMap.
Variables A U B L C : list OpPtr.
Variables ru rl : OpPtr.
Variables cu cl : ActiveDeviceCluster.
Hypothesis f_distinct : distinctOps f.
Hypothesis m_forest : forest m.
Hypothesis f_body : opSelf <$> body f = A ++ U ++ B ++ L ++ C.
Hypothesis ru_lookup : m !! ru = Some cu.
Hypothesis rl_lookup : m !! rl = Some cl.
Hypothesis ru_root : mergedInto cu = None.
Hypothesis rl_root : mergedInto cl = None.
Hypothesis ru_ops : operations cu = U.
Hypothesis rl_ops : operations cl = L.
Hypothesis ru_rl : ru ≠ rl.
Hypothesis roots_run :
  ∀ r c, m !! r = Some c → mergedInto c = None →
    operations c ≠ [] ∧ run (operations c) (opSelf <$> body f).

Lemma body_NoDup : NoDup (A ++ U ++ B ++ L ++ C).
Proof. rewrite <-f_body. by apply distinctOps_body. Qed.

Lemma B_NoDup : NoDup B.
Proof.
  pose proof body_NoDup as H.
  apply NoDup_app in H as (_ & _ & H). apply NoDup_app in H as (_ & _ & H).
  by apply NoDup_app in H as (H & _ & _).
Qed.

Lemma B_deref x : x ∈ B → ∃ op, deref f x = Some op ∧ op ∈ front f ∧ opSelf op = x.
Proof.
  intros Hx. apply deref_ptr; [done|]. unfold front. rewrite fmap_app, f_body.
  set_solver.
Qed.

Lemma U_nonempty : U ≠ [].
Proof. rewrite <-ru_ops. by eapply roots_run. Qed.

Lemma L_nonempty : L ≠ [].
Proof. rewrite <-rl_ops. by eapply roots_run. Qed.

(** The operations of a root cluster resolve to it. *)
Lemma root_member r c x :
  m !! r = Some c → mergedInto c = None → x ∈ operations c ↔ ∃ d, resolves m d x r.
Proof. intros Hc Hr. by apply (forest_ops _ m_forest). Qed.

Lemma other_root_disjoint r c x :
  m !! r = Some c → mergedInto c = None → x ∈ operations c → x ∈ B →
  r ≠ ru ∧ r ≠ rl.
Proof.
  intros Hc Hr Hx HB. pose proof body_NoDup as Hnd.
  split; intros ->; rewrite Hc in *.
  - assert (c = cu) as -> by congruence. rewrite ru_ops in Hx.
    apply NoDup_app in Hnd as (_ & _ & Hnd). apply NoDup_app in Hnd as (_ & Hd & _).
    apply (Hd x Hx). set_solver.
  - assert (c = cl) as -> by congruence. rewrite rl_ops in Hx.
    apply NoDup_app in Hnd as (_ & _ & Hnd). apply NoDup_app in Hnd as (_ & _ & Hnd).
    apply NoDup_app in Hnd as (_ & Hd & _). apply (Hd x HB). set_solver.
Qed.

Lemma roots_disjoint r c r' c' x :
  m !! r = Some c → mergedInto c = None → m !! r' = Some c' → mergedInto c' = None →
  x ∈ operations c → x ∈ operations c' → r = r'.
Proof.
  intros Hc Hr Hc' Hr' Hx Hx'.
  apply (root_member r c x Hc Hr) in Hx as (d & Hd).
  apply (root_member r' c' x Hc' Hr') in Hx' as (d' & Hd').
  by destruct (resolves_det _ _ _ _ _ _ Hd Hd').
Qed.

(** A root cluster with an operation between the two clusters lies between
    them. *)
Lemma root_run_B r c x :
  m !! r = Some c → mergedInto c = None → x ∈ operations c → x ∈ B →
  run (operations c) B.
Proof.
  intros Hc Hr Hx HB. destruct (roots_run r c Hc Hr) as [Hne Hrun].
  destruct (other_root_disjoint r c x Hc Hr Hx HB) as [Hu Hl].
  rewrite f_body in Hrun. pose proof body_NoDup as Hnd.
  destruct (run_avoid (operations c) A U (B ++ L ++ C) Hnd U_nonempty Hrun)
    as [HA|Hrun'].
  { intros y Hy HyU. apply Hu. eapply roots_disjoint; [done..|]. by rewrite ru_ops. }
  { exfalso. apply NoDup_app in Hnd as (_ & Hd & _).
    apply (Hd x); [by eapply run_elem|set_solver]. }
  apply NoDup_app in Hnd as (_ & _ & Hnd). apply NoDup_app in Hnd as (_ & _ & Hnd).
  destruct (run_avoid (operations c) B L C Hnd L_nonempty Hrun') as [HB'|HC]; [|done|].
  { intros y Hy HyL. apply Hl. eapply roots_disjoint; [done..|]. by rewrite rl_ops. }
  exfalso. apply NoDup_app in Hnd as (_ & Hd & _).
  apply (Hd x HB). apply elem_of_app. right. by eapply run_elem.
Qed.

Lemma cluster_run_B p d r c :
  p ∈ B → resolves m d p r → m !! r = Some c → run (operations c) B.
Proof.
  intros Hp Hd Hc.
  assert (Hr : mergedInto c = None).
  { apply resolves_isRoot in Hd as (c' & ? & ?). congruence. }
  apply (root_run_B r c p); [done..| |done].
  apply (root_member r c p Hc Hr). eauto.
Qed.

(** The same, for what remains of [B] after the first of the two
    computations. *)
Lemma cluster_run_remain rem move m1 p d r c :
  moveSplit m B rem move m1 → rem `sublist_of` B →
  p ∈ rem → resolves m1 d p r → m1 !! r = Some c → run (operations c) rem.
Proof.
  intros [Hsf Hsplit Hdis Hclosed Hnd] Hsub Hp Hd Hc.
  apply (sf_resolves_inv _ _ Hsf) in Hd as (d0 & Hd0).
  pose proof (sf_operations _ _ Hsf r) as Hops. rewrite Hc in Hops. simpl in Hops.
  destruct (m !! r) as [c0|] eqn:Hc0; [|done]. simpl in Hops.
  apply (inj Some) in Hops. rewrite Hops.
  assert (HpB : p ∈ B) by (apply Hsplit; auto).
  apply (run_sublist _ _ B); [apply B_NoDup|by eapply cluster_run_B|done|].
  intros x Hx. apply (Hclosed p); [done|].
  assert (Hr : mergedInto c0 = None).
  { apply resolves_isRoot in Hd0 as (c' & ? & ?). congruence. }
  apply (root_member r c0 x Hc0 Hr) in Hx as (d' & Hd'). by exists r, d0, d'.
Qed.

(** A root cluster between the two clusters is wholly on one side of a
    split. *)
Lemma split_atomic rem move m1 r c :
  moveSplit m B rem move m1 → rem `sublist_of` B → move `sublist_of` B →
  m !! r = Some c → mergedInto c = None → run (operations c) B →
  run (operations c) move ∨ run (operations c) rem.
Proof.
  intros [Hsf Hsplit Hdis Hclosed Hnd] Hrem Hmove Hc Hr Hrun.
  destruct (roots_run r c Hc Hr) as [Hne _].
  destruct (operations c) as [|x0 l] eqn:E; [done|].
  assert (Hmates : ∀ x, x ∈ x0 :: l → mates m x0 x).
  { intros x Hx. rewrite <-E in Hx.
    apply (root_member r c x Hc Hr) in Hx as (d & Hd).
    assert (Hx0 : x0 ∈ operations c) by (rewrite E; left).
    apply (root_member r c x0 Hc Hr) in Hx0 as (d0 & Hd0). by exists r, d0, d. }
  assert (Hx0 : x0 ∈ B) by (eapply run_elem; [done|left]).
  apply Hsplit in Hx0 as [Hx0|Hx0].
  - left. apply (run_sublist _ _ B); [apply B_NoDup|done|done|].
    intros x Hx. assert (HxB : x ∈ B) by by eapply run_elem.
    apply Hsplit in HxB as [?|HxB]; [done|].
    destruct (Hdis x0 Hx0). apply (Hclosed x); [done|].
    destruct (Hmates x Hx) as (r' & d1 & d2 & ? & ?). by exists r', d2, d1.
  - right. apply (run_sublist _ _ B); [apply B_NoDup|done|done|].
    intros x Hx. apply (Hclosed x0); [done|]. by apply Hmates.
Qed.

Lemma anyDefIn_false op ops d :
  anyDefIn op ops = false → d ∈ usedDefs op → d ∉ ops.
Proof.
  intros H Hd Hin. assert (anyDefIn op ops = true); [|congruence].
  apply anyDefIn_usedDefs. eauto.
Qed.

Lemma anyUseIn_false x ops op :
  anyUseIn f x ops = false → op ∈ front f → opSelf op ∈ ops → x ∉ usedDefs op.
Proof.
  intros H Hop Hin Hx. assert (anyUseIn f x ops = true); [|congruence].
  apply anyUseIn_usedDefs. exists op, op. split_and!; [done|apply subOps_self|done..].
Qed.

(** The plan of a merge is computed without a failed assertion; without
    residual, it is as [planOK] says. *)
Lemma planMerge_shape (b : bool) :
  ∃ plan, planMerge b f U L m = Some plan ∧ between plan = B ∧
          same_forest m (planClusters plan) ∧
          (residual plan = [] → planOK f m U B L plan).
Proof.
  destruct (last U) as [ub|] eqn:Hub.
  2:{ apply last_None in Hub. by destruct U_nonempty. }
  destruct (head L) as [lf|] eqn:Hlf.
  2:{ apply head_None in Hlf. by destruct L_nonempty. }
  destruct (head U) as [uf|] eqn:Huf.
  2:{ apply head_None in Huf. by destruct U_nonempty. }
  destruct (last L) as [lb|] eqn:Hlb.
  2:{ apply last_None in Hlb. by destruct L_nonempty. }
  pose proof (opsBetween_B f A U B L C f_distinct f_body ub uf lb lf Hub Huf Hlb Hlf)
    as Hbetween.
  unfold planMerge. rewrite Hub, Hlf. simpl. rewrite Hbetween. simpl.
  assert (HBderef : ∀ x, x ∈ B → is_Some (deref f x)).
  { intros x Hx. destruct (B_deref x Hx) as (op & -> & _). by eexists. }
  destruct b.
  - (* the move-up set first *)
    destruct (computeMoveUpSet_ord f U B m m_forest B_NoDup HBderef cluster_run_B)
      as (rem1 & up & m1 & -> & Hsplit1 & Hup & Hrem1 & Hdep1). simpl.
    pose proof (forest_same_forest _ _ m_forest (ms_forest _ _ _ _ _ Hsplit1)) as Hf1.
    destruct (computeMoveDownSet_ord f L rem1 m1 Hf1 (ms_nodup _ _ _ _ _ Hsplit1)
                (λ p d r c, cluster_run_remain rem1 up m1 p d r c Hsplit1 Hrem1))
      as (rem2 & down & m2 & -> & Hsplit2 & Hdown & Hrem2 & Hdep2). simpl.
    eexists. split; [done|]. simpl. split; [done|]. split.
    { eapply same_forest_trans; [apply Hsplit1|apply Hsplit2]. }
    intros ->.
    assert (Hdr : reverse down = rem1).
    { apply sublist_all; [apply Hsplit1|done|].
      intros x Hx. apply elem_of_reverse.
      apply (ms_split _ _ _ _ _ Hsplit2) in Hx as [?|[]%elem_of_nil]. done. }
    assert (Hdown_rem : ∀ x, x ∈ down ↔ x ∈ rem1).
    { intros x. by rewrite <-Hdr, elem_of_reverse. }
    split; simpl.
    + done.
    + by rewrite Hdr.
    + intros x. rewrite Hdown_rem. apply Hsplit1.
    + intros x Hx. rewrite Hdown_rem. by apply (ms_disjoint _ _ _ _ _ Hsplit1).
    + intros r c Hc Hr Hrun. rewrite Hdr. by eapply split_atomic.
    + intros x op d Hx Hop Hd. destruct (Hdep1 x op Hx Hop) as [HT _].
      by eapply anyDefIn_false.
    + intros x op y Hx Hop Hy Hb. destruct (Hdep1 x op Hx Hop) as [_ HD].
      apply HD; [by apply Hdown_rem|done].
    + intros op x Hop Hin Hx. destruct (Hdep2 x Hx) as [HT _].
      by eapply anyUseIn_false.
  - (* the move-down set first *)
    destruct (computeMoveDownSet_ord f L B m m_forest B_NoDup cluster_run_B)
      as (rem1 & down & m1 & -> & Hsplit1 & Hdown & Hrem1 & Hdep1). simpl.
    pose proof (forest_same_forest _ _ m_forest (ms_forest _ _ _ _ _ Hsplit1)) as Hf1.
    assert (Hrderef : ∀ x, x ∈ rem1 → is_Some (deref f x)).
    { intros x Hx. apply HBderef. apply (ms_split _ _ _ _ _ Hsplit1). auto. }
    destruct (computeMoveUpSet_ord f U rem1 m1 Hf1 (ms_nodup _ _ _ _ _ Hsplit1) Hrderef
                (λ p d r c, cluster_run_remain rem1 down m1 p d r c Hsplit1 Hrem1))
      as (rem2 & up & m2 & -> & Hsplit2 & Hup & Hrem2 & Hdep2). simpl.
    eexists. split; [done|]. simpl. split; [done|]. split.
    { eapply same_forest_trans; [apply Hsplit1|apply Hsplit2]. }
    intros ->.
    assert (Hur : up = rem1).
    { apply sublist_all; [apply Hsplit1|done|].
      intros x Hx.
      apply (ms_split _ _ _ _ _ Hsplit2) in Hx as [?|[]%elem_of_nil]. done. }
    assert (Hrd : reverse down `sublist_of` B) by done.
    split; simpl.
    + rewrite Hur. done.
    + done.
    + intros x. rewrite Hur. rewrite (ms_split _ _ _ _ _ Hsplit1 x). tauto.
    + intros x Hx Hx'. rewrite Hur in Hx.
      by apply (ms_disjoint _ _ _ _ _ Hsplit1 x).
    + intros r c Hc Hr Hrun. rewrite Hur.
      assert (Hdsub : reverse down `sublist_of` B) by done.
      destruct (roots_run r c Hc Hr) as [Hne _].
      destruct (operations c) as [|x0 l] eqn:E; [done|]. rewrite <-E in *.
      assert (HxB : x0 ∈ B) by (eapply run_elem; [done|rewrite E; left]).
      assert (Hmates : ∀ x, x ∈ operations c → mates m x0 x).
      { intros x Hx.
        apply (root_member r c x Hc Hr) in Hx as (d & Hd).
        assert (Hx0 : x0 ∈ operations c) by (rewrite E; left).
        apply (root_member r c x0 Hc Hr) in Hx0 as (d0 & Hd0). by exists r, d0, d. }
      apply (ms_split _ _ _ _ _ Hsplit1) in HxB as [Hx0|Hx0].
      * right. apply (run_sublist _ _ B); [apply B_NoDup|done|done|].
        intros x Hx. apply elem_of_reverse.
        assert (HxB : x ∈ B) by by eapply run_elem.
        apply (ms_split _ _ _ _ _ Hsplit1) in HxB as [?|HxB]; [done|].
        destruct (ms_disjoint _ _ _ _ _ Hsplit1 x0 Hx0).
        apply (ms_closed _ _ _ _ _ Hsplit1 x); [done|].
        destruct (Hmates x Hx) as (r' & d1 & d2 & ? & ?). by exists r', d2, d1.
      * left. apply (run_sublist _ _ B); [apply B_NoDup|done|done|].
        intros x Hx. apply (ms_closed _ _ _ _ _ Hsplit1 x0); [done|]. by apply Hmates.
    + intros x op d Hx Hop Hd. destruct (Hdep2 x op Hx Hop) as [HT _].
      by eapply anyDefIn_false.
    + intros x op y Hx Hop Hy Hb. rewrite Hur in Hx.
      destruct (Hdep1 y Hy) as [_ HD]. specialize (HD x Hx Hb).
      apply deref_Some in Hop as [Hop Hself].
      eapply anyUseIn_false; [exact HD|done|]. rewrite Hself. left.
    + intros op x Hop Hin Hx. destruct (Hdep1 x Hx) as [HT _].
      by eapply anyUseIn_false.
Qed.

(** A root cluster other than the two lies in front of them, between them
    or behind them. *)
Lemma other_root_run r c :
  m !! r = Some c → mergedInto c = None → r ≠ ru → r ≠ rl →
  run (operations c) A ∨ run (operations c) B ∨ run (operations c) C.
Proof.
  intros Hc Hr Hu Hl. destruct (roots_run r c Hc Hr) as [Hne Hrun].
  rewrite f_body in Hrun. pose proof body_NoDup as Hnd.
  destruct (run_avoid (operations c) A U (B ++ L ++ C) Hnd U_nonempty Hrun)
    as [HA|Hrun']; [|by left|].
  { intros y Hy HyU. apply Hu. eapply roots_disjoint; [done..|]. by rewrite ru_ops. }
  apply NoDup_app in Hnd as (_ & _ & Hnd). apply NoDup_app in Hnd as (_ & _ & Hnd).
  destruct (run_avoid (operations c) B L C Hnd L_nonempty Hrun') as [HB'|HC]; auto.
  intros y Hy HyL. apply Hl. eapply roots_disjoint; [done..|]. by rewrite rl_ops.
Qed.

(** The moves of a plan without residual: the move-up set ends in front of
    the upper cluster, the move-down set behind the lower one, both in the
    order of the block, and the two clusters meet. *)
Lemma commit_block plan uf lb :
  planOK f m U B L plan → head U = Some uf → last L = Some lb →
  ∃ f1 f2,
    foldl (moveBefore uf) (Some f) (moveUp plan) = Some f1 ∧
    foldl (moveAfter lb) (Some f1) (moveDown plan) = Some f2 ∧
    opSelf <$> body f2
    = A ++ moveUp plan ++ U ++ L ++ reverse (moveDown plan) ++ C ∧
    body f2 ≡ₚ body f ∧ retOp f2 = retOp f ∧ symName f2 = symName f.
Proof.
  intros [Hup Hdown Hcover Hdis _ _ _ _] Huf Hlb.
  apply head_Some in Huf as (U' & HU). apply last_Some in Hlb as (L' & HL).
  pose proof f_body as Hb. rewrite HU, HL in Hb.
  apply fmap_app_inv in Hb as (OA & O1 & HA & Hb & Hbody).
  symmetry in Hb. apply fmap_app_inv in Hb as (OU & O2 & HOU & Hb & ->).
  symmetry in Hb. apply fmap_app_inv in Hb as (OB & O3 & HOB & Hb & ->).
  symmetry in Hb. apply fmap_app_inv in Hb as (OL & OC & HOL & HOC & ->).
  symmetry in HOU. apply fmap_cons_inv in HOU as (ouf & OU' & -> & -> & ->).
  symmetry in HOL. apply fmap_app_inv in HOL as (OL' & O4 & -> & HO4 & ->).
  symmetry in HO4. apply fmap_cons_inv in HO4 as (olb & O5 & -> & HO5 & ->).
  symmetry in HO5. apply fmap_nil_inv in HO5 as ->.
  destruct (moveBefore_fold (moveUp plan) f OA ouf OU' OB ((OL' ++ [olb]) ++ OC))
    as (OS & OT & Hf1 & HS & HsS & HsT & HP & HT).
  { done. } { rewrite Hbody. by rewrite <-!app_assoc. } { by rewrite <-HOB. }
  set (f1 := setBody f (OA ++ OS ++ ouf :: OU' ++ OT ++ (OL' ++ [olb]) ++ OC)) in *.
  assert (Hperm1 : body f1 ≡ₚ body f).
  { simpl. rewrite Hbody, HP. simpl. solve_Permutation. }
  assert (Hnd1 : distinctOps f1) by by apply distinctOps_setBody.
  assert (HOT : opSelf <$> OT = reverse (moveDown plan)).
  { apply (sublist_same_elems _ _ B); [apply B_NoDup| |done|].
    - rewrite HOB. by apply fmap_sublist.
    - intros x. rewrite elem_of_reverse. split.
      + intros (o & -> & Ho)%list_elem_of_fmap.
        assert (HoB : opSelf o ∈ B).
        { rewrite HOB. apply list_elem_of_fmap_2. by apply (sublist_subseteq _ _ HsT). }
        apply Hcover in HoB as [HoB|HoB]; [|done]. by destruct (HT o Ho).
      + intros Hx. assert (HxB : x ∈ B) by (apply Hcover; auto).
        rewrite HOB in HxB. apply list_elem_of_fmap in HxB as (o & -> & Ho).
        rewrite HP in Ho. apply elem_of_app in Ho as [Ho|Ho];
          [|by apply list_elem_of_fmap_2].
        destruct (Hdis (opSelf o)); [|done]. rewrite <-HS.
        by apply list_elem_of_fmap_2. }
  destruct (moveAfter_fold (moveDown plan) f1 (OA ++ OS ++ ouf :: OU') OT OL' olb OC)
    as (OS2 & OT2 & Hf2 & HS2 & HsS2 & HsT2 & HP2 & HT2).
  { done. } { simpl. by rewrite <-!app_assoc. } { by rewrite HOT. }
  assert (OT2 = []) as ->.
  { apply Permutation_length in HP2. rewrite length_app in HP2.
    assert (length OT = length OS2).
    { rewrite <-(length_fmap opSelf OT), <-(length_fmap opSelf OS2). congruence. }
    destruct OT2; [done|]. simpl in HP2. lia. }
  rewrite app_nil_r in HP2.
  exists f1, (setBody f1 ((OA ++ OS ++ ouf :: OU') ++ [] ++ OL' ++ olb :: OS2 ++ OC)).
  split_and!; [done|done|..|done|done].
  - simpl. rewrite !fmap_app, !fmap_cons, !fmap_app, HS, HS2.
    rewrite HA, HU, HL, HOC. rewrite <-!app_assoc. simpl. done.
  - etrans; [|exact Hperm1]. simpl. rewrite HP2. solve_Permutation.
Qed.

(** The moves of a plan without residual keep every definition before its
    uses. *)
Lemma commit_dominance plan f2 :
  planOK f m U B L plan →
  opSelf <$> body f2
  = A ++ moveUp plan ++ U ++ L ++ reverse (moveDown plan) ++ C →
  body f2 ≡ₚ body f → retOp f2 = retOp f →
  dominanceOK f → dominanceOK f2.
Proof.
  intros [Hup Hdown Hcover Hdis _ HUT HUD HDT] Hb2 Hperm Hret Hdom op d Hop Hd Hdin.
  assert (Hfront : front f2 ≡ₚ front f) by (unfold front; by rewrite Hperm, Hret).
  rewrite Hfront in Hop.
  assert (Hdin' : d ∈ opSelf <$> front f) by by rewrite <-Hfront.
  specialize (Hdom op d Hop Hd Hdin'). clear Hdin Hdin'.
  assert (Hderef : deref f (opSelf op) = Some op) by by apply deref_distinct.
  set (u := opSelf op) in *. set (r := opSelf (retOp f)).
  assert (E1 : opSelf <$> front f = A ++ U ++ B ++ L ++ C ++ [r]).
  { unfold front. rewrite fmap_app, f_body. by rewrite <-!app_assoc. }
  assert (E2 : opSelf <$> front f2
               = A ++ moveUp plan ++ U ++ L ++ reverse (moveDown plan) ++ C ++ [r]).
  { unfold front. rewrite fmap_app, Hb2, Hret. by rewrite <-!app_assoc. }
  rewrite E1 in Hdom. rewrite E2. clear E1 E2.
  pose proof f_distinct as Hnd. unfold distinctOps in Hnd.
  assert (HBsplit : ∀ x, x ∈ B → x ∈ moveUp plan ∨ x ∈ reverse (moveDown plan)).
  { intros x Hx. rewrite elem_of_reverse. by apply Hcover. }
  assert (Hupdn : ∀ x y, before B x y → x ∈ moveUp plan → y ∈ moveUp plan →
            before (moveUp plan) x y).
  { intros x y Hb Hx Hy. by apply (before_sublist_inv _ B); [apply B_NoDup|..]. }
  assert (Hdndn : ∀ x y, before B x y → x ∈ reverse (moveDown plan) →
            y ∈ reverse (moveDown plan) → before (reverse (moveDown plan)) x y).
  { intros x y Hb Hx Hy. by apply (before_sublist_inv _ B); [apply B_NoDup|..]. }
  apply before_app_inv in Hdom as [HA|[[HdA Hu]|Hdom]].
  { before_tac. }
  { apply before_app_lr; [done|].
    rewrite !elem_of_app in Hu. rewrite !elem_of_app.
    destruct Hu as [?|[Hu|?]]; [tauto| |tauto].
    destruct (HBsplit u Hu); tauto. }
  apply before_app_inv in Hdom as [HU|[[HdU Hu]|Hdom]].
  { before_tac. }
  { apply elem_of_app in Hu as [Hu|Hu].
    - destruct (HBsplit u Hu) as [Hu'|Hu'].
      + by destruct (HUT u op d Hu' Hderef Hd).
      + before_tac.
    - apply elem_of_app in Hu as [Hu|Hu]; before_tac. }
  apply before_app_inv in Hdom as [HB|[[HdB Hu]|Hdom]].
  { destruct (before_elem _ _ _ HB) as [HdB HuB].
    destruct (HBsplit d HdB) as [Hd'|Hd'], (HBsplit u HuB) as [Hu'|Hu'].
    - specialize (Hupdn d u HB Hd' Hu'). before_tac.
    - before_tac.
    - apply (proj1 (elem_of_reverse _ _)) in Hd'.
      by destruct (HUD u op d Hu' Hderef Hd' HB).
    - specialize (Hdndn d u HB Hd' Hu'). before_tac. }
  { destruct (HBsplit d HdB) as [Hd'|Hd'].
    - apply elem_of_app in Hu as [Hu|Hu]; before_tac.
    - apply elem_of_app in Hu as [Hu|Hu]; [|before_tac].
      apply (proj1 (elem_of_reverse _ _)) in Hd'. by destruct (HDT op d Hop Hu Hd'). }
  apply before_app_inv in Hdom as [HL|[[HdL Hu]|HC]]; before_tac.
Qed.

Lemma plan_blockInv : blockInv (mkState f m).
Proof. by split. Qed.

(** A merge that is carried out, whichever of the two clusters survives. *)
Lemma commit_step plan from to :
  (from = ru ∧ to = rl) ∨ (from = rl ∧ to = ru) →
  same_forest m (planClusters plan) → planOK f m U B L plan →
  ∃ st', commitMerge from to f U L plan = Some st' ∧
         stepOK (mkState f m) st' ∧
         op2cluster st' !! to = Some (mkCluster (U ++ L) None) ∧
         op2cluster st' !! from = Some (mkCluster [] (Some to)) ∧
         (∀ k, k ≠ from → k ≠ to → op2cluster st' !! k = planClusters plan !! k) ∧
         opSelf <$> body (ir st')
         = A ++ moveUp plan ++ U ++ L ++ reverse (moveDown plan) ++ C.
Proof.
  intros Hft Hsf Hok.
  destruct (head U) as [uf|] eqn:Huf.
  2:{ apply head_None in Huf. by destruct U_nonempty. }
  destruct (last L) as [lb|] eqn:Hlb.
  2:{ apply last_None in Hlb. by destruct L_nonempty. }
  destruct (commit_block plan uf lb Hok Huf Hlb)
    as (f1 & f2 & Hf1 & Hf2 & Hptrs & Hperm & Hret & Hname).
  unfold commitMerge. rewrite Huf. simpl. rewrite Hf1. simpl. rewrite Hlb. simpl.
  rewrite Hf2. simpl. eexists. split; [done|].
  fold (linkClusters from to (sv_insert_range U L) (planClusters plan)).
  assert (HndUL : NoDup (U ++ L)).
  { eapply sublist_NoDup; [apply body_NoDup|].
    apply sublist_inserts_l, sublist_app; [done|].
    by apply sublist_inserts_l, sublist_inserts_r. }
  rewrite (sv_insert_range_fresh U L HndUL).
  set (mp := planClusters plan) in *.
  assert (Hne : from ≠ to) by (destruct Hft as [[-> ->]|[-> ->]]; done).
  assert (Hrec : ∃ cf ct, mp !! from = Some cf ∧ mp !! to = Some ct ∧
            mergedInto cf = None ∧ mergedInto ct = None ∧
            ((operations cf = U ∧ operations ct = L) ∨
             (operations cf = L ∧ operations ct = U))).
  { assert (Hu : ∃ c, mp !! ru = Some c ∧ mergedInto c = None ∧ operations c = U).
    { destruct (proj2 (same_forest_isRoot _ _ ru Hsf)) as (c & Hc & Hr); [by exists cu|].
      exists c. split_and!; [done..|].
      pose proof (sf_operations _ _ Hsf ru) as Hops.
      rewrite Hc, ru_lookup in Hops. simpl in Hops. apply (inj Some) in Hops. congruence. }
    assert (Hl : ∃ c, mp !! rl = Some c ∧ mergedInto c = None ∧ operations c = L).
    { destruct (proj2 (same_forest_isRoot _ _ rl Hsf)) as (c & Hc & Hr); [by exists cl|].
      exists c. split_and!; [done..|].
      pose proof (sf_operations _ _ Hsf rl) as Hops.
      rewrite Hc, rl_lookup in Hops. simpl in Hops. apply (inj Some) in Hops. congruence. }
    destruct Hu as (c1 & ? & ? & ?), Hl as (c2 & ? & ? & ?).
    destruct Hft as [[-> ->]|[-> ->]]; [exists c1, c2|exists c2, c1]; split_and!; auto. }
  destruct Hrec as (cf & ct & Hcf & Hct & Hrf & Hrt & Hops).
  assert (Hlk : linkable from to mp cf ct) by by split.
  assert (Hfp : forest mp) by by eapply forest_same_forest.
  assert (Hlook : ∀ k, linkClusters from to (U ++ L) mp !! k =
            if decide (k = from) then Some (mkCluster [] (Some to))
            else if decide (k = to) then Some (mkCluster (U ++ L) (mergedInto ct))
            else mp !! k).
  { intros k. by apply (lookup_linkClusters from to (U ++ L) mp cf ct). }
  split_and!.
  - split; simpl.
    + split; simpl.
      * by apply (distinctOps_setBody_front f).
      * apply (link_forest from to (U ++ L) mp cf ct Hlk Hfp HndUL).
        intros o. rewrite elem_of_app. destruct Hops as [[-> ->]|[-> ->]]; tauto.
      * intros r c. rewrite Hlook.
        destruct (decide (r = from)) as [->|Hrf']; [by intros [= <-]|].
        destruct (decide (r = to)) as [->|Hrt'].
        { intros [= <-] _. simpl. split.
          - intros E. apply app_eq_nil in E as [E _]. by destruct U_nonempty.
          - rewrite Hptrs. exists (A ++ moveUp plan), (reverse (moveDown plan) ++ C).
            by rewrite <-!app_assoc. }
        intros Hc Hr.
        assert (Hc0 : ∃ c0, m !! r = Some c0 ∧ mergedInto c0 = None ∧
                  operations c0 = operations c).
        { destruct (proj1 (same_forest_isRoot _ _ r Hsf)) as (c0 & Hc0 & Hr0);
            [by exists c|].
          exists c0. split_and!; [done..|].
          pose proof (sf_operations _ _ Hsf r) as Ho. fold mp in Ho.
          rewrite Hc, Hc0 in Ho. simpl in Ho. by apply (inj Some) in Ho. }
        destruct Hc0 as (c0 & Hc0 & Hr0 & <-).
        split; [by eapply roots_run|]. rewrite Hptrs.
        assert (r ≠ ru ∧ r ≠ rl) as [Hnu Hnl].
        { destruct Hft as [[-> ->]|[-> ->]]; done. }
        destruct (other_root_run r c0 Hc0 Hr0 Hnu Hnl) as [HA|[HB|HC]].
        -- by apply run_app_l.
        -- destruct (po_atomic _ _ _ _ _ _ Hok r c0 Hc0 Hr0 HB) as [Hu|Hd].
           ++ apply run_app_r. by apply run_app_l.
           ++ do 4 apply run_app_r. by apply run_app_l.
        -- by do 5 apply run_app_r.
    + done.
    + done.
    + done.
    + by eapply commit_dominance.
    + unfold linkClusters. rewrite !dom_alter_L. by apply same_forest_dom.
  - rewrite Hlook. rewrite decide_False by done. rewrite decide_True by done.
    by rewrite Hrt.
  - rewrite Hlook. by rewrite decide_True.
  - intros k Hkf Hkt. simpl. rewrite Hlook. by rewrite !decide_False.
  - done.
Qed.

End Plan.

(** ** The steps of a clustering run *)

Lemma stepOK_refl st : blockInv st → stepOK st st.
Proof. by split. Qed.

Lemma stepOK_trans st1 st2 st3 : stepOK st1 st2 → stepOK st2 st3 → stepOK st1 st3.
Proof.
  intros [I1 P1 R1 N1 D1 K1] [I2 P2 R2 N2 D2 K2]. split; [done|..].
  - by rewrite P2.
  - congruence.
  - congruence.
  - auto.
  - congruence.
Qed.

(** Path compression changes nothing of what a step keeps. *)
Lemma same_forest_step f m m' :
  blockInv (mkState f m) → same_forest m m' → stepOK (mkState f m) (mkState f m').
Proof.
  intros [Hd Hf Hrun] Hsf. simpl in *. split; simpl; [|done..|by apply same_forest_dom].
  split; simpl; [done|by eapply forest_same_forest|].
  intros r c Hc Hr.
  pose proof (sf_operations _ _ Hsf r) as Hops. rewrite Hc in Hops. simpl in Hops.
  destruct (m !! r) as [c0|] eqn:Hc0; [|done]. simpl in Hops.
  apply (inj Some) in Hops. rewrite Hops. apply (Hrun r c0 Hc0).
  assert (Hroot : isRoot m r).
  { apply (same_forest_isRoot _ _ _ Hsf). by exists c. }
  destruct Hroot as (c' & ? & ?). congruence.
Qed.

(** Two distinct root clusters are one in front of the other. *)
Lemma roots_ordered f m from to cf ct :
  blockInv (mkState f m) → from ≠ to →
  m !! from = Some cf → mergedInto cf = None →
  m !! to = Some ct → mergedInto ct = None →
  (∃ A B C, opSelf <$> body f = A ++ operations cf ++ B ++ operations ct ++ C) ∨
  (∃ A B C, opSelf <$> body f = A ++ operations ct ++ B ++ operations cf ++ C).
Proof.
  intros [Hd Hf Hrun] Hne Hcf Hrf Hct Hrt. simpl in *.
  destruct (Hrun from cf Hcf Hrf) as [Hnf Hrunf].
  destruct (Hrun to ct Hct Hrt) as [Hnt Hrunt].
  apply runs_ordered; [done..|].
  intros x Hx Hx'.
  apply (forest_ops _ Hf from cf Hcf Hrf) in Hx as (d & Hx).
  apply (forest_ops _ Hf to ct Hct Hrt) in Hx' as (d' & Hx').
  by destruct (resolves_det _ _ _ _ _ _ Hx Hx').
Qed.

Lemma ends_of_list (l : list OpPtr) :
  l ≠ [] → ∃ h t, head l = Some h ∧ last l = Some t.
Proof.
  intros Hl. destruct (head l) eqn:Hh; [|by apply head_None in Hh].
  destruct (last l) eqn:Ht; [|by apply last_None in Ht]. eauto.
Qed.

(** A directed merge of two distinct roots returns: no assertion fails.  It
    keeps what a step keeps, and when it succeeds the operations of the
    upper cluster followed by those of the lower one are the operations of
    [to], consecutive in the block. *)
Lemma tryMergeInto_step from to st :
  blockInv st → from ≠ to →
  isRoot (op2cluster st) from → isRoot (op2cluster st) to →
  ∃ ok st' cf ct (b : bool),
    tryMergeInto from to st = Some (ok, st') ∧ stepOK st st' ∧
    op2cluster st !! from = Some cf ∧ op2cluster st !! to = Some ct ∧
    isBeforeInBlock (ir st) cf ct = Some b ∧
    isBeforeInBlock (ir st) ct cf = Some (negb b) ∧
    (ok = true →
       op2cluster st' !! from = Some (mkCluster [] (Some to)) ∧
       op2cluster st' !! to
       = Some (mkCluster (if b then operations cf ++ operations ct
                          else operations ct ++ operations cf) None)) ∧
    (∀ k, k ≠ from → k ≠ to →
       (isRoot (op2cluster st') k ↔ isRoot (op2cluster st) k) ∧
       operations <$> op2cluster st' !! k = operations <$> op2cluster st !! k) ∧
    (ok = false → ir st' = ir st ∧ same_forest (op2cluster st) (op2cluster st')).
Proof.
  assert (Hothers : ∀ (m mp m' : OpClusterMap) from to,
            same_forest m mp →
            (∀ k, k ≠ from → k ≠ to → m' !! k = mp !! k) →
            ∀ k, k ≠ from → k ≠ to →
              (isRoot m' k ↔ isRoot m k) ∧
              operations <$> m' !! k = operations <$> m !! k).
  { intros m mp m' from' to' Hsf Hk k H1 H2. unfold isRoot at 1.
    rewrite (Hk k H1 H2). split; [by apply same_forest_isRoot|apply Hsf]. }
  assert (Hsame : ∀ (m mp : OpClusterMap) from to,
            same_forest m mp →
            ∀ k, k ≠ from → k ≠ to →
              (isRoot mp k ↔ isRoot m k) ∧
              operations <$> mp !! k = operations <$> m !! k).
  { intros m mp from' to' Hsf k _ _.
    split; [by apply same_forest_isRoot|apply Hsf]. }
  destruct st as [f m]. intros Hinv Hne (cf & Hcf & Hrf) (ct & Hct & Hrt). simpl in *.
  pose proof Hinv as [Hd Hf Hrun]. simpl in *.
  destruct (Hrun from cf Hcf Hrf) as [Hnf _].
  destruct (Hrun to ct Hct Hrt) as [Hnt _].
  destruct (ends_of_list _ Hnf) as (hf & tf & Hhf & Htf).
  destruct (ends_of_list _ Hnt) as (ht & tt & Hht & Htt).
  unfold tryMergeInto. simpl. rewrite Hcf, Hct. simpl.
  destruct (roots_ordered f m from to cf ct Hinv Hne Hcf Hrf Hct Hrt)
    as [(A & B & C & Hb)|(A & B & C & Hb)].
  - destruct (upper_before_lower f A _ B _ C Hd Hb tf hf tt ht Htf Hhf Htt Hht cf ct
                eq_refl eq_refl) as [Hbef Hbef'].
    rewrite Hbef. simpl.
    destruct (planMerge_shape f m A _ B _ C from to cf ct Hd Hf Hb Hcf Hct Hrf Hrt
                eq_refl eq_refl Hne Hrun true) as (plan & -> & _ & Hsf & Hok). simpl.
    destruct (decide (residual plan = [])) as [Hres|Hres].
    + rewrite bool_decide_eq_true_2 by done. simpl.
      destruct (commit_step f m A _ B _ C from to cf ct Hd Hf Hb Hcf Hct Hrf Hrt
                  eq_refl eq_refl Hne Hrun plan from to (or_introl (conj eq_refl eq_refl))
                  Hsf (Hok Hres)) as (st' & -> & Hstep & Hto & Hfrom & Hk & _). simpl.
      exists true, st', cf, ct, true.
      split_and!; [done..|by eapply Hothers|done].
    + rewrite bool_decide_eq_false_2 by done. simpl.
      exists false, (mkState f (planClusters plan)), cf, ct, true.
      split_and!; [done|by apply same_forest_step|done..|by eapply Hsame|done].
  - destruct (upper_before_lower f A _ B _ C Hd Hb tt ht tf hf Htt Hht Htf Hhf ct cf
                eq_refl eq_refl) as [Hbef Hbef'].
    rewrite Hbef'. simpl. rewrite Hbef. simpl.
    destruct (planMerge_shape f m A _ B _ C to from ct cf Hd Hf Hb Hct Hcf Hrt Hrf
                eq_refl eq_refl (not_eq_sym Hne) Hrun false)
      as (plan & -> & _ & Hsf & Hok). simpl.
    destruct (decide (residual plan = [])) as [Hres|Hres].
    + rewrite bool_decide_eq_true_2 by done. simpl.
      destruct (commit_step f m A _ B _ C to from ct cf Hd Hf Hb Hct Hcf Hrt Hrf
                  eq_refl eq_refl (not_eq_sym Hne) Hrun plan from to
                  (or_intror (conj eq_refl eq_refl))
                  Hsf (Hok Hres)) as (st' & -> & Hstep & Hto & Hfrom & Hk & _). simpl.
      exists true, st', cf, ct, false.
      split_and!; [done..|by eapply Hothers|done].
    + rewrite bool_decide_eq_false_2 by done. simpl.
      exists false, (mkState f (planClusters plan)), cf, ct, false.
      split_and!; [done|by apply same_forest_step|done..|by eapply Hsame|done].
Qed.

Lemma isBeforeInBlock_ext f c1 c2 c1' c2' :
  operations c1 = operations c1' → operations c2 = operations c2' →
  isBeforeInBlock f c1 c2 = isBeforeInBlock f c1' c2'.
Proof. unfold isBeforeInBlock. by intros -> ->. Qed.

Lemma same_forest_record m m' k c :
  same_forest m m' → m !! k = Some c →
  ∃ c', m' !! k = Some c' ∧ operations c' = operations c ∧
        (mergedInto c = None → mergedInto c' = None).
Proof.
  intros Hsf Hc. pose proof (sf_operations _ _ Hsf k) as Hops. rewrite Hc in Hops.
  destruct (m' !! k) as [c'|] eqn:Hc'; [|done]. simpl in Hops.
  apply (inj Some) in Hops. exists c'. split_and!; [done..|].
  intros Hr. destruct (proj2 (same_forest_isRoot _ _ k Hsf)) as (c'' & ? & ?);
    [by exists c|]. congruence.
Qed.

(** [tryMerge] returns: no assertion fails. *)
Lemma tryMerge_step lhs rhs st :
  blockInv st → validPtr (op2cluster st) lhs → validPtr (op2cluster st) rhs →
  ∃ res st',
    tryMerge lhs rhs st = Some (res, st') ∧ stepOK st st' ∧
    (res = None → same_forest (op2cluster st) (op2cluster st')) ∧
    (∀ c, res = Some c →
       ∃ l r, lhs = Some l ∧ rhs = Some r ∧ mergedOK st st' l r c).
Proof.
  intros Hinv Hl Hr. unfold tryMerge.
  destruct lhs as [l|].
  2:{ exists None, st. split_and!; [done|by apply stepOK_refl|by intros; apply same_forest_refl|done]. }
  destruct rhs as [r|].
  2:{ exists None, st. split_and!; [done|by apply stepOK_refl|by intros; apply same_forest_refl|done]. }
  destruct (decide (l = r)) as [->|Hne].
  { exists None, st. split_and!; [done|by apply stepOK_refl|by intros; apply same_forest_refl|done]. }
  simpl in Hl, Hr. destruct Hl as [cl Hcl], Hr as [cr Hcr]. rewrite Hcl. simpl.
  destruct (mergedInto cl) as [?|] eqn:Hrl.
  { exists None, st. split_and!; [done|by apply stepOK_refl|by intros; apply same_forest_refl|done]. }
  rewrite Hcr. simpl.
  destruct (mergedInto cr) as [?|] eqn:Hrr.
  { exists None, st. split_and!; [done|by apply stepOK_refl|by intros; apply same_forest_refl|done]. }
  assert (Hroot_l : isRoot (op2cluster st) l) by by exists cl.
  assert (Hroot_r : isRoot (op2cluster st) r) by by exists cr.
  destruct (tryMergeInto_step l r st Hinv Hne Hroot_l Hroot_r)
    as (ok & st1 & cf & ct & b & -> & Hstep1 & Hcf & Hct & Hb & Hb' & Hshape & Hoth & Hfail).
  simpl. assert (cf = cl) as -> by congruence. assert (ct = cr) as -> by congruence.
  destruct ok.
  - destruct (Hshape eq_refl) as [Hfrom Hto].
    exists (Some r), st1. split_and!; [done|done|done|].
    intros c [= <-]. exists l, r. split_and!; [done..|].
    split; [done|done|by left| |done].
    exists cl, cr, b. rewrite decide_True by done. by split_and!.
  - destruct (Hfail eq_refl) as [Hir Hsf1]. clear Hfail. rename Hsf1 into Hfail.
    assert (Hroot_l1 : isRoot (op2cluster st1) l) by by apply (same_forest_isRoot _ _ _ Hfail).
    assert (Hroot_r1 : isRoot (op2cluster st1) r) by by apply (same_forest_isRoot _ _ _ Hfail).
    destruct (tryMergeInto_step r l st1 (so_inv _ _ Hstep1) (not_eq_sym Hne) Hroot_r1 Hroot_l1)
      as (ok & st2 & cf & ct & b2 & -> & Hstep2 & Hcf2 & Hct2 & Hb2 & Hb2' & Hshape2 & Hoth2 & Hfail2).
    simpl. pose proof (stepOK_trans _ _ _ Hstep1 Hstep2) as Hstep.
    destruct (same_forest_record _ _ _ _ Hfail Hcl) as (cl1 & Hcl1 & Hopl & _).
    destruct (same_forest_record _ _ _ _ Hfail Hcr) as (cr1 & Hcr1 & Hopr & _).
    assert (cf = cr1) as -> by congruence. assert (ct = cl1) as -> by congruence.
    destruct ok.
    + destruct (Hshape2 eq_refl) as [Hfrom Hto].
      exists (Some l), st2. split_and!; [done|done|done|].
      intros c [= <-]. exists l, r. split_and!; [done..|].
      split; [done|done|by right| |].
      * exists cl, cr, (negb b2). rewrite decide_False by done.
        rewrite negb_involutive. rewrite Hto, Hfrom.
        rewrite (isBeforeInBlock_ext _ cl cr cl1 cr1) by done.
        rewrite (isBeforeInBlock_ext _ cr cl cr1 cl1) by done.
        rewrite <-Hir.
        split_and!; [done..| |done].
        destruct b2; simpl; by rewrite Hopl, Hopr.
      * intros k Hkl Hkr. destruct (Hoth2 k Hkr Hkl) as [H1 H2].
        destruct (Hoth k Hkl Hkr) as [H3 H4]. split; [by rewrite H1|congruence].
    + exists None, st2. split_and!; [done|done| |done].
      intros _. eapply same_forest_trans; [done|]. by apply Hfail2.
Qed.

(** ** The states of a clustering run *)

Lemma getCluster_step p st :
  blockInv st →
  ∃ r m', getCluster p (op2cluster st) = Some (r, m') ∧
          stepOK st (mkState (ir st) m') ∧ validPtr m' r ∧
          same_forest (op2cluster st) m' ∧
          (∀ k, r = Some k → isRoot m' k).
Proof.
  intros Hinv. destruct st as [f m]. simpl. unfold getCluster.
  destruct p as [p|].
  2:{ exists None, m. split_and!; [done|by apply stepOK_refl|done|apply same_forest_refl|done]. }
  destruct (m !! p) as [c|] eqn:Hp.
  2:{ exists None, m. split_and!; [done|by apply stepOK_refl|done|apply same_forest_refl|done]. }
  destruct (getRoot_total m p) as (r & m' & Hg & Hsf & d & Hd).
  { apply Hinv. } { apply elem_of_dom. eauto. }
  rewrite Hg. simpl. exists (Some r), m'.
  assert (Hr : isRoot m' r).
  { apply (same_forest_isRoot _ _ _ Hsf). by eapply resolves_isRoot. }
  split_and!; [done|by apply same_forest_step| |done|by intros k [= <-]].
  simpl. destruct Hr as (c' & ? & _). eauto.
Qed.

Section Run.
Context {helpers : Helpers}.

Lemma initial_blockInv f attrName :
  distinctOps f → blockInv (initialState f attrName).
Proof.
  intros Hd. split; simpl; [done|apply initialClusters_forest|].
  intros r c Hc _. pose proof (initialClusters_lookup _ _ _ _ Hc) as ->. simpl.
  split; [done|]. apply run_singleton.
  assert (Hr : r ∈ dom (initialClusters f attrName)) by (apply elem_of_dom; eauto).
  apply initialClusters_dom in Hr as (op & Hop & <- & _).
  by apply list_elem_of_fmap_2.
Qed.

(** Every state of a run on a function with distinct operations keeps what
    a step keeps. *)
Lemma reachable_step f attrName st :
  distinctOps f → reachable f attrName st → stepOK (initialState f attrName) st.
Proof.
  intros Hd. induction 1 as [|st p r m' _ IH H|st lhs rhs res st' _ IH H].
  - by apply stepOK_refl, initial_blockInv.
  - destruct (getCluster_step p st (so_inv _ _ IH)) as (r' & m'' & H' & Hstep & _).
    rewrite H in H'. simplify_eq. by eapply stepOK_trans.
  - destruct (tryMerge_inv _ _ _ _ _ H) as [[-> ->]|(l & r & ok & st1 & -> & -> & Hne & Hl & Hr & _)];
      [done|].
    destruct (tryMerge_step (Some l) (Some r) st (so_inv _ _ IH))
      as (res' & st'' & H' & Hstep & _).
    { destruct Hl as (c & ? & _). simpl. eauto. }
    { destruct Hr as (c & ? & _). simpl. eauto. }
    rewrite H in H'. simplify_eq. by eapply stepOK_trans.
Qed.

End Run.

(** ** The two directions of a merge *)


Section Run.
Context {helpers : Helpers}.


End Run.

(** ** The strategies return *)

Lemma validPtr_keys (m m' : OpClusterMap) p :
  dom m' = dom m → validPtr m p → validPtr m' p.
Proof.
  intros Hd. destruct p as [k|]; [|done]. simpl.
  rewrite <-!elem_of_dom. by rewrite Hd.
Qed.

Lemma mergeWith_total cur st other :
  blockInv st → validPtr (op2cluster st) cur →
  ∃ cur' st', mergeWith (Some (cur, st)) other = Some (cur', st') ∧
              stepOK st st' ∧ validPtr (op2cluster st') cur'.
Proof.
  intros Hinv Hcur. unfold mergeWith. cbn [mbind option_bind].
  destruct (getCluster_step other st Hinv) as (pre & m & -> & Hstep1 & Hpre & Hsf & _).
  simpl.
  destruct (tryMerge_step pre cur (mkState (ir st) m) (so_inv _ _ Hstep1))
    as (res & st' & -> & Hstep2 & _ & Hres); simpl; [done| |].
  { eapply validPtr_keys; [|done]. by apply same_forest_dom. }
  eexists _, _. split; [done|]. split; [by eapply stepOK_trans|].
  destruct res as [c|].
  - destruct (Hres c eq_refl) as (l & r & _ & _ & Hm).
    destruct (mg_lists _ _ _ _ _ Hm) as (? & ? & ? & _ & _ & _ & _ & Hc & _).
    simpl. eauto.
  - eapply validPtr_keys; [|done].
    rewrite (so_keys _ _ Hstep2). simpl. by apply same_forest_dom.
Qed.

Lemma foldl_mergeWith_total l cur st :
  blockInv st → validPtr (op2cluster st) cur →
  ∃ cur' st', foldl mergeWith (Some (cur, st)) l = Some (cur', st') ∧
              stepOK st st' ∧ validPtr (op2cluster st') cur'.
Proof.
  revert cur st. induction l as [|other l IH]; intros cur st Hinv Hcur; cbn [foldl].
  - exists cur, st. split_and!; [done|by apply stepOK_refl|done].
  - destruct (mergeWith_total cur st other Hinv Hcur) as (cur1 & st1 & -> & Hstep & Hv).
    destruct (IH cur1 st1 (so_inv _ _ Hstep) Hv) as (cur2 & st2 & -> & Hstep' & Hv').
    exists cur2, st2. split_and!; [done|by eapply stepOK_trans|done].
Qed.

Lemma visit_total neighbours st op :
  blockInv st →
  ∃ st', visit neighbours (Some st) op = Some st' ∧ stepOK st st'.
Proof.
  intros Hinv. unfold visit. cbn [mbind option_bind].
  destruct (getCluster_step (Some (opSelf op)) st Hinv)
    as (cur & m & -> & Hstep1 & Hcur & _). simpl.
  destruct (foldl_mergeWith_total (neighbours op) cur (mkState (ir st) m)
              (so_inv _ _ Hstep1) Hcur) as (cur' & st' & -> & Hstep2 & _).
  simpl. exists st'. split; [done|]. by eapply stepOK_trans.
Qed.

Lemma foldl_visit_total neighbours l st :
  blockInv st →
  ∃ st', foldl (visit neighbours) (Some st) l = Some st' ∧ stepOK st st'.
Proof.
  revert st. induction l as [|op l IH]; intros st Hinv; cbn [foldl].
  - exists st. split; [done|by apply stepOK_refl].
  - destruct (visit_total neighbours st op Hinv) as (st1 & -> & Hstep).
    destruct (IH st1 (so_inv _ _ Hstep)) as (st2 & -> & Hstep').
    exists st2. split; [done|by eapply stepOK_trans].
Qed.

Lemma coalesce_total workList cluster st :
  blockInv st → cluster ∈ dom (op2cluster st) →
  (∀ x, x ∈ workList → x ∈ dom (op2cluster st)) →
  ∃ c rest st', coalesce workList cluster st = Some (c, rest, st') ∧
                stepOK st st' ∧ c ∈ dom (op2cluster st) ∧
                rest `sublist_of` workList.
Proof.
  revert cluster st.
  induction workList as [|it rest IH]; intros cluster st Hinv Hc Hw; cbn [coalesce].
  - exists cluster, [], st. split_and!; [done|by apply stepOK_refl|done|done].
  - destruct (tryMerge_step (Some it) (Some cluster) st Hinv)
      as (res & st1 & -> & Hstep & _ & Hres).
    { simpl. apply elem_of_dom, Hw. left. }
    { simpl. by apply elem_of_dom. }
    simpl. pose proof (so_keys _ _ Hstep) as Hk.
    assert (Hw1 : ∀ x, x ∈ rest → x ∈ dom (op2cluster st1)).
    { intros x Hx. rewrite Hk. apply Hw. by right. }
    destruct res as [c|].
    + destruct (Hres c eq_refl) as (l & r & [= <-] & [= <-] & Hm).
      assert (Hc1 : c ∈ dom (op2cluster st1)).
      { rewrite Hk. destruct (mg_survivor _ _ _ _ _ Hm) as [->| ->]; [done|].
        apply Hw. left. }
      destruct (IH c st1 (so_inv _ _ Hstep) Hc1 Hw1) as (c' & rest' & st' & -> & Hstep' & ? & ?).
      exists c', rest', st'. split_and!; [done|by eapply stepOK_trans|congruence|].
      by apply sublist_cons.
    + assert (Hc1 : cluster ∈ dom (op2cluster st1)) by by rewrite Hk.
      destruct (IH cluster st1 (so_inv _ _ Hstep) Hc1 Hw1)
        as (c' & rest' & st' & -> & Hstep' & ? & ?).
      simpl. exists c', (it :: rest'), st'.
      split_and!; [done|by eapply stepOK_trans|congruence|by apply sublist_skip].
Qed.

Lemma populateLoop_total fuel workList candidates st :
  blockInv st → length workList ≤ fuel →
  (∀ x, x ∈ workList → x ∈ dom (op2cluster st)) →
  (∀ x, x ∈ candidates → x ∈ dom (op2cluster st)) →
  ∃ cands st', populateLoop fuel workList candidates st = Some (cands, st') ∧
               stepOK st st' ∧ (∀ x, x ∈ cands → x ∈ dom (op2cluster st)).
Proof.
  revert workList candidates st.
  induction fuel as [|fuel IH]; intros workList candidates st Hinv Hlen Hw Hc.
  - destruct workList; [|simpl in Hlen; lia].
    exists candidates, st. split_and!; [done|by apply stepOK_refl|done].
  - destruct workList as [|cluster rest]; cbn [populateLoop].
    { exists candidates, st. split_and!; [done|by apply stepOK_refl|done]. }
    destruct (coalesce_total rest cluster st Hinv) as (c & rest' & st1 & -> & Hstep & Hc1 & Hsub).
    { apply Hw. left. } { intros x Hx. apply Hw. by right. }
    simpl. pose proof (so_keys _ _ Hstep) as Hk.
    destruct (IH rest' (candidates ++ [c]) st1 (so_inv _ _ Hstep))
      as (cands & st' & -> & Hstep' & Hcands).
    { apply sublist_length in Hsub. simpl in Hlen. lia. }
    { intros x Hx. rewrite Hk. apply Hw. right. by apply (sublist_subseteq _ _ Hsub). }
    { intros x [Hx| ->%list_elem_of_singleton]%elem_of_app; rewrite Hk; auto. }
    exists cands, st'. split_and!; [done|by eapply stepOK_trans|].
    intros x Hx. rewrite <-Hk. auto.
Qed.

Lemma sortByNumOps_Permutation m l : sortByNumOps m l ≡ₚ l.
Proof.
  unfold sortByNumOps. induction l as [|x l IH]; simpl; [done|].
  rewrite <-IH at 2. generalize (foldr (insertByNumOps m) [] l). clear. intros l.
  induction l as [|y l IH]; simpl; [done|].
  case_bool_decide; [|done]. rewrite IH. apply Permutation_swap.
Qed.

Section Run.
Context {helpers : Helpers}.

Lemma populateCandidates_total st :
  blockInv st →
  ∃ cands st', populateCandidates st = Some (cands, st') ∧ stepOK st st' ∧
               (∀ x, x ∈ cands → x ∈ dom (op2cluster st')).
Proof.
  intros Hinv. unfold populateCandidates.
  set (workList := sortByNumOps _ _).
  destruct (populateLoop_total (length workList) workList [] st Hinv)
    as (cands & st' & -> & Hstep & Hc); [done| |by intros ? ?%elem_of_nil|].
  - intros x Hx. unfold workList in Hx. rewrite sortByNumOps_Permutation in Hx.
    apply list_elem_of_In, filter_In in Hx as [_ Hx]. unfold isRootB in Hx.
    apply elem_of_dom. destruct (op2cluster st !! x); [eauto|done].
  - simpl. eexists _, st'. split_and!; [done..|].
    intros x Hx. rewrite sortByNumOps_Permutation in Hx.
    rewrite (so_keys _ _ Hstep). auto.
Qed.

(** The two strategies return on a function with distinct operations: no
    assertion of the merges fails. *)
Lemma TopDownDeviceClustering_total f attrName :
  distinctOps f →
  ∃ cands st, TopDownDeviceClustering f attrName = Some (cands, st) ∧
              stepOK (initialState f attrName) st ∧
              (∀ x, x ∈ cands → x ∈ dom (op2cluster st)).
Proof.
  intros Hd. unfold TopDownDeviceClustering, TopDown_mergeDeviceClustersProgressively.
  destruct (foldl_visit_total (λ op, getDefiningOp <$> opOperands op)
              (body (ir (initialState f attrName))) (initialState f attrName))
    as (st1 & -> & Hstep); [by apply initial_blockInv|]. simpl.
  destruct (populateCandidates_total st1 (so_inv _ _ Hstep)) as (c & st2 & -> & Hstep' & Hc).
  exists c, st2. split_and!; [done|by eapply stepOK_trans|done].
Qed.

Lemma BottomUpDeviceClustering_total f attrName :
  distinctOps f →
  ∃ cands st, BottomUpDeviceClustering f attrName = Some (cands, st) ∧
              stepOK (initialState f attrName) st ∧
              (∀ x, x ∈ cands → x ∈ dom (op2cluster st)).
Proof.
  intros Hd. unfold BottomUpDeviceClustering, BottomUp_mergeDeviceClustersProgressively.
  cbv zeta.
  destruct (foldl_visit_total
              (λ op, (λ use, Some (opSelf (useOwner use)))
                       <$> getUses (ir (initialState f attrName)) (opSelf op))
              (reverse (body (ir (initialState f attrName)))) (initialState f attrName))
    as (st1 & -> & Hstep); [by apply initial_blockInv|]. simpl.
  destruct (populateCandidates_total st1 (so_inv _ _ Hstep)) as (c & st2 & -> & Hstep' & Hc).
  exists c, st2. split_and!; [done|by eapply stepOK_trans|done].
Qed.

End Run.

(** ** The candidates *)

Lemma mergedOK_roots st st' l r c k :
  mergedOK st st' l r c →
  isRoot (op2cluster st') k ↔
  isRoot (op2cluster st) k ∧ k ≠ (if decide (c = r) then l else r).
Proof.
  intros Hm. destruct (mg_lists _ _ _ _ _ Hm) as (cl & cr & b & _ & _ & _ & _ & Hc & Ho).
  destruct (mg_roots _ _ _ _ _ Hm) as [Hl Hr]. pose proof (mg_ne _ _ _ _ _ Hm) as Hne.
  assert (Hnot : ¬ isRoot (op2cluster st') (if decide (c = r) then l else r)).
  { intros (c' & Hc' & Hroot). rewrite Ho in Hc'. by simplify_eq. }
  assert (Hroot : isRoot (op2cluster st') c) by (eexists; split; [exact Hc|done]).
  destruct (decide (k = l)) as [->|Hkl]; [|destruct (decide (k = r)) as [->|Hkr]].
  - destruct (mg_survivor _ _ _ _ _ Hm) as [->| ->].
    + rewrite decide_True in Hnot |- * by done. naive_solver.
    + rewrite decide_False in Hnot |- * by done. naive_solver.
  - destruct (mg_survivor _ _ _ _ _ Hm) as [->| ->].
    + rewrite decide_True in Hnot |- * by done. naive_solver.
    + rewrite decide_False in Hnot |- * by done. naive_solver.
  - rewrite (proj1 (mg_others _ _ _ _ _ Hm k Hkl Hkr)).
    case_decide; naive_solver.
Qed.

Lemma coalesce_roots W cluster st O c rest st' :
  blockInv st →
  coalesce W cluster st = Some (c, rest, st') →
  NoDup (O ++ cluster :: W) →
  (∀ k, k ∈ O ++ cluster :: W ↔ isRoot (op2cluster st) k) →
  NoDup (O ++ c :: rest) ∧ (∀ k, k ∈ O ++ c :: rest ↔ isRoot (op2cluster st') k).
Proof.
  revert cluster st O c rest st'.
  induction W as [|it W IH]; intros cluster st O c rest st' Hinv Hco Hnd Hroots;
    cbn [coalesce] in Hco.
  { by simplify_eq. }
  assert (Hv : ∀ k, k ∈ O ++ cluster :: it :: W → validPtr (op2cluster st) (Some k)).
  { intros k (c' & Hc' & _)%Hroots. simpl. eauto. }
  destruct (tryMerge_step (Some it) (Some cluster) st Hinv)
    as (res & st1 & E & Hstep & Hnone & Hsome).
  { apply Hv. set_solver. } { apply Hv. set_solver. }
  rewrite E in Hco. simpl in Hco. destruct res as [c1|].
  - destruct (Hsome c1 eq_refl) as (l & r & [= <-] & [= <-] & Hm).
    eapply (IH c1 st1 O); [exact (so_inv _ _ Hstep)|exact Hco| |].
    + apply NoDup_app in Hnd as (HO & Hdis & [Hc1 [Hc2 HW]%NoDup_cons]%NoDup_cons).
      apply NoDup_app. split_and!; [done| |].
      * intros x Hx Hx'. apply (Hdis x Hx).
        destruct (mg_survivor _ _ _ _ _ Hm) as [->| ->]; set_solver.
      * apply NoDup_cons. split; [|done].
        destruct (mg_survivor _ _ _ _ _ Hm) as [->| ->]; set_solver.
    + intros k. rewrite (mergedOK_roots _ _ _ _ _ k Hm), <-Hroots.
      apply NoDup_app in Hnd as (HO & Hdis & [Hc1 [Hc2 HW]%NoDup_cons]%NoDup_cons).
      pose proof (mg_ne _ _ _ _ _ Hm) as Hne.
      destruct (mg_survivor _ _ _ _ _ Hm) as [->| ->].
      * rewrite decide_True by done.
        split.
        -- intros [?|[->|?]%elem_of_cons]%elem_of_app.
           ++ split; [set_solver|]. intros ->. apply (Hdis it); set_solver.
           ++ split; [set_solver|]. done.
           ++ split; [set_solver|]. intros ->. done.
        -- intros [Hk Hkl]. set_solver.
      * rewrite decide_False by done.
        split.
        -- intros [?|[->|?]%elem_of_cons]%elem_of_app.
           ++ split; [set_solver|]. intros ->. apply (Hdis cluster); set_solver.
           ++ split; [set_solver|]. done.
           ++ split; [set_solver|]. intros ->. set_solver.
        -- intros [Hk Hkl]. set_solver.
  - destruct (coalesce W cluster st1) as [[[c2 rest2] st2]|] eqn:E2; simplify_eq/=.
    assert (Hp : ∀ x (l : list OpPtr), (O ++ [it]) ++ x :: l ≡ₚ O ++ x :: it :: l).
    { intros. rewrite <-app_assoc. simpl. apply Permutation_app_head, Permutation_swap. }
    destruct (IH cluster st1 (O ++ [it]) c rest2 st' (so_inv _ _ Hstep) E2) as [Hnd' Hr'].
    + by rewrite Hp.
    + intros k. rewrite Hp, Hroots. symmetry. apply same_forest_isRoot. auto.
    + rewrite Hp in Hnd'. split; [done|]. intros k. rewrite <-Hr', Hp. done.
Qed.

Lemma populateLoop_roots fuel W cands st cands' st' :
  blockInv st →
  populateLoop fuel W cands st = Some (cands', st') →
  NoDup (cands ++ W) →
  (∀ k, k ∈ cands ++ W ↔ isRoot (op2cluster st) k) →
  NoDup cands' ∧ (∀ k, k ∈ cands' ↔ isRoot (op2cluster st') k).
Proof.
  revert W cands st.
  induction fuel as [|fuel IH]; intros W cands st Hinv Hloop Hnd Hroots.
  - destruct W; simplify_eq/=. rewrite app_nil_r in Hnd, Hroots. done.
  - destruct W as [|cluster rest]; cbn [populateLoop] in Hloop.
    { simplify_eq. rewrite app_nil_r in Hnd, Hroots. done. }
    destruct (coalesce rest cluster st) as [[[c rest'] st1]|] eqn:E; [|done].
    simpl in Hloop.
    destruct (coalesce_roots _ _ _ cands _ _ _ Hinv E Hnd Hroots) as [Hnd1 Hr1].
    destruct (coalesce_total rest cluster st Hinv) as (? & ? & ? & E' & Hstep & _).
    { apply elem_of_dom. destruct (proj1 (Hroots cluster)) as (? & ? & _); [set_solver|eauto]. }
    { intros x Hx. apply elem_of_dom.
      destruct (proj1 (Hroots x)) as (? & ? & _); [set_solver|eauto]. }
    rewrite E in E'. injection E' as <- <- <-.
    eapply (IH rest' (cands ++ [c]) _ (so_inv _ _ Hstep) Hloop).
    + by rewrite <-app_assoc.
    + intros k. rewrite <-app_assoc. apply Hr1.
Qed.

Lemma insertByNumOps_Permutation m x l : insertByNumOps m x l ≡ₚ x :: l.
Proof.
  induction l as [|z l IH]; simpl; [done|].
  case_bool_decide; [|done]. rewrite IH. apply Permutation_swap.
Qed.

Lemma insertByNumOps_sorted m x l :
  (∀ i j ci cj, i < j → l !! i = Some ci → l !! j = Some cj → numOps m cj ≤ numOps m ci) →
  ∀ i j ci cj, i < j → insertByNumOps m x l !! i = Some ci →
    insertByNumOps m x l !! j = Some cj → numOps m cj ≤ numOps m ci.
Proof.
  induction l as [|y l IH]; intros Hs i j ci cj Hij Hi Hj; simpl in *.
  { destruct i, j; simplify_eq/=; lia. }
  assert (Hl : ∀ i j ci cj, i < j → l !! i = Some ci → l !! j = Some cj →
                 numOps m cj ≤ numOps m ci).
  { intros i' j' ? ? ? ? ?. apply (Hs (S i') (S j')); [lia|done..]. }
  case_bool_decide as Hlt.
  - destruct i as [|i], j as [|j]; simplify_eq/=; [lia| |lia|by eapply (IH Hl i j); [lia|..]].
    apply list_elem_of_lookup_2 in Hj. rewrite insertByNumOps_Permutation in Hj.
    apply elem_of_cons in Hj as [->|Hj]; [lia|].
    apply list_elem_of_lookup_1 in Hj as [k Hk]. by apply (Hs 0 (S k)); [lia|..].
  - destruct i as [|i], j as [|j]; simplify_eq/=; [lia| |lia|by eapply (Hs i j); [lia|..]].
    destruct j as [|j]; simplify_eq/=; [lia|].
    pose proof (Hs 0 (S j) _ _ ltac:(lia) eq_refl Hj). lia.
Qed.

Lemma sortByNumOps_sorted m l :
  ∀ i j ci cj, i < j → sortByNumOps m l !! i = Some ci →
    sortByNumOps m l !! j = Some cj → numOps m cj ≤ numOps m ci.
Proof.
  unfold sortByNumOps. induction l as [|x l IH]; simpl.
  { intros i j ? ? _ Hi. by destruct i. }
  by apply insertByNumOps_sorted.
Qed.

Section Run.
Context {helpers : Helpers}.

Lemma populateCandidates_roots st cands st' :
  (∀ l, denseMapOrder l ≡ₚ l) → blockInv st →
  populateCandidates st = Some (cands, st') →
  NoDup cands ∧ (∀ k, k ∈ cands ↔ isRoot (op2cluster st') k) ∧
  (∀ i j ci cj, i < j → cands !! i = Some ci → cands !! j = Some cj →
     numOps (op2cluster st') cj ≤ numOps (op2cluster st') ci).
Proof.
  intros Horder Hinv Hpop. unfold populateCandidates in Hpop.
  set (workList := sortByNumOps _ _) in Hpop.
  destruct (populateLoop _ workList [] st) as [[cands0 st0]|] eqn:E; simplify_eq/=.
  assert (Hw : workList ≡ₚ List.filter (isRootB (op2cluster st)) (map_to_list (op2cluster st)).*1).
  { unfold workList. rewrite sortByNumOps_Permutation.
    generalize (Horder (map_to_list (op2cluster st)).*1).
    generalize (map_to_list (op2cluster st)).*1. generalize (isRootB (op2cluster st)). clear.
    intros P l. generalize (denseMapOrder l). clear. intros l' H.
    induction H; simpl; [done|by destruct (P x); [constructor|]| |by etrans].
    destruct (P x), (P y); try done. apply Permutation_swap. }
  destruct (populateLoop_roots _ _ _ _ _ _ Hinv E) as [Hnd Hroots].
  - simpl. rewrite Hw. apply NoDup_ListNoDup, List.NoDup_filter, NoDup_ListNoDup.
    apply NoDup_fst_map_to_list.
  - intros k. simpl. rewrite Hw, list_elem_of_In, filter_In, <-list_elem_of_In.
    unfold isRootB, isRoot. split.
    + intros [_ Hk]. destruct (op2cluster st !! k) as [c|]; [|done].
      apply bool_decide_eq_true in Hk. eauto.
    + intros (c & Hc & Hroot). split.
      * apply list_elem_of_fmap. exists (k, c). split; [done|]. by apply elem_of_map_to_list.
      * rewrite Hc. by apply bool_decide_eq_true.
  - split_and!.
    + by rewrite sortByNumOps_Permutation.
    + intros k. by rewrite sortByNumOps_Permutation.
    + apply sortByNumOps_sorted.
Qed.

End Run.

(** ** The block after a merge *)




(** ** The order of two roots *)

Lemma roots_isBeforeInBlock st l r cl cr :
  blockInv st → l ≠ r →
  op2cluster st !! l = Some cl → mergedInto cl = None →
  op2cluster st !! r = Some cr → mergedInto cr = None →
  ∃ b : bool,
    isBeforeInBlock (ir st) cl cr = Some b ∧
    isBeforeInBlock (ir st) cr cl = Some (negb b) ∧
    ∀ x y, x ∈ operations cl → y ∈ operations cr →
      if b then before (opSelf <$> body (ir st)) x y
      else before (opSelf <$> body (ir st)) y x.
Proof.
  destruct st as [f m]. intros Hinv Hne Hcl Hrl Hcr Hrr. simpl in *.
  pose proof Hinv as [Hd Hf Hrun]. simpl in *.
  destruct (Hrun l cl Hcl Hrl) as [Hnl _].
  destruct (Hrun r cr Hcr Hrr) as [Hnr _].
  destruct (ends_of_list _ Hnl) as (hl & tl & Hhl & Htl).
  destruct (ends_of_list _ Hnr) as (hr & tr & Hhr & Htr).
  destruct (roots_ordered f m l r cl cr Hinv Hne Hcl Hrl Hcr Hrr)
    as [(A & B & C & Hb)|(A & B & C & Hb)].
  - destruct (upper_before_lower f A _ B _ C Hd Hb tl hl tr hr Htl Hhl Htr Hhr cl cr
                eq_refl eq_refl) as [Hbef Hbef'].
    exists true. split_and!; [done..|]. intros x y Hx Hy. rewrite Hb.
    apply before_app_r. apply before_app_lr; [done|].
    apply elem_of_app. right. apply elem_of_app. by left.
  - destruct (upper_before_lower f A _ B _ C Hd Hb tr hr tl hl Htr Hhr Htl Hhl cr cl
                eq_refl eq_refl) as [Hbef Hbef'].
    exists false. split_and!; [done..|]. intros x y Hx Hy. rewrite Hb.
    apply before_app_r. apply before_app_lr; [done|].
    apply elem_of_app. right. apply elem_of_app. by left.
Qed.

(** ** The metadata *)

Lemma sublist_concat {A} (l k : list (list A)) :
  l `sublist_of` k → concat l `sublist_of` concat k.
Proof.
  induction 1; simpl; [done|by apply sublist_app|by apply sublist_inserts_l].
Qed.

Lemma elem_of_concat {A} (x : A) (ls : list (list A)) :
  x ∈ concat ls ↔ ∃ l, x ∈ l ∧ l ∈ ls.
Proof.
  induction ls as [|l ls IH]; simpl.
  - split; [by intros ?%elem_of_nil|by intros (? & _ & ?%elem_of_nil)].
  - rewrite elem_of_app, IH. split.
    + intros [?|(l' & ? & ?)]; [exists l; split; [done|left]|exists l'; split; [done|by right]].
    + intros (l' & ? & [->|?]%elem_of_cons); [by left|right; eauto].
Qed.

Lemma candidates_NoDup_concat st cands :
  blockInv st → NoDup cands →
  NoDup (concat (omap (λ p, operations <$> op2cluster st !! p) cands)).
Proof.
  intros [Hd Hf Hrun] Hnd.
  assert (Hone : ∀ p c, op2cluster st !! p = Some c → NoDup (operations c)).
  { intros p c Hc. destruct (mergedInto c) eqn:Hr.
    - rewrite (forest_linked _ Hf p c Hc) by (rewrite Hr; eauto). constructor.
    - destruct (Hrun p c Hc Hr) as [_ (pre & post & E)].
      pose proof (distinctOps_body _ Hd) as Hb. rewrite E in Hb.
      apply NoDup_app in Hb as (_ & _ & Hb). by apply NoDup_app in Hb as (Hb & _). }
  induction Hnd as [|p cands Hp Hnd IH]; simpl; [constructor|].
  destruct (op2cluster st !! p) as [c|] eqn:Hc; simpl; [|done].
  apply NoDup_app. split_and!; [by eapply Hone| |done].
  intros o Ho (l & Ho' & Hl)%elem_of_concat.
  apply list_elem_of_omap in Hl as (q & Hq & Hl).
  destruct (op2cluster st !! q) as [c'|] eqn:Hc'; simplify_eq/=.
  assert (Hrc : mergedInto c = None).
  { destruct (mergedInto c) eqn:Hr; [|done].
    rewrite (forest_linked _ Hf p c Hc) in Ho by (rewrite Hr; eauto).
    by apply elem_of_nil in Ho. }
  assert (Hrc' : mergedInto c' = None).
  { destruct (mergedInto c') eqn:Hr; [|done].
    rewrite (forest_linked _ Hf q c' Hc') in Ho' by (rewrite Hr; eauto).
    by apply elem_of_nil in Ho'. }
  apply (forest_ops _ Hf p c Hc Hrc) in Ho as (d & Hres).
  pose proof (proj1 (forest_ops _ Hf q c' Hc' Hrc' o) Ho') as (d' & Hres').
  destruct (resolves_det _ _ _ _ _ _ Hres Hres') as [E1 E2].
  apply Hp. first [by rewrite E1|by rewrite E2].
Qed.

Section Run.
Context {helpers : Helpers}.

Lemma emitMetadatas_sublist f deviceAttr deviceAnchorName dupOutputs enableMultiGraph
    validateSubGraphFn clusters :
  ops <$> emitMetadatas f deviceAttr deviceAnchorName dupOutputs enableMultiGraph
            validateSubGraphFn clusters `sublist_of` clusters.
Proof.
  induction clusters as [|cluster rest IH]; simpl; [done|].
  case_bool_decide; [by apply sublist_cons|].
  destruct (rejects validateSubGraphFn cluster); [by apply sublist_cons|].
  rewrite fmap_cons. simpl. apply sublist_skip.
  destruct enableMultiGraph; [done|apply sublist_nil_l].
Qed.

Lemma mapM_omap {A B} (g : A → option B) (l : list A) (k : list B) :
  mapM g l = Some k → omap g l = k.
Proof.
  intros H%mapM_Some. induction H as [|x y l k Hx _ IH]; [done|].
  cbn. rewrite Hx. cbn. f_equal. exact IH.
Qed.

Lemma getFunctionMetadatas_NoDup st candidates deviceAttr deviceAnchorName dupOutputs
    enableMultiGraph validateSubGraphFn metadatas :
  blockInv st → NoDup candidates →
  getFunctionMetadatas st candidates deviceAttr deviceAnchorName dupOutputs
    enableMultiGraph validateSubGraphFn = Some (Some metadatas) →
  NoDup (flat_map ops metadatas).
Proof.
  intros Hinv Hnd H. unfold getFunctionMetadatas in H.
  destruct (mapM _ candidates) as [clusters|] eqn:Hm; simpl in H; [|done].
  destruct clusters as [|first rest]; [done|].
  case_bool_decide; [done|]. simplify_eq.
  apply mapM_omap in Hm.
  pose proof (candidates_NoDup_concat st candidates Hinv Hnd) as Hc.
  rewrite Hm in Hc. rewrite flat_map_concat_map.
  eapply sublist_NoDup; [exact Hc|].
  apply sublist_concat, emitMetadatas_sublist.
Qed.

End Run.

(** ** The driver's switch *)

Section Run.
Context {helpers : Helpers}.

Lemma getFunctionMetadatas_total st candidates deviceAttr deviceAnchorName dupOutputs
    enableMultiGraph validateSubGraphFn :
  (∀ x, x ∈ candidates → x ∈ dom (op2cluster st)) →
  is_Some (getFunctionMetadatas st candidates deviceAttr deviceAnchorName dupOutputs
             enableMultiGraph validateSubGraphFn).
Proof.
  intros Hc. unfold getFunctionMetadatas.
  destruct (mapM (λ p, operations <$> op2cluster st !! p) candidates) as [clusters|] eqn:E.
  - simpl. destruct clusters; [done|]. by case_bool_decide.
  - assert (H : is_Some (mapM (λ p, operations <$> op2cluster st !! p) candidates)).
    { apply mapM_is_Some, Forall_forall. intros x Hx%Hc%elem_of_dom. simpl.
      destruct Hx as [c ->]. by eexists. }
    rewrite E in H. by destruct H.
Qed.

Lemma merging_total algo f attrName :
  merging algo → distinctOps f →
  ∃ cands st, algo f attrName = Some (cands, st) ∧
              stepOK (initialState f attrName) st ∧
              (∀ x, x ∈ cands → x ∈ dom (op2cluster st)).
Proof.
  intros [-> | ->] Hd;
    [by apply TopDownDeviceClustering_total|by apply BottomUpDeviceClustering_total].
Qed.

Lemma runClustering_total algo f attrName deviceAttr deviceAnchorName dupOutputs
    enableMultiGraph validateSubGraphFn :
  merging algo → distinctOps f →
  ∃ cands st mds,
    algo f attrName = Some (cands, st) ∧
    stepOK (initialState f attrName) st ∧
    getFunctionMetadatas st cands deviceAttr deviceAnchorName dupOutputs
      enableMultiGraph validateSubGraphFn = Some mds ∧
    runClustering algo f attrName deviceAttr deviceAnchorName dupOutputs
      enableMultiGraph validateSubGraphFn = Some (ir st, mds).
Proof.
  intros Ha Hd. destruct (merging_total algo f attrName Ha Hd) as (cands & st & E & Hstep & Hc).
  destruct (getFunctionMetadatas_total st cands deviceAttr deviceAnchorName dupOutputs
              enableMultiGraph validateSubGraphFn Hc) as [mds Hm].
  exists cands, st, mds. split_and!; [done..|].
  unfold runClustering. rewrite E. simpl. by rewrite Hm.
Qed.

End Run.

Section Run.
Context {helpers : Helpers}.

(** Whichever strategy the driver selects, the result is the function as it
    was with no entries, the entries of the fallback, or the result of one
    of the two merging strategies on the function. *)
Lemma clusterFunction_cases clusterAlgo f attrName device deviceAnchorName
    dupOutputs enableMultiGraph validateSubGraphFn :
  distinctOps f →
  ∃ f' mds,
    clusterFunction clusterAlgo f attrName device deviceAnchorName dupOutputs
      enableMultiGraph validateSubGraphFn = Some (f', mds) ∧
    ((f' = f ∧ (clusterAlgo = kFallback ∨ mds = None)) ∨
     ∃ algo cands st,
       merging algo ∧ clusterAlgo ≠ kFallback ∧
       algo f attrName = Some (cands, st) ∧
       stepOK (initialState f attrName) st ∧ f' = ir st ∧
       getFunctionMetadatas st cands device deviceAnchorName dupOutputs
         enableMultiGraph validateSubGraphFn = Some mds).
Proof.
  intros Hd.
  destruct (runClustering_total TopDownDeviceClustering f attrName device deviceAnchorName
              dupOutputs enableMultiGraph validateSubGraphFn (or_introl eq_refl) Hd)
    as (candsT & stT & mdsT & HaT & HstepT & HmT & HrT).
  destruct (runClustering_total BottomUpDeviceClustering f attrName device deviceAnchorName
              dupOutputs enableMultiGraph validateSubGraphFn (or_intror eq_refl) Hd)
    as (candsB & stB & mdsB & HaB & HstepB & HmB & HrB).
  assert (HT : ∀ a, a ≠ kFallback →
            (ir stT = f ∧ (a = kFallback ∨ mdsT = None)) ∨
            ∃ algo cands st,
              merging algo ∧ a ≠ kFallback ∧
              algo f attrName = Some (cands, st) ∧
              stepOK (initialState f attrName) st ∧ ir stT = ir st ∧
              getFunctionMetadatas st cands device deviceAnchorName dupOutputs
                enableMultiGraph validateSubGraphFn = Some mdsT).
  { intros a Ha. right. exists TopDownDeviceClustering, candsT, stT.
    split_and!; [by left|done..]. }
  assert (HB : ∀ a, a ≠ kFallback →
            (ir stB = f ∧ (a = kFallback ∨ mdsB = None)) ∨
            ∃ algo cands st,
              merging algo ∧ a ≠ kFallback ∧
              algo f attrName = Some (cands, st) ∧
              stepOK (initialState f attrName) st ∧ ir stB = ir st ∧
              getFunctionMetadatas st cands device deviceAnchorName dupOutputs
                enableMultiGraph validateSubGraphFn = Some mdsB).
  { intros a Ha. right. exists BottomUpDeviceClustering, candsB, stB.
    split_and!; [by right|done..]. }
  destruct clusterAlgo; simpl.
  - exists (ir stT), mdsT. split; [done|]. by apply HT.
  - exists (ir stB), mdsB. split; [done|]. by apply HB.
  - destruct (@runClustering_total (onClone (cloneShift 1 f))
                (@TopDownDeviceClustering (onClone (cloneShift 1 f))) f attrName device
                deviceAnchorName dupOutputs enableMultiGraph validateSubGraphFn
                (or_introl eq_refl) Hd) as (? & ? & cloneT & _ & _ & _ & HcT).
    destruct (@runClustering_total (onClone (cloneShift 2 f))
                (@BottomUpDeviceClustering (onClone (cloneShift 2 f))) f attrName device
                deviceAnchorName dupOutputs enableMultiGraph validateSubGraphFn
                (or_intror eq_refl) Hd) as (? & ? & cloneB & _ & _ & _ & HcB).
    unfold greedy. cbv zeta. rewrite HcT, HcB. simpl.
    destruct cloneT as [t|], cloneB as [b|].
    + case_bool_decide.
      * exists (ir stT), mdsT. split; [done|]. by apply HT.
      * exists (ir stB), mdsB. split; [done|]. by apply HB.
    + exists (ir stT), mdsT. split; [done|]. by apply HT.
    + exists (ir stB), mdsB. split; [done|]. by apply HB.
    + exists f, None. split; [done|]. left. auto.
  - destruct (getFunctionMetadatasFallback_eq f attrName device deviceAnchorName dupOutputs
                validateSubGraphFn) as (H & _ & _ & ->). simpl.
    eexists f, _. split; [done|]. left. auto.
Qed.

Lemma stepOK_initial f attrName st :
  stepOK (initialState f attrName) st →
  body (ir st) ≡ₚ body f ∧ retOp (ir st) = retOp f ∧ symName (ir st) = symName f ∧
  distinctOps (ir st) ∧ (dominanceOK f → dominanceOK (ir st)).
Proof.
  intros [Hinv Hperm Hret Hname Hdom _]. simpl in *.
  split_and!; [done..|apply (bi_distinct _ Hinv)|done].
Qed.

Lemma getFunctionMetadatas_runs st candidates deviceAttr deviceAnchorName dupOutputs
    enableMultiGraph validateSubGraphFn metadatas md :
  blockInv st →
  getFunctionMetadatas st candidates deviceAttr deviceAnchorName dupOutputs
    enableMultiGraph validateSubGraphFn = Some (Some metadatas) →
  md ∈ metadatas →
  ops md ≠ [] ∧ run (ops md) (opSelf <$> body (ir st)).
Proof.
  intros Hinv Hg Hmd.
  destruct (getFunctionMetadatas_elem _ _ _ _ _ _ _ _ _ Hg Hmd)
    as (p & c & _ & Hc & Hops & Hne & _).
  rewrite Hops. split; [done|].
  destruct (mergedInto c) eqn:Hr.
  - destruct Hne. apply (forest_linked _ (bi_forest _ Hinv) p c Hc). rewrite Hr. eauto.
  - by apply (bi_run _ Hinv p c Hc Hr).
Qed.

End Run.

(** ** The greedy strategy *)

Section Run.
Context {helpers : Helpers}.

(** C7.  The greedy strategy.  On a function with distinct operations the
    two measuring runs return: the top-down strategy on the first clone and
    the bottom-up strategy on the second, each under the iteration order of
    its own clone.  When the totals of operations of the entries they
    return fit in an [int], the result of the greedy strategy is the run on
    the function itself of the top-down strategy when both measuring runs
    have entries and the top-down total is strictly larger, of the
    bottom-up strategy when both have entries otherwise (a tie included),
    of the one strategy whose measuring run has entries when the other has
    none, and the function as it was with no entries when neither has.
    What the measuring runs leave of the clones ([cT] and [cB]) is not part
    of the result. *)
Theorem greedy_picks_larger f attrName deviceAttr deviceAnchorName dupOutputs
    enableMultiGraph validateSubGraphFn :
  distinctOps f →
  ∃ cT topDown cB bottomUp,
    @runClustering (onClone (cloneShift 1 f))
      (@TopDownDeviceClustering (onClone (cloneShift 1 f))) f attrName deviceAttr
      deviceAnchorName dupOutputs enableMultiGraph validateSubGraphFn
    = Some (cT, topDown) ∧
    @runClustering (onClone (cloneShift 2 f))
      (@BottomUpDeviceClustering (onClone (cloneShift 2 f))) f attrName deviceAttr
      deviceAnchorName dupOutputs enableMultiGraph validateSubGraphFn
    = Some (cB, bottomUp) ∧
    ((∀ metadatas, topDown = Some metadatas ∨ bottomUp = Some metadatas →
        (Z.of_nat (totalOps metadatas) < 2 ^ 31)%Z) →
     greedy f attrName deviceAttr deviceAnchorName dupOutputs enableMultiGraph
       validateSubGraphFn
     = match topDown, bottomUp with
       | Some t, Some b =>
           if bool_decide (totalOps b < totalOps t)
           then runClustering TopDownDeviceClustering f attrName deviceAttr
                  deviceAnchorName dupOutputs enableMultiGraph validateSubGraphFn
           else runClustering BottomUpDeviceClustering f attrName deviceAttr
                  deviceAnchorName dupOutputs enableMultiGraph validateSubGraphFn
       | Some _, None =>
           runClustering TopDownDeviceClustering f attrName deviceAttr
             deviceAnchorName dupOutputs enableMultiGraph validateSubGraphFn
       | None, Some _ =>
           runClustering BottomUpDeviceClustering f attrName deviceAttr
             deviceAnchorName dupOutputs enableMultiGraph validateSubGraphFn
       | None, None => Some (f, None)
       end).
Proof.
  intros Hd.
  destruct (@runClustering_total (onClone (cloneShift 1 f))
              (@TopDownDeviceClustering (onClone (cloneShift 1 f))) f attrName deviceAttr
              deviceAnchorName dupOutputs enableMultiGraph validateSubGraphFn
              (or_introl eq_refl) Hd) as (? & stT & topDown & _ & _ & _ & HT).
  destruct (@runClustering_total (onClone (cloneShift 2 f))
              (@BottomUpDeviceClustering (onClone (cloneShift 2 f))) f attrName deviceAttr
              deviceAnchorName dupOutputs enableMultiGraph validateSubGraphFn
              (or_intror eq_refl) Hd) as (? & stB & bottomUp & _ & _ & _ & HB).
  exists (ir stT), topDown, (ir stB), bottomUp. split_and!; [done..|].
  intros Hfit. unfold greedy. cbv zeta. rewrite HT, HB. simpl.
  destruct topDown as [t|], bottomUp as [b|]; try done.
  rewrite !accumulateOps_total by auto.
  destruct (decide (totalOps b < totalOps t)).
  - rewrite !bool_decide_eq_true_2 by lia. done.
  - rewrite !bool_decide_eq_false_2 by lia. done.
Qed.

End Run.

(** ** The calls in the block *)

Lemma opSelf_replaceUsesInOp old new except op :
  opSelf (replaceUsesInOp old new except op) = opSelf op.
Proof. by destruct op. Qed.

Lemma replaceUses_ptrs old new except f :
  opSelf <$> body (replaceUses old new except f) = opSelf <$> body f ∧
  opSelf (retOp (replaceUses old new except f)) = opSelf (retOp f).
Proof.
  unfold replaceUses. simpl. split; [|apply opSelf_replaceUsesInOp].
  rewrite <-list_fmap_compose. apply list_fmap_ext. intros ? op _. simpl.
  apply opSelf_replaceUsesInOp.
Qed.

Lemma replaceResult_ptrs dupOutputs callOp f idx mapping r f' idx' mapping' :
  replaceResult dupOutputs callOp (Some (f, idx, mapping)) r = Some (f', idx', mapping') →
  opSelf <$> body f' = opSelf <$> body f ∧ opSelf (retOp f') = opSelf (retOp f).
Proof.
  unfold replaceResult. simpl. intros H. destruct dupOutputs.
  - destruct (findIndices idx r.2) as [idxs|]; simpl in H.
    + destruct (last idxs) as [i|]; simplify_eq/=.
      apply (replaceUses_ptrs r.2 (OpResult callOp r.1) (Some (opSelf (retOp f))) f).
    + simplify_eq/=.
      apply (replaceUses_ptrs r.2 (OpResult callOp r.1) (Some (opSelf (retOp f))) f).
  - simplify_eq/=. apply (replaceUses_ptrs r.2 (OpResult callOp r.1) None f).
Qed.

Lemma replaceResult_None dupOutputs callOp r : replaceResult dupOutputs callOp None r = None.
Proof. done. Qed.

Lemma replaceResults_fold_ptrs dupOutputs callOp rs f idx mapping f' idx' mapping' :
  foldl (replaceResult dupOutputs callOp) (Some (f, idx, mapping)) rs
  = Some (f', idx', mapping') →
  opSelf <$> body f' = opSelf <$> body f ∧ opSelf (retOp f') = opSelf (retOp f).
Proof.
  revert f idx mapping. induction rs as [|r rs IH]; intros f idx mapping H; cbn [foldl] in H.
  { by simplify_eq. }
  destruct (replaceResult dupOutputs callOp (Some (f, idx, mapping)) r)
    as [[[f1 idx1] mapping1]|] eqn:E.
  - destruct (replaceResult_ptrs _ _ _ _ _ _ _ _ _ E) as [<- <-]. by eapply IH.
  - exfalso. clear -H. induction rs as [|? ? IH]; cbn [foldl] in H; [done|].
    rewrite replaceResult_None in H. auto.
Qed.

Lemma list_max_elem (l : list nat) x : x ∈ l → x ≤ list_max l.
Proof.
  induction l as [|y l IH]; [by intros ?%elem_of_nil|].
  intros [->|H]%elem_of_cons; simpl; [lia|]. specialize (IH H). lia.
Qed.

Lemma freshOpPtr_fresh f : freshOpPtr f ∉ opSelf <$> front f.
Proof.
  intros (op & E & Hop)%list_elem_of_fmap.
  assert (opSelf op ≤ list_max (flat_map allPtrs (front f))).
  { apply list_max_elem, list_elem_of_In, in_flat_map. exists op.
    split; [by apply list_elem_of_In|]. destruct op; simpl. by left. }
  unfold freshOpPtr in E. lia.
Qed.

Lemma front_ptrs_app f : opSelf <$> front f = (opSelf <$> body f) ++ [opSelf (retOp f)].
Proof. unfold front. by rewrite fmap_app. Qed.

Section Calls.
Context {helpers : Helpers}.

Lemma createCall_ptrs dupOutputs f mapping md f2 mapping' :
  createCall dupOutputs (Some (f, mapping)) md = Some (f2, mapping') →
  ∃ x i op,
    last (ops md) = Some x ∧ body f !! i = Some op ∧ opSelf op = x ∧
    (∀ j y, body f !! j = Some y → j < i → opSelf y ≠ x) ∧
    opSelf <$> body f2
    = take i (opSelf <$> body f) ++ freshOpPtr f :: drop i (opSelf <$> body f) ∧
    opSelf (retOp f2) = opSelf (retOp f).
Proof.
  unfold createCall. simpl. intros H.
  destruct (last (ops md)) as [x|] eqn:Hx; [|done]. simpl in H.
  destruct (position (body f) x) as [i|] eqn:Hi; [|done]. simpl in H.
  unfold position in Hi. apply fmap_Some in Hi as ([i' op] & Hfind & ->).
  apply list_find_Some in Hfind as (Hop & Hself & Hfirst). simpl in *.
  unfold replaceResults in H.
  match type of H with
  | context [foldl ?g ?a ?l] => destruct (foldl g a l) as [[[f3 idx3] mapping3]|] eqn:Hfold
  end; [|done].
  simpl in H. injection H as <- <-.
  destruct (replaceResults_fold_ptrs _ _ _ _ _ _ _ _ _ Hfold) as [Hb Hr].
  exists x, i', op. split_and!; [done..| |].
  - rewrite Hb. simpl. by rewrite fmap_app, fmap_cons, fmap_take, fmap_drop.
  - by rewrite Hr.
Qed.

Lemma createCall_None dupOutputs md : createCall dupOutputs None md = None.
Proof. done. Qed.

Lemma callFor_Some metadatas calls x c :
  callFor metadatas calls x = Some c →
  c ∈ calls ∧ ∃ md, md ∈ metadatas ∧ last (ops md) = Some x.
Proof.
  unfold callFor. intros ([md c'] & Hfind & ->)%fmap_Some.
  apply find_some in Hfind as [Hin Hlast]. apply bool_decide_eq_true in Hlast.
  apply list_elem_of_In, elem_of_zip_with in Hin as (? & ? & ? & ? & ?). simplify_eq/=.
  split; [done|]. eauto.
Qed.

Lemma callFor_snoc metadatas calls md c y :
  length calls = length metadatas →
  callFor (metadatas ++ [md]) (calls ++ [c]) y
  = match callFor metadatas calls y with
    | Some c' => Some c'
    | None => if bool_decide (last (ops md) = Some y) then Some c else None
    end.
Proof.
  intros Hlen. unfold callFor. rewrite zip_with_app by done. simpl.
  generalize (zip metadatas calls). intros l.
  induction l as [|[m c'] l IH]; simpl.
  - destruct (bool_decide _); reflexivity.
  - destruct (bool_decide (last (ops m) = Some y)); [reflexivity|exact IH].
Qed.

Lemma flat_map_ext_elem {A B} (g g' : A → list B) (l : list A) :
  (∀ x, x ∈ l → g x = g' x) → flat_map g l = flat_map g' l.
Proof.
  induction l as [|x l IH]; intros H; simpl; [done|].
  rewrite H by left. rewrite IH; [done|]. intros. apply H. by right.
Qed.

Lemma createCalls_fold metadatas f dupOutputs f2 mapping :
  NoDup (opSelf <$> body f) →
  (∀ md o, md ∈ metadatas → o ∈ ops md → o ∈ opSelf <$> body f) →
  NoDup (omap (λ md, last (ops md)) metadatas) →
  foldl (createCall dupOutputs) (Some (f, [])) metadatas = Some (f2, mapping) →
  ∃ calls,
    length calls = length metadatas ∧ NoDup calls ∧
    (∀ c, c ∈ calls → c ∉ opSelf <$> front f) ∧
    (∀ c, c ∈ calls → c ∈ opSelf <$> body f2) ∧
    opSelf (retOp f2) = opSelf (retOp f) ∧
    opSelf <$> body f2
    = flat_map (λ x, match callFor metadatas calls x with
                     | Some c => [c; x]
                     | None => [x]
                     end) (opSelf <$> body f).
Proof.
  intros HP. revert f2 mapping.
  induction metadatas as [|md metadatas IH] using rev_ind; intros f2 mapping Hops Hlast H.
  { simpl in H. injection H as <- <-. exists []. split_and!; [done|constructor|..].
    - by intros ? ?%elem_of_nil.
    - by intros ? ?%elem_of_nil.
    - done.
    - unfold callFor. simpl. generalize (opSelf <$> body f). intros l.
      induction l as [|x l IHl]; simpl; [done|]. by rewrite <-IHl. }
  rewrite foldl_app in H. cbn [foldl] in H.
  destruct (foldl (createCall dupOutputs) (Some (f, [])) metadatas) as [[f1 mapping1]|] eqn:E.
  2:{ by rewrite createCall_None in H. }
  rewrite omap_app in Hlast. apply NoDup_app in Hlast as (Hlast & Hdis & _).
  destruct (IH f1 mapping1) as (calls & Hlen & Hnd & Hfresh & Hin & Hret & Hbody);
    [intros ? ? ? ?; eapply Hops; [apply elem_of_app; by left|done]|done|done|].
  destruct (createCall_ptrs _ _ _ _ _ _ H) as (x & i & op & Hx & Hop & Hself & Hfirst & Hb2 & Hr2).
  set (c := freshOpPtr f1) in *.
  assert (Hc1 : c ∉ opSelf <$> front f1) by apply freshOpPtr_fresh.
  assert (HxP : x ∈ opSelf <$> body f).
  { eapply (Hops md); [apply elem_of_app; right; left|].
    apply last_Some in Hx as [l' ->]. apply elem_of_app. right. left. }
  assert (Hxcalls : x ∉ calls).
  { intros Hxc%Hfresh. apply Hxc. rewrite front_ptrs_app. apply elem_of_app. by left. }
  assert (Hnone : callFor metadatas calls x = None).
  { destruct (callFor metadatas calls x) as [c'|] eqn:Hcf; [|done].
    apply callFor_Some in Hcf as [_ (md' & Hmd' & Hl')].
    destruct (Hdis x).
    - apply list_elem_of_omap. eauto.
    - simpl. rewrite Hx. simpl. left. }
  assert (Hsub : ∀ y, y ∈ opSelf <$> body f1 → y ∈ opSelf <$> body f2).
  { intros y Hy. rewrite Hb2. rewrite <-(take_drop i (opSelf <$> body f1)) in Hy.
    apply elem_of_app in Hy as [?|?]; apply elem_of_app; [by left|right; by right]. }
  assert (HPsub : ∀ y, y ∈ opSelf <$> body f → y ∈ opSelf <$> body f1).
  { intros y Hy. rewrite Hbody. apply list_elem_of_In, in_flat_map. exists y.
    split; [by apply list_elem_of_In|]. destruct (callFor metadatas calls y); simpl; auto. }
  exists (calls ++ [c]). split_and!.
  - rewrite !length_app. simpl. lia.
  - apply NoDup_app. split_and!; [done| |apply NoDup_singleton].
    intros y Hy ->%list_elem_of_singleton. apply Hc1. rewrite front_ptrs_app.
    apply elem_of_app. left. by apply Hin.
  - intros y [Hy| ->%list_elem_of_singleton]%elem_of_app; [by apply Hfresh|].
    intros Hy. apply Hc1. rewrite front_ptrs_app in Hy |- *.
    apply elem_of_app in Hy as [Hy|Hy]; apply elem_of_app; [left; by apply HPsub|right].
    by rewrite Hret.
  - intros y [Hy| ->%list_elem_of_singleton]%elem_of_app; [by apply Hsub, Hin|].
    rewrite Hb2. apply elem_of_app. right. left.
  - by rewrite Hr2.
  - apply list_elem_of_split in HxP as (P1 & P2 & HP12).
    rewrite HP12 in HP, Hbody |- *.
    apply NoDup_app in HP as (HP1 & HxP1 & [HxP2 HP2]%NoDup_cons).
    rewrite flat_map_app in Hbody |- *. simpl in Hbody |- *.
    rewrite Hnone in Hbody. rewrite (callFor_snoc _ _ _ _ _ Hlen), Hnone.
    rewrite bool_decide_eq_true_2 by done.
    set (g := λ x0, match callFor metadatas calls x0 with
                    | Some c0 => [c0; x0] | None => [x0] end) in *.
    assert (Hg : ∀ (l : list OpPtr), x ∉ l →
              flat_map (λ x0, match callFor (metadatas ++ [md]) (calls ++ [c]) x0 with
                              | Some c0 => [c0; x0] | None => [x0] end) l
              = flat_map g l).
    { intros l Hl. apply flat_map_ext_elem. intros y Hy.
      rewrite (callFor_snoc _ _ _ _ _ Hlen). unfold g.
      destruct (callFor metadatas calls y); [done|].
      rewrite bool_decide_eq_false_2; [done|]. rewrite Hx. intros [= ->]. done. }
    assert (HxP1' : x ∉ P1) by (intros ?; eapply HxP1; [done|left]).
    rewrite (Hg P1), (Hg P2) by done.
    assert (HxG : x ∉ flat_map g P1).
    { intros (y & Hy & Hxy)%list_elem_of_In%in_flat_map.
      apply list_elem_of_In in Hy. unfold g in Hxy.
      destruct (callFor metadatas calls y) as [c'|] eqn:Hcf.
      - destruct Hxy as [<-|[<-|[]]]; [|done].
        apply callFor_Some in Hcf as [? _]. done.
      - destruct Hxy as [<-|[]]. done. }
    assert (Hi : i = length (flat_map g P1)).
    { destruct (Nat.lt_trichotomy i (length (flat_map g P1))) as [Hlt|[?|Hgt]]; [|done|].
      - exfalso. apply HxG.
        assert ((opSelf <$> body f1) !! i = Some x) as Hix
          by (rewrite list_lookup_fmap, Hop; simpl; by rewrite Hself).
        rewrite Hbody, lookup_app_l in Hix by done. by eapply list_elem_of_lookup_2.
      - exfalso.
        assert ((opSelf <$> body f1) !! length (flat_map g P1) = Some x) as Hix
          by (rewrite Hbody; apply list_lookup_middle; done).
        rewrite list_lookup_fmap in Hix.
        destruct (body f1 !! length (flat_map g P1)) as [y|] eqn:Hy; [|done].
        simpl in Hix. injection Hix as Hix. by apply (Hfirst _ _ Hy Hgt). }
    rewrite Hb2, Hbody, Hi, take_app_length, drop_app_length. done.
Qed.

Lemma filter_flat_map_omap {A} (p : A → bool) (g : A → list A) (h : A → option A)
    (l : list A) :
  (∀ y, y ∈ l → List.filter p (g y) = option_list (h y)) →
  List.filter p (flat_map g l) = omap h l.
Proof.
  induction l as [|y l IH]; intros H; simpl; [done|].
  rewrite List.filter_app, H by left. rewrite IH by (intros; apply H; by right).
  by destruct (h y).
Qed.

Lemma fmap_filter_ptrs (p : OpPtr → bool) (l : list Operation) :
  opSelf <$> List.filter (λ op, p (opSelf op)) l = List.filter p (opSelf <$> l).
Proof.
  induction l as [|op l IH]; [done|].
  rewrite fmap_cons. cbn [List.filter].
  destruct (p (opSelf op)); [rewrite fmap_cons; f_equal|]; exact IH.
Qed.

Lemma createCalls_outlined metadatas f dupOutputs f' :
  NoDup (opSelf <$> body f) →
  (∀ md o, md ∈ metadatas → o ∈ ops md → o ∈ opSelf <$> body f) →
  NoDup (omap (λ md, last (ops md)) metadatas) →
  createCalls metadatas f dupOutputs = Some f' →
  ∃ calls,
    length calls = length metadatas ∧ NoDup calls ∧
    (∀ c, c ∈ calls → c ∉ opSelf <$> front f) ∧
    opSelf <$> body (eraseOps metadatas f')
    = outlined metadatas calls (opSelf <$> body f).
Proof.
  intros HP Hops Hlast H. unfold createCalls in H.
  apply fmap_Some in H as ([f2 mapping] & Hfold & ->). simpl.
  destruct (createCalls_fold _ _ _ _ _ HP Hops Hlast Hfold)
    as (calls & Hlen & Hnd & Hfresh & _ & _ & Hbody).
  exists calls. split_and!; [done..|].
  unfold eraseOps, setBody. cbn [body].
  pose (p := λ x : OpPtr, negb (bool_decide (x ∈ flat_map ops metadatas))).
  etrans; [apply (fmap_filter_ptrs p)|]. unfold p.
  rewrite Hbody. unfold outlined. apply filter_flat_map_omap.
  intros y Hy. destruct (callFor metadatas calls y) as [c|] eqn:Hcf; simpl.
  - apply callFor_Some in Hcf as [Hc (md & Hmd & Hl)].
    rewrite bool_decide_eq_false_2.
    2:{ intros (md' & Hmd' & Hc')%list_elem_of_In%in_flat_map.
        apply (Hfresh c Hc). rewrite front_ptrs_app. apply elem_of_app. left.
        eapply (Hops md'); by apply list_elem_of_In. }
    simpl. rewrite bool_decide_eq_true_2; [done|].
    apply list_elem_of_In, in_flat_map. exists md. split; [by apply list_elem_of_In|].
    apply list_elem_of_In. apply last_Some in Hl as [l' ->]. apply elem_of_app. right. left.
  - by case_bool_decide.
Qed.

End Calls.

(** ** The loop over the functions *)

Section Loop.
Context {helpers : Helpers}.

Lemma processFunction_diags clusterAlgo f attrName device deviceAnchorName dupOutputs
    enableMultiGraph validateSubGraphFn res f' diags :
  processFunction clusterAlgo f attrName device deviceAnchorName dupOutputs
    enableMultiGraph validateSubGraphFn = Some (res, f', diags) →
  match res with
  | success => diags = []
  | failure =>
      diags = [(symName f, "[ByteIR Transform]: GraphClusteringByDevice error."%string)]
  end.
Proof.
  unfold processFunction. intros H.
  destruct (clusterFunction _ _ _ _ _ _ _ _) as [[f1 [mds|]]|]; simplify_eq/=; [|done].
  destruct (createCalls mds f1 dupOutputs); simplify_eq/=. done.
Qed.

(** X15.  The loop over the original functions stops at the first of them
    for which the strategy gives no entries.  Of the original functions,
    those before it are rewritten (each is the result of a successful
    [processFunction]), the failing one is left as the strategy left it,
    those after it are not touched, and the only diagnostic is the one
    attached to the failing function.  When none fails every original
    function is rewritten and there is no diagnostic.  This is about the
    original functions only: the functions that [createFunctions] adds to
    the module for the entries of the rewritten ones are not in [funcs']. *)
Theorem clusterFunctions_stops_at_failure funcs attrName device deviceAnchorName
    dupOutputs clusterAlgo enableMultiGraph validateSubGraphFn res funcs' diags :
  clusterFunctions funcs attrName device deviceAnchorName dupOutputs clusterAlgo
    enableMultiGraph validateSubGraphFn = Some (res, funcs', diags) →
  ∃ n,
    n ≤ length funcs ∧
    (∀ j f, j < n → funcs !! j = Some f →
       ∃ f', processFunction clusterAlgo f attrName device deviceAnchorName dupOutputs
               enableMultiGraph validateSubGraphFn = Some (success, f', []) ∧
             funcs' !! j = Some f') ∧
    match res with
    | success => n = length funcs ∧ diags = []
    | failure =>
        ∃ f f',
          funcs !! n = Some f ∧
          processFunction clusterAlgo f attrName device deviceAnchorName dupOutputs
            enableMultiGraph validateSubGraphFn
          = Some (failure, f',
                  [(symName f, "[ByteIR Transform]: GraphClusteringByDevice error."%string)]) ∧
          funcs' !! n = Some f' ∧
          drop (S n) funcs' = drop (S n) funcs ∧
          diags = [(symName f, "[ByteIR Transform]: GraphClusteringByDevice error."%string)]
    end.
Proof.
  revert res funcs' diags.
  induction funcs as [|f rest IH]; intros res funcs' diags H; cbn [clusterFunctions] in H.
  { simplify_eq. exists 0. split_and!; try done. }
  destruct (processFunction _ f _ _ _ _ _ _) as [[[r f1] d]|] eqn:Hp; [|done].
  pose proof (processFunction_diags _ _ _ _ _ _ _ _ _ _ _ Hp) as Hd.
  simpl in H. destruct r.
  - destruct (clusterFunctions rest _ _ _ _ _ _ _) as [[[r' rest'] d']|] eqn:Hr; [|done].
    simpl in H. injection H as <- <- <-. subst d.
    destruct (IH _ _ _ eq_refl) as (n & Hn & Hbefore & Hres).
    exists (S n). split_and!; [simpl; lia| |].
    + intros [|j] g Hj Hg; simplify_eq/=; [eauto|]. apply Hbefore; [lia|done].
    + destruct r'; simpl; [destruct Hres as [-> ->]; done|].
      destruct Hres as (g & g' & ? & ? & ? & ? & ->). exists g, g'. done.
  - injection H as <- <- <-. subst d.
    exists 0. split_and!; [simpl; lia|intros; lia|].
    exists f, f1. split_and!; done.
Qed.

End Loop.

(** ** Further properties of the code *)

(** X1.  [isHostOp] looks through every level of nesting: an operation is a
    host operation exactly when the operation itself, or an operation
    nested in one of its regions at any depth, carries the attribute
    [attrName] with the value "host". *)
Theorem isHostOp_nested attrName op :
  isHostOp attrName op = true ↔
  ∃ o, o ∈ subOps op ∧ getAttr o attrName = Some DEVICE_ATTR_HOST.
Proof.
  rewrite isHostOp_subOps. split.
  - intros (o & Ho & Hattr)%existsb_exists. exists o. split; [by apply list_elem_of_In|].
    unfold hasHostAttr in Hattr. destruct (getAttr o attrName) as [s|]; [|done].
    by apply bool_decide_eq_true in Hattr as ->.
  - intros (o & Ho & Hattr). apply existsb_exists. exists o.
    split; [by apply list_elem_of_In|]. unfold hasHostAttr. rewrite Hattr.
    by apply bool_decide_eq_true.
Qed.

(** X2.  [anyUseIn] and [anyDefIn] are the two directions of one relation.
    [anyUseIn] answers true for the operation [p] and the list [ops] exactly
    when the function holds an operation, in the block or nested in a
    region, that is in [ops] and for which [anyDefIn] finds an operand
    defined by [p], in the operation itself or in its regions. *)
Theorem anyUseIn_anyDefIn f p ops :
  anyUseIn f p ops = true ↔
  ∃ top o, top ∈ front f ∧ o ∈ subOps top ∧ opSelf o ∈ ops ∧ anyDefIn o [p] = true.
Proof.
  rewrite anyUseIn_usedDefs. split.
  - intros (top & o & ? & ? & ? & Hp). exists top, o. split_and!; [done..|].
    apply anyDefIn_usedDefs. exists p. split; [done|left].
  - intros (top & o & ? & ? & ? & Hp). exists top, o. split_and!; [done..|].
    apply anyDefIn_usedDefs in Hp as (d & Hd & ->%list_elem_of_singleton). done.
Qed.

(** X3.  [computeMoveUpSet] keeps the order of the block.  On a well-formed
    forest, for a list [src] of distinct operations of the block in which
    every cluster that has an operation lies as one contiguous run, the
    function returns (no assertion fails), and both the move-up set and the
    operations that remain are listed in the order they have in [src].  No
    operation of the move-up set has an operand defined in [target], and
    none has an operand defined by a remaining operation that precedes it
    in [src]. *)
Theorem computeMoveUpSet_keeps_order f target src m :
  forest m → NoDup src →
  (∀ x, x ∈ src → is_Some (deref f x)) →
  (∀ p d r c, p ∈ src → resolves m d p r → m !! r = Some c → run (operations c) src) →
  ∃ remain move m',
    computeMoveUpSet f target src [] m = Some (remain, move, m') ∧
    move `sublist_of` src ∧ remain `sublist_of` src ∧
    ∀ x op, x ∈ move → deref f x = Some op →
      anyDefIn op target = false ∧
      ∀ y, y ∈ remain → before src y x → y ∉ usedDefs op.
Proof.
  intros Hf Hnd Hderef Hrun.
  destruct (computeMoveUpSet_ord f target src m Hf Hnd Hderef Hrun)
    as (remain & move & m' & E & _ & Hmove & Hremain & Hdep).
  exists remain, move, m'. split_and!; done.
Qed.

(** X4.  [computeMoveDownSet] keeps the order of the block, mirrored.  Under
    the same conditions the function returns; the operations that remain
    are listed in the order of [src] and the move-down set in the reverse
    order, the order in which [moveAfter] then places them.  No operation of
    the move-down set has a use in [target], nor in a remaining operation
    that follows it in [src]. *)
Theorem computeMoveDownSet_keeps_order f target src m :
  forest m → NoDup src →
  (∀ p d r c, p ∈ src → resolves m d p r → m !! r = Some c → run (operations c) src) →
  ∃ remain move m',
    computeMoveDownSet f target src [] m = Some (remain, move, m') ∧
    reverse move `sublist_of` src ∧ remain `sublist_of` src ∧
    ∀ x, x ∈ move →
      anyUseIn f x target = false ∧
      ∀ y, y ∈ remain → before src x y → anyUseIn f x [y] = false.
Proof.
  intros Hf Hnd Hrun.
  destruct (computeMoveDownSet_ord f target src m Hf Hnd Hrun)
    as (remain & move & m' & E & _ & Hmove & Hremain & Hdep).
  exists remain, move, m'. split_and!; done.
Qed.

(** X16.  The calls take the places of the entries.  For a block of distinct
    operations and entries whose operations are in the block and whose last
    operations differ, [createCalls] followed by the erasure of the
    entries' operations leaves the block of [outlined]: one new call per
    entry, with an address that no operation of the function had, stands
    where the last operation of its entry stood; the other operations of the
    entries are gone, and every other operation is where it was relative to
    the rest. *)
Theorem calls_replace_entries `{helpers : Helpers} metadatas f dupOutputs f' :
  NoDup (opSelf <$> body f) →
  (∀ md o, md ∈ metadatas → o ∈ ops md → o ∈ opSelf <$> body f) →
  NoDup (omap (λ md, last (ops md)) metadatas) →
  createCalls metadatas f dupOutputs = Some f' →
  ∃ calls,
    length calls = length metadatas ∧ NoDup calls ∧
    (∀ c, c ∈ calls → c ∉ opSelf <$> front f) ∧
    opSelf <$> body (eraseOps metadatas f')
    = outlined metadatas calls (opSelf <$> body f).
Proof. apply createCalls_outlined. Qed.

Section Run.
Context {helpers : Helpers}.

(** X5.  No assertion of a merge fails.  In every state that a run on a
    function with distinct operations reaches, [tryMerge] of two pointers
    that are null or address a cluster record returns: the assertions of
    [computeMoveUpSet] and [computeMoveDownSet], the dereferences of the
    first and last operation of a cluster and the two position tests all
    succeed. *)
Theorem tryMerge_returns f attrName st lhs rhs :
  distinctOps f → reachable f attrName st →
  validPtr (op2cluster st) lhs → validPtr (op2cluster st) rhs →
  ∃ res st', tryMerge lhs rhs st = Some (res, st').
Proof.
  intros Hd Hr Hl Hrhs.
  pose proof (so_inv _ _ (reachable_step f attrName st Hd Hr)) as Hinv.
  destruct (tryMerge_step lhs rhs st Hinv Hl Hrhs) as (res & st' & E & _).
  eauto.
Qed.

(** X6.  Every strategy returns on a function with distinct operations:
    the top-down and bottom-up merges, [populateCandidates] (whose loop
    ends within the length of its work list), [getFunctionMetadatas], the
    three runs of the greedy strategy and the fallback all come to a
    result. *)
Theorem clusterFunction_returns clusterAlgo f attrName device deviceAnchorName
    dupOutputs enableMultiGraph validateSubGraphFn :
  distinctOps f →
  ∃ f' metadatas,
    clusterFunction clusterAlgo f attrName device deviceAnchorName dupOutputs
      enableMultiGraph validateSubGraphFn = Some (f', metadatas).
Proof.
  intros Hd.
  destruct (clusterFunction_cases clusterAlgo f attrName device deviceAnchorName
              dupOutputs enableMultiGraph validateSubGraphFn Hd) as (f' & mds & E & _).
  eauto.
Qed.

(** X7.  Clustering only reorders the block.  Whatever strategy runs on a
    function with distinct operations, the operations of the block it
    leaves are the operations it was given, each exactly once and
    unchanged, in some order; the terminator and the name of the function
    are the same. *)
Theorem clustering_permutes_block clusterAlgo f attrName device deviceAnchorName
    dupOutputs enableMultiGraph validateSubGraphFn f' metadatas :
  distinctOps f →
  clusterFunction clusterAlgo f attrName device deviceAnchorName dupOutputs
    enableMultiGraph validateSubGraphFn = Some (f', metadatas) →
  body f' ≡ₚ body f ∧ retOp f' = retOp f ∧ symName f' = symName f.
Proof.
  intros Hd H.
  destruct (clusterFunction_cases clusterAlgo f attrName device deviceAnchorName
              dupOutputs enableMultiGraph validateSubGraphFn Hd)
    as (f1 & mds & E & [[-> _]|(algo & cands & st & _ & _ & _ & Hstep & -> & _)]);
    rewrite E in H; injection H as <- <-; [done|].
  destruct (stepOK_initial _ _ _ Hstep) as (? & ? & ? & _). done.
Qed.




Lemma merging_candidates algo f attrName cands st :
  (∀ l, denseMapOrder l ≡ₚ l) → merging algo → distinctOps f →
  algo f attrName = Some (cands, st) →
  NoDup cands ∧ (∀ k, k ∈ cands ↔ isRoot (op2cluster st) k).
Proof.
  intros Horder [-> | ->] Hd H.
  - unfold TopDownDeviceClustering, TopDown_mergeDeviceClustersProgressively in H.
    destruct (foldl_visit_total (λ op, getDefiningOp <$> opOperands op)
                (body (ir (initialState f attrName))) (initialState f attrName))
      as (st1 & E & Hstep); [by apply initial_blockInv|].
    rewrite E in H. simpl in H.
    destruct (populateCandidates_roots st1 cands st Horder (so_inv _ _ Hstep) H)
      as (? & ? & _). done.
  - unfold BottomUpDeviceClustering, BottomUp_mergeDeviceClustersProgressively in H.
    cbv zeta in H.
    destruct (foldl_visit_total
                (λ op, (λ use, Some (opSelf (useOwner use)))
                         <$> getUses (ir (initialState f attrName)) (opSelf op))
                (reverse (body (ir (initialState f attrName)))) (initialState f attrName))
      as (st1 & E & Hstep); [by apply initial_blockInv|].
    rewrite E in H. simpl in H.
    destruct (populateCandidates_roots st1 cands st Horder (so_inv _ _ Hstep) H)
      as (? & ? & _). done.
Qed.

(** X11.  The entries of the merging strategies do not overlap.  When the
    iteration over the cluster map visits every record once, no operation
    occurs twice in the operation lists of the entries that the top-down,
    bottom-up or greedy strategy emits for a function with distinct
    operations, neither inside one entry nor in two of them. *)
Theorem entries_are_disjoint clusterAlgo f attrName device deviceAnchorName
    dupOutputs enableMultiGraph validateSubGraphFn f' metadatas :
  (∀ l, denseMapOrder l ≡ₚ l) →
  distinctOps f → clusterAlgo ≠ kFallback →
  clusterFunction clusterAlgo f attrName device deviceAnchorName dupOutputs
    enableMultiGraph validateSubGraphFn = Some (f', Some metadatas) →
  NoDup (flat_map ops metadatas).
Proof.
  intros Horder Hd Hne H.
  destruct (clusterFunction_cases clusterAlgo f attrName device deviceAnchorName
              dupOutputs enableMultiGraph validateSubGraphFn Hd)
    as (f1 & mds & E & [[_ [?|?]]|(algo & cands & st & Ha & _ & Hrun & Hstep & -> & Hg)]);
    rewrite E in H; injection H as <- ->; [done..|].
  destruct (merging_candidates algo f attrName cands st Horder Ha Hd Hrun) as [Hnd _].
  eapply getFunctionMetadatas_NoDup; [exact (so_inv _ _ Hstep)|exact Hnd|exact Hg].
Qed.

(** X12.  What a successful merge does to the cluster records.  In a state
    that a run on a function with distinct operations reaches, when
    [tryMerge] returns a cluster, its arguments were two distinct roots and
    the cluster returned is one of them; its operation list is now the list
    of the cluster that stood earlier in the block followed by the list of
    the one that stood later; the other argument has an empty list and is
    linked to it; and every other cluster is a root exactly when it was and
    has the operation list it had. *)
Theorem merge_splices_lists f attrName st lhs rhs c st' :
  distinctOps f → reachable f attrName st →
  tryMerge lhs rhs st = Some (Some c, st') →
  ∃ l r, lhs = Some l ∧ rhs = Some r ∧ mergedOK st st' l r c.
Proof.
  intros Hd Hr H.
  pose proof (so_inv _ _ (reachable_step f attrName st Hd Hr)) as Hinv.
  destruct (tryMerge_step lhs rhs st Hinv) as (res & st1 & E & _ & _ & Hres).
  - destruct lhs as [l|]; [|done]. simpl.
    unfold tryMerge in H. destruct rhs as [r|]; [|done].
    destruct (decide (l = r)); [done|].
    destruct (op2cluster st !! l); [eauto|done].
  - destruct rhs as [r|]; [|done]. simpl.
    unfold tryMerge in H. destruct lhs as [l|]; [|done].
    destruct (decide (l = r)); [done|].
    destruct (op2cluster st !! l) as [cl|]; [|done]. simpl in H.
    destruct (mergedInto cl); [done|].
    destruct (op2cluster st !! r); [eauto|done].
  - rewrite E in H. injection H as -> ->. by apply Hres.
Qed.


(** X14.  Two roots are always ordered.  In a state that a run on a
    function with distinct operations reaches, for two distinct root
    clusters [isBeforeInBlock] returns in both directions with opposite
    answers, and the cluster it puts first has every one of its operations
    before every operation of the other one: the clusters do not
    interleave. *)
Theorem roots_are_ordered f attrName st l r cl cr :
  distinctOps f → reachable f attrName st → l ≠ r →
  op2cluster st !! l = Some cl → mergedInto cl = None →
  op2cluster st !! r = Some cr → mergedInto cr = None →
  ∃ b : bool,
    isBeforeInBlock (ir st) cl cr = Some b ∧
    isBeforeInBlock (ir st) cr cl = Some (negb b) ∧
    ∀ x y, x ∈ operations cl → y ∈ operations cr →
      if b then before (opSelf <$> body (ir st)) x y
      else before (opSelf <$> body (ir st)) y x.
Proof.
  intros Hd Hr Hne Hcl Hrl Hcr Hrr.
  pose proof (so_inv _ _ (reachable_step f attrName st Hd Hr)) as Hinv.
  by apply (roots_isBeforeInBlock st l r).
Qed.

(** X17.  The candidates are the roots.  When the iteration over the
    cluster map visits every record once, [populateCandidates], in a state
    that a run on a function with distinct operations reaches, returns
    every root cluster of the state it leaves, each once, and nothing
    else, ordered by the number of operations, larger clusters first. *)
Theorem candidates_are_roots f attrName st cands st' :
  (∀ l, denseMapOrder l ≡ₚ l) →
  distinctOps f → reachable f attrName st →
  populateCandidates st = Some (cands, st') →
  NoDup cands ∧ (∀ k, k ∈ cands ↔ isRoot (op2cluster st') k) ∧
  (∀ i j ci cj, i < j → cands !! i = Some ci → cands !! j = Some cj →
     numOps (op2cluster st') cj ≤ numOps (op2cluster st') ci).
Proof.
  intros Horder Hd Hr H.
  pose proof (so_inv _ _ (reachable_step f attrName st Hd Hr)) as Hinv.
  by apply (populateCandidates_roots st).
Qed.

Lemma runClustering_None algo f attrName deviceAttr deviceAnchorName dupOutputs
    enableMultiGraph validateSubGraphFn :
  (∀ l, denseMapOrder l ≡ₚ l) → merging algo → distinctOps f →
  ∃ f' mds,
    runClustering algo f attrName deviceAttr deviceAnchorName dupOutputs
      enableMultiGraph validateSubGraphFn = Some (f', mds) ∧
    (mds = None ↔ ∀ o, ¬ clustered f attrName o).
Proof.
  intros Horder Ha Hd.
  destruct (runClustering_total algo f attrName deviceAttr deviceAnchorName dupOutputs
              enableMultiGraph validateSubGraphFn Ha Hd)
    as (cands & st & mds & Hrun & Hstep & Hg & E).
  exists (ir st), mds. split; [done|].
  destruct (merging_candidates algo f attrName cands st Horder Ha Hd Hrun) as [_ Hroots].
  pose proof (so_inv _ _ Hstep) as Hinv. pose proof (so_keys _ _ Hstep) as Hkeys.
  simpl in Hkeys.
  assert (Hnone : (∀ o, ¬ clustered f attrName o) ↔ cands = []).
  { split.
    - intros Hno. destruct cands as [|p cands]; [done|].
      destruct (proj1 (Hroots p)) as (c & Hc & _); [left|].
      destruct (Hno p). apply initialClusters_dom. rewrite <-Hkeys. apply elem_of_dom. eauto.
    - intros -> o Ho%initialClusters_dom. rewrite <-Hkeys in Ho.
      destruct (forest_depth _ (bi_forest _ Hinv)) as (l & _ & _ & Hres).
      destruct (Hres o Ho) as (d & r & Hr & _).
      apply resolves_isRoot, Hroots in Hr. by apply elem_of_nil in Hr. }
  rewrite Hnone. unfold getFunctionMetadatas in Hg.
  destruct cands as [|p cands].
  - simpl in Hg. by injection Hg as <-.
  - destruct (proj1 (Hroots p)) as (c & Hc & Hroot); [left|].
    destruct (bi_run _ Hinv p c Hc Hroot) as [Hne _].
    destruct (mapM _ (p :: cands)) as [clusters|] eqn:Hm; [|done]. simpl in Hg.
    apply mapM_Some in Hm. inversion Hm as [|? first ? rest Hfirst _]; subst.
    rewrite Hc in Hfirst. simpl in Hfirst. injection Hfirst as <-.
    rewrite bool_decide_eq_false_2 in Hg by done. injection Hg as <-. done.
Qed.

Lemma cloneOrder_Permutation n l :
  (∀ l, denseMapOrder l ≡ₚ l) → cloneOrder n l ≡ₚ l.
Proof.
  intros Horder. unfold cloneOrder. rewrite Horder, <-list_fmap_compose.
  assert (E : ((λ p, p - n) ∘ (λ p, p + n)) <$> l = l); [|by rewrite E].
  rewrite <-(list_fmap_id l) at 2. apply list_fmap_ext. intros ? p _. simpl. lia.
Qed.

End Run.

Section Run.
Context {helpers : Helpers}.

(** X18.  The merging strategies give no entries only when there is nothing
    to cluster.  When the iteration over the cluster map visits every
    record once, the top-down, bottom-up and greedy strategies on a
    function with distinct operations return without entries, which makes
    the driver report the error, exactly when the constructor gives no
    operation a cluster: the first candidate is never an empty cluster. *)
Theorem no_entries_iff_nothing_clustered clusterAlgo f attrName device deviceAnchorName
    dupOutputs enableMultiGraph validateSubGraphFn f' metadatas :
  (∀ l, denseMapOrder l ≡ₚ l) →
  distinctOps f → clusterAlgo ≠ kFallback →
  clusterFunction clusterAlgo f attrName device deviceAnchorName dupOutputs
    enableMultiGraph validateSubGraphFn = Some (f', metadatas) →
  metadatas = None ↔ ∀ o, ¬ clustered f attrName o.
Proof.
  intros Horder Hd Hne H.
  destruct (runClustering_None TopDownDeviceClustering f attrName device deviceAnchorName
              dupOutputs enableMultiGraph validateSubGraphFn Horder (or_introl eq_refl) Hd)
    as (fT & mT & HT & HTn).
  destruct (runClustering_None BottomUpDeviceClustering f attrName device deviceAnchorName
              dupOutputs enableMultiGraph validateSubGraphFn Horder (or_intror eq_refl) Hd)
    as (fB & mB & HB & HBn).
  destruct clusterAlgo; simpl in H; [| | |done].
  - rewrite HT in H. by injection H as <- <-.
  - rewrite HB in H. by injection H as <- <-.
  - destruct (@runClustering_None (onClone (cloneShift 1 f))
                (@TopDownDeviceClustering (onClone (cloneShift 1 f))) f attrName device
                deviceAnchorName dupOutputs enableMultiGraph validateSubGraphFn
                (λ l, cloneOrder_Permutation _ l Horder) (or_introl eq_refl) Hd)
      as (cT & cloneT & HcT & HcTn).
    destruct (@runClustering_None (onClone (cloneShift 2 f))
                (@BottomUpDeviceClustering (onClone (cloneShift 2 f))) f attrName device
                deviceAnchorName dupOutputs enableMultiGraph validateSubGraphFn
                (λ l, cloneOrder_Permutation _ l Horder) (or_intror eq_refl) Hd)
      as (cB & cloneB & HcB & HcBn).
    unfold greedy in H. cbv zeta in H. rewrite HcT, HcB in H. simpl in H.
    destruct cloneT as [t|], cloneB as [b|].
    + case_bool_decide; rewrite ?HT, ?HB in H; injection H as <- <-; done.
    + rewrite HT in H. injection H as <- <-. done.
    + rewrite HB in H. injection H as <- <-. done.
    + injection H as <- <-. split; [intros _|done]. by apply HcTn.
Qed.

Lemma last_elem (l : list OpPtr) x : last l = Some x → x ∈ l.
Proof. intros [l' ->]%last_Some. apply elem_of_app. right. left. Qed.

Lemma NoDup_lasts (metadatas : list FunctionMetadata) :
  NoDup (flat_map ops metadatas) →
  (∀ md, md ∈ metadatas → ops md ≠ []) →
  NoDup (omap (λ md, last (ops md)) metadatas).
Proof.
  induction metadatas as [|md rest IH]; intros Hnd Hne; [constructor|].
  simpl in Hnd. apply NoDup_app in Hnd as (_ & Hdis & Hrest).
  cbn [omap list_omap].
  destruct (last (ops md)) as [x|] eqn:Hx.
  2:{ apply last_None in Hx. destruct (Hne md); [left|done]. }
  apply NoDup_cons. split.
  - intros (md' & Hmd' & Hl)%list_elem_of_omap.
    apply (Hdis x); [by apply last_elem|].
    apply list_elem_of_In, in_flat_map. exists md'.
    split; apply list_elem_of_In; [done|by apply last_elem].
  - apply IH; [done|]. intros md' Hmd'. apply Hne. by right.
Qed.

(** X19.  From a function to its outlined form.  When the iteration over
    the cluster map visits every record once and [processFunction]
    succeeds with the top-down, bottom-up or greedy strategy on a function
    with distinct operations, the strategy had reordered the block of the
    function and emitted entries, and the block of the result is the
    reordered block in which one new call per entry stands in the place of
    the entry's last operation, the other operations of the entries are
    gone and the rest is unchanged. *)
Theorem processFunction_outlines clusterAlgo f attrName device deviceAnchorName
    dupOutputs enableMultiGraph validateSubGraphFn f2 diags :
  (∀ l, denseMapOrder l ≡ₚ l) →
  distinctOps f → clusterAlgo ≠ kFallback →
  processFunction clusterAlgo f attrName device deviceAnchorName dupOutputs
    enableMultiGraph validateSubGraphFn = Some (success, f2, diags) →
  ∃ f1 metadatas calls,
    clusterFunction clusterAlgo f attrName device deviceAnchorName dupOutputs
      enableMultiGraph validateSubGraphFn = Some (f1, Some metadatas) ∧
    body f1 ≡ₚ body f ∧
    length calls = length metadatas ∧ NoDup calls ∧
    (∀ c, c ∈ calls → c ∉ opSelf <$> front f) ∧
    opSelf <$> body f2 = outlined metadatas calls (opSelf <$> body f1).
Proof.
  intros Horder Hd Hne H. unfold processFunction in H.
  destruct (clusterFunction _ _ _ _ _ _ _ _) as [[f1 [mds|]]|] eqn:Hc; [|done..].
  simpl in H.
  destruct (createCalls mds f1 dupOutputs) as [f3|] eqn:Hcalls; [|done].
  simpl in H. injection H as <- <-.
  destruct (clusterFunction_cases clusterAlgo f attrName device deviceAnchorName
              dupOutputs enableMultiGraph validateSubGraphFn Hd)
    as (f1' & mds' & E & [[_ [?|?]]|(algo & cands & st & Ha & _ & Hrun & Hstep & -> & Hg)]);
    rewrite E in Hc; injection Hc as <- ->; [done..|].
  destruct (stepOK_initial _ _ _ Hstep) as (Hperm & Hret & _ & Hd1 & _).
  destruct (merging_candidates algo f attrName cands st Horder Ha Hd Hrun) as [Hnd _].
  pose proof (getFunctionMetadatas_NoDup _ _ _ _ _ _ _ _ (so_inv _ _ Hstep) Hnd Hg) as Hndo.
  assert (Hruns : ∀ md, md ∈ mds → ops md ≠ [] ∧ run (ops md) (opSelf <$> body (ir st))).
  { intros md Hmd. by eapply getFunctionMetadatas_runs; [exact (so_inv _ _ Hstep)|..]. }
  destruct (createCalls_outlined mds (ir st) dupOutputs f3) as (calls & Hlen & Hndc & Hfresh & Hb);
    [by apply distinctOps_body| | |done|].
  { intros md o Hmd Ho. destruct (Hruns md Hmd) as [_ Hr]. by eapply run_elem. }
  { apply NoDup_lasts; [done|]. intros md Hmd. by destruct (Hruns md Hmd). }
  exists (ir st), mds, calls. split_and!; [done..| |done].
  intros c Hcin Hcf. apply (Hfresh c Hcin).
  unfold front in *. rewrite fmap_app in Hcf |- *. rewrite Hret.
  apply elem_of_app in Hcf as [Hcf|Hcf]; apply elem_of_app; [left|by right].
  by rewrite Hperm.
Qed.

End Run.

(** ** The tally of the terminator *)

Lemma tally_bump operand v (stats : list (Value * Z)) :
  tally (List.map (λ kv, if bool_decide (kv.1 = operand)
                         then (kv.1, (kv.2 + 1)%Z) else kv) stats) v
  = (λ n, if decide (operand = v) then (n + 1)%Z else n) <$> tally stats v.
Proof.
  unfold tally. induction stats as [|[k n] stats IH]; simpl; [done|].
  destruct (bool_decide (k = operand)) eqn:Hk; simpl.
  - apply bool_decide_eq_true in Hk as ->.
    destruct (bool_decide (operand = v)) eqn:Hv; simpl; [|exact IH].
    apply bool_decide_eq_true in Hv. by rewrite decide_True.
  - apply bool_decide_eq_false in Hk.
    destruct (bool_decide (k = v)) eqn:Hv; simpl; [|exact IH].
    apply bool_decide_eq_true in Hv as ->. by rewrite decide_False.
Qed.

Lemma tally_new operand v (stats : list (Value * Z)) :
  tally (stats ++ [(operand, 1%Z)]) v
  = match tally stats v with
    | Some n => Some n
    | None => if decide (operand = v) then Some 1%Z else None
    end.
Proof.
  unfold tally. induction stats as [|[k n] stats IH]; simpl.
  - case_bool_decide; case_decide; simplify_eq/=; done.
  - destruct (bool_decide (k = v)); [done|exact IH].
Qed.

Lemma tally_existsb operand (stats : list (Value * Z)) :
  existsb (λ kv, bool_decide (kv.1 = operand)) stats = bool_decide (is_Some (tally stats operand)).
Proof.
  unfold tally. induction stats as [|[k n] stats IH]; simpl.
  - done.
  - destruct (bool_decide (k = operand)); simpl; [done|exact IH].
Qed.

Lemma tally_fold (l : list Value) (stats : list (Value * Z)) v :
  tally (foldl (λ stats operand,
                  if existsb (λ kv, bool_decide (kv.1 = operand)) stats
                  then List.map (λ kv, if bool_decide (kv.1 = operand)
                                       then (kv.1, (kv.2 + 1)%Z) else kv) stats
                  else stats ++ [(operand, 1%Z)]) stats l) v
  = match tally stats v with
    | Some n => Some (n + Z.of_nat (occurrences v l))%Z
    | None => if decide (v ∈ l) then Some (Z.of_nat (occurrences v l)) else None
    end.
Proof.
  revert stats. induction l as [|x l IH]; intros stats; cbn [foldl].
  { destruct (tally stats v); [f_equal; unfold occurrences; simpl; lia|].
    destruct (decide (v ∈ [])) as [H|]; [by apply elem_of_nil in H|done]. }
  rewrite IH, occurrences_cons, tally_existsb. clear IH.
  destruct (decide (is_Some (tally stats x))) as [Hx|Hx].
  - rewrite bool_decide_eq_true_2 by done. rewrite tally_bump.
    destruct (tally stats v) as [n|] eqn:Hv; simpl.
    + f_equal. case_decide; try lia.
    + assert (x ≠ v) by (intros ->; rewrite Hv in Hx; by destruct Hx).
      rewrite (decide_False (P := x = v)) by done.
      destruct (decide (v ∈ l)) as [Hin|Hin].
      * rewrite decide_True by by right. done.
      * rewrite decide_False; [done|]. intros [?|?]%elem_of_cons; done.
  - rewrite bool_decide_eq_false_2 by done. rewrite tally_new.
    destruct (tally stats v) as [n|] eqn:Hv.
    + assert (x ≠ v) by (intros ->; rewrite Hv in Hx; eauto).
      rewrite (decide_False (P := x = v)) by done. f_equal; try lia.
    + destruct (decide (x = v)) as [->|Hne].
      * rewrite decide_True by left. f_equal; try lia.
      * destruct (decide (v ∈ l)) as [Hin|Hin].
        -- rewrite decide_True by by right. done.
        -- rewrite decide_False; [done|]. intros [?|?]%elem_of_cons; done.
Qed.

(** X20.  The tally of the terminator counts occurrences.  [retStats] maps
    every value that the terminator returns to the number of operand
    positions at which it returns it, and has no entry for any other
    value. *)
Theorem retStats_counts ret v :
  tally (retStats ret) v
  = if decide (v ∈ opOperands ret)
    then Some (Z.of_nat (occurrences v (opOperands ret)))
    else None.
Proof. unfold retStats. by rewrite tally_fold. Qed.

Section Run.
Context {helpers : Helpers}.

Lemma emitMetadatas_multi f deviceAttr deviceAnchorName dupOutputs validateSubGraphFn
    clusters :
  emitMetadatas f deviceAttr deviceAnchorName dupOutputs true validateSubGraphFn clusters
  = mkMetadata f deviceAnchorName deviceAttr dupOutputs
    <$> List.filter (accepted validateSubGraphFn) clusters.
Proof.
  unfold accepted. induction clusters as [|cluster rest IH]; simpl; [done|].
  case_bool_decide; simpl; [done|].
  destruct (rejects validateSubGraphFn cluster); simpl; [done|].
  by rewrite IH.
Qed.

(** X21.  The entries with [enableMultiGraph].  [getFunctionMetadatas]
    returns nothing when there is no candidate or the first candidate is
    empty; otherwise it returns one entry for every candidate that is not
    empty and that [validateSubGraphFn] does not reject, in the order of
    the candidates, whatever candidates are rejected in between. *)
Theorem multi_graph_entries st candidates clusters deviceAttr deviceAnchorName
    dupOutputs validateSubGraphFn :
  mapM (λ p, operations <$> op2cluster st !! p) candidates = Some clusters →
  getFunctionMetadatas st candidates deviceAttr deviceAnchorName dupOutputs true
    validateSubGraphFn
  = Some (match clusters with
          | [] => None
          | firstCluster :: _ =>
              if bool_decide (firstCluster = []) then None
              else Some (mkMetadata (ir st) deviceAnchorName deviceAttr dupOutputs
                         <$> List.filter (accepted validateSubGraphFn) clusters)
          end).
Proof.
  intros Hm. unfold getFunctionMetadatas. rewrite Hm. simpl.
  destruct clusters as [|first rest]; [done|].
  case_bool_decide; [done|]. by rewrite emitMetadatas_multi.
Qed.

End Run.

(** ** The example functions *)

(** A host operation between two clusters that it separates: the merge
    fails both ways and the state is the one before. *)
Example blocked_merge_fails :
  tryMerge (Some 1) (Some 2) (@initialState exampleHelpers blocked "device")
  = Some (None, @initialState exampleHelpers blocked "device").
Proof. vm_compute. reflexivity. Qed.

(** The three operations of [chain] end in one cluster, in block order. *)
Example chain_topDown :
  ∃ st, @TopDownDeviceClustering exampleHelpers chain "device" = Some ([3], st) ∧
        ir st = chain ∧
        operations <$> op2cluster st !! 3 = Some [1; 2; 3].
Proof. eexists. split_and!; vm_compute; reflexivity. Qed.

(** The fallback strategy on [hostUser]: both operations are in the host
    set, and the host entry is the only one. *)
Example hostUser_fallback :
  @getFunctionMetadatasFallback exampleHelpers hostUser "device" "test" "anchor" false None
  = Some (Some [mkFunctionMetadata "__byteir_host_device__" "host" "main"
                  [BlockArgument 0] [OpResult 2 0] [1; 2]]).
Proof. vm_compute. reflexivity. Qed.

Lemma stuckMerged_reachable : @reachable exampleHelpers stuck "device" stuckMerged.
Proof.
  eapply (reachable_tryMerge _ _ stuckMerged1 (Some 3) (Some 4) (Some 4)).
  - eapply (reachable_tryMerge _ _ _ (Some 2) (Some 3) (Some 3)).
    + apply reachable_init.
    + vm_compute. reflexivity.
  - vm_compute. reflexivity.
Qed.

(** C1, counterexample.  In [hostUser] operation 1 defines the operand of the
    host operation 2, so it is in the host set; the constructor gives it a
    cluster all the same, and the top-down strategy emits it in a device
    entry. *)
Lemma host_operand_is_clustered :
  hostClosure hostUser "device" 1 ∧
  is_Some (@initialClusters exampleHelpers hostUser "device" !! 1) ∧
  ∃ f' md,
    @clusterFunction exampleHelpers kTopDown hostUser "device" "test" "anchor" false false None
    = Some (f', Some [md]) ∧ deviceAttr md = "test" ∧ 1 ∈ ops md.
Proof.
  split_and!.
  - apply (hostClosure_operand _ _ 2).
    + apply (hostClosure_seed hostUser "device" (simpleOp 2 "b" [OpResult 1 0] [("device", "host")])).
      * right. left.
      * vm_compute. reflexivity.
    + vm_compute. left.
  - vm_compute. eauto.
  - eexists _, _. split_and!; [vm_compute; reflexivity|reflexivity|]. simpl. left.
Qed.

(** C2, counterexample.  The top-down strategy on [chain] has one candidate,
    the cluster of the three operations.  With a [validateSubGraphFn] that
    rejects everything the driver succeeds, with no entry and no
    diagnostic. *)
Lemma rejected_sole_candidate_succeeds :
  (∃ st, @TopDownDeviceClustering exampleHelpers chain "device" = Some ([3], st) ∧
         operations <$> op2cluster st !! 3 = Some [1; 2; 3]) ∧
  @processFunction exampleHelpers kTopDown chain "device" "test" "anchor" false false
    (Some (λ _, false))
  = Some (success, chain, []).
Proof.
  split.
  - eexists. split; [vm_compute; reflexivity|]. vm_compute. reflexivity.
  - vm_compute. reflexivity.
Qed.

(** C2, on [stuckFailed]: the largest candidate is rejected and the next one
    is emitted. *)
Lemma rejected_candidate_is_skipped_witness :
  mapM (λ p, operations <$> op2cluster stuckFailed !! p) [4; 6; 1]
    = Some [[2; 3; 4]; [6]; [1]] ∧
  @getFunctionMetadatas exampleHelpers stuckFailed [4; 6; 1] "test" "anchor" false false
    (Some (λ l, bool_decide (length l ≤ 1)))
  = Some (Some [@mkMetadata exampleHelpers (ir stuckFailed) "anchor" "test" false [6]]).
Proof.
  split; [vm_compute; reflexivity|].
  rewrite (proj1 (@rejected_candidate_is_skipped exampleHelpers stuckFailed [4; 6; 1]
                    [[2; 3; 4]; [6]; [1]] "test" "anchor" false
                    (Some (λ l, bool_decide (length l ≤ 1))) eq_refl)).
  reflexivity.
Defined.

(** C3, counterexample.  The terminator of [twice] has the value of
    operation 1 at both positions.  Replacing one result with [dupOutputs]
    sets position 0, where replacing the last remaining occurrence would
    set position 1. *)
Lemma terminator_first_not_last :
  ∃ f' idx mapping,
    replaceResult true 7 (Some (twice, retOperand2Indices (retOp twice), []))
      (0, OpResult 1 0) = Some (f', idx, mapping) ∧
    opOperands (retOp f') = [OpResult 7 0; OpResult 1 0] ∧
    replaceLast (OpResult 1 0) (OpResult 7 0) (opOperands (retOp twice))
    = [OpResult 1 0; OpResult 7 0] ∧
    opOperands (retOp f')
    ≠ replaceLast (OpResult 1 0) (OpResult 7 0) (opOperands (retOp twice)).
Proof.
  eexists _, _, _. split_and!; [vm_compute; reflexivity|reflexivity|reflexivity|].
  vm_compute. discriminate.
Qed.

(** C3, on [twice]: both multiplicities are replaced, the first result at
    the first position. *)
Lemma call_results_replace_uses_witness :
  Forall (λ v, ¬ isNew 7 v) [OpResult 1 0; OpResult 1 0] ∧
  ∀ f' idx' mapping',
    replaceResults true 7 twice [] [OpResult 1 0; OpResult 1 0]
      = Some (f', idx', mapping') →
    opOperands (retOp f') = [OpResult 7 0; OpResult 7 1].
Proof.
  assert (Hnew : Forall (λ v, ¬ isNew 7 v) [OpResult 1 0; OpResult 1 0]).
  { repeat constructor; vm_compute; discriminate. }
  split; [exact Hnew|]. intros f' idx' mapping' H.
  destruct (call_results_replace_uses 7 twice [] _ Hnew) as [_ Hdup].
  destruct (Hdup f' idx' mapping' H) as (-> & _). reflexivity.
Defined.

(** C6, counterexample.  In [stuckMerged], a state that two merges on [stuck]
    reach, the merge of the clusters of 1 and 6 fails; on the way the record
    of operation 2, linked to 3, is linked to its root 4 instead. *)
Lemma failed_merge_compresses_path :
  @reachable exampleHelpers stuck "device" stuckMerged ∧
  tryMerge (Some 1) (Some 6) stuckMerged = Some (None, stuckFailed) ∧
  mergedInto <$> op2cluster stuckMerged !! 2 = Some (Some 3) ∧
  mergedInto <$> op2cluster stuckFailed !! 2 = Some (Some 4) ∧
  op2cluster stuckFailed ≠ op2cluster stuckMerged.
Proof.
  split_and!; [apply stuckMerged_reachable|vm_compute; reflexivity..|].
  intros E. assert (H : mergedInto <$> op2cluster stuckFailed !! 2 = Some (Some 3)).
  { rewrite E. vm_compute. reflexivity. }
  vm_compute in H. discriminate.
Qed.

(** C6, on the same failed merge. *)
Lemma failed_merge_is_noop_witness :
  failedMerge stuckMerged stuckFailed ∧
  ir stuckFailed = ir stuckMerged ∧
  (∀ k, operations <$> op2cluster stuckFailed !! k
        = operations <$> op2cluster stuckMerged !! k).
Proof.
  assert (Hfail : failedMerge stuckMerged stuckFailed).
  { right. exists (Some 1), (Some 6). vm_compute. reflexivity. }
  split; [exact Hfail|].
  destruct (failed_merge_is_noop stuckMerged stuckFailed Hfail) as (? & ? & _).
  split; assumption.
Defined.

(** C9, on [stuckMerged]. *)
Lemma root_is_unique_owner_witness :
  @reachable exampleHelpers stuck "device" stuckMerged ∧
  is_Some (op2cluster stuckMerged !! 2) ∧
  ∃ r m', getRoot (op2cluster stuckMerged) 2 = Some (r, m') ∧ isRoot m' r.
Proof.
  split; [apply stuckMerged_reachable|].
  assert (H2 : is_Some (op2cluster stuckMerged !! 2)) by (vm_compute; eauto).
  split; [exact H2|].
  destruct (@root_is_unique_owner exampleHelpers stuck "device" stuckMerged 2
              stuckMerged_reachable H2) as (r & m' & Hg & _ & _ & Hr & _).
  by exists r, m'.
Defined.

(** C10, on [stuckMerged]: operation 2 is linked, so merging it with 6 is
    refused. *)
Lemma tryMerge_guards_witness :
  validPtr (op2cluster stuckMerged) (Some 2) ∧
  validPtr (op2cluster stuckMerged) (Some 6) ∧
  guarded (op2cluster stuckMerged) (Some 2) (Some 6) ∧
  tryMerge (Some 2) (Some 6) stuckMerged = Some (None, stuckMerged).
Proof.
  assert (H2 : validPtr (op2cluster stuckMerged) (Some 2)) by (vm_compute; eauto).
  assert (H6 : validPtr (op2cluster stuckMerged) (Some 6)) by (vm_compute; eauto).
  assert (Hg : guarded (op2cluster stuckMerged) (Some 2) (Some 6)).
  { right. right. right. left. exists 2. split; [done|].
    eexists _, _. split; vm_compute; reflexivity. }
  split_and!; [done..|].
  apply (proj1 (tryMerge_guards (Some 2) (Some 6) stuckMerged H2 H6) Hg).
Defined.

(** ** The further example functions *)

Ltac by_decide := apply (bool_decide_unpack _); vm_compute; exact I.

Ltac compute_list H :=
  match type of H with
  | ?x ∈ ?l => let l' := eval vm_compute in l in change (x ∈ l') in H
  end.

Ltac cases_elem :=
  repeat match goal with
         | H : _ ∈ [] |- _ => by apply elem_of_nil in H
         | H : (_, _) ∈ (_ :: _) |- _ => apply elem_of_cons in H as [[= -> ->]|H]
         | H : _ ∈ (_ :: _) |- _ => apply elem_of_cons in H as [->|H]
         end.

Lemma chain_distinct : distinctOps chain.
Proof. unfold distinctOps. by_decide. Qed.

Lemma stuck_distinct : distinctOps stuck.
Proof. unfold distinctOps. by_decide. Qed.

Lemma gapped_distinct : distinctOps gapped.
Proof. unfold distinctOps. by_decide. Qed.

Lemma allHost_distinct : distinctOps allHost.
Proof. unfold distinctOps. by_decide. Qed.

Lemma exampleOrder : ∀ l, @denseMapOrder exampleHelpers l ≡ₚ l.
Proof. done. Qed.


(** The clusters of [stuckMerged] with an operation between [a] and [e]. *)
Lemma stuckMerged_gap_runs p d r c :
  p ∈ [7; 2; 3; 4; 5] → resolves (op2cluster stuckMerged) d p r →
  op2cluster stuckMerged !! r = Some c → run (operations c) [7; 2; 3; 4; 5].
Proof.
  intros Hp Hres Hc.
  pose proof (reachable_forest _ _ _ stuckMerged_reachable) as Hf.
  destruct (resolves_isRoot _ _ _ _ Hres) as (c' & Hc' & Hroot).
  rewrite Hc in Hc'. injection Hc' as <-.
  assert (Hin : p ∈ operations c) by (apply (forest_ops _ Hf r c Hc Hroot); eauto).
  apply elem_of_map_to_list in Hc. compute_list Hc.
  repeat (apply elem_of_cons in Hc as [[= -> ->]|Hc]); [..|by apply elem_of_nil in Hc];
    simpl in *; try done.
  - apply list_elem_of_singleton in Hin as ->. exfalso. revert Hp. by_decide.
  - by exists [7], [5].
  - apply list_elem_of_singleton in Hin as ->. exfalso. revert Hp. by_decide.
Qed.

Lemma stuck_deref x : x ∈ [7; 2; 3; 4; 5] → is_Some (deref stuck x).
Proof.
  intros Hx. cases_elem; vm_compute; eauto.
Qed.

(** X3, on [stuckMerged]: of the operations between [a] and [e] none can
    move above [a]. *)
Lemma computeMoveUpSet_keeps_order_witness :
  ∃ remain move m',
    computeMoveUpSet stuck [1] [7; 2; 3; 4; 5] [] (op2cluster stuckMerged)
    = Some (remain, move, m') ∧
    move `sublist_of` [7; 2; 3; 4; 5] ∧ remain `sublist_of` [7; 2; 3; 4; 5] ∧
    ∀ x op, x ∈ move → deref stuck x = Some op →
      anyDefIn op [1] = false ∧
      ∀ y, y ∈ remain → before [7; 2; 3; 4; 5] y x → y ∉ usedDefs op.
Proof.
  apply (computeMoveUpSet_keeps_order stuck [1] [7; 2; 3; 4; 5] (op2cluster stuckMerged)).
  - exact (reachable_forest _ _ _ stuckMerged_reachable).
  - by_decide.
  - exact stuck_deref.
  - exact stuckMerged_gap_runs.
Defined.

(** X4, on [stuckMerged]: of the operations between [a] and [e] none can
    move below [e]. *)
Lemma computeMoveDownSet_keeps_order_witness :
  ∃ remain move m',
    computeMoveDownSet stuck [6] [7; 2; 3; 4; 5] [] (op2cluster stuckMerged)
    = Some (remain, move, m') ∧
    reverse move `sublist_of` [7; 2; 3; 4; 5] ∧ remain `sublist_of` [7; 2; 3; 4; 5] ∧
    ∀ x, x ∈ move →
      anyUseIn stuck x [6] = false ∧
      ∀ y, y ∈ remain → before [7; 2; 3; 4; 5] x y → anyUseIn stuck x [y] = false.
Proof.
  apply (computeMoveDownSet_keeps_order stuck [6] [7; 2; 3; 4; 5] (op2cluster stuckMerged)).
  - exact (reachable_forest _ _ _ stuckMerged_reachable).
  - by_decide.
  - exact stuckMerged_gap_runs.
Defined.

(** X5, on [stuckMerged]: the merge of the clusters of [a] and [e]
    returns. *)
Lemma tryMerge_returns_witness :
  ∃ res st', tryMerge (Some 1) (Some 6) stuckMerged = Some (res, st').
Proof.
  apply (@tryMerge_returns exampleHelpers stuck "device" stuckMerged (Some 1) (Some 6)).
  - exact stuck_distinct.
  - exact stuckMerged_reachable.
  - vm_compute. eauto.
  - vm_compute. eauto.
Defined.

(** X6, on [stuck] with the greedy strategy. *)
Lemma clusterFunction_returns_witness :
  ∃ f' metadatas,
    @clusterFunction exampleHelpers kGreedy stuck "device" "test" "anchor" false true None
    = Some (f', metadatas).
Proof.
  apply (@clusterFunction_returns exampleHelpers kGreedy stuck "device" "test" "anchor"
           false true None).
  exact stuck_distinct.
Defined.

(** X7, on [gapped]: the top-down strategy moves [x] in front of [a]. *)
Lemma clustering_permutes_block_witness :
  ∃ f' metadatas,
    @clusterFunction exampleHelpers kTopDown gapped "device" "test" "anchor" false false None
    = Some (f', metadatas) ∧
    opSelf <$> body f' = [5; 1; 2] ∧
    body f' ≡ₚ body gapped ∧ retOp f' = retOp gapped ∧ symName f' = symName gapped.
Proof.
  eexists _, _. split; [vm_compute; reflexivity|]. split; [reflexivity|].
  eapply (@clustering_permutes_block exampleHelpers kTopDown gapped "device" "test" "anchor"
           false false None).
  - exact gapped_distinct.
  - vm_compute. reflexivity.
Defined.




(** X11, on [stuck] with several entries. *)
Lemma entries_are_disjoint_witness :
  ∃ f' metadatas,
    @clusterFunction exampleHelpers kTopDown stuck "device" "test" "anchor" false true None
    = Some (f', Some metadatas) ∧
    flat_map ops metadatas = [2; 3; 4; 6; 1] ∧
    NoDup (flat_map ops metadatas).
Proof.
  eexists _, _. split; [vm_compute; reflexivity|]. split; [reflexivity|].
  eapply (@entries_are_disjoint exampleHelpers kTopDown stuck "device" "test" "anchor"
            false true None).
  - exact exampleOrder.
  - exact stuck_distinct.
  - discriminate.
  - vm_compute. reflexivity.
Defined.

(** X12, on [gapped]: the merge of [a] into [b]. *)
Lemma merge_splices_lists_witness :
  ∃ l r, Some 1 = Some l ∧ Some 2 = Some r ∧
         mergedOK (@initialState exampleHelpers gapped "device") gappedMerged l r 2.
Proof.
  apply (@merge_splices_lists exampleHelpers gapped "device").
  - exact gapped_distinct.
  - apply reachable_init.
  - vm_compute. reflexivity.
Defined.


(** X14, on [stuckMerged]: the cluster of [a] and the cluster of [b], [c]
    and [d]. *)
Lemma roots_are_ordered_witness :
  ∃ b : bool,
    isBeforeInBlock (ir stuckMerged) (mkCluster [1] None) (mkCluster [2; 3; 4] None) = Some b ∧
    isBeforeInBlock (ir stuckMerged) (mkCluster [2; 3; 4] None) (mkCluster [1] None)
    = Some (negb b) ∧
    ∀ x y, x ∈ [1] → y ∈ [2; 3; 4] →
      if b then before (opSelf <$> body (ir stuckMerged)) x y
      else before (opSelf <$> body (ir stuckMerged)) y x.
Proof.
  apply (@roots_are_ordered exampleHelpers stuck "device" stuckMerged 1 4
           (mkCluster [1] None) (mkCluster [2; 3; 4] None)).
  - exact stuck_distinct.
  - exact stuckMerged_reachable.
  - discriminate.
  - vm_compute. reflexivity.
  - reflexivity.
  - vm_compute. reflexivity.
  - reflexivity.
Defined.

(** X15, on three original functions of which the second has nothing to
    cluster. *)
Lemma clusterFunctions_stops_at_failure_witness :
  ∃ res funcs' diags,
    @clusterFunctions exampleHelpers [chain; allHost; gapped] "device" "test" "anchor"
      false kTopDown false None = Some (res, funcs', diags) ∧
    res = failure ∧ diags = [("host_only", "[ByteIR Transform]: GraphClusteringByDevice error.")]%string ∧
    ∃ n,
      n ≤ 3 ∧
      (∀ j f, j < n → [chain; allHost; gapped] !! j = Some f →
         ∃ f', @processFunction exampleHelpers kTopDown f "device" "test" "anchor" false
                 false None = Some (success, f', []) ∧
               funcs' !! j = Some f') ∧
      ∃ f f',
        [chain; allHost; gapped] !! n = Some f ∧
        @processFunction exampleHelpers kTopDown f "device" "test" "anchor" false false None
        = Some (failure, f',
                [(symName f, "[ByteIR Transform]: GraphClusteringByDevice error."%string)]) ∧
        funcs' !! n = Some f' ∧
        drop (S n) funcs' = drop (S n) [chain; allHost; gapped] ∧
        diags = [(symName f, "[ByteIR Transform]: GraphClusteringByDevice error."%string)].
Proof.
  eexists _, _, _. split; [vm_compute; reflexivity|]. split; [reflexivity|].
  split; [reflexivity|].
  apply (@clusterFunctions_stops_at_failure exampleHelpers [chain; allHost; gapped]
           "device" "test" "anchor" false kTopDown false None failure).
  vm_compute. reflexivity.
Defined.

(** X16, on [chain] and its entry: the call stands where [c] stood. *)
Lemma calls_replace_entries_witness :
  ∃ f', createCalls [chainEntry] chain false = Some f' ∧
        opSelf <$> body (eraseOps [chainEntry] f') = [10] ∧
        ∃ calls,
          length calls = 1 ∧ NoDup calls ∧
          (∀ c, c ∈ calls → c ∉ opSelf <$> front chain) ∧
          opSelf <$> body (eraseOps [chainEntry] f')
          = outlined [chainEntry] calls (opSelf <$> body chain).
Proof.
  eexists. split; [vm_compute; reflexivity|]. split; [reflexivity|].
  apply (@calls_replace_entries exampleHelpers [chainEntry] chain false).
  - by_decide.
  - intros md o ->%list_elem_of_singleton Ho. compute_list Ho.
    cases_elem; by_decide.
  - by_decide.
  - vm_compute. reflexivity.
Defined.

(** X17, on [stuckMerged]: the three roots, the largest first. *)
Lemma candidates_are_roots_witness :
  ∃ cands st',
    @populateCandidates exampleHelpers stuckMerged = Some (cands, st') ∧
    cands = [4; 6; 1] ∧
    NoDup cands ∧ (∀ k, k ∈ cands ↔ isRoot (op2cluster st') k) ∧
    (∀ i j ci cj, i < j → cands !! i = Some ci → cands !! j = Some cj →
       numOps (op2cluster st') cj ≤ numOps (op2cluster st') ci).
Proof.
  eexists _, _. split; [vm_compute; reflexivity|]. split; [reflexivity|].
  apply (@candidates_are_roots exampleHelpers stuck "device" stuckMerged).
  - exact exampleOrder.
  - exact stuck_distinct.
  - exact stuckMerged_reachable.
  - vm_compute. reflexivity.
Defined.

(** X18, on [allHost]: no entries, and nothing has a cluster. *)
Lemma no_entries_iff_nothing_clustered_witness :
  @clusterFunction exampleHelpers kTopDown allHost "device" "test" "anchor" false false None
  = Some (allHost, None) ∧
  ((None : option (list FunctionMetadata)) = None ↔
   ∀ o, ¬ @clustered exampleHelpers allHost "device" o).
Proof.
  assert (H : @clusterFunction exampleHelpers kTopDown allHost "device" "test" "anchor"
                false false None = Some (allHost, None)) by (vm_compute; reflexivity).
  split; [exact H|].
  apply (@no_entries_iff_nothing_clustered exampleHelpers kTopDown allHost "device" "test"
           "anchor" false false None allHost None).
  - exact exampleOrder.
  - exact allHost_distinct.
  - discriminate.
  - exact H.
Defined.

(** X19, on [gapped]: the three operations end in one entry, and one call
    is left. *)
Lemma processFunction_outlines_witness :
  ∃ f2,
    @processFunction exampleHelpers kTopDown gapped "device" "test" "anchor" false false None
    = Some (success, f2, []) ∧
    opSelf <$> body f2 = [10] ∧
    ∃ f1 metadatas calls,
      @clusterFunction exampleHelpers kTopDown gapped "device" "test" "anchor" false false None
      = Some (f1, Some metadatas) ∧
      body f1 ≡ₚ body gapped ∧
      length calls = length metadatas ∧ NoDup calls ∧
      (∀ c, c ∈ calls → c ∉ opSelf <$> front gapped) ∧
      opSelf <$> body f2 = outlined metadatas calls (opSelf <$> body f1).
Proof.
  eexists. split; [vm_compute; reflexivity|]. split; [reflexivity|].
  apply (@processFunction_outlines exampleHelpers kTopDown gapped "device" "test" "anchor"
           false false None _ []).
  - exact exampleOrder.
  - exact gapped_distinct.
  - discriminate.
  - vm_compute. reflexivity.
Defined.

(** X21, on [stuckMerged] with a [validateSubGraphFn] that rejects the
    clusters of one operation: of the three candidates the first one is
    emitted. *)
Lemma multi_graph_entries_witness :
  mapM (λ p, operations <$> op2cluster stuckMerged !! p) [4; 6; 1]
  = Some [[2; 3; 4]; [6]; [1]] ∧
  @getFunctionMetadatas exampleHelpers stuckMerged [4; 6; 1] "test" "anchor" false true
    (Some (λ l, bool_decide (1 < length l)))
  = Some (Some [@mkMetadata exampleHelpers (ir stuckMerged) "anchor" "test" false [2; 3; 4]]).
Proof.
  assert (H : mapM (λ p, operations <$> op2cluster stuckMerged !! p) [4; 6; 1]
              = Some [[2; 3; 4]; [6]; [1]]) by (vm_compute; reflexivity).
  split; [exact H|].
  exact (@multi_graph_entries exampleHelpers stuckMerged [4; 6; 1] _ "test" "anchor" false
           (Some (λ l, bool_decide (1 < length l))) H).
Defined.

(** ** The example functions of the merges *)






(** C7, with one graph per function.  On [mirror] the top-down measuring
    run covers three operations and the bottom-up run two: the result is
    the top-down run on [mirror].  On [diamond] the top-down run covers two
    and the bottom-up run three: the result is the bottom-up run on
    [diamond].  On [sensitive] with [addressHelpers] the two measuring runs
    on the clones cover four operations each, a tie, and the result is the
    bottom-up run on [sensitive], although on [sensitive] itself the
    top-down run covers five operations and the bottom-up run four. *)
Lemma greedy_picks_larger_witness :
  (∃ cT t cB b,
     @runClustering (@onClone exampleHelpers (cloneShift 1 mirror))
       (@TopDownDeviceClustering (@onClone exampleHelpers (cloneShift 1 mirror))) mirror
       "device" "test" "anchor" false false None = Some (cT, Some t) ∧
     @runClustering (@onClone exampleHelpers (cloneShift 2 mirror))
       (@BottomUpDeviceClustering (@onClone exampleHelpers (cloneShift 2 mirror))) mirror
       "device" "test" "anchor" false false None = Some (cB, Some b) ∧
     totalOps t = 3 ∧ totalOps b = 2 ∧
     @greedy exampleHelpers mirror "device" "test" "anchor" false false None
     = @runClustering exampleHelpers (@TopDownDeviceClustering exampleHelpers) mirror
         "device" "test" "anchor" false false None) ∧
  (∃ cT t cB b,
     @runClustering (@onClone exampleHelpers (cloneShift 1 diamond))
       (@TopDownDeviceClustering (@onClone exampleHelpers (cloneShift 1 diamond))) diamond
       "device" "test" "anchor" false false None = Some (cT, Some t) ∧
     @runClustering (@onClone exampleHelpers (cloneShift 2 diamond))
       (@BottomUpDeviceClustering (@onClone exampleHelpers (cloneShift 2 diamond))) diamond
       "device" "test" "anchor" false false None = Some (cB, Some b) ∧
     totalOps t = 2 ∧ totalOps b = 3 ∧
     @greedy exampleHelpers diamond "device" "test" "anchor" false false None
     = @runClustering exampleHelpers (@BottomUpDeviceClustering exampleHelpers) diamond
         "device" "test" "anchor" false false None) ∧
  (∃ cT t cB b f0 t0 f1 b0,
     @runClustering (@onClone addressHelpers (cloneShift 1 sensitive))
       (@TopDownDeviceClustering (@onClone addressHelpers (cloneShift 1 sensitive)))
       sensitive "device" "test" "anchor" false false None = Some (cT, Some t) ∧
     @runClustering (@onClone addressHelpers (cloneShift 2 sensitive))
       (@BottomUpDeviceClustering (@onClone addressHelpers (cloneShift 2 sensitive)))
       sensitive "device" "test" "anchor" false false None = Some (cB, Some b) ∧
     totalOps t = 4 ∧ totalOps b = 4 ∧
     @runClustering addressHelpers (@TopDownDeviceClustering addressHelpers) sensitive
       "device" "test" "anchor" false false None = Some (f0, Some t0) ∧
     @runClustering addressHelpers (@BottomUpDeviceClustering addressHelpers) sensitive
       "device" "test" "anchor" false false None = Some (f1, Some b0) ∧
     totalOps t0 = 5 ∧ totalOps b0 = 4 ∧
     @greedy addressHelpers sensitive "device" "test" "anchor" false false None
     = Some (f1, Some b0)).
Proof.
  split_and!.
  - destruct (@greedy_picks_larger exampleHelpers mirror "device" "test" "anchor"
                false false None) as (cT & topDown & cB & bottomUp & ET & EB & H).
    { unfold distinctOps. by_decide. }
    pose proof ET as ET'. pose proof EB as EB'.
    vm_compute in ET'. injection ET' as <- <-.
    vm_compute in EB'. injection EB' as <- <-.
    eexists _, _, _, _. split_and!; [exact ET|exact EB|reflexivity|reflexivity|].
    rewrite H; [reflexivity|].
    intros metadatas [[= <-]|[= <-]]; vm_compute; reflexivity.
  - destruct (@greedy_picks_larger exampleHelpers diamond "device" "test" "anchor"
                false false None) as (cT & topDown & cB & bottomUp & ET & EB & H).
    { unfold distinctOps. by_decide. }
    pose proof ET as ET'. pose proof EB as EB'.
    vm_compute in ET'. injection ET' as <- <-.
    vm_compute in EB'. injection EB' as <- <-.
    eexists _, _, _, _. split_and!; [exact ET|exact EB|reflexivity|reflexivity|].
    rewrite H; [reflexivity|].
    intros metadatas [[= <-]|[= <-]]; vm_compute; reflexivity.
  - destruct (@greedy_picks_larger addressHelpers sensitive "device" "test" "anchor"
                false false None) as (cT & topDown & cB & bottomUp & ET & EB & H).
    { unfold distinctOps. by_decide. }
    pose proof ET as ET'. pose proof EB as EB'.
    vm_compute in ET'. injection ET' as <- <-.
    vm_compute in EB'. injection EB' as <- <-.
    eexists _, _, _, _, _, _, _, _.
    split_and!; [exact ET|exact EB|reflexivity|reflexivity|
                 vm_compute; reflexivity|vm_compute; reflexivity|
                 reflexivity|reflexivity|].
    rewrite H; [vm_compute; reflexivity|].
    intros metadatas [[= <-]|[= <-]]; vm_compute; reflexivity.
Defined.
